(** * Critical-path scheduling engine of mastr (src/lib/cpm/algorithm.ts)

    A shallow embedding of [calculateCPM], [topologicalSort] and
    [analyzeResourceAllocation], followed by the properties of the
    engine's specification.

    Modelling conventions.
    - A JavaScript [number] that holds an integer is kept as a [Z] inside
      the constructor [Int]; the special values [NaN], [Infinity] and
      [-Infinity] are constructors of their own.  Sums and differences
      are rounded as binary64 rounds them: to the nearest double, a tie
      to the even mantissa, an infinity beyond the largest double.
    - The two expressions of the source that leave the integers,
      [duration * (1 - progress / 100)] and [projectDuration * 0.7], are
      evaluated in binary64 with the executable specification of the
      Standard Library ([SpecFloat]), which also does the rounding of the
      sums and differences.
    - A JavaScript [Map] is an association list in insertion order:
      [set] on a present key overwrites in place, on a fresh key appends.
    - The [while] loop of [topologicalSort] takes fuel, one unit per
      dequeued id; a non-null assertion ([!]) met by [undefined] is the
      outcome [Fault]. *)

From Stdlib Require Import String Ascii DecimalString.
From Stdlib Require Import List ZArith Bool Lia.
From Stdlib Require Import Permutation Sorted.
From Stdlib Require Import SpecFloat.
Import ListNotations.
Open Scope Z_scope.

(* ================================================================= *)
(** ** Numbers *)

Module Float64.
Definition prec : Z := 53.
Definition emax : Z := 1024.

(** The double nearest to an integer. *)
Definition of_Z (z : Z) : spec_float := binary_normalize prec emax z 0 false.

Definition add : spec_float -> spec_float -> spec_float := SFadd prec emax.
Definition mul : spec_float -> spec_float -> spec_float := SFmul prec emax.
Definition sub : spec_float -> spec_float -> spec_float := SFsub prec emax.
Definition div : spec_float -> spec_float -> spec_float := SFdiv prec emax.
Definition ltb : spec_float -> spec_float -> bool := SFltb.

(** The literal [0.7]: the double nearest to 7/10, which is what the
    correctly rounded quotient of the exact doubles 7 and 10 gives. *)
Definition lit_0_7 : spec_float := div (of_Z 7) (of_Z 10).
End Float64.

Inductive number : Type :=
| NaN
| NegInfinity
| Int (z : Z)
| Infinity.

Module Number.
(** The number held by a double whose value is an integer. *)
Definition of_float (x : spec_float) : number :=
  match x with
  | S754_nan => NaN
  | S754_infinity s => if s then NegInfinity else Infinity
  | S754_zero _ => Int 0
  | S754_finite s m e =>
      Int (cond_Zopp s (match e with
                        | Zneg k => Zpos m / 2 ^ Zpos k
                        | _ => Zpos m * 2 ^ e
                        end))
  end.

(** What binary64 makes of an exact integer result [z]: the nearest
    double, a tie going to the even mantissa, and an infinity beyond the
    largest double.  Integers up to 2^53 in magnitude are kept as they
    are. *)
Definition round (z : Z) : number := of_float (Float64.of_Z z).

(** [x + y]: the sum of two doubles is their exact sum, rounded. *)
Definition add (x y : number) : number :=
  match x, y with
  | NaN, _ | _, NaN => NaN
  | Int a, Int b => round (a + b)
  | Infinity, NegInfinity | NegInfinity, Infinity => NaN
  | Infinity, _ | _, Infinity => Infinity
  | NegInfinity, _ | _, NegInfinity => NegInfinity
  end.

(** [x - y]: the exact difference, rounded. *)
Definition sub (x y : number) : number :=
  match x, y with
  | NaN, _ | _, NaN => NaN
  | Int a, Int b => round (a - b)
  | Infinity, Infinity | NegInfinity, NegInfinity => NaN
  | Infinity, _ | _, NegInfinity => Infinity
  | NegInfinity, _ | _, Infinity => NegInfinity
  end.

(** [x < y]; false as soon as one side is [NaN]. *)
Definition ltb (x y : number) : bool :=
  match x, y with
  | NaN, _ | _, NaN => false
  | _, NegInfinity => false
  | NegInfinity, _ => true
  | Infinity, _ => false
  | _, Infinity => true
  | Int a, Int b => a <? b
  end.

(** [x <= y]; false as soon as one side is [NaN]. *)
Definition leb (x y : number) : bool :=
  match x, y with
  | NaN, _ | _, NaN => false
  | NegInfinity, _ => true
  | _, Infinity => true
  | _, NegInfinity => false
  | Infinity, _ => false
  | Int a, Int b => a <=? b
  end.

(** [x === y] on numbers. *)
Definition strict_eq (x y : number) : bool :=
  match x, y with
  | Int a, Int b => a =? b
  | Infinity, Infinity | NegInfinity, NegInfinity => true
  | _, _ => false
  end.

Definition max2 (x y : number) : number :=
  match x, y with
  | NaN, _ | _, NaN => NaN
  | _, _ => if ltb x y then y else x
  end.

Definition min2 (x y : number) : number :=
  match x, y with
  | NaN, _ | _, NaN => NaN
  | _, _ => if ltb y x then y else x
  end.

(** [Math.max(...l)]: [-Infinity] on the empty list. *)
Definition Math_max (l : list number) : number := fold_left max2 l NegInfinity.

(** [Math.min(...l)]: [Infinity] on the empty list. *)
Definition Math_min (l : list number) : number := fold_left min2 l Infinity.

(** [Math.ceil] of a double. *)
Definition Math_ceil (x : spec_float) : number :=
  match x with
  | S754_nan => NaN
  | S754_infinity s => if s then NegInfinity else Infinity
  | S754_zero _ => Int 0
  | S754_finite s m e =>
      let v := cond_Zopp s (Zpos m) in
      match e with
      | Zneg k => Int (- ((- v) / 2 ^ Zpos k))
      | _ => Int (v * 2 ^ e)
      end
  end.

Definition to_float (x : number) : spec_float :=
  match x with
  | NaN => S754_nan
  | NegInfinity => S754_infinity true
  | Infinity => S754_infinity false
  | Int z => Float64.of_Z z
  end.

(** The decimal digits of an integer. *)
Definition Z_to_string (z : Z) : string := NilZero.string_of_int (Z.to_int z).

Definition decimal_length (z : Z) : Z := Z.of_nat (String.length (Z_to_string z)).

(** The digits [s], [k] of them, with the exponent [n] read as the
    double [x]: [s * 10 ^ (n - k)] is rounded to [x]. *)
Definition reads_as (x s n k : Z) : bool :=
  (10 ^ (k - 1) <=? s) && (s <? 10 ^ k)
  && strict_eq (round (s * 10 ^ (n - k))) (Int x).

(** The ways of writing [x] with [k] digits. *)
Definition candidates (x k : Z) : list (Z * Z) :=
  let n0 := decimal_length x in
  filter (fun sn => reads_as x (fst sn) (snd sn) k)
         (flat_map (fun n => let q := x / 10 ^ (n - k) in [(q, n); (q + 1, n)])
                   [n0; n0 + 1]).

(** Of two ways the one nearer to [x], the even digits on a tie. *)
Definition nearer (x k : Z) (a b : Z * Z) : Z * Z :=
  let da := Z.abs (fst a * 10 ^ (snd a - k) - x) in
  let db := Z.abs (fst b * 10 ^ (snd b - k) - x) in
  if da <? db then a
  else if db <? da then b
  else if Z.even (fst a) then a else b.

(** The fewest digits that read as [x], with their exponent. *)
Fixpoint shortest (fuel : nat) (x k : Z) : option (Z * Z * Z) :=
  match fuel with
  | O => None
  | S fuel' =>
      match candidates x k with
      | [] => shortest fuel' x (k + 1)
      | c :: cs => Some (fold_left (nearer x k) cs c, k)
      end
  end.

(** [Number::toString] of a double [x > 0] with an integer value: the
    fewest digits that read as [x] (17 always suffice), followed by
    zeros up to 21 digits in all, and in exponent notation from there
    on. *)
Definition decimal (x : Z) : string :=
  match shortest 17 x 1 with
  | Some (s, n, k) =>
      if n <=? 21 then Z_to_string (s * 10 ^ (n - k))
      else
        match Z_to_string s with
        | String d rest =>
            let fraction := if k =? 1 then EmptyString else ("." ++ rest)%string in
            (String d fraction ++ "e+" ++ Z_to_string (n - 1))%string
        | EmptyString => EmptyString
        end
  | None => EmptyString
  end.

(** What a template literal prints for a number.  Up to 2^53 every
    integer is a double of its own, so that no fewer digits read as it
    than its own, less the zeros at the end, which are printed again. *)
Definition toString (x : number) : string :=
  match x with
  | NaN => "NaN"
  | Infinity => "Infinity"
  | NegInfinity => "-Infinity"
  | Int z =>
      if Z.abs z <=? 2 ^ 53 then Z_to_string z
      else if z <? 0 then ("-" ++ decimal (- z))%string
      else decimal z
  end.
End Number.

Arguments Number.round : simpl never.

(* ================================================================= *)
(** ** JavaScript [Map] with string keys *)

Module JsMap.
Section Defs.
Context {V : Type}.

Definition t := list (string * V).

Definition empty : t := [].

Fixpoint get (m : t) (k : string) : option V :=
  match m with
  | [] => None
  | (k', v) :: m' => if String.eqb k' k then Some v else get m' k
  end.

Fixpoint set (m : t) (k : string) (v : V) : t :=
  match m with
  | [] => [(k, v)]
  | (k', v') :: m' =>
      if String.eqb k' k then (k', v) :: m' else (k', v') :: set m' k v
  end.

Definition keys (m : t) : list string := map fst m.
Definition values (m : t) : list V := map snd m.
End Defs.
Arguments t : clear implicits.
End JsMap.

(* ================================================================= *)
(** ** Data model (src/lib/cpm/types.ts) *)

Record CPMInput : Type := {
  id : string;
  name : string;
  duration : Z;
  dependencies : list string;
  status : string;
  progress : Z;
  assigneeId : option string;
  assigneeName : option string
}.

(** A node is the spread of its task plus the schedule fields. *)
Record CPMNode : Type := {
  task : CPMInput;
  es : number;
  ef : number;
  ls : number;
  lf : number;
  float : number;
  isCritical : bool
}.

Record CPMResult : Type := {
  nodes : list CPMNode;
  criticalPath : list string;
  projectDuration : number
}.

Inductive outcome (A : Type) : Type :=
| Returns (a : A)
| Fault
| OutOfFuel.
Arguments Returns {A} a.
Arguments Fault {A}.
Arguments OutOfFuel {A}.

Definition bind {A B : Type} (o : outcome A) (k : A -> outcome B) : outcome B :=
  match o with
  | Returns a => k a
  | Fault => Fault
  | OutOfFuel => OutOfFuel
  end.

(** [l.forEach] for a body that updates a state and may fail. *)
Fixpoint forEach {S : Type} (body : S -> string -> outcome S)
         (l : list string) (s : S) : outcome S :=
  match l with
  | [] => Returns s
  | x :: l' => bind (body s x) (forEach body l')
  end.

(* ================================================================= *)
(** ** calculateCPM *)

Definition set_forward (n : CPMNode) (es' ef' : number) : CPMNode :=
  {| task := task n; es := es'; ef := ef'; ls := ls n; lf := lf n;
     float := float n; isCritical := isCritical n |}.

Definition set_backward (n : CPMNode) (lf' ls' : number) : CPMNode :=
  {| task := task n; es := es n; ef := ef n; ls := ls'; lf := lf';
     float := float n; isCritical := isCritical n |}.

Definition set_float (n : CPMNode) (f : number) (c : bool) : CPMNode :=
  {| task := task n; es := es n; ef := ef n; ls := ls n; lf := lf n;
     float := f; isCritical := c |}.

Definition initNode (t : CPMInput) : CPMNode :=
  {| task := t; es := Int 0; ef := Int 0; ls := Int 0; lf := Int 0;
     float := Int 0; isCritical := false |}.

(** [node.status === "completed" ? 0
     : Math.ceil(node.duration * (1 - node.progress / 100))] *)
Definition effectiveDuration (t : CPMInput) : number :=
  if String.eqb (status t) "completed" then Int 0
  else Number.Math_ceil
         (Float64.mul (Float64.of_Z (duration t))
            (Float64.sub (Float64.of_Z 1)
               (Float64.div (Float64.of_Z (progress t)) (Float64.of_Z 100)))).

(** [tasks.forEach((t) => taskMap.set(t.id, t))] *)
Definition buildTaskMap (tasks : list CPMInput) : JsMap.t CPMInput :=
  fold_left (fun m t => JsMap.set m (id t) t) tasks JsMap.empty.

(** [successors.set(t.id, [])] for every task, in input order. *)
Definition initSuccessors (tasks : list CPMInput) : JsMap.t (list string) :=
  fold_left (fun m t => JsMap.set m (id t) []) tasks JsMap.empty.

(** [predecessors.set(t.id, [...t.dependencies])] for every task. *)
Definition buildPredecessors (tasks : list CPMInput) : JsMap.t (list string) :=
  fold_left (fun m t => JsMap.set m (id t) (dependencies t)) tasks JsMap.empty.

(** [const succs = successors.get(depId); if (succs) succs.push(t.id)] *)
Definition pushSuccessor (tid : string) (m : JsMap.t (list string)) (depId : string)
  : JsMap.t (list string) :=
  match JsMap.get m depId with
  | Some succs => JsMap.set m depId (succs ++ [tid])
  | None => m
  end.

(** The second [tasks.forEach]: every task is pushed onto the successor
    list of each of its dependencies that is a key of [successors]. *)
Definition linkSuccessors (tasks : list CPMInput) (m : JsMap.t (list string))
  : JsMap.t (list string) :=
  fold_left (fun m t => fold_left (pushSuccessor (id t)) (dependencies t) m) tasks m.

Definition buildSuccessors (tasks : list CPMInput) : JsMap.t (list string) :=
  linkSuccessors tasks (initSuccessors tasks).

(** [m.get(k) || []] *)
Definition get_list (m : JsMap.t (list string)) (k : string) : list string :=
  match JsMap.get m k with
  | Some l => l
  | None => []
  end.

(** *** topologicalSort *)

(** [inDegree.set(t.id, (predecessors.get(t.id) || []).length)] *)
Definition initInDegree (tasks : list CPMInput) (predecessors : JsMap.t (list string))
  : JsMap.t Z :=
  fold_left
    (fun m t => JsMap.set m (id t) (Z.of_nat (length (get_list predecessors (id t)))))
    tasks JsMap.empty.

(** [inDegree.forEach((deg, id) => { if (deg === 0) queue.push(id); })] *)
Definition initQueue (inDegree : JsMap.t Z) : list string :=
  map fst (filter (fun kv => snd kv =? 0) inDegree).

(** [(inDegree.get(succId) || 1) - 1]: [undefined] and [0] both count as 1. *)
Definition decremented (inDegree : JsMap.t Z) (succId : string) : Z :=
  match JsMap.get inDegree succId with
  | Some 0 | None => 1 - 1
  | Some d => d - 1
  end.

(** The body of [successors.get(id).forEach]: store the decremented
    in-degree, and enqueue the successor when it is 0. *)
Definition relax (st : JsMap.t Z * list string) (succId : string)
  : JsMap.t Z * list string :=
  let newDeg := decremented (fst st) succId in
  (JsMap.set (fst st) succId newDeg,
   if newDeg =? 0 then snd st ++ [succId] else snd st).

(** [while (queue.length > 0) { const id = queue.shift()!; sorted.push(id); ... }] *)
Fixpoint kahnLoop (fuel : nat) (successors : JsMap.t (list string))
         (inDegree : JsMap.t Z) (queue sorted : list string) : option (list string) :=
  match queue with
  | [] => Some sorted
  | x :: queue' =>
      match fuel with
      | O => None
      | S fuel' =>
          let st := fold_left relax (get_list successors x) (inDegree, queue') in
          kahnLoop fuel' successors (fst st) (snd st) (sorted ++ [x])
      end
  end.

Definition topologicalSort (fuel : nat) (tasks : list CPMInput)
           (predecessors successors : JsMap.t (list string)) : option (list string) :=
  let inDegree := initInDegree tasks predecessors in
  kahnLoop fuel successors inDegree (initQueue inDegree) [].

(** *** The passes *)

(** [nodes.set(id, { ...taskMap.get(id)!, es: 0, ef: 0, ls: 0, lf: 0,
    float: 0, isCritical: false })] for every sorted id. *)
Definition initNodes (taskMap : JsMap.t CPMInput) (sorted : list string)
  : outcome (JsMap.t CPMNode) :=
  forEach (fun ns x =>
             match JsMap.get taskMap x with
             | Some t => Returns (JsMap.set ns x (initNode t))
             | None => Fault
             end) sorted JsMap.empty.

(** [nodes.get(pId)?.ef ?? 0] *)
Definition ef_or_0 (ns : JsMap.t CPMNode) (pId : string) : number :=
  match JsMap.get ns pId with
  | Some p => ef p
  | None => Int 0
  end.

(** The body of the forward pass: ES is 0 without predecessors and the
    maximum of their EF otherwise; EF = ES + effective duration. *)
Definition forwardStep (predecessors : JsMap.t (list string))
           (ns : JsMap.t CPMNode) (x : string) : outcome (JsMap.t CPMNode) :=
  match JsMap.get ns x with
  | None => Fault
  | Some node =>
      let preds := get_list predecessors x in
      let es' := match preds with
                 | [] => Int 0
                 | _ => Number.Math_max (map (ef_or_0 ns) preds)
                 end in
      Returns (JsMap.set ns x
                 (set_forward node es' (Number.add es' (effectiveDuration (task node)))))
  end.

(** [nodes.get(sId)?.ls ?? projectDuration] *)
Definition ls_or (projectDuration : number) (ns : JsMap.t CPMNode) (sId : string)
  : number :=
  match JsMap.get ns sId with
  | Some s => ls s
  | None => projectDuration
  end.

(** The body of the backward pass: LF is the project duration without
    successors and the minimum of their LS otherwise; LS = LF - effective
    duration. *)
Definition backwardStep (successors : JsMap.t (list string)) (projectDuration : number)
           (ns : JsMap.t CPMNode) (x : string) : outcome (JsMap.t CPMNode) :=
  match JsMap.get ns x with
  | None => Fault
  | Some node =>
      let succs := get_list successors x in
      let lf' := match succs with
                 | [] => projectDuration
                 | _ => Number.Math_min (map (ls_or projectDuration ns) succs)
                 end in
      Returns (JsMap.set ns x
                 (set_backward node lf' (Number.sub lf' (effectiveDuration (task node)))))
  end.

(** [node.float = node.ls - node.es; node.isCritical = node.float === 0] *)
Definition floatStep (n : CPMNode) : CPMNode :=
  let f := Number.sub (ls n) (es n) in
  set_float n f (Number.strict_eq f (Int 0)).

(** [nodes.get(a)?.es ?? 0] *)
Definition es_or_0 (ns : JsMap.t CPMNode) (a : string) : number :=
  match JsMap.get ns a with
  | Some n => es n
  | None => Int 0
  end.

(** [(a, b) => (nodes.get(a)?.es ?? 0) - (nodes.get(b)?.es ?? 0)] *)
Definition compareFn (ns : JsMap.t CPMNode) (a b : string) : number :=
  Number.sub (es_or_0 ns a) (es_or_0 ns b).

(** [Array.prototype.sort] is stable and moves [a] behind [b] when the
    comparator is positive; for a consistent comparator every stable sort
    returns the list below. *)
Definition positive_result (c : number) : bool := Number.ltb (Int 0) c.

Fixpoint sort_insert {A : Type} (cmp : A -> A -> number) (a : A) (l : list A) : list A :=
  match l with
  | [] => [a]
  | b :: l' => if positive_result (cmp a b) then b :: sort_insert cmp a l' else a :: l
  end.

Fixpoint Array_sort {A : Type} (cmp : A -> A -> number) (l : list A) : list A :=
  match l with
  | [] => []
  | a :: l' => sort_insert cmp a (Array_sort cmp l')
  end.

(** [sorted.map((id) => nodes.get(id)!)] *)
Fixpoint collectNodes (ns : JsMap.t CPMNode) (sorted : list string)
  : outcome (list CPMNode) :=
  match sorted with
  | [] => Returns []
  | x :: l =>
      match JsMap.get ns x with
      | Some n => bind (collectNodes ns l) (fun r => Returns (n :: r))
      | None => Fault
      end
  end.

(** [calculateCPM] after the sort: the node map, the two passes, the
    project duration [Math.max(...Array.from(nodes.values()).map((n) => n.ef))],
    floats and the critical path (collected in the order of the node map,
    then sorted by ES). *)
Definition schedule (taskMap : JsMap.t CPMInput)
           (predecessors successors : JsMap.t (list string)) (sorted : list string)
  : outcome CPMResult :=
  bind (initNodes taskMap sorted) (fun ns0 =>
  bind (forEach (forwardStep predecessors) sorted ns0) (fun ns1 =>
  let projectDuration := Number.Math_max (map ef (JsMap.values ns1)) in
  bind (forEach (backwardStep successors projectDuration) (rev sorted) ns1) (fun ns2 =>
  let ns3 := map (fun kv => (fst kv, floatStep (snd kv))) ns2 in
  let critical := map (fun n => id (task n)) (filter isCritical (JsMap.values ns3)) in
  bind (collectNodes ns3 sorted) (fun result_nodes =>
  Returns {| nodes := result_nodes;
             criticalPath := Array_sort (compareFn ns3) critical;
             projectDuration := projectDuration |})))).

(** The whole function; [fuel] bounds the iterations of the sort's loop. *)
Definition calculateCPM (fuel : nat) (tasks : list CPMInput) : outcome CPMResult :=
  match tasks with
  | [] => Returns {| nodes := []; criticalPath := []; projectDuration := Int 0 |}
  | _ =>
      let taskMap := buildTaskMap tasks in
      let successors := buildSuccessors tasks in
      let predecessors := buildPredecessors tasks in
      match topologicalSort fuel tasks predecessors successors with
      | None => OutOfFuel
      | Some sorted => schedule taskMap predecessors successors sorted
      end
  end.

(* ================================================================= *)
(** ** analyzeResourceAllocation *)

(** The two counters go up by one per node; an array holds fewer than
    2^32 nodes, and up to there [++] is exact. *)
Module DeveloperLoad.
Record t : Type := {
  name : string;
  tasks : Z;
  criticalTasks : Z;
  totalDuration : number
}.
End DeveloperLoad.

(** An entry of [developerLoad] is [{ developerId: id, ...load }], kept
    here as the pair of the id and the load. *)
Record ResourceAnalysis : Type := {
  developerLoad : list (string * DeveloperLoad.t);
  recommendations : list string
}.

(** [s || d] on an optional string: [undefined] and [""] are falsy. *)
Definition or_else (s : option string) (d : string) : string :=
  match s with
  | Some v => if String.eqb v "" then d else v
  | None => d
  end.

Definition truthy (s : option string) : option string :=
  match s with
  | Some v => if String.eqb v "" then None else Some v
  | None => None
  end.

(** The body of [result.nodes.forEach]: skip a falsy [assigneeId], else
    update (or create) the entry of the assignee. *)
Definition accumulate (m : JsMap.t DeveloperLoad.t) (node : CPMNode)
  : JsMap.t DeveloperLoad.t :=
  match truthy (assigneeId (task node)) with
  | None => m
  | Some dev =>
      let existing :=
        match JsMap.get m dev with
        | Some e => e
        | None => {| DeveloperLoad.name := or_else (assigneeName (task node)) "Unknown";
                     DeveloperLoad.tasks := 0;
                     DeveloperLoad.criticalTasks := 0;
                     DeveloperLoad.totalDuration := Int 0 |}
        end in
      JsMap.set m dev
        {| DeveloperLoad.name := DeveloperLoad.name existing;
           DeveloperLoad.tasks := DeveloperLoad.tasks existing + 1;
           DeveloperLoad.criticalTasks :=
             if isCritical node then DeveloperLoad.criticalTasks existing + 1
             else DeveloperLoad.criticalTasks existing;
           DeveloperLoad.totalDuration :=
             Number.add (DeveloperLoad.totalDuration existing)
                        (Int (duration (task node))) |}
  end.

Definition criticalMessage (devId : string) (load : DeveloperLoad.t) : string :=
  (DeveloperLoad.name load ++ " (" ++ devId ++ ") has "
   ++ Number.toString (Int (DeveloperLoad.criticalTasks load))
   ++ " critical tasks. Consider redistributing to reduce risk.")%string.

Definition durationMessage (load : DeveloperLoad.t) : string :=
  (DeveloperLoad.name load ++ " is assigned "
   ++ Number.toString (DeveloperLoad.totalDuration load)
   ++ " days of work across "
   ++ Number.toString (Int (DeveloperLoad.tasks load))
   ++ " tasks. This exceeds 70% of the project timeline.")%string.

(** [load.totalDuration > result.projectDuration * 0.7], in binary64. *)
Definition exceedsTimeline (projectDuration : number) (load : DeveloperLoad.t) : bool :=
  Float64.ltb (Float64.mul (Number.to_float projectDuration) Float64.lit_0_7)
              (Number.to_float (DeveloperLoad.totalDuration load)).

Definition recommend (projectDuration : number) (entry : string * DeveloperLoad.t)
  : list string :=
  (if 3 <=? DeveloperLoad.criticalTasks (snd entry)
   then [criticalMessage (fst entry) (snd entry)] else [])
  ++ (if exceedsTimeline projectDuration (snd entry)
      then [durationMessage (snd entry)] else []).

Definition analyzeResourceAllocation (result : CPMResult) : ResourceAnalysis :=
  let loads := fold_left accumulate (nodes result) JsMap.empty in
  {| developerLoad := loads;
     recommendations := flat_map (recommend (projectDuration result)) loads |}.

(* ================================================================= *)
(** ** The callers of the engine

    The route [GET /api/projects/:id/cpm]
    (src/app/api/projects/[id]/cpm/route.ts) and the health and progress
    figures that the insights route and the two pages
    (src/app/api/projects/[id]/insights/route.ts, src/app/page.tsx,
    src/app/insights/page.tsx) compute around [calculateCPM].

    A [Date] is kept as its time value, [None] being the invalid date
    whose time value is [NaN].  The calendar of the platform is a
    parameter: [DateFromTime] gives the local day of the month of a time
    value, [withDate tv dt] the time value [setDate] leaves for a finite
    day [dt] ([None] when it falls outside the range of [Date]), and
    [toISO] the text of a valid time value. *)

Module Developer.
Record t : Type := { name : string }.
End Developer.

Module TaskDependency.
Record t : Type := { dependencyId : string }.
End TaskDependency.

(** A [Task] row with its included relations; [blockers] holds the ids
    of its unresolved blockers. *)
Module Task.
Record t : Type := {
  id : string;
  name : string;
  duration : Z;
  status : string;
  progress : Z;
  assigneeId : option string;
  assignee : option Developer.t;
  dependsOn : list TaskDependency.t;
  blockers : list string
}.
End Task.

Module Date.
Definition t : Type := option Z.

Section Calendar.
Variable DateFromTime : Z -> Z.
Variable withDate : Z -> Z -> option Z.
Variable toISO : Z -> string.

(** [d.getDate()]: [NaN] for an invalid date. *)
Definition getDate (d : t) : number :=
  match d with
  | Some tv => Int (DateFromTime tv)
  | None => NaN
  end.

(** [d.setDate(dt)]: the date becomes invalid when it was invalid or
    when [dt] is not finite. *)
Definition setDate (d : t) (dt : number) : t :=
  match d, dt with
  | Some tv, Int n => withDate tv n
  | _, _ => None
  end.

(** [d.toISOString()]: [None] stands for the [RangeError] thrown for an
    invalid date. *)
Definition toISOString (d : t) : option string := option_map toISO d.
End Calendar.

(** [a > b] on dates compares the time values; false with a [NaN]. *)
Definition gt (a b : t) : bool :=
  match a, b with
  | Some x, Some y => y <? x
  | _, _ => false
  end.
End Date.

Module Project.
Record t : Type := {
  name : string;
  startDate : Date.t;
  targetDate : option Date.t;
  tasks : list Task.t
}.
End Project.

(** The element of [cpmInput] built from a row;
    [task.assigneeId || undefined] and [task.assignee?.name || undefined]
    turn [null] and the empty string into [undefined]. *)
Definition toCPMInput (task : Task.t) : CPMInput :=
  {| id := Task.id task;
     name := Task.name task;
     duration := Task.duration task;
     dependencies := map TaskDependency.dependencyId (Task.dependsOn task);
     status := Task.status task;
     progress := Task.progress task;
     assigneeId := truthy (Task.assigneeId task);
     assigneeName := truthy (option_map Developer.name (Task.assignee task)) |}.

Definition cpmInput (project : Project.t) : list CPMInput :=
  map toCPMInput (Project.tasks project).

(** The object handed to [NextResponse.json] by the CPM route. *)
Record CpmBody : Type := {
  cpmResult : CPMResult;
  projectName : string;
  body_startDate : string;
  estimatedEndDate : string;
  body_targetDate : option string;
  resourceAnalysis : ResourceAnalysis
}.

Inductive reply : Type :=
| Ok (body : CpmBody)
| NotFound (error : string)
| RangeError
| EngineFault
| EngineOutOfFuel.

Inductive Health : Type := on_track | at_risk | behind.

(** [Math.round] of a double: the nearest integer, a tie going up. *)
Definition Math_round (x : spec_float) : number :=
  match x with
  | S754_nan => NaN
  | S754_infinity s => if s then NegInfinity else Infinity
  | S754_zero _ => Int 0
  | S754_finite s m e =>
      let v := cond_Zopp s (Zpos m) in
      match e with
      | Zneg k => Int ((2 * v + 2 ^ Zpos k) / 2 ^ (Zpos k + 1))
      | _ => Int (v * 2 ^ e)
      end
  end.

(** [Math.round((completed / total) * 100)] *)
Definition percentage (completed total : nat) : number :=
  Math_round
    (Float64.mul (Float64.div (Float64.of_Z (Z.of_nat completed))
                              (Float64.of_Z (Z.of_nat total)))
                 (Float64.of_Z 100)).

(** [project.tasks.filter((t) => t.status === s).length] *)
Definition count_status (s : string) (project : Project.t) : nat :=
  length (filter (fun t => String.eqb (Task.status t) s) (Project.tasks project)).

(** [project.tasks.reduce((sum, t) => sum + t.blockers.length, 0)] *)
Definition totalBlockers (project : Project.t) : nat :=
  fold_left (fun sum t => (sum + length (Task.blockers t))%nat) (Project.tasks project) 0%nat.

Section Callers.
Variable DateFromTime : Z -> Z.
Variable withDate : Z -> Z -> option Z.
Variable toISO : Z -> string.

(** [const endDate = new Date(startDate);
     endDate.setDate(endDate.getDate() + cpmResult.projectDuration)] *)
Definition endDate (startDate : Date.t) (projectDuration : number) : Date.t :=
  Date.setDate withDate startDate
    (Number.add (Date.getDate DateFromTime startDate) projectDuration).

(** [project.targetDate && endDate > project.targetDate] *)
Definition past_target (project : Project.t) (e : Date.t) : bool :=
  match Project.targetDate project with
  | Some target => Date.gt e target
  | None => false
  end.

(** The handler of the CPM route, after [findUnique]. *)
Definition cpm_GET (fuel : nat) (found : option Project.t) : reply :=
  match found with
  | None => NotFound "Project not found"
  | Some project =>
      match calculateCPM fuel (cpmInput project) with
      | Fault => EngineFault
      | OutOfFuel => EngineOutOfFuel
      | Returns r =>
          let analysis := analyzeResourceAllocation r in
          let startDate := Project.startDate project in
          let e := endDate startDate (projectDuration r) in
          match Date.toISOString toISO startDate, Date.toISOString toISO e with
          | Some start_text, Some end_text =>
              match Project.targetDate project with
              | None =>
                  Ok {| cpmResult := r; projectName := Project.name project;
                        body_startDate := start_text; estimatedEndDate := end_text;
                        body_targetDate := None; resourceAnalysis := analysis |}
              | Some target =>
                  match Date.toISOString toISO target with
                  | Some target_text =>
                      Ok {| cpmResult := r; projectName := Project.name project;
                            body_startDate := start_text; estimatedEndDate := end_text;
                            body_targetDate := Some target_text;
                            resourceAnalysis := analysis |}
                  | None => RangeError
                  end
              end
          | _, _ => RangeError
          end
      end
  end.

(** The health of the insights route: [openBlockers] is the number of
    unresolved blockers on tasks of the project. *)
Definition route_health (project : Project.t) (openBlockers : nat) (e : Date.t) : Health :=
  let blockedTasks := count_status "blocked" project in
  let h := if ((2 <? openBlockers) || (2 <? blockedTasks))%nat then behind
           else if ((0 <? openBlockers) || (0 <? blockedTasks))%nat then at_risk
           else on_track in
  if past_target project e then behind else h.

(** The health of the insights page. *)
Definition insights_health (project : Project.t) (e : Date.t) : Health :=
  let blockedTasks := count_status "blocked" project in
  let h := if ((2 <? totalBlockers project) || (2 <? blockedTasks))%nat then behind
           else if (0 <? totalBlockers project)%nat then at_risk
           else on_track in
  if past_target project e then behind else h.

(** [project.tasks.length > 0
       ? Math.round((completed / project.tasks.length) * 100) : 0] *)
Definition dashboard_progress (project : Project.t) : number :=
  match Project.tasks project with
  | [] => Int 0
  | _ => percentage (count_status "completed" project) (length (Project.tasks project))
  end.

(** The health of the dashboard page. *)
Definition dashboard_health (project : Project.t) (e : Date.t) : Health :=
  let h := if (2 <? totalBlockers project)%nat then behind
           else if (0 <? totalBlockers project)%nat
                   || Number.ltb (dashboard_progress project) (Int 50) then at_risk
           else on_track in
  if past_target project e then behind else h.

(** [Math.round((completedTasks / totalTasks) * 100)] of the insights
    route and page, without a guard for the empty project. *)
Definition completionPercentage (project : Project.t) : number :=
  percentage (count_status "completed" project) (length (Project.tasks project)).

End Callers.

(* ================================================================= *)
(* ================================================================= *)
(** ** The voice client (src/lib/elevenlabs/client.ts)

    The conversion of the microphone samples in [startMicrophone],
    [pcm16[i] = Math.max(-1, Math.min(1, inputData[i])) * 0x7fff],
    where [pcm16] is an [Int16Array], and the conversion back in the raw
    PCM branch of [playAudioChunk]. *)

(** [Math.min(a, b)] on doubles: [NaN] if one of them is, and -0 below +0. *)
Definition Math_min2 (a b : spec_float) : spec_float :=
  match SFcompare a b with
  | None => S754_nan
  | Some Lt => a
  | Some Gt => b
  | Some Eq =>
      match a, b with
      | S754_zero sa, S754_zero sb => S754_zero (sa || sb)
      | _, _ => a
      end
  end.

(** [Math.max(a, b)] on doubles. *)
Definition Math_max2 (a b : spec_float) : spec_float :=
  match SFcompare a b with
  | None => S754_nan
  | Some Lt => b
  | Some Gt => a
  | Some Eq =>
      match a, b with
      | S754_zero sa, S754_zero sb => S754_zero (sa && sb)
      | _, _ => a
      end
  end.

(** The integer part of a double, towards zero; 0 for [NaN] and the
    infinities. *)
Definition truncate (x : spec_float) : Z :=
  match x with
  | S754_finite s m e =>
      cond_Zopp s (match e with
                   | Zneg k => Zpos m / 2 ^ Zpos k
                   | _ => Zpos m * 2 ^ e
                   end)
  | _ => 0
  end.

(** What an [Int16Array] keeps of a double ([ToInt16]). *)
Definition ToInt16 (x : spec_float) : Z :=
  let i := truncate x mod 2 ^ 16 in
  if 2 ^ 15 <=? i then i - 2 ^ 16 else i.

(** [Math.max(-1, Math.min(1, x)) * 0x7fff] stored into [pcm16]. *)
Definition pcm16_sample (x : spec_float) : Z :=
  ToInt16 (Float64.mul (Math_max2 (Float64.of_Z (-1)) (Math_min2 (Float64.of_Z 1) x))
                       (Float64.of_Z 32767)).

(** The loop over [inputData]. *)
Definition toPcm16 (inputData : list spec_float) : list Z :=
  map pcm16_sample inputData.

(** ** Vocabulary of the statements *)

(** How often [k] occurs in a dependency list. *)
Definition occurrences (k : string) (deps : list string) : nat :=
  length (filter (String.eqb k) deps).

(** The tasks that wait on [k], once per occurrence of [k] in their
    dependency list, in input order. *)
Definition dependents (ts : list CPMInput) (k : string) : list string :=
  flat_map (fun t => repeat (id t) (occurrences k (dependencies t))) ts.

Definition mem (x : string) (l : list string) : bool := existsb (String.eqb x) l.

(** The number of dependency entries of [t] not yet in [done]. *)
Definition remaining (done : list string) (t : CPMInput) : nat :=
  length (filter (fun d => negb (mem d done)) (dependencies t)).

(** [pushed m c t]: the counter of [t] in [m] is positive and drops to
    zero after [c t] decrements. *)
Definition pushed (m : JsMap.t Z) (c : CPMInput -> nat) (t : CPMInput) : bool :=
  match JsMap.get m (id t) with
  | Some v => (0 <? c t)%nat && (v =? Z.of_nat (c t))
  | None => false
  end.

(** Every id of [l] is preceded in [l] by all the dependencies of its task. *)
Definition ordered (tasks : list CPMInput) (l : list string) : Prop :=
  forall l1 x l2 t,
    l = l1 ++ x :: l2 -> In t tasks -> id t = x -> incl (dependencies t) l1.

(** The state of the [while] loop of [topologicalSort] between two
    iterations, for tasks with pairwise distinct ids. *)
Record kahn_inv (tasks : list CPMInput) (inDegree : JsMap.t Z)
       (queue sorted : list string) : Prop := {
  inv_degree : forall t, In t tasks ->
      JsMap.get inDegree (id t) = Some (Z.of_nat (remaining sorted t));
  inv_nodup : NoDup (sorted ++ queue);
  inv_incl : incl (sorted ++ queue) (map id tasks);
  inv_ready : forall t, In t tasks ->
      (In (id t) (sorted ++ queue) <-> remaining sorted t = 0%nat);
  inv_order : ordered tasks (sorted ++ queue)
}.

(** The shape shared by the bodies of the forward and backward passes:
    [const node = nodes.get(id)!] followed by assignments to [node]. *)
Definition pass_step (upd : JsMap.t CPMNode -> string -> CPMNode -> CPMNode)
           (ns : JsMap.t CPMNode) (x : string) : outcome (JsMap.t CPMNode) :=
  match JsMap.get ns x with
  | None => Fault
  | Some node => Returns (JsMap.set ns x (upd ns x node))
  end.

Definition forward_upd (predecessors : JsMap.t (list string))
           (ns : JsMap.t CPMNode) (x : string) (node : CPMNode) : CPMNode :=
  let es' := match get_list predecessors x with
             | [] => Int 0
             | _ => Number.Math_max (map (ef_or_0 ns) (get_list predecessors x))
             end in
  set_forward node es' (Number.add es' (effectiveDuration (task node))).

Definition backward_upd (successors : JsMap.t (list string)) (projectDuration : number)
           (ns : JsMap.t CPMNode) (x : string) (node : CPMNode) : CPMNode :=
  let lf' := match get_list successors x with
             | [] => projectDuration
             | _ => Number.Math_min
                      (map (ls_or projectDuration ns) (get_list successors x))
             end in
  set_backward node lf' (Number.sub lf' (effectiveDuration (task node))).

Definition init_step (taskMap : JsMap.t CPMInput) (ns : JsMap.t CPMNode) (x : string)
  : outcome (JsMap.t CPMNode) :=
  match JsMap.get taskMap x with
  | Some t => Returns (JsMap.set ns x (initNode t))
  | None => Fault
  end.

Definition floatAll (ns : JsMap.t CPMNode) : JsMap.t CPMNode :=
  map (fun kv => (fst kv, floatStep (snd kv))) ns.

(** The four relations of a scheduled node. *)
Definition node_relations (n : CPMNode) : Prop :=
  ef n = Number.add (es n) (effectiveDuration (task n))
  /\ ls n = Number.sub (lf n) (effectiveDuration (task n))
  /\ float n = Number.sub (ls n) (es n)
  /\ (isCritical n = true <-> float n = Int 0).

Definition forward_fields (a b : CPMNode) : Prop :=
  task b = task a /\ es b = es a /\ ef b = ef a.

Definition same_task (a b : CPMNode) : Prop := task b = task a.

Definition forward_ok (n : CPMNode) : Prop :=
  ef n = Number.add (es n) (effectiveDuration (task n)).

Definition backward_ok (n : CPMNode) : Prop :=
  ls n = Number.sub (lf n) (effectiveDuration (task n)).

(** *** Inputs of the scenarios *)

Definition plain (i : string) (d : Z) (deps : list string) (st : string) (p : Z)
  : CPMInput :=
  {| id := i; name := i; duration := d; dependencies := deps; status := st;
     progress := p; assigneeId := None; assigneeName := None |}.

Definition scenario1 : list CPMInput :=
  [ plain "A" 2 [] "not_started" 0;
    plain "B" 3 ["A"%string] "not_started" 0;
    plain "C" 1 ["A"%string] "not_started" 0 ].

Definition scenario2 : list CPMInput :=
  [ plain "A" 2 [] "not_started" 0;
    plain "B" 3 ["A"%string] "completed" 40;
    plain "C" 1 ["A"%string] "not_started" 0 ].

Definition two_cycle : list CPMInput :=
  [ plain "A" 2 ["B"%string] "not_started" 0;
    plain "B" 3 ["A"%string] "not_started" 0 ].

Definition dangling : list CPMInput :=
  [ plain "A" 2 [] "not_started" 0;
    plain "X" 3 ["ghost"%string] "not_started" 0 ].

Definition dangling_removed : list CPMInput :=
  [ plain "A" 2 [] "not_started" 0;
    plain "X" 3 [] "not_started" 0 ].

Definition scheduled (t : CPMInput) (es' ef' ls' lf' fl : Z) (c : bool) : CPMNode :=
  {| task := t; es := Int es'; ef := Int ef'; ls := Int ls'; lf := Int lf';
     float := Int fl; isCritical := c |}.

(** *** Resource analysis, declaratively *)

Definition option_string_eqb (a : option string) (b : string) : bool :=
  match a with
  | Some v => String.eqb v b
  | None => false
  end.

(** The nodes assigned to [dev], in the order of [nodes]. *)
Definition group (dev : string) (l : list CPMNode) : list CPMNode :=
  filter (fun n => option_string_eqb (truthy (assigneeId (task n))) dev) l.

Definition total_duration (g : list CPMNode) : Z :=
  fold_right Z.add 0 (map (fun n => duration (task n)) g).

(** The raw durations of a group, added up one after the other as the
    code adds them. *)
Definition summed (g : list CPMNode) : number :=
  fold_left (fun acc n => Number.add acc (Int (duration (task n)))) g (Int 0).

(** The load of a group: its name comes from the first node. *)
Definition load_of (g : list CPMNode) : option DeveloperLoad.t :=
  match g with
  | [] => None
  | first :: _ =>
      Some {| DeveloperLoad.name := or_else (assigneeName (task first)) "Unknown";
              DeveloperLoad.tasks := Z.of_nat (length g);
              DeveloperLoad.criticalTasks := Z.of_nat (length (filter isCritical g));
              DeveloperLoad.totalDuration := summed g |}
  end.

Definition assigned (i : string) (d : Z) (c : bool) (dev name' : option string) : CPMNode :=
  {| task := {| id := i; name := i; duration := d; dependencies := [];
                status := "in_progress"; progress := 0;
                assigneeId := dev; assigneeName := name' |};
     es := Int 0; ef := Int d; ls := Int 0; lf := Int d; float := Int 0;
     isCritical := c |}.

Definition three_critical : CPMResult :=
  {| nodes := [ assigned "t1" 2 true (Some "d1"%string) (Some "Ann"%string);
                assigned "t2" 2 true (Some "d1"%string) (Some "Ann"%string);
                assigned "t3" 2 true (Some "d1"%string) (Some "Ann"%string) ];
     criticalPath := ["t1"%string; "t2"%string; "t3"%string];
     projectDuration := Int 90 |}.

Definition with_empty_assignee : CPMResult :=
  {| nodes := [ assigned "t1" 50 true (Some "d1"%string) (Some "Ann"%string);
                assigned "t2" 80 true (Some ""%string) (Some "Bob"%string) ];
     criticalPath := ["t1"%string; "t2"%string];
     projectDuration := Int 90 |}.

(** [a] stands somewhere before [b] in [l]. *)
Definition precedes {A : Type} (l : list A) (a b : A) : Prop :=
  exists l1 l2 l3, l = l1 ++ a :: l2 ++ b :: l3.

(** The order of the critical path: ascending ES, and among equal ES the
    order of the list [l]. *)
Definition by_es_then (l : list CPMNode) (a b : CPMNode) : Prop :=
  Number.ltb (es a) (es b) = true \/ (es a = es b /\ precedes l a b).

Definition node_id (n : CPMNode) : string := id (task n).

Definition compareNodes (a b : CPMNode) : number := Number.sub (es a) (es b).

(** The reading of the critical path's tie-break by the order of the
    input: of two critical nodes with equal ES, the one listed first in
    [criticalPath] comes first in the input. *)
Definition ties_by_input_order (tasks : list CPMInput) (r : CPMResult) : Prop :=
  forall a b na nb,
    precedes (criticalPath r) a b ->
    In na (nodes r) -> In nb (nodes r) ->
    node_id na = a -> node_id nb = b ->
    es na = es nb ->
    precedes (map id tasks) a b.

Definition tie_input : list CPMInput :=
  [ plain "X" 3 ["A"%string] "not_started" 0;
    plain "A" 2 [] "completed" 40 ].

Definition sorted_by (key : CPMNode -> Z) (l : list CPMNode) (a b : CPMNode) : Prop :=
  key a < key b \/ (key a = key b /\ precedes l a b).

Definition es_value (n : CPMNode) : Z :=
  match es n with
  | Int z => z
  | _ => 0
  end.

(** *** Completing a task *)


(** [x'] is not above [x]: one of them is [NaN], or [x' <= x]. *)
Definition not_above (x' x : number) : Prop :=
  x' = NaN \/ x = NaN \/ Number.leb x' x = true.

Definition nonneg_number (x : number) : Prop :=
  match x with
  | NaN | Infinity => True
  | Int z => 0 <= z
  | NegInfinity => False
  end.

Definition nonneg_float (x : spec_float) : Prop :=
  match x with
  | S754_zero _ | S754_nan => True
  | S754_infinity s | S754_finite s _ _ => s = false
  end.

Definition nonneg_floatb (x : spec_float) : bool :=
  match x with
  | S754_zero _ | S754_nan => true
  | S754_infinity s | S754_finite s _ _ => negb s
  end.

(** Two task lists with the same graph, the first with effective
    durations not above those of the second. *)
Definition same_graph (t' t : CPMInput) : Prop :=
  id t' = id t /\ dependencies t' = dependencies t.

Definition shorter_task (t' t : CPMInput) : Prop :=
  same_graph t' t /\ not_above (effectiveDuration t') (effectiveDuration t).

Definition shorter_node (n' n : CPMNode) : Prop :=
  not_above (effectiveDuration (task n')) (effectiveDuration (task n))
  /\ not_above (ef n') (ef n).

(** Two maps with the same keys in the same order and related values. *)
Definition map_rel {V : Type} (R : V -> V -> Prop) (m' m : JsMap.t V) : Prop :=
  Forall2 (fun kv' kv => fst kv' = fst kv /\ R (snd kv') (snd kv)) m' m.

Definition shorter_map : JsMap.t CPMNode -> JsMap.t CPMNode -> Prop :=
  map_rel shorter_node.

Definition shorter_tasks : JsMap.t CPMInput -> JsMap.t CPMInput -> Prop :=
  map_rel (fun t' t => not_above (effectiveDuration t') (effectiveDuration t)).

(** Both runs end the same way, and when they return their states are related. *)
Definition both {A : Type} (R : A -> A -> Prop) (o' o : outcome A) : Prop :=
  match o', o with
  | Returns a', Returns a => R a' a
  | Fault, Fault => True
  | OutOfFuel, OutOfFuel => True
  | _, _ => False
  end.

(** [1 - p / 100] in binary64. *)
Definition remaining_share (p : Z) : spec_float :=
  Float64.sub (Float64.of_Z 1) (Float64.div (Float64.of_Z p) (Float64.of_Z 100)).


(** *** Valid tasks *)

Definition MAX_SAFE_INTEGER : Z := 2 ^ 53 - 1.

(** The field values of the data model: a nonnegative duration that is a
    safe integer, a progress between 0 and 100. *)
Definition valid_task (t : CPMInput) : Prop :=
  0 <= duration t <= MAX_SAFE_INTEGER /\ 0 <= progress t <= 100.

(** A zero, or a finite double whose exponent is at most [emax - prec]
    and whose magnitude is below [2 ^ bound]. *)
Definition bounded_float (bound : Z) (x : spec_float) : Prop :=
  match x with
  | S754_zero _ => True
  | S754_finite _ m e => e <= 971 /\ Z.pos (digits2_pos m) + e <= bound
  | _ => False
  end.

(** A zero, or a finite double of magnitude at most 1 with a nonpositive exponent. *)
Definition small_floatb (x : spec_float) : bool :=
  match x with
  | S754_zero _ => true
  | S754_finite _ m e => (e <=? 0) && (Z.pos (digits2_pos m) + e <=? 1)
  | _ => false
  end.

Definition finite_float (x : spec_float) : Prop :=
  match x with
  | S754_zero _ | S754_finite _ _ _ => True
  | _ => False
  end.

(** *** The passes over a topological order *)

(** In the reversed order every scheduled successor comes first. *)
Definition rev_ordered (successors : JsMap.t (list string)) (l : list string) : Prop :=
  forall l1 x l2 s,
    l = l1 ++ x :: l2 -> In s (get_list successors x) -> In s l -> In s l1.

Definition nonneg_float_field (n : CPMNode) : Prop :=
  exists f, float n = Int f /\ 0 <= f.

(** *** Cycle tolerance *)



Definition cycle_a : CPMInput := plain "A" 2 ["B"%string] "not_started" 0.
Definition cycle_b : CPMInput := plain "B" 3 ["A"%string] "not_started" 0.
Definition free_1 : CPMInput := plain "T1" 1 [] "completed" 100.
Definition free_2 : CPMInput := plain "T2" 5 ["T1"%string] "not_started" 0.
Definition free_3 : CPMInput := plain "T3" 4 ["T1"%string; "T2"%string] "in_progress" 50.

Definition cycle_and_three : list CPMInput :=
  [ free_3; cycle_a; free_1; cycle_b; free_2 ].

(** Case analysis over the four kinds of number, with the integer goals
    left to [lia]. *)
Ltac number_cases :=
  unfold not_above, Number.add, Number.max2, Number.leb, Number.ltb;
  repeat match goal with x : number |- _ => destruct x end;
  intros;
  repeat match goal with
         | H : _ \/ _ |- _ => destruct H
         | H : _ = _ |- _ => first [discriminate H | apply Z.leb_le in H]
         end;
  auto;
  try (right; right; first [reflexivity | apply Z.leb_le; lia]);
  try (repeat match goal with |- context [?a <? ?b] => destruct (Z.ltb_spec a b) end;
       auto; right; right; first [reflexivity | apply Z.leb_le; lia]).


(** *** Repeated ids *)

(** Two tasks that wait on each other, each followed by a later task of
    the same id without dependencies. *)
Definition repeated_ids : list CPMInput :=
  [ plain "B" 3 ["A"%string] "not_started" 0;
    plain "A" 2 ["B"%string] "not_started" 0;
    plain "B" 3 [] "not_started" 0;
    plain "A" 2 [] "not_started" 0 ].

Definition repeated_ids_queue (q : list string) : Prop :=
  q = ["B"%string; "A"%string] \/ q = ["A"%string; "A"%string]
  \/ q = ["A"%string; "B"%string] \/ q = ["B"%string; "B"%string].

(** One id listed twice: the first B waits on A, the last B on nothing. *)
Definition repeated_b : list CPMInput :=
  [ plain "B" 1 ["A"%string] "not_started" 0;
    plain "A" 1 [] "not_started" 0;
    plain "B" 1 [] "not_started" 0 ].

(** *** The recurrences of the two passes, read on the result *)

(** The node of id [k] in a list of nodes. *)
Definition find_node (l : list CPMNode) (k : string) : option CPMNode :=
  find (fun n => String.eqb (node_id n) k) l.

(** The EF a dependency contributes: its node's, or 0 without a node. *)
Definition ef_of (l : list CPMNode) (p : string) : number :=
  match find_node l p with
  | Some n => ef n
  | None => Int 0
  end.

(** The LS a dependent contributes: its node's, or the project duration
    without a node. *)
Definition ls_of (P : number) (l : list CPMNode) (s : string) : number :=
  match find_node l s with
  | Some n => ls n
  | None => P
  end.

Definition es_equation (l : list CPMNode) (n : CPMNode) : Prop :=
  es n = match dependencies (task n) with
         | [] => Int 0
         | _ => Number.Math_max (map (ef_of l) (dependencies (task n)))
         end.

Definition lf_equation (tasks : list CPMInput) (P : number) (l : list CPMNode)
           (n : CPMNode) : Prop :=
  lf n = match dependents tasks (node_id n) with
         | [] => P
         | _ => Number.Math_min (map (ls_of P l) (dependents tasks (node_id n)))
         end.

(** Every node comes after the nodes of its task's dependencies. *)
Definition nodes_ordered (l : list CPMNode) : Prop :=
  forall l1 n l2, l = l1 ++ n :: l2 ->
    incl (dependencies (task n)) (map node_id l1).

(** The window of a node: integer fields with EF = ES + d and
    LS = LF - d for the effective duration d, between 0 and [P]. *)
Definition within (P : Z) (n : CPMNode) : Prop :=
  exists e d l,
    es n = Int e /\ effectiveDuration (task n) = Int d /\ ef n = Int (e + d)
    /\ lf n = Int l /\ ls n = Int (l - d)
    /\ 0 <= d /\ 0 <= e /\ e + d <= l /\ l <= P.

(** Integer fields with EF = ES + d, LS = LF - d and EF <= LF. *)
Definition integral_node (n : CPMNode) : Prop :=
  exists e d l,
    es n = Int e /\ effectiveDuration (task n) = Int d /\ ef n = Int (e + d)
    /\ lf n = Int l /\ ls n = Int (l - d)
    /\ 0 <= d /\ e + d <= l.

(** What a result for tasks with pairwise distinct ids looks like: one
    node per scheduled task, a task being scheduled exactly when all its
    dependencies are; the nodes in a topological order; the relations
    and recurrences of the passes; the project duration and the critical
    path computed from the nodes. *)
Record scheduled_result (tasks : list CPMInput) (r : CPMResult) : Prop := {
  sr_ids : NoDup (map node_id (nodes r));
  sr_tasks : forall n, In n (nodes r) -> In (task n) tasks;
  sr_closed : forall t, In t tasks ->
      (In (id t) (map node_id (nodes r))
       <-> incl (dependencies t) (map node_id (nodes r)));
  sr_order : nodes_ordered (nodes r);
  sr_relations : Forall node_relations (nodes r);
  sr_es : forall n, In n (nodes r) -> es_equation (nodes r) n;
  sr_lf : forall n, In n (nodes r) ->
      lf_equation tasks (projectDuration r) (nodes r) n;
  sr_duration : projectDuration r = Number.Math_max (map ef (nodes r));
  sr_path : criticalPath r
            = map node_id (Array_sort compareNodes (filter isCritical (nodes r)))
}.

(** [a] is over before [b] begins, on the early and on the late schedule. *)
Definition respects (a b : CPMNode) : Prop :=
  Number.leb (ef a) (es b) = true /\ Number.leb (lf a) (ls b) = true.

(** *** Dependency chains *)

(** [b] waits on [a]: the id of [a] is among the dependencies of [b]. *)
Definition waits_on (b a : CPMNode) : Prop :=
  In (node_id a) (dependencies (task b)).

(** Each node of the list waits on the node before it. *)
Fixpoint chain (c : list CPMNode) : Prop :=
  match c with
  | a :: (b :: _) as c' => waits_on b a /\ chain c'
  | _ => True
  end.

Definition effective_value (n : CPMNode) : Z :=
  match effectiveDuration (task n) with
  | Int d => d
  | _ => 0
  end.

(** The effective durations of a chain, added up. *)
Definition chain_length (c : list CPMNode) : Z :=
  fold_right Z.add 0 (map effective_value c).

(** A chain of critical nodes of [l] whose effective durations add up to [P]. *)
Definition critical_chain (l : list CPMNode) (P : Z) (c : list CPMNode) : Prop :=
  c <> [] /\ incl c l /\ Forall (fun n => isCritical n = true) c
  /\ chain c /\ chain_length c = P.

(** The tasks that can be scheduled: those whose dependencies all name
    tasks that can be scheduled. *)
Inductive schedulable (tasks : list CPMInput) : string -> Prop :=
| schedulable_task t :
    In t tasks ->
    (forall d, In d (dependencies t) -> schedulable tasks d) ->
    schedulable tasks (id t).

(** *** Totals of the resource analysis *)

(** The node has a truthy [assigneeId]. *)
Definition is_assigned (n : CPMNode) : bool :=
  match truthy (assigneeId (task n)) with
  | Some _ => true
  | None => false
  end.

(** A field of the loads, added up over all developers. *)
Definition sum_loads (f : DeveloperLoad.t -> Z) (m : list (string * DeveloperLoad.t)) : Z :=
  fold_right Z.add 0 (map (fun e => f (snd e)) m).

(** What a node adds to its developer's load. *)
Definition add_node (e : DeveloperLoad.t) (n : CPMNode) : DeveloperLoad.t :=
  {| DeveloperLoad.name := DeveloperLoad.name e;
     DeveloperLoad.tasks := DeveloperLoad.tasks e + 1;
     DeveloperLoad.criticalTasks :=
       if isCritical n then DeveloperLoad.criticalTasks e + 1
       else DeveloperLoad.criticalTasks e;
     DeveloperLoad.totalDuration :=
       Number.add (DeveloperLoad.totalDuration e) (Int (duration (task n))) |}.

Definition fresh_load (n : CPMNode) : DeveloperLoad.t :=
  {| DeveloperLoad.name := or_else (assigneeName (task n)) "Unknown";
     DeveloperLoad.tasks := 0;
     DeveloperLoad.criticalTasks := 0;
     DeveloperLoad.totalDuration := Int 0 |}.

Definition critical_count (n : CPMNode) : Z := if isCritical n then 1 else 0.

(** The total duration of a load, when it is an integer. *)
Definition load_duration (load : DeveloperLoad.t) : Z :=
  match DeveloperLoad.totalDuration load with
  | Int d => d
  | _ => 0
  end.

(** A completed task of a developer. *)
Definition done_by (i : string) (d : Z) (dev : string) : CPMInput :=
  {| id := i; name := i; duration := d; dependencies := []; status := "completed";
     progress := 100; assigneeId := Some dev; assigneeName := Some "Ann"%string |}.

(** *** Projects *)

(** The field values of a [Task] row that the data model allows. *)
Definition valid_row (t : Task.t) : Prop :=
  0 <= Task.duration t <= MAX_SAFE_INTEGER /\ 0 <= Task.progress t <= 100.

Definition row (i : string) (d : Z) (deps : list string) : Task.t :=
  {| Task.id := i; Task.name := i; Task.duration := d; Task.status := "in_progress";
     Task.progress := 0; Task.assigneeId := None; Task.assignee := None;
     Task.dependsOn := map (fun k => {| TaskDependency.dependencyId := k |}) deps;
     Task.blockers := [] |}.

(** Two tasks that wait on each other, with a target date long past. *)
Definition stuck_project : Project.t :=
  {| Project.name := "stuck"; Project.startDate := Some 1000;
     Project.targetDate := Some (Some 0);
     Project.tasks := [row "A" 2 ["B"%string]; row "B" 3 ["A"%string]] |}.

Definition small_project : Project.t :=
  {| Project.name := "small"; Project.startDate := Some 1000;
     Project.targetDate := None;
     Project.tasks := [row "A" 2 []; row "B" 3 ["A"%string]] |}.

(** A calendar for the examples: days of 10 time units, counted from 0. *)
Definition toy_DateFromTime (tv : Z) : Z := tv / 10.
Definition toy_withDate (tv dt : Z) : option Z := Some (dt * 10 + tv mod 10).
Definition toy_toISO (tv : Z) : string := Number.Z_to_string tv.

(** *** Magnitudes of doubles *)

(** 1 when something was lost below the last digit. *)
Definition inexact (l : location) : Z :=
  match l with
  | loc_Exact => 0
  | loc_Inexact _ => 1
  end.

(** The least integer not below the value a shift record stands for. *)
Definition up (mrs : shr_record) : Z :=
  shr_m mrs + (if shr_r mrs || shr_s mrs then 1 else 0).

(** The magnitude of the double is at most the integer [U]. *)
Definition below (U : Z) (x : spec_float) : Prop :=
  match x with
  | S754_zero _ => True
  | S754_finite _ m e => e <= 0 /\ Z.pos m <= U * 2 ^ (- e)
  | _ => False
  end.

(** *** Feasible schedules *)

(** A start time for every node of [l] that is not negative and leaves
    every node the time to finish before the nodes that wait on it start. *)
Definition feasible (l : list CPMNode) (start : CPMNode -> Z) : Prop :=
  forall n, In n l ->
    0 <= start n
    /\ forall p, In p l -> waits_on n p -> start p + effective_value p <= start n.

(** Every node is over by [P]. *)
Definition done_by_time (l : list CPMNode) (P : Z) (start : CPMNode -> Z) : Prop :=
  forall n, In n l -> start n + effective_value n <= P.

Definition number_value (x : number) : Z :=
  match x with
  | Int z => z
  | _ => 0
  end.

(** *** Lengthening one task *)

(** [t'] is [t] with the same id and dependencies, and an effective
    duration that is longer by [extra] when the id is [k] and the same
    otherwise. *)
Definition lengthened (k : string) (extra : Z) (t t' : CPMInput) : Prop :=
  same_graph t' t
  /\ exists d,
       effectiveDuration t = Int d
       /\ effectiveDuration t' = Int (d + if String.eqb (id t) k then extra else 0).

(** A node of the first run and the node of the same task in the second. *)
Definition twin (k : string) (extra : Z) (n n' : CPMNode) : Prop :=
  node_id n' = node_id n /\ lengthened k extra (task n) (task n').

(** What the lengthening adds to a list of nodes. *)
Definition extra_of (k : string) (extra : Z) (c : list CPMNode) : Z :=
  fold_right Z.add 0 (map (fun n => if String.eqb (node_id n) k then extra else 0) c).

Definition scenario1_longer_C : list CPMInput :=
  [ plain "A" 2 [] "not_started" 0;
    plain "B" 3 ["A"%string] "not_started" 0;
    plain "C" 4 ["A"%string] "not_started" 0 ].

(** *** Rounding to the nearest double *)

Definition opposite (x : number) : number :=
  match x with
  | NaN => NaN
  | NegInfinity => Infinity
  | Int z => Int (- z)
  | Infinity => NegInfinity
  end.

(** The record left by shifting [z] right by [n] digits. *)
Definition shifted (z : Z) (n : positive) : shr_record :=
  iter_pos shr_1 n (shr_record_of_loc z loc_Exact).

(** A shift record as one integer: the mantissa followed by the round
    and the sticky bit. *)
Definition key (mrs : shr_record) : Z :=
  4 * shr_m mrs + (if shr_r mrs then 2 else 0) + (if shr_s mrs then 1 else 0).

Definition nearest_even (mrs : shr_record) : Z :=
  round_nearest_even (shr_m mrs) (loc_of_shr_record mrs).

(** The value an integer [z] of [53 + n] digits is rounded to. *)
Definition rounded_value (z : Z) (n : positive) : Z :=
  nearest_even (shifted z n) * 2 ^ Z.pos n.

(** *** Safe totals *)

(** The effective duration of a task as an integer. *)
Definition work (t : CPMInput) : Z :=
  match effectiveDuration t with
  | Int d => d
  | _ => 0
  end.

(** The effective durations of all tasks, added up. *)
Definition total_work (tasks : list CPMInput) : Z :=
  fold_right Z.add 0 (map work tasks).

(** The four schedule fields of the node are integers. *)
Definition int_fields (n : CPMNode) : Prop :=
  exists e f l s, es n = Int e /\ ef n = Int f /\ lf n = Int l /\ ls n = Int s.

(** A task of [Number.MAX_SAFE_INTEGER] days and a task of 2 days that
    waits on it. *)
Definition beyond_safe : list CPMInput :=
  [ plain "A" (2 ^ 53 - 1) [] "not_started" 0;
    plain "B" 2 ["A"%string] "not_started" 0 ].

(* ================================================================= *)
(** A block of samples: 2, [NaN], 0.5 and -Infinity. *)
Definition microphone_block : list spec_float :=
  [Float64.of_Z 2; S754_nan; S754_finite false 4503599627370496 (-53); S754_infinity true].

(** * Properties *)

(** ** Facts about [JsMap] *)

Module JsMapFacts.
Import JsMap.
Section Facts.
Context {V : Type}.
Implicit Types (m : JsMap.t V) (k : string) (v : V).

Lemma get_set_eq m k v : get (set m k v) k = Some v.
Proof.
  induction m as [|[k' v'] m IH]; simpl.
  - now rewrite String.eqb_refl.
  - destruct (String.eqb k' k) eqn:E; simpl; rewrite E; auto.
Qed.

Lemma get_set_neq m k k' v : k <> k' -> get (set m k v) k' = get m k'.
Proof.
  intros Hne. induction m as [|[k0 v0] m IH]; simpl.
  - apply String.eqb_neq in Hne. now rewrite Hne.
  - destruct (String.eqb k0 k) eqn:E; simpl.
    + apply String.eqb_eq in E. subst k0.
      apply String.eqb_neq in Hne. now rewrite Hne.
    + now rewrite IH.
Qed.

Lemma get_set m k k' v :
  get (set m k v) k' = if String.eqb k k' then Some v else get m k'.
Proof.
  destruct (String.eqb k k') eqn:E.
  - apply String.eqb_eq in E. subst. apply get_set_eq.
  - apply String.eqb_neq in E. now apply get_set_neq.
Qed.

Lemma get_None m k : get m k = None <-> ~ In k (keys m).
Proof.
  induction m as [|[k' v'] m IH]; simpl.
  - tauto.
  - destruct (String.eqb k' k) eqn:E.
    + apply String.eqb_eq in E. split; [discriminate | tauto].
    + apply String.eqb_neq in E. tauto.
Qed.

Lemma get_Some_key m k v : get m k = Some v -> In k (keys m).
Proof.
  intros H. destruct (in_dec string_dec k (keys m)) as [Hin|Hn]; auto.
  apply get_None in Hn. congruence.
Qed.

Lemma key_get_Some m k : In k (keys m) -> exists v, get m k = Some v.
Proof.
  intros H. destruct (get m k) eqn:E; eauto.
  apply get_None in E. contradiction.
Qed.

Lemma get_Some_In m k v : get m k = Some v -> In (k, v) m.
Proof.
  induction m as [|[k' v'] m IH]; simpl; [discriminate|].
  destruct (String.eqb k' k) eqn:E.
  - apply String.eqb_eq in E. intros [= ->]. subst. now left.
  - auto.
Qed.

Lemma In_get_Some m k v : NoDup (keys m) -> In (k, v) m -> get m k = Some v.
Proof.
  induction m as [|[k' v'] m IH]; simpl; [tauto|].
  intros Hnd [Heq|Hin].
  - inversion Heq; subst. now rewrite String.eqb_refl.
  - inversion Hnd as [|? ? Hni Hnd']; subst.
    destruct (String.eqb k' k) eqn:E.
    + apply String.eqb_eq in E. subst. exfalso. apply Hni.
      change (In (fst (k, v)) (map fst m)). now apply in_map.
    + auto.
Qed.

Lemma keys_set_in m k v : In k (keys m) -> keys (set m k v) = keys m.
Proof.
  induction m as [|[k' v'] m IH]; simpl; [tauto|].
  intros H. destruct (String.eqb k' k) eqn:E; simpl; auto.
  apply String.eqb_neq in E. f_equal. apply IH. tauto.
Qed.

Lemma keys_set_notin m k v : ~ In k (keys m) -> keys (set m k v) = keys m ++ [k].
Proof.
  induction m as [|[k' v'] m IH]; simpl; auto.
  intros H. destruct (String.eqb k' k) eqn:E; simpl.
  - apply String.eqb_eq in E. tauto.
  - f_equal. apply IH. tauto.
Qed.

Lemma In_keys_set m k k' v : In k' (keys (set m k v)) <-> k' = k \/ In k' (keys m).
Proof.
  destruct (in_dec string_dec k (keys m)) as [Hin|Hn].
  - rewrite keys_set_in by assumption. intuition (subst; auto).
  - rewrite keys_set_notin by assumption. rewrite in_app_iff. simpl.
    intuition (subst; auto).
Qed.

Lemma NoDup_keys_set m k v : NoDup (keys m) -> NoDup (keys (set m k v)).
Proof.
  intros H. destruct (in_dec string_dec k (keys m)) as [Hin|Hn].
  - now rewrite keys_set_in.
  - rewrite keys_set_notin by assumption.
    apply NoDup_app; auto.
    + constructor; [simpl; tauto | constructor].
    + intros x Hx [<-|[]]. contradiction.
Qed.
End Facts.
End JsMapFacts.

(** ** Signs in binary64 *)

Section FloatSigns.

Lemma binary_round_aux_sign prec emax s m e l :
  match binary_round_aux prec emax s m e l with
  | S754_zero s' | S754_infinity s' | S754_finite s' _ _ => s' = s
  | S754_nan => True
  end.
Proof.
  unfold binary_round_aux.
  destruct (shr_fexp prec emax m e l) as [mrs' e'].
  destruct (shr_fexp prec emax _ e' loc_Exact) as [mrs'' e''].
  destruct (shr_m mrs''); auto.
  destruct (Z.leb e'' (emax - prec)); auto.
Qed.

Lemma of_Z_nonneg z : 0 <= z -> nonneg_float (Float64.of_Z z).
Proof.
  intros Hz. unfold Float64.of_Z, binary_normalize.
  destruct z as [|m|m]; simpl; auto; try lia.
  unfold binary_round. destruct (shl_align _ _ _) as [mz ez].
  pose proof (binary_round_aux_sign Float64.prec Float64.emax false (Zpos mz) ez loc_Exact) as H.
  destruct (binary_round_aux _ _ _ _ _ _); simpl; auto.
Qed.

Lemma mul_nonneg x y : nonneg_float x -> nonneg_float y -> nonneg_float (Float64.mul x y).
Proof.
  unfold Float64.mul.
  destruct x as [sx|sx| |sx mx ex], y as [sy|sy| |sy my ey]; simpl; auto;
    try (intros -> ->; reflexivity).
  intros -> ->.
  pose proof (binary_round_aux_sign Float64.prec Float64.emax false
                (Zpos (mx * my)) (ex + ey) loc_Exact) as H.
  simpl xorb. destruct (binary_round_aux _ _ _ _ _ _); simpl; auto.
Qed.

Lemma Math_ceil_nonneg x : nonneg_float x -> nonneg_number (Number.Math_ceil x).
Proof.
  destruct x as [s|s| |s m e]; cbn [Number.Math_ceil nonneg_float].
  - intros _. cbn. lia.
  - intros ->. exact I.
  - intros _. exact I.
  - intros ->. cbn [cond_Zopp]. destruct e as [|k|k]; cbn [nonneg_number].
    + lia.
    + pose proof (Z.pow_nonneg 2 (Z.pos k)). nia.
    + assert (H : (- Z.pos m) / 2 ^ Z.pos k < 0).
      { apply Z.div_lt_upper_bound; [apply Z.pow_pos_nonneg; lia | lia]. }
      lia.
Qed.

Lemma remaining_share_nonneg p : 0 <= p <= 100 -> nonneg_float (remaining_share p).
Proof.
  intros Hp.
  assert (Hall : forallb (fun n => nonneg_floatb (remaining_share (Z.of_nat n))) (seq 0 101)
                 = true) by (vm_compute; reflexivity).
  rewrite forallb_forall in Hall.
  specialize (Hall (Z.to_nat p)). rewrite Z2Nat.id in Hall by lia.
  assert (Hin : In (Z.to_nat p) (seq 0 101)) by (apply in_seq; lia).
  apply Hall in Hin. destruct (remaining_share p) as [|[]| |[]]; simpl in *; auto; discriminate.
Qed.

Lemma effectiveDuration_nonneg t :
  0 <= duration t -> 0 <= progress t <= 100 -> nonneg_number (effectiveDuration t).
Proof.
  intros Hd Hp. unfold effectiveDuration.
  destruct (String.eqb (status t) "completed"); [simpl; lia|].
  apply Math_ceil_nonneg, mul_nonneg.
  - now apply of_Z_nonneg.
  - now apply remaining_share_nonneg.
Qed.

End FloatSigns.

(** ** Finiteness in binary64 *)

Section FloatBounds.

Lemma fexp64_eq k : fexp 53 1024 k = Z.max (k - 53) (-1074).
Proof. reflexivity. Qed.

Lemma digits2_size p : digits2_pos p = Pos.size p.
Proof. induction p; simpl; congruence. Qed.

Lemma Zdigits2_nonneg m : 0 <= Zdigits2 m.
Proof. destruct m; simpl; lia. Qed.

Lemma Zdigits2_bounds m : 0 < m -> 2 ^ (Zdigits2 m - 1) <= m < 2 ^ Zdigits2 m.
Proof.
  destruct m as [|p|p]; try lia. intros _. simpl Zdigits2. rewrite digits2_size.
  split.
  - pose proof (Pos.size_le p) as H.
    assert (H' : (2 ^ Z.pos (Pos.size p) <= Z.pos p~0)).
    { rewrite <- Pos2Z.inj_pow. exact H. }
    replace (Z.pos (Pos.size p)) with (Z.succ (Z.pos (Pos.size p) - 1)) in H' by lia.
    rewrite Z.pow_succ_r in H' by lia. lia.
  - pose proof (Pos.size_gt p) as H. rewrite <- Pos2Z.inj_pow. exact H.
Qed.

Lemma Zdigits2_le m k : 0 <= m -> 0 <= k -> m < 2 ^ k -> Zdigits2 m <= k.
Proof.
  intros Hm Hk Hlt. destruct (Z.eq_dec m 0) as [->|Hne]; [simpl; lia|].
  destruct (Zdigits2_bounds m) as [Hlo _]; [lia|].
  destruct (Z.le_gt_cases (Zdigits2 m) k) as [|Hgt]; auto.
  assert (2 ^ k <= 2 ^ (Zdigits2 m - 1)) by (apply Z.pow_le_mono_r; lia). lia.
Qed.

Lemma Zdigits2_succ m : 0 <= m -> Zdigits2 (m + 1) <= Zdigits2 m + 1.
Proof.
  intros Hm. destruct (Z.eq_dec m 0) as [->|Hne]; [simpl; lia|].
  destruct (Zdigits2_bounds m) as [_ Hhi]; [lia|].
  apply Zdigits2_le; try lia.
  - pose proof (Zdigits2_nonneg m). lia.
  - rewrite Z.pow_add_r by (pose proof (Zdigits2_nonneg m); lia). lia.
Qed.

Lemma Zdigits2_mul a b : 0 < a -> 0 < b -> Zdigits2 (a * b) <= Zdigits2 a + Zdigits2 b.
Proof.
  intros Ha Hb.
  destruct (Zdigits2_bounds a Ha) as [_ Ha'], (Zdigits2_bounds b Hb) as [_ Hb'].
  pose proof (Zdigits2_nonneg a). pose proof (Zdigits2_nonneg b).
  apply Zdigits2_le; try nia.
  rewrite Z.pow_add_r by lia. nia.
Qed.

Lemma shr_1_spec mrs :
  0 <= shr_m mrs ->
  0 <= shr_m (shr_1 mrs)
  /\ Zdigits2 (shr_m (shr_1 mrs)) = Z.max 0 (Zdigits2 (shr_m mrs) - 1).
Proof.
  destruct mrs as [m r s]. simpl shr_m. intros Hm.
  destruct m as [|[p|p|]|p]; cbn [shr_1 shr_m Zdigits2 digits2_pos];
    rewrite ?Pos2Z.inj_succ; lia.
Qed.

Lemma iter_shr_1_spec p : forall mrs,
  0 <= shr_m mrs ->
  0 <= shr_m (iter_pos shr_1 p mrs)
  /\ Zdigits2 (shr_m (iter_pos shr_1 p mrs)) = Z.max 0 (Zdigits2 (shr_m mrs) - Z.pos p).
Proof.
  induction p as [p IH|p IH|]; intros mrs Hm; simpl iter_pos.
  - destruct (shr_1_spec mrs Hm) as [H1 D1].
    destruct (IH _ H1) as [H2 D2]. destruct (IH _ H2) as [H3 D3].
    split; [exact H3|]. rewrite D3, D2, D1. lia.
  - destruct (IH _ Hm) as [H2 D2]. destruct (IH _ H2) as [H3 D3].
    split; [exact H3|]. rewrite D3, D2. lia.
  - apply shr_1_spec, Hm.
Qed.

Lemma shr_record_of_loc_m m l : shr_m (shr_record_of_loc m l) = m.
Proof. destruct l as [|[]]; reflexivity. Qed.

Lemma shr_fexp_spec m e l :
  0 <= m ->
  0 <= shr_m (fst (shr_fexp 53 1024 m e l))
  /\ snd (shr_fexp 53 1024 m e l) = Z.max e (fexp 53 1024 (Zdigits2 m + e))
  /\ Zdigits2 (shr_m (fst (shr_fexp 53 1024 m e l))) + snd (shr_fexp 53 1024 m e l)
     <= Z.max (Zdigits2 m + e) (fexp 53 1024 (Zdigits2 m + e)).
Proof.
  intros Hm. unfold shr_fexp, shr.
  set (n := fexp 53 1024 (Zdigits2 m + e) - e).
  assert (Hn : n = fexp 53 1024 (Zdigits2 m + e) - e) by reflexivity.
  destruct n as [|p|p]; simpl fst; simpl snd; rewrite ?shr_record_of_loc_m.
  - repeat split; lia.
  - destruct (iter_shr_1_spec p (shr_record_of_loc m l)) as [H1 D1];
      [rewrite shr_record_of_loc_m; exact Hm|].
    rewrite shr_record_of_loc_m in D1. rewrite D1. repeat split; lia.
  - repeat split; lia.
Qed.

Lemma round_nearest_even_bounds m l : m <= round_nearest_even m l <= m + 1.
Proof.
  unfold round_nearest_even. destruct l as [|[]]; try lia. destruct (Z.even m); lia.
Qed.

Lemma Zdigits2_mono a b : 0 <= a <= b -> Zdigits2 a <= Zdigits2 b.
Proof.
  intros [Ha Hab]. destruct (Z.eq_dec b 0) as [->|Hb].
  - assert (a = 0) by lia. subst. lia.
  - destruct (Zdigits2_bounds b) as [_ Hhi]; [lia|].
    apply Zdigits2_le; try lia. apply Zdigits2_nonneg.
Qed.

Lemma binary_round_aux_bounded s m e l :
  0 <= m -> e <= 971 -> Zdigits2 m + e <= 1023 ->
  bounded_float (Z.max (Zdigits2 m + e + 1) (-1073)) (binary_round_aux 53 1024 s m e l).
Proof.
  intros Hm He HD. unfold binary_round_aux.
  destruct (shr_fexp_spec m e l Hm) as (H1 & E1 & D1).
  destruct (shr_fexp 53 1024 m e l) as [mrs1 e1]. simpl fst in *. simpl snd in *.
  set (m2 := round_nearest_even (shr_m mrs1) (loc_of_shr_record mrs1)).
  pose proof (round_nearest_even_bounds (shr_m mrs1) (loc_of_shr_record mrs1)) as Hr.
  fold m2 in Hr.
  assert (Hm2 : 0 <= m2) by lia.
  assert (Dm2 : Zdigits2 m2 <= Zdigits2 (shr_m mrs1) + 1).
  { etransitivity; [apply (Zdigits2_mono m2 (shr_m mrs1 + 1)); lia|].
    now apply Zdigits2_succ. }
  destruct (shr_fexp_spec m2 e1 loc_Exact Hm2) as (H2 & E2 & D2).
  destruct (shr_fexp 53 1024 m2 e1 loc_Exact) as [mrs2 e2]. simpl fst in *. simpl snd in *.
  rewrite fexp64_eq in *.
  destruct (shr_m mrs2) as [|m3|m3] eqn:E3.
  - exact I.
  - cbn [Zdigits2] in D2.
    assert (He2 : e2 <= 971) by lia.
    apply Z.leb_le in He2 as Hb. change (1024 - 53) with 971. rewrite Hb.
    unfold bounded_float. split; lia.
  - lia.
Qed.

Lemma digits2_iter_xO m d :
  Z.pos (digits2_pos (Pos.iter xO m d)) = Z.pos (digits2_pos m) + Z.pos d.
Proof.
  induction d as [|d IH] using Pos.peano_ind.
  - simpl. lia.
  - rewrite Pos.iter_succ. cbn [digits2_pos]. rewrite Pos2Z.inj_succ, IH. lia.
Qed.

Lemma bounded_float_weaken a b x : bounded_float a x -> a <= b -> bounded_float b x.
Proof. destruct x; unfold bounded_float; auto. lia. Qed.

Lemma of_Z_bounded z : 0 <= z < 2 ^ 53 -> bounded_float 54 (Float64.of_Z z).
Proof.
  intros [Hz Hlt]. unfold Float64.of_Z, Float64.prec, Float64.emax, binary_normalize.
  destruct z as [|m|m]; [exact I| |lia].
  assert (Hd : Z.pos (digits2_pos m) <= 53).
  { apply (Zdigits2_le (Z.pos m) 53); lia. }
  unfold binary_round, shl_align. rewrite fexp64_eq.
  set (ex' := Z.max (Z.pos (digits2_pos m) + 0 - 53) (-1074)).
  assert (Hex : ex' <= 0) by lia.
  assert (Hex2 : Z.pos (digits2_pos m) - 53 <= ex') by lia.
  destruct (ex' - 0) as [|d|d] eqn:E.
  - eapply bounded_float_weaken; [apply binary_round_aux_bounded|];
      cbn [Zdigits2]; lia.
  - lia.
  - eapply bounded_float_weaken; [apply binary_round_aux_bounded|];
      cbn [Zdigits2]; rewrite ?digits2_iter_xO; lia.
Qed.

Lemma bounded_finite a x : bounded_float a x -> finite_float x.
Proof. destruct x; simpl; auto. Qed.

Lemma mul_finite x y :
  bounded_float 54 x -> small_floatb y = true -> finite_float (Float64.mul x y).
Proof.
  intros Hx Hy.
  destruct x as [sx|sx| |sx mx ex]; try contradiction;
    destruct y as [sy|sy| |sy my ey]; try discriminate;
    unfold Float64.mul, Float64.prec, Float64.emax; cbn [SFmul]; try exact I.
  cbn [bounded_float small_floatb] in Hx, Hy. destruct Hx as [Hex Hdx].
  apply andb_true_iff in Hy. destruct Hy as [Hey Hdy]. apply Z.leb_le in Hey, Hdy.
  pose proof (Zdigits2_mul (Z.pos mx) (Z.pos my)) as Hm.
  change (Z.pos mx * Z.pos my) with (Z.pos (mx * my)) in Hm. cbn [Zdigits2] in Hm.
  eapply bounded_finite, binary_round_aux_bounded; cbn [Zdigits2]; lia.
Qed.

Lemma remaining_share_small p : 0 <= p <= 100 -> small_floatb (remaining_share p) = true.
Proof.
  intros Hp.
  assert (Hall : forallb (fun n => small_floatb (remaining_share (Z.of_nat n))) (seq 0 101)
                 = true) by (vm_compute; reflexivity).
  rewrite forallb_forall in Hall.
  specialize (Hall (Z.to_nat p)). rewrite Z2Nat.id in Hall by lia.
  apply Hall. apply in_seq. lia.
Qed.

Lemma Math_ceil_finite x :
  finite_float x -> exists z, Number.Math_ceil x = Int z.
Proof.
  destruct x as [s|s| |s m e]; simpl; try tauto; intros _.
  - eauto.
  - destruct e; eauto.
Qed.

(** A valid task has a finite, nonnegative effective duration. *)
Lemma effectiveDuration_int t :
  valid_task t -> exists z, effectiveDuration t = Int z /\ 0 <= z.
Proof.
  intros [Hd Hp]. unfold MAX_SAFE_INTEGER in Hd.
  pose proof (effectiveDuration_nonneg t (proj1 Hd) Hp) as Hn.
  assert (Hf : exists z, effectiveDuration t = Int z).
  { unfold effectiveDuration. destruct (String.eqb (status t) "completed"); [eauto|].
    apply Math_ceil_finite, mul_finite.
    - apply of_Z_bounded. lia.
    - now apply remaining_share_small. }
  destruct Hf as (z & Hz). exists z. split; auto. rewrite Hz in Hn. exact Hn.
Qed.

Lemma mul_bounded x y :
  bounded_float 54 x -> small_floatb y = true -> bounded_float 56 (Float64.mul x y).
Proof.
  intros Hx Hy.
  destruct x as [sx|sx| |sx mx ex]; try contradiction;
    destruct y as [sy|sy| |sy my ey]; try discriminate;
    unfold Float64.mul, Float64.prec, Float64.emax; cbn [SFmul]; try exact I.
  cbn [bounded_float small_floatb] in Hx, Hy. destruct Hx as [Hex Hdx].
  apply andb_true_iff in Hy. destruct Hy as [Hey Hdy]. apply Z.leb_le in Hey, Hdy.
  pose proof (Zdigits2_mul (Z.pos mx) (Z.pos my)) as Hm.
  change (Z.pos mx * Z.pos my) with (Z.pos (mx * my)) in Hm. cbn [Zdigits2] in Hm.
  eapply bounded_float_weaken; [apply binary_round_aux_bounded|]; cbn [Zdigits2]; lia.
Qed.

Lemma Math_ceil_bounded b x :
  0 <= b -> bounded_float b x -> nonneg_float x ->
  exists z, Number.Math_ceil x = Int z /\ 0 <= z <= 2 ^ b.
Proof.
  intros Hb. pose proof (Z.pow_pos_nonneg 2 b ltac:(lia) Hb) as Hpb.
  destruct x as [s|s| |s m e]; cbn [bounded_float nonneg_float Number.Math_ceil];
    try tauto.
  - intros _ _. exists 0. split; [reflexivity | lia].
  - intros [He Hd] ->. cbn [cond_Zopp].
    pose proof (Zdigits2_bounds (Z.pos m) ltac:(lia)) as [_ Hm]. cbn [Zdigits2] in Hm.
    assert (Hlt : forall k, 0 <= k -> Z.pos (digits2_pos m) <= b + k ->
              Z.pos m < 2 ^ b * 2 ^ k).
    { intros k Hk Hle. rewrite <- Z.pow_add_r by lia.
      apply Z.lt_le_trans with (1 := Hm). apply Z.pow_le_mono_r; lia. }
    destruct e as [|k|k].
    + eexists. split; [reflexivity|]. specialize (Hlt 0). rewrite Z.pow_0_r in *. lia.
    + eexists. split; [reflexivity|].
      pose proof (Z.pow_pos_nonneg 2 (Z.pos k) ltac:(lia) ltac:(lia)) as Hpk.
      assert (Hle : Z.pos m * 2 ^ Z.pos k < 2 ^ b).
      { apply Z.lt_le_trans with (2 ^ Z.pos (digits2_pos m) * 2 ^ Z.pos k).
        - apply Z.mul_lt_mono_pos_r; lia.
        - rewrite <- Z.pow_add_r by lia. apply Z.pow_le_mono_r; lia. }
      nia.
    + eexists. split; [reflexivity|].
      pose proof (Z.pow_pos_nonneg 2 (Z.pos k) ltac:(lia) ltac:(lia)) as Hpk.
      specialize (Hlt (Z.pos k) ltac:(lia) ltac:(lia)).
      assert (H1 : (- Z.pos m) / 2 ^ Z.pos k < 0).
      { apply Z.div_lt_upper_bound; lia. }
      assert (H2 : - 2 ^ b <= (- Z.pos m) / 2 ^ Z.pos k).
      { apply Z.div_le_lower_bound; nia. }
      lia.
Qed.

(** A valid task has an effective duration below 2^56. *)
Lemma effectiveDuration_bounded t :
  valid_task t -> exists z, effectiveDuration t = Int z /\ 0 <= z <= 2 ^ 56.
Proof.
  intros [Hd Hp]. unfold MAX_SAFE_INTEGER in Hd. unfold effectiveDuration.
  destruct (String.eqb (status t) "completed").
  - exists 0. split; [reflexivity | lia].
  - apply Math_ceil_bounded; [lia| |].
    + apply mul_bounded; [apply of_Z_bounded; lia | now apply remaining_share_small].
    + apply mul_nonneg; [apply of_Z_nonneg; lia | now apply remaining_share_nonneg].
Qed.

End FloatBounds.

(** ** Doubles that need no rounding *)

Section ExactDoubles.

Lemma shr_fexp_exact m e :
  0 < m -> Zdigits2 m <= 53 -> -1074 <= e ->
  shr_fexp 53 1024 m e loc_Exact = (shr_record_of_loc m loc_Exact, e).
Proof.
  intros Hm Hd He. unfold shr_fexp. rewrite fexp64_eq.
  destruct (Z.max (Zdigits2 m + e - 53) (-1074) - e) as [|p|p] eqn:E; try reflexivity.
  lia.
Qed.

Lemma binary_round_aux_exact s m e :
  Zdigits2 (Z.pos m) <= 53 -> -1074 <= e <= 971 ->
  binary_round_aux 53 1024 s (Z.pos m) e loc_Exact = S754_finite s m e.
Proof.
  intros Hd He. unfold binary_round_aux.
  rewrite shr_fexp_exact by (auto; lia).
  cbn [shr_record_of_loc shr_m loc_of_shr_record shr_r shr_s round_nearest_even].
  rewrite shr_fexp_exact by (auto; lia).
  cbn [shr_record_of_loc shr_m].
  destruct (Z.leb e (1024 - 53)) eqn:E; [reflexivity|].
  apply Z.leb_gt in E. lia.
Qed.

Lemma of_Z_positive z :
  0 < z < 2 ^ 53 -> exists m e, Float64.of_Z z = S754_finite false m e.
Proof.
  intros [Hz Hlt]. unfold Float64.of_Z, Float64.prec, Float64.emax, binary_normalize.
  destruct z as [|m|m]; try lia.
  assert (Hd : Z.pos (digits2_pos m) <= 53).
  { apply (Zdigits2_le (Z.pos m) 53); lia. }
  unfold binary_round, shl_align. rewrite fexp64_eq.
  set (ex' := Z.max (Z.pos (digits2_pos m) + 0 - 53) (-1074)).
  assert (Hex : ex' = Z.pos (digits2_pos m) - 53) by lia.
  destruct (ex' - 0) as [|d|d] eqn:E.
  - eexists _, _. apply binary_round_aux_exact; cbn [Zdigits2]; lia.
  - lia.
  - eexists _, _. apply binary_round_aux_exact; cbn [Zdigits2];
      rewrite ?digits2_iter_xO; lia.
Qed.

End ExactDoubles.

(** ** Rounding never lifts a double over an integer bound *)

Section Magnitudes.

Lemma shr_1_up mrs b :
  0 <= shr_m mrs -> up mrs <= 2 * b ->
  0 <= shr_m (shr_1 mrs) /\ up (shr_1 mrs) <= b.
Proof.
  destruct mrs as [m r s]. unfold up. cbn [shr_m shr_r shr_s]. intros Hm Hup.
  destruct m as [|[p|p|]|p]; try lia;
    cbn [shr_1 shr_m shr_r shr_s];
    destruct r, s; cbn [orb] in *; lia.
Qed.

Lemma iter_shr_1_up p : forall mrs b,
  0 <= shr_m mrs -> up mrs <= 2 ^ Z.pos p * b ->
  0 <= shr_m (iter_pos shr_1 p mrs) /\ up (iter_pos shr_1 p mrs) <= b.
Proof.
  induction p as [p IH|p IH|]; intros mrs b Hm Hup; simpl iter_pos.
  - rewrite (Pos2Z.inj_xI p), Z.pow_add_r, Z.pow_1_r in Hup by lia.
    replace (2 * Z.pos p) with (Z.pos p + Z.pos p) in Hup by lia.
    rewrite Z.pow_add_r in Hup by lia.
    destruct (shr_1_up mrs (2 ^ Z.pos p * (2 ^ Z.pos p * b)) Hm) as [H1 U1]; [lia|].
    destruct (IH _ _ H1 U1) as [H2 U2]. now apply IH.
  - rewrite (Pos2Z.inj_xO p) in Hup.
    replace (2 * Z.pos p) with (Z.pos p + Z.pos p) in Hup by lia.
    rewrite Z.pow_add_r in Hup by lia.
    destruct (IH mrs (2 ^ Z.pos p * b) Hm) as [H2 U2]; [lia|]. now apply IH.
  - apply shr_1_up; auto.
Qed.

Lemma up_record m l : up (shr_record_of_loc m l) = m + inexact l.
Proof. destruct l as [|[]]; unfold up; simpl; lia. Qed.

Lemma shr_m_le_up mrs : shr_m mrs <= up mrs.
Proof. unfold up. destruct (shr_r mrs || shr_s mrs); lia. Qed.

Lemma round_nearest_even_up mrs :
  shr_m mrs <= round_nearest_even (shr_m mrs) (loc_of_shr_record mrs) <= up mrs.
Proof.
  destruct mrs as [m r s]. unfold up. cbn [shr_m shr_r shr_s loc_of_shr_record].
  destruct r, s; cbn [round_nearest_even orb]; try lia.
  destruct (Z.even m); lia.
Qed.

Lemma shr_fexp_below m e l U :
  0 <= m -> e <= 0 -> 0 <= U < 2 ^ 52 ->
  m + inexact l <= U * 2 ^ (- e) ->
  snd (shr_fexp 53 1024 m e l) <= 0
  /\ e <= snd (shr_fexp 53 1024 m e l)
  /\ 0 <= shr_m (fst (shr_fexp 53 1024 m e l))
  /\ up (fst (shr_fexp 53 1024 m e l)) <= U * 2 ^ (- snd (shr_fexp 53 1024 m e l)).
Proof.
  intros Hm He HU Hle. unfold shr_fexp, shr. rewrite fexp64_eq.
  assert (Hdig : Zdigits2 m + e <= 52).
  { assert (Hi : 0 <= inexact l) by (destruct l; simpl; lia).
    assert (Hlt : m < 2 ^ (52 - e)).
    { replace (52 - e) with (52 + - e) by lia. rewrite Z.pow_add_r by lia.
      pose proof (Z.pow_pos_nonneg 2 (- e)). nia. }
    pose proof (Zdigits2_le m (52 - e) Hm). lia. }
  destruct (Z.max (Zdigits2 m + e - 53) (-1074) - e) as [|p|p] eqn:E;
    cbn [fst snd]; rewrite ?shr_record_of_loc_m, ?up_record; try (repeat split; auto; lia).
  assert (Hsplit : 2 ^ (- e) = 2 ^ Z.pos p * 2 ^ (- (e + Z.pos p))).
  { rewrite <- Z.pow_add_r by lia. f_equal. lia. }
  destruct (iter_shr_1_up p (shr_record_of_loc m l) (U * 2 ^ (- (e + Z.pos p)))) as [H1 H2].
  - now rewrite shr_record_of_loc_m.
  - rewrite up_record, Z.mul_assoc, (Z.mul_comm (2 ^ Z.pos p)), <- Z.mul_assoc, <- Hsplit.
    exact Hle.
  - repeat split; auto; lia.
Qed.

(** The rounding of a value that is at most [U] is at most [U]. *)
Lemma binary_round_aux_below s m e l U :
  0 <= m -> e <= 0 -> 0 <= U < 2 ^ 52 ->
  m + inexact l <= U * 2 ^ (- e) ->
  below U (binary_round_aux 53 1024 s m e l).
Proof.
  intros Hm He HU Hle. unfold binary_round_aux.
  destruct (shr_fexp_below m e l U Hm He HU Hle) as (He1 & _ & Hm1 & Hup1).
  destruct (shr_fexp 53 1024 m e l) as [mrs1 e1]. cbn [fst snd] in *.
  pose proof (round_nearest_even_up mrs1) as [Hlo Hhi].
  set (m2 := round_nearest_even (shr_m mrs1) (loc_of_shr_record mrs1)) in *.
  destruct (shr_fexp_below m2 e1 loc_Exact U) as (He2 & _ & Hm3 & Hup3); auto; try lia.
  { cbn [inexact]. lia. }
  destruct (shr_fexp 53 1024 m2 e1 loc_Exact) as [mrs3 e3]. cbn [fst snd] in *.
  pose proof (shr_m_le_up mrs3) as H3.
  destruct (shr_m mrs3) as [|m3|m3] eqn:E3; cbn [below]; auto; try lia.
  destruct (Z.leb e3 (1024 - 53)) eqn:El.
  - cbn [below]. split; auto. lia.
  - apply Z.leb_gt in El. lia.
Qed.

Lemma iter_xO_value m d : Z.pos (Pos.iter xO m d) = Z.pos m * 2 ^ Z.pos d.
Proof.
  induction d as [|d IH] using Pos.peano_ind.
  - simpl. lia.
  - rewrite Pos.iter_succ, (Pos2Z.inj_xO (Pos.iter xO m d)), IH, Pos2Z.inj_succ, Z.pow_succ_r by lia. lia.
Qed.

(** The double of a positive integer below 2^53: 53 digits, no rounding. *)
Lemma of_Z_exactly z :
  0 < z < 2 ^ 53 ->
  exists m e,
    Float64.of_Z z = S754_finite false m e
    /\ e = Zdigits2 z - 53 /\ e <= 0
    /\ Z.pos m = z * 2 ^ (- e)
    /\ Zdigits2 (Z.pos m) = 53.
Proof.
  intros [Hz Hlt]. unfold Float64.of_Z, Float64.prec, Float64.emax, binary_normalize.
  destruct z as [|m|m]; try lia.
  assert (Hd : Z.pos (digits2_pos m) <= 53).
  { apply (Zdigits2_le (Z.pos m) 53); lia. }
  unfold binary_round, shl_align. rewrite fexp64_eq. cbn [Zdigits2].
  set (ex' := Z.max (Z.pos (digits2_pos m) + 0 - 53) (-1074)).
  assert (Hex : ex' = Z.pos (digits2_pos m) - 53) by lia.
  destruct (ex' - 0) as [|d|d] eqn:E.
  - exists m, 0. repeat split; try lia.
    apply binary_round_aux_exact; cbn [Zdigits2]; lia.
  - lia.
  - exists (Pos.iter xO m d), ex'. repeat split; try lia.
    + apply binary_round_aux_exact; cbn [Zdigits2]; rewrite ?digits2_iter_xO; lia.
    + rewrite iter_xO_value. f_equal. f_equal. lia.
    + rewrite digits2_iter_xO. lia.
Qed.

Lemma of_Z_below z : 0 <= z < 2 ^ 53 -> below z (Float64.of_Z z).
Proof.
  intros [Hz Hlt]. destruct (Z.eq_dec z 0) as [->|Hne]; [exact I|].
  destruct (of_Z_exactly z) as (m & e & -> & _ & He & Hm & _); [lia|].
  cbn [below]. split; auto. lia.
Qed.

Lemma mul_below U V x y :
  0 <= U -> 0 <= V -> U * V < 2 ^ 52 ->
  below U x -> below V y -> below (U * V) (Float64.mul x y).
Proof.
  intros HU HV HUV. unfold Float64.mul.
  destruct x as [sx|sx| |sx mx ex], y as [sy|sy| |sy my ey]; cbn [below SFmul];
    try tauto.
  intros [Hex Hmx] [Hey Hmy].
  apply binary_round_aux_below; try lia.
  cbn [inexact]. rewrite Pos2Z.inj_mul, Z.add_0_r.
  replace (- (ex + ey)) with (- ex + - ey) by lia. rewrite Z.pow_add_r by lia.
  pose proof (Z.pow_pos_nonneg 2 (- ex)). pose proof (Z.pow_pos_nonneg 2 (- ey)).
  assert (H1 : Z.pos mx * Z.pos my <= (U * 2 ^ (- ex)) * (V * 2 ^ (- ey))).
  { apply Z.mul_le_mono_nonneg; lia. }
  lia.
Qed.

Lemma new_location_inexact D r :
  0 < D -> inexact (new_location D r) <= (if r =? 0 then 0 else 1).
Proof.
  intros HD. unfold new_location, new_location_even, new_location_odd.
  destruct (Z.even D), (r =? 0); simpl; lia.
Qed.

(** A quotient of positive integers below 2^53, the first not above the
    second, is at most 1 after rounding. *)
Lemma div_below c t :
  0 < c <= t -> t < 2 ^ 53 ->
  below 1 (Float64.div (Float64.of_Z c) (Float64.of_Z t)).
Proof.
  intros [Hc Hct] Ht.
  destruct (of_Z_exactly c) as (mc & ec & -> & Hec & Hec0 & Hmc & Hdc); [lia|].
  destruct (of_Z_exactly t) as (mt & et & -> & Het & Het0 & Hmt & Hdt); [lia|].
  assert (Hdig : Zdigits2 c <= Zdigits2 t) by (apply Zdigits2_mono; lia).
  assert (Hdc1 : 1 <= Zdigits2 c).
  { destruct c; try lia. cbn [Zdigits2]. lia. }
  unfold Float64.div, SFdiv, SFdiv_core_binary. rewrite Hdc, Hdt, fexp64_eq.
  replace (53 + ec - (53 + et)) with (ec - et) by lia.
  replace (Z.min (Z.max (ec - et - 53) (-1074)) (ec - et)) with (ec - et - 53) by lia.
  replace (ec - et - (ec - et - 53)) with 53 by lia.
  rewrite Z.shiftl_mul_pow2 by lia.
  pose proof (Z_div_mod (Z.pos mc * 2 ^ 53) (Z.pos mt) ltac:(lia)) as Hdiv.
  destruct (Z.div_eucl (Z.pos mc * 2 ^ 53) (Z.pos mt)) as [q r].
  destruct Hdiv as [Hq Hr].
  set (K := 2 ^ (- (ec - et - 53))).
  assert (HK : Z.pos mc * 2 ^ 53 <= K * Z.pos mt).
  { assert (E : K * 2 ^ (- et) = 2 ^ (- ec) * 2 ^ 53).
    { unfold K. rewrite <- !Z.pow_add_r by lia. f_equal. lia. }
    rewrite Hmc, Hmt.
    replace (K * (t * 2 ^ (- et))) with (t * (K * 2 ^ (- et))) by ring.
    rewrite E, <- Z.mul_assoc.
    apply Z.mul_le_mono_nonneg_r; [|lia].
    apply Z.mul_nonneg_nonneg; apply Z.pow_nonneg; lia. }
  assert (HKpos : 0 < K) by (apply Z.pow_pos_nonneg; lia).
  assert (Hq0 : 0 <= q) by nia.
  apply binary_round_aux_below; try lia.
  pose proof (new_location_inexact (Z.pos mt) r ltac:(lia)) as Hloc.
  rewrite Z.mul_1_l. fold K.
  destruct (Z.eqb_spec r 0) as [->|Hr0].
  - assert (q <= K) by nia. lia.
  - assert (q < K) by nia. lia.
Qed.

(** [Math.round] of a nonnegative double that is at most [U]. *)
Lemma Math_round_below U x :
  0 <= U -> below U x -> nonneg_float x ->
  exists p, Math_round x = Int p /\ 0 <= p <= U.
Proof.
  intros HU. destruct x as [s|s| |s m e]; cbn [below nonneg_float Math_round]; try tauto.
  - intros _ _. exists 0. split; [reflexivity | lia].
  - intros [He Hm] ->. cbn [cond_Zopp]. destruct e as [|k|k]; try lia.
    + exists (Z.pos m * 2 ^ 0). split; [reflexivity|]. simpl in Hm. lia.
    + eexists. split; [reflexivity|].
      replace (- Z.neg k) with (Z.pos k) in Hm by lia.
      pose proof (Z.pow_pos_nonneg 2 (Z.pos k)) as Hp.
      rewrite Z.pow_add_r, Z.pow_1_r by lia.
      split.
      * apply Z.div_pos; lia.
      * assert (H : (2 * Z.pos m + 2 ^ Z.pos k) / (2 ^ Z.pos k * 2) < U + 1).
        { apply Z.div_lt_upper_bound; nia. }
        lia.
Qed.

Lemma div_of_Z_nonneg c t :
  0 < c < 2 ^ 53 -> 0 < t < 2 ^ 53 ->
  nonneg_float (Float64.div (Float64.of_Z c) (Float64.of_Z t)).
Proof.
  intros Hc Ht.
  destruct (of_Z_exactly c Hc) as (mc & ec & -> & _).
  destruct (of_Z_exactly t Ht) as (mt & et & -> & _).
  unfold Float64.div. cbn [SFdiv].
  destruct (SFdiv_core_binary _ _ _ _ _ _) as [[mz ez] lz].
  pose proof (binary_round_aux_sign Float64.prec Float64.emax false mz ez lz) as H.
  cbn [xorb]. destruct (binary_round_aux _ _ _ _ _ _); simpl; auto.
Qed.

End Magnitudes.

(** ** Rounding an integer to the nearest double *)

Section Rounding.

Lemma shr_1_key a b :
  0 <= shr_m a -> 0 <= shr_m b -> key a <= key b -> key (shr_1 a) <= key (shr_1 b).
Proof.
  destruct a as [m r s], b as [m' r' s']. unfold key. cbn [shr_m shr_r shr_s].
  intros Hm Hm' Hk.
  destruct m as [|[p|p|]|p]; try lia; destruct m' as [|[p'|p'|]|p']; try lia;
    cbn [shr_1 shr_m shr_r shr_s];
    destruct r, s, r', s'; cbn [orb] in *; lia.
Qed.

Lemma shr_1_nonneg a : 0 <= shr_m a -> 0 <= shr_m (shr_1 a).
Proof. intros H. now destruct (shr_1_spec a H). Qed.

Lemma iter_shr_1_nonneg p a : 0 <= shr_m a -> 0 <= shr_m (iter_pos shr_1 p a).
Proof. intros H. now destruct (iter_shr_1_spec p a H). Qed.

Lemma iter_shr_1_key p : forall a b,
  0 <= shr_m a -> 0 <= shr_m b -> key a <= key b ->
  key (iter_pos shr_1 p a) <= key (iter_pos shr_1 p b).
Proof.
  induction p as [p IH|p IH|]; intros a b Ha Hb Hk; cbn [iter_pos].
  - apply IH; try (apply iter_shr_1_nonneg; now apply shr_1_nonneg).
    apply IH; try now apply shr_1_nonneg. now apply shr_1_key.
  - apply IH; try now apply iter_shr_1_nonneg. now apply IH.
  - now apply shr_1_key.
Qed.

Lemma nearest_even_key a b :
  0 <= shr_m a -> key a <= key b -> nearest_even a <= nearest_even b.
Proof.
  unfold nearest_even.
  pose proof (round_nearest_even_bounds (shr_m a) (loc_of_shr_record a)) as Ba.
  pose proof (round_nearest_even_bounds (shr_m b) (loc_of_shr_record b)) as Bb.
  destruct a as [m r s], b as [m' r' s']. unfold key in *. cbn [shr_m shr_r shr_s] in *.
  intros Hm Hk. destruct (Z.eq_dec m m') as [<-|Hne].
  - destruct r, s, r', s'; cbn [loc_of_shr_record round_nearest_even] in *;
      try lia; destruct (Z.even m); lia.
  - assert (m < m') by (destruct r, s, r', s'; cbv iota in Hk; lia). lia.
Qed.

Lemma shifted_nonneg z n : 0 <= z -> 0 <= shr_m (shifted z n).
Proof. intros Hz. apply iter_shr_1_nonneg. now rewrite shr_record_of_loc_m. Qed.

Lemma nearest_even_shifted_mono z z' n :
  0 <= z <= z' -> nearest_even (shifted z n) <= nearest_even (shifted z' n).
Proof.
  intros [Hz Hle]. apply nearest_even_key; [now apply shifted_nonneg|].
  apply iter_shr_1_key; cbn [shr_record_of_loc shr_m]; try lia.
  unfold key. cbn [shr_m shr_r shr_s]. lia.
Qed.

(** The mantissa left by the shift has 53 digits, so the rounded one
    lies between 2^52 and 2^53. *)
Lemma nearest_even_shifted_range z n :
  0 < z -> Zdigits2 z = 53 + Z.pos n ->
  2 ^ 52 <= shr_m (shifted z n) < 2 ^ 53
  /\ shr_m (shifted z n) <= nearest_even (shifted z n) <= shr_m (shifted z n) + 1.
Proof.
  intros Hz Hd. unfold shifted.
  destruct (iter_shr_1_spec n (shr_record_of_loc z loc_Exact)) as [H0 HD].
  { rewrite shr_record_of_loc_m. lia. }
  rewrite shr_record_of_loc_m, Hd in HD.
  replace (Z.max 0 (53 + Z.pos n - Z.pos n)) with 53 in HD by lia.
  set (q := shr_m (iter_pos shr_1 n (shr_record_of_loc z loc_Exact))) in *.
  assert (Hq : 0 < q).
  { destruct (Z.eq_dec q 0) as [E|E]; [|lia]. rewrite E in HD. discriminate HD. }
  pose proof (Zdigits2_bounds q Hq) as Hb. rewrite HD in Hb.
  split; [exact Hb|]. apply round_nearest_even_bounds.
Qed.

(** The double of an integer of more than 53 digits. *)
Lemma of_Z_large z n :
  0 < z -> Zdigits2 z = 53 + Z.pos n ->
  Float64.of_Z z
  = if nearest_even (shifted z n) =? 2 ^ 53
    then if Z.pos n + 1 <=? 971
         then S754_finite false 4503599627370496 (Z.pos n + 1)
         else S754_infinity false
    else if Z.pos n <=? 971
         then S754_finite false (Z.to_pos (nearest_even (shifted z n))) (Z.pos n)
         else S754_infinity false.
Proof.
  intros Hz Hd.
  destruct (nearest_even_shifted_range z n Hz Hd) as [Hq Hm1].
  unfold Float64.of_Z, Float64.prec, Float64.emax, binary_normalize.
  destruct z as [|p|p]; try lia.
  cbn [Zdigits2] in Hd.
  unfold binary_round, shl_align. rewrite fexp64_eq, Z.add_0_r, Hd.
  replace (Z.max (53 + Z.pos n - 53) (-1074) - 0) with (Z.pos n) by lia.
  unfold binary_round_aux.
  assert (E1 : shr_fexp 53 1024 (Z.pos p) 0 loc_Exact = (shifted (Z.pos p) n, Z.pos n)).
  { unfold shr_fexp, shr. rewrite fexp64_eq. cbn [Zdigits2]. rewrite Z.add_0_r, Hd.
    replace (Z.max (53 + Z.pos n - 53) (-1074) - 0) with (Z.pos n) by lia.
    reflexivity. }
  rewrite E1. fold (nearest_even (shifted (Z.pos p) n)).
  set (m1 := nearest_even (shifted (Z.pos p) n)) in *.
  destruct (Z.eqb_spec m1 (2 ^ 53)) as [E|E].
  - rewrite E.
    assert (E2 : shr_fexp 53 1024 (2 ^ 53) (Z.pos n) loc_Exact
                 = ({| shr_m := 2 ^ 52; shr_r := false; shr_s := false |}, Z.pos n + 1)).
    { unfold shr_fexp, shr. rewrite fexp64_eq.
      change (Zdigits2 (2 ^ 53)) with 54.
      replace (Z.max (54 + Z.pos n - 53) (-1074) - Z.pos n) with 1 by lia.
      reflexivity. }
    rewrite E2. cbn [shr_m]. change (2 ^ 52) with (Z.pos 4503599627370496).
    reflexivity.
  - assert (Hlt : m1 < 2 ^ 53) by lia.
    assert (Hd1 : Zdigits2 m1 <= 53) by (apply Zdigits2_le; lia).
    rewrite shr_fexp_exact by lia.
    cbn [shr_record_of_loc shr_m].
    destruct m1 as [|q|q] eqn:Eq; try lia. reflexivity.
Qed.

Lemma round_large z n :
  0 < z -> Zdigits2 z = 53 + Z.pos n ->
  Number.round z
  = if rounded_value z n <? 2 ^ 1024 then Int (rounded_value z n) else Infinity.
Proof.
  intros Hz Hd. unfold Number.round, rounded_value. rewrite (of_Z_large z n Hz Hd).
  destruct (nearest_even_shifted_range z n Hz Hd) as [Hq Hm1].
  set (m1 := nearest_even (shifted z n)) in *.
  assert (Hpow : 0 < 2 ^ Z.pos n) by (apply Z.pow_pos_nonneg; lia).
  destruct (Z.eqb_spec m1 (2 ^ 53)) as [E|E].
  - rewrite E. destruct (Z.leb_spec (Z.pos n + 1) 971) as [Hn|Hn].
    + cbn [Number.of_float cond_Zopp].
      assert (Ev : Z.pos 4503599627370496 * 2 ^ (Z.pos n + 1) = 2 ^ 53 * 2 ^ Z.pos n).
      { rewrite Z.pow_add_r by lia. change (Z.pos 4503599627370496) with (2 ^ 52).
        change (2 ^ 53) with (2 ^ 52 * 2 ^ 1). ring. }
      destruct (Z.pos n + 1) as [|k|k] eqn:Ek; try lia. rewrite Ev.
      assert (Hlt : 2 ^ 53 * 2 ^ Z.pos n < 2 ^ 1024).
      { rewrite <- Z.pow_add_r by lia. apply Z.pow_lt_mono_r; lia. }
      apply Z.ltb_lt in Hlt. rewrite Hlt. reflexivity.
    + cbn [Number.of_float].
      assert (Hge : 2 ^ 1024 <= 2 ^ 53 * 2 ^ Z.pos n).
      { rewrite <- Z.pow_add_r by lia. apply Z.pow_le_mono_r; lia. }
      apply Z.ltb_ge in Hge. rewrite Hge. reflexivity.
  - assert (Hlt : m1 < 2 ^ 53) by lia.
    destruct (Z.leb_spec (Z.pos n) 971) as [Hn|Hn].
    + cbn [Number.of_float cond_Zopp]. rewrite Z2Pos.id by lia.
      assert (Hv : m1 * 2 ^ Z.pos n < 2 ^ 1024).
      { apply Z.lt_le_trans with (2 ^ 53 * 2 ^ Z.pos n).
        - apply Z.mul_lt_mono_pos_r; lia.
        - rewrite <- Z.pow_add_r by lia. apply Z.pow_le_mono_r; lia. }
      apply Z.ltb_lt in Hv. rewrite Hv. reflexivity.
    + cbn [Number.of_float].
      assert (Hge : 2 ^ 1024 <= m1 * 2 ^ Z.pos n).
      { apply Z.le_trans with (2 ^ 52 * 2 ^ Z.pos n).
        - rewrite <- Z.pow_add_r by lia. apply Z.pow_le_mono_r; lia.
        - apply Z.mul_le_mono_nonneg_r; lia. }
      apply Z.ltb_ge in Hge. rewrite Hge. reflexivity.
Qed.

Lemma rounded_value_range z n :
  0 < z -> Zdigits2 z = 53 + Z.pos n ->
  2 ^ (52 + Z.pos n) <= rounded_value z n <= 2 ^ (53 + Z.pos n).
Proof.
  intros Hz Hd. destruct (nearest_even_shifted_range z n Hz Hd) as [Hq Hm1].
  unfold rounded_value. rewrite !Z.pow_add_r by lia.
  assert (Hpow : 0 < 2 ^ Z.pos n) by (apply Z.pow_pos_nonneg; lia).
  split; apply Z.mul_le_mono_nonneg_r; lia.
Qed.

(** An integer of at most 53 digits is a double. *)
Lemma round_small z : 0 <= z < 2 ^ 53 -> Number.round z = Int z.
Proof.
  intros [Hz Hlt]. destruct (Z.eq_dec z 0) as [->|Hne]; [reflexivity|].
  unfold Number.round.
  destruct (of_Z_exactly z) as (m & e & -> & _ & He & Hm & _); [lia|].
  cbn [Number.of_float cond_Zopp]. f_equal.
  destruct e as [|k|k]; try lia; cbv iota.
  rewrite Hm. change (- Z.neg k) with (Z.pos k).
  apply Z.div_mul. apply Z.pow_nonzero; lia.
Qed.

Lemma digits_large z :
  2 ^ 53 <= z -> exists n, Zdigits2 z = 53 + Z.pos n.
Proof.
  intros Hz. destruct (Zdigits2_bounds z) as [_ Hhi]; [lia|].
  assert (H : 53 < Zdigits2 z).
  { destruct (Z.lt_ge_cases 53 (Zdigits2 z)) as [|Hle]; auto.
    assert (2 ^ Zdigits2 z <= 2 ^ 53).
    { apply Z.pow_le_mono_r; try lia. }
    lia. }
  exists (Z.to_pos (Zdigits2 z - 53)). rewrite Z2Pos.id; lia.
Qed.

Lemma round_nonneg_mono z z' :
  0 <= z <= z' -> Number.leb (Number.round z) (Number.round z') = true.
Proof.
  intros [Hz Hle].
  destruct (Z.lt_ge_cases z' (2 ^ 53)) as [Hs'|Hl'].
  - rewrite !round_small by lia. cbn [Number.leb]. now apply Z.leb_le.
  - destruct (digits_large z' Hl') as (n' & Hd').
    pose proof (rounded_value_range z' n' ltac:(lia) Hd') as [Hlo' Hhi'].
    rewrite (round_large z' n') by (auto; lia).
    destruct (Z.lt_ge_cases z (2 ^ 53)) as [Hs|Hl].
    + rewrite round_small by lia.
      assert (Hzv : z <= rounded_value z' n').
      { apply Z.le_trans with (2 ^ 53); [lia|].
        apply Z.le_trans with (2 ^ (52 + Z.pos n')); auto.
        apply Z.pow_le_mono_r; lia. }
      destruct (rounded_value z' n' <? 2 ^ 1024); cbn [Number.leb]; auto.
      now apply Z.leb_le.
    + destruct (digits_large z Hl) as (n & Hd).
      pose proof (rounded_value_range z n ltac:(lia) Hd) as [Hlo Hhi].
      rewrite (round_large z n) by (auto; lia).
      assert (Hdd : Zdigits2 z <= Zdigits2 z') by (apply Zdigits2_mono; lia).
      assert (Hv : rounded_value z n <= rounded_value z' n').
      { destruct (Pos.eq_dec n n') as [<-|Hne].
        - unfold rounded_value. apply Z.mul_le_mono_nonneg_r.
          + apply Z.pow_nonneg; lia.
          + apply nearest_even_shifted_mono. lia.
        - apply Z.le_trans with (2 ^ (53 + Z.pos n)); auto.
          apply Z.le_trans with (2 ^ (52 + Z.pos n')); auto.
          apply Z.pow_le_mono_r; lia. }
      destruct (Z.ltb_spec (rounded_value z n) (2 ^ 1024)),
               (Z.ltb_spec (rounded_value z' n') (2 ^ 1024)); cbn [Number.leb]; auto.
      * now apply Z.leb_le.
      * lia.
Qed.

Lemma binary_round_aux_opp m e l :
  binary_round_aux 53 1024 true m e l = SFopp (binary_round_aux 53 1024 false m e l).
Proof.
  unfold binary_round_aux.
  destruct (shr_fexp 53 1024 m e l) as [mrs1 e1].
  destruct (shr_fexp 53 1024 _ e1 loc_Exact) as [mrs2 e2].
  destruct (shr_m mrs2); auto. destruct (Z.leb e2 (1024 - 53)); reflexivity.
Qed.

Lemma of_float_opp x : Number.of_float (SFopp x) = opposite (Number.of_float x).
Proof.
  destruct x as [s|s| |s m e]; cbn [SFopp Number.of_float opposite]; auto.
  - now destruct s.
  - destruct s; cbn [negb cond_Zopp]; f_equal; lia.
Qed.

Lemma round_opp z : Number.round (- z) = opposite (Number.round z).
Proof.
  unfold Number.round. destruct z as [|p|p]; [reflexivity| |];
    rewrite <- of_float_opp; f_equal; cbn [Z.opp];
    unfold Float64.of_Z, Float64.prec, Float64.emax, binary_normalize, binary_round;
    destruct (shl_align p 0 _) as [mz ez]; rewrite binary_round_aux_opp; auto.
  destruct (binary_round_aux 53 1024 false (Z.pos mz) ez loc_Exact) as [[]|[]| |[]];
    reflexivity.
Qed.

(** What a nonnegative integer is rounded to. *)
Lemma round_nonneg z :
  0 <= z ->
  (exists c, Number.round z = Int c /\ 0 <= c) \/ Number.round z = Infinity.
Proof.
  intros Hz. pose proof (round_nonneg_mono 0 z ltac:(lia)) as H.
  change (Number.round 0) with (Int 0) in H.
  destruct (Number.round z) as [| |c|]; cbn [Number.leb] in H; try discriminate; auto.
  left. exists c. split; auto. now apply Z.leb_le.
Qed.

Lemma opposite_leb x y : Number.leb x y = true -> Number.leb (opposite y) (opposite x) = true.
Proof.
  destruct x, y; cbn [opposite Number.leb]; auto.
  intros H. apply Z.leb_le in H. apply Z.leb_le. lia.
Qed.

(** Rounding keeps the order of the integers. *)
Lemma round_mono z z' : z <= z' -> Number.leb (Number.round z) (Number.round z') = true.
Proof.
  intros Hle. destruct (Z.le_gt_cases 0 z) as [Hz|Hz].
  - apply round_nonneg_mono. lia.
  - destruct (Z.le_gt_cases 0 z') as [Hz'|Hz'].
    + replace z with (- - z) by lia. rewrite round_opp.
      destruct (round_nonneg (- z) ltac:(lia)) as [(c & -> & Hc)| ->],
               (round_nonneg z' Hz') as [(c' & -> & Hc')| ->];
        cbn [opposite Number.leb]; auto.
      apply Z.leb_le. lia.
    + replace z with (- - z) by lia. replace z' with (- - z') by lia.
      rewrite (round_opp (- z)), (round_opp (- z')).
      apply opposite_leb. apply round_nonneg_mono. lia.
Qed.

(** Integers up to 2^53 in magnitude are doubles. *)
Lemma round_exact z : - 2 ^ 53 <= z <= 2 ^ 53 -> Number.round z = Int z.
Proof.
  intros Hz.
  assert (Hpos : forall x, 0 <= x <= 2 ^ 53 -> Number.round x = Int x).
  { intros x Hx. destruct (Z.eq_dec x (2 ^ 53)) as [->|Hne].
    - vm_compute. reflexivity.
    - apply round_small. lia. }
  destruct (Z.le_gt_cases 0 z) as [H0|H0]; [apply Hpos; lia|].
  replace z with (- - z) by lia. rewrite round_opp, Hpos by lia. reflexivity.
Qed.

End Rounding.

(** ** Sums and differences of integers *)

Section Arithmetic.

Lemma add_exact a b :
  - 2 ^ 53 <= a + b <= 2 ^ 53 -> Number.add (Int a) (Int b) = Int (a + b).
Proof. intros H. cbn [Number.add]. now apply round_exact. Qed.

Lemma sub_exact a b :
  - 2 ^ 53 <= a - b <= 2 ^ 53 -> Number.sub (Int a) (Int b) = Int (a - b).
Proof. intros H. cbn [Number.sub]. now apply round_exact. Qed.

(** Rounding keeps the sign. *)
Lemma round_positive z : Number.ltb (Int 0) (Number.round z) = true <-> 0 < z.
Proof.
  split.
  - intros H. destruct (Z.lt_ge_cases 0 z) as [|Hz]; auto. exfalso.
    pose proof (round_mono z 0 Hz) as Hle. rewrite (round_exact 0) in Hle by lia.
    destruct (Number.round z) as [| |c|]; cbn [Number.ltb Number.leb] in *;
      try discriminate.
    apply Z.leb_le in Hle. apply Z.ltb_lt in H. lia.
  - intros Hz. pose proof (round_mono 1 z ltac:(lia)) as Hle.
    rewrite (round_exact 1) in Hle by lia.
    destruct (Number.round z) as [| |c|]; cbn [Number.ltb Number.leb] in *;
      try discriminate; auto.
    apply Z.leb_le in Hle. apply Z.ltb_lt. lia.
Qed.

Lemma round_zero z : Number.round z = Int 0 <-> z = 0.
Proof.
  split; [|intros ->; reflexivity].
  intros H. destruct (Z.lt_trichotomy z 0) as [Hz|[Hz|Hz]]; auto; exfalso.
  - pose proof (round_mono z (-1) ltac:(lia)) as Hle.
    rewrite (round_exact (-1)), H in Hle by lia. discriminate Hle.
  - apply round_positive in Hz. rewrite H in Hz. discriminate Hz.
Qed.

(** Up to 2^1000, adding less than 2^60 never leaves the integers and
    never passes 2^1000: so small a term is lost in the rounding. *)
Lemma round_saturates z :
  - (2 ^ 1000 + 2 ^ 60) <= z <= 2 ^ 1000 + 2 ^ 60 ->
  exists c, Number.round z = Int c /\ - 2 ^ 1000 <= c <= 2 ^ 1000
            /\ (0 <= z -> 0 <= c) /\ (z <= 0 -> c <= 0).
Proof.
  intros [Hlo Hhi].
  pose proof (round_mono z _ Hhi) as H1. pose proof (round_mono _ z Hlo) as H2.
  pose proof (round_mono 0 z) as H3. pose proof (round_mono z 0) as H4.
  rewrite (round_exact 0) in H3, H4 by lia.
  assert (E1 : Number.round (2 ^ 1000 + 2 ^ 60) = Int (2 ^ 1000)) by (vm_compute; reflexivity).
  assert (E2 : Number.round (- (2 ^ 1000 + 2 ^ 60)) = Int (- 2 ^ 1000))
    by (vm_compute; reflexivity).
  rewrite E1 in H1. rewrite E2 in H2. clear E1 E2 Hlo Hhi.
  set (B := 2 ^ 1000) in *. clearbody B.
  destruct (Number.round z) as [| |c|]; cbn [Number.leb] in H1, H2, H3, H4;
    [discriminate H1 | discriminate H2 | | discriminate H1].
  exists c. apply Z.leb_le in H1, H2. repeat split; auto.
  - intros Hz. specialize (H3 Hz). now apply Z.leb_le in H3.
  - intros Hz. specialize (H4 Hz). now apply Z.leb_le in H4.
Qed.

End Arithmetic.

(** The sums and differences of the schedule of [beyond_safe], as
    [SFadd] and [SFsub] compute them on the doubles. *)
Example sums_beyond_safe :
  Number.add (Int (2 ^ 53 - 1)) (Int 2) = Int (2 ^ 53)
  /\ Number.of_float (Float64.add (Float64.of_Z (2 ^ 53 - 1)) (Float64.of_Z 2)) = Int (2 ^ 53)
  /\ Number.sub (Int (2 ^ 53)) (Int 2) = Int (2 ^ 53 - 2)
  /\ Number.of_float (Float64.sub (Float64.of_Z (2 ^ 53)) (Float64.of_Z 2)) = Int (2 ^ 53 - 2)
  /\ Number.add (Int (2 ^ 53)) (Int 1) = Int (2 ^ 53)
  /\ Number.of_float (Float64.add (Float64.of_Z (2 ^ 53)) (Float64.of_Z 1)) = Int (2 ^ 53)
  /\ Number.add (Int (2 ^ 53 + 2)) (Int 1) = Int (2 ^ 53 + 4)
  /\ Number.of_float (Float64.add (Float64.of_Z (2 ^ 53 + 2)) (Float64.of_Z 1))
     = Int (2 ^ 53 + 4).
Proof. repeat split; vm_compute; reflexivity. Qed.

(** What template literals print. *)
Example toString_samples :
  Number.toString (Int 6) = "6"%string
  /\ Number.toString (Int (2 ^ 53)) = "9007199254740992"%string
  /\ Number.toString (Int (2 ^ 60)) = "1152921504606847000"%string
  /\ Number.toString (Int (2 ^ 64)) = "18446744073709552000"%string
  /\ Number.toString (Int (10 ^ 21)) = "1e+21"%string
  /\ Number.toString (Int (2 ^ 70)) = "1.1805916207174113e+21"%string
  /\ Number.toString (Int (- 2 ^ 70)) = "-1.1805916207174113e+21"%string
  /\ Number.decimal 9007199254740990 = Number.Z_to_string 9007199254740990
  /\ Number.decimal 123 = Number.Z_to_string 123.
Proof. repeat split; vm_compute; reflexivity. Qed.


(** ** The adjacency maps *)

Section Adjacency.
Import JsMap JsMapFacts.

Lemma setAll_keys {V} (f : CPMInput -> V) (ts : list CPMInput) (m0 : JsMap.t V) k :
  In k (keys (fold_left (fun m t => set m (id t) (f t)) ts m0))
  <-> In k (keys m0) \/ In k (map id ts).
Proof.
  revert m0. induction ts as [|t ts IH]; intros m0; simpl.
  - tauto.
  - rewrite IH, In_keys_set. intuition (subst; auto).
Qed.

Lemma setAll_NoDup {V} (f : CPMInput -> V) (ts : list CPMInput) (m0 : JsMap.t V) :
  NoDup (keys m0) -> NoDup (keys (fold_left (fun m t => set m (id t) (f t)) ts m0)).
Proof.
  revert m0. induction ts as [|t ts IH]; intros m0 H; simpl; auto.
  apply IH. now apply NoDup_keys_set.
Qed.

Lemma setAll_get {V} (f : CPMInput -> V) (ts : list CPMInput) (m0 : JsMap.t V) k v :
  get (fold_left (fun m t => set m (id t) (f t)) ts m0) k = Some v ->
  get m0 k = Some v \/ exists t, In t ts /\ id t = k /\ v = f t.
Proof.
  revert m0. induction ts as [|t ts IH]; intros m0 H; simpl in *; auto.
  apply IH in H. destruct H as [H|(t' & Hin & Hid & Hv)].
  - rewrite get_set in H. destruct (String.eqb (id t) k) eqn:E.
    + apply String.eqb_eq in E. injection H as <-. right. exists t. auto.
    + auto.
  - right. exists t'. auto.
Qed.

Lemma setAll_get_unique {V} (f : CPMInput -> V) (ts : list CPMInput) (m0 : JsMap.t V) t :
  NoDup (map id ts) -> In t ts ->
  get (fold_left (fun m t => set m (id t) (f t)) ts m0) (id t) = Some (f t).
Proof.
  revert m0. induction ts as [|t0 ts IH]; intros m0 Hnd Hin; simpl in *; [tauto|].
  inversion Hnd as [|? ? Hni Hnd']; subst.
  destruct Hin as [->|Hin].
  - destruct (get (fold_left (fun m t => set m (id t) (f t)) ts (set m0 (id t) (f t))) (id t))
      as [v|] eqn:E.
    + apply setAll_get in E. destruct E as [E|(t' & Hin' & Hid & _)].
      * rewrite get_set_eq in E. congruence.
      * exfalso. apply Hni. rewrite <- Hid. now apply in_map.
    + apply get_None in E. exfalso. apply E. apply setAll_keys. left.
      apply In_keys_set. now left.
  - now apply IH.
Qed.

Lemma pushSuccessor_get tid m d k :
  get (pushSuccessor tid m d) k
  = option_map (fun l => l ++ (if String.eqb k d then [tid] else [])) (get m k).
Proof.
  unfold pushSuccessor. destruct (get m d) as [succs|] eqn:E.
  - rewrite get_set. rewrite (String.eqb_sym k d).
    destruct (String.eqb d k) eqn:E'.
    + apply String.eqb_eq in E'. subst. now rewrite E.
    + destruct (get m k); simpl; now rewrite ?app_nil_r.
  - destruct (String.eqb k d) eqn:E'.
    + apply String.eqb_eq in E'. subst. now rewrite E.
    + destruct (get m k); simpl; now rewrite ?app_nil_r.
Qed.

Lemma pushAll_get tid deps m k :
  get (fold_left (pushSuccessor tid) deps m) k
  = option_map (fun l => l ++ repeat tid (occurrences k deps)) (get m k).
Proof.
  revert m. induction deps as [|d deps IH]; intros m; simpl.
  - destruct (get m k); simpl; now rewrite ?app_nil_r.
  - rewrite IH, pushSuccessor_get. unfold occurrences. simpl.
    destruct (get m k) as [l|]; simpl; auto.
    destruct (String.eqb k d); simpl; now rewrite <- app_assoc.
Qed.

Lemma linkSuccessors_get ts m k :
  get (linkSuccessors ts m) k = option_map (fun l => l ++ dependents ts k) (get m k).
Proof.
  unfold linkSuccessors. revert m. induction ts as [|t ts IH]; intros m; simpl.
  - destruct (get m k); simpl; now rewrite ?app_nil_r.
  - rewrite IH, pushAll_get. destruct (get m k); simpl; auto.
    now rewrite <- app_assoc.
Qed.

Lemma initSuccessors_get ts k :
  get (initSuccessors ts) k = if in_dec string_dec k (map id ts) then Some [] else None.
Proof.
  unfold initSuccessors. destruct (in_dec string_dec k (map id ts)) as [Hin|Hn].
  - destruct (get (fold_left (fun m t => set m (id t) []) ts empty) k) eqn:E.
    + apply (setAll_get (fun _ => [])) in E.
      destruct E as [E|(t & _ & _ & ->)]; [discriminate | reflexivity].
    + apply get_None in E. exfalso. apply E.
      apply (setAll_keys (fun _ => [])). now right.
  - apply get_None. intros H. apply (setAll_keys (fun _ => [])) in H.
    destruct H as [[]|H]. contradiction.
Qed.

Lemma successors_spec ts k :
  get_list (buildSuccessors ts) k
  = if in_dec string_dec k (map id ts) then dependents ts k else [].
Proof.
  unfold get_list, buildSuccessors.
  rewrite linkSuccessors_get, initSuccessors_get.
  now destruct (in_dec string_dec k (map id ts)).
Qed.

Lemma In_dependents ts k s :
  In s (dependents ts k) <-> exists t, In t ts /\ id t = s /\ In k (dependencies t).
Proof.
  unfold dependents. rewrite in_flat_map. split.
  - intros (t & Hin & Hr). apply repeat_spec in Hr as Hs. subst s.
    exists t. repeat split; auto.
    unfold occurrences in Hr.
    destruct (filter (String.eqb k) (dependencies t)) as [|d l] eqn:E; [inversion Hr|].
    assert (Hd : In d (filter (String.eqb k) (dependencies t))) by (rewrite E; now left).
    apply filter_In in Hd. destruct Hd as [Hd Hk]. apply String.eqb_eq in Hk. now subst.
  - intros (t & Hin & <- & Hk). exists t. split; auto.
    unfold occurrences.
    assert (Hd : In k (filter (String.eqb k) (dependencies t))).
    { apply filter_In. split; auto. apply String.eqb_refl. }
    destruct (filter (String.eqb k) (dependencies t)); [inversion Hd | now left].
Qed.

Lemma predecessors_spec ts t :
  NoDup (map id ts) -> In t ts ->
  get_list (buildPredecessors ts) (id t) = dependencies t.
Proof.
  intros Hnd Hin. unfold get_list, buildPredecessors.
  now rewrite (setAll_get_unique dependencies).
Qed.

Lemma taskMap_get ts k t :
  get (buildTaskMap ts) k = Some t -> In t ts /\ id t = k.
Proof.
  intros H. apply (setAll_get (fun t => t)) in H.
  destruct H as [H|(t' & Hin & Hid & ->)]; [discriminate | auto].
Qed.

Lemma taskMap_get_unique ts t :
  NoDup (map id ts) -> In t ts -> get (buildTaskMap ts) (id t) = Some t.
Proof. intros. now apply (setAll_get_unique (fun t => t)). Qed.

Lemma taskMap_keys ts k : In k (keys (buildTaskMap ts)) <-> In k (map id ts).
Proof.
  unfold buildTaskMap. rewrite (setAll_keys (fun t => t)). simpl. tauto.
Qed.
End Adjacency.

(** ** Kahn's loop *)

Section Relax.
Import JsMap JsMapFacts.

Lemma set_set {V} (m : JsMap.t V) k a b : set (set m k a) k b = set m k b.
Proof.
  induction m as [|[k' v'] m IH]; simpl.
  - now rewrite String.eqb_refl.
  - destruct (String.eqb k' k) eqn:E; simpl; rewrite E; congruence.
Qed.

Lemma decremented_pos m k v : get m k = Some v -> 1 <= v -> decremented m k = v - 1.
Proof.
  intros H Hv. unfold decremented. rewrite H. destruct v; try lia; reflexivity.
Qed.

Lemma relax_repeat c : forall m q k v,
  get m k = Some v -> Z.of_nat (S c) <= v ->
  fold_left relax (repeat k (S c)) (m, q)
  = (set m k (v - Z.of_nat (S c)),
     if v - Z.of_nat (S c) =? 0 then q ++ [k] else q).
Proof.
  induction c as [|c IH]; intros m q k v Hg Hv.
  - simpl repeat. simpl fold_left. unfold relax at 1. simpl fst. simpl snd.
    rewrite (decremented_pos m k v) by (auto; lia).
    replace (Z.of_nat 1) with 1 by reflexivity. reflexivity.
  - change (fold_left relax (repeat k (S (S c))) (m, q))
      with (fold_left relax (repeat k (S c)) (relax (m, q) k)).
    unfold relax at 2. simpl fst. simpl snd.
    rewrite (decremented_pos m k v) by (auto; lia).
    assert (Hnz : (v - 1 =? 0) = false) by (apply Z.eqb_neq; lia).
    rewrite Hnz.
    rewrite (IH (set m k (v - 1)) q k (v - 1)); [| apply get_set_eq | lia].
    rewrite set_set.
    replace (v - 1 - Z.of_nat (S c)) with (v - Z.of_nat (S (S c))) by lia.
    reflexivity.
Qed.

Lemma pushed_ext m m' c t :
  get m' (id t) = get m (id t) -> pushed m' c t = pushed m c t.
Proof. unfold pushed. now intros ->. Qed.

Lemma relax_dependents (c : CPMInput -> nat) : forall ts m q,
  NoDup (map id ts) ->
  (forall t, In t ts -> exists v, get m (id t) = Some v /\ Z.of_nat (c t) <= v) ->
  let st := fold_left relax (flat_map (fun t => repeat (id t) (c t)) ts) (m, q) in
  (forall t v, In t ts -> get m (id t) = Some v ->
               get (fst st) (id t) = Some (v - Z.of_nat (c t)))
  /\ (forall k, ~ In k (map id ts) -> get (fst st) k = get m k)
  /\ snd st = q ++ map id (filter (pushed m c) ts).
Proof.
  induction ts as [|t ts IH]; intros m q Hnd Hpre; simpl.
  - repeat split; auto; try tauto. now rewrite app_nil_r.
  - inversion Hnd as [|? ? Hni Hnd']; subst.
    rewrite fold_left_app.
    destruct (Hpre t (or_introl eq_refl)) as (v & Hv & Hle).
    assert (Hblock :
      fold_left relax (repeat (id t) (c t)) (m, q)
      = (if (0 <? c t)%nat then set m (id t) (v - Z.of_nat (c t)) else m,
         if pushed m c t then q ++ [id t] else q)).
    { unfold pushed. rewrite Hv. destruct (c t) as [|n] eqn:Ec.
      - reflexivity.
      - rewrite (relax_repeat n m q (id t) v Hv Hle).
        change (0 <? S n)%nat with true. cbn [andb].
        destruct (Z.eqb_spec (v - Z.of_nat (S n)) 0), (Z.eqb_spec v (Z.of_nat (S n)));
          try reflexivity; lia. }
    rewrite Hblock.
    set (m1 := if (0 <? c t)%nat then set m (id t) (v - Z.of_nat (c t)) else m).
    set (q1 := if pushed m c t then q ++ [id t] else q).
    assert (Hsame : forall k, k <> id t -> get m1 k = get m k).
    { intros k Hk. unfold m1. destruct (0 <? c t)%nat; auto.
      apply get_set_neq. congruence. }
    assert (Hother : forall t', In t' ts -> id t' <> id t).
    { intros t' Hin Heq. apply Hni. rewrite <- Heq. now apply in_map. }
    destruct (IH m1 q1 Hnd') as (IHa & IHb & IHc).
    { intros t' Hin. rewrite Hsame by auto. apply Hpre. now right. }
    repeat split.
    + intros t' v' [<-|Hin] Hg.
      * rewrite IHb by assumption. rewrite Hv in Hg. injection Hg as <-.
        unfold m1. destruct (c t) as [|n] eqn:Ec.
        -- simpl. rewrite Hv. f_equal. lia.
        -- change (0 <? S n)%nat with true. simpl. apply get_set_eq.
      * apply IHa; auto. now rewrite Hsame by auto.
    + intros k Hk. rewrite IHb by tauto. apply Hsame. intros ->. tauto.
    + rewrite IHc. unfold q1.
      rewrite (filter_ext_in (pushed m1 c) (pushed m c)).
      * destruct (pushed m c t); simpl; now rewrite <- ?app_assoc.
      * intros t' Hin. apply pushed_ext. apply Hsame. auto.
Qed.
End Relax.

Section ListFacts.

Lemma mem_In x l : mem x l = true <-> In x l.
Proof.
  unfold mem. rewrite existsb_exists. split.
  - intros (y & Hy & E). apply String.eqb_eq in E. now subst.
  - intros H. exists x. split; auto. apply String.eqb_refl.
Qed.

Lemma mem_false x l : mem x l = false <-> ~ In x l.
Proof.
  rewrite <- mem_In. destruct (mem x l); split; congruence.
Qed.

Lemma remaining_nil t : remaining [] t = length (dependencies t).
Proof.
  unfold remaining. induction (dependencies t); simpl; auto.
Qed.

Lemma remaining_zero done t : remaining done t = 0%nat <-> incl (dependencies t) done.
Proof.
  unfold remaining, incl. induction (dependencies t) as [|d l IH]; simpl.
  - split; [intros _ a [] | reflexivity].
  - destruct (mem d done) eqn:E; simpl.
    + apply mem_In in E. rewrite IH. split.
      * intros H a [<-|Ha]; auto.
      * intros H a Ha. apply H. now right.
    + apply mem_false in E. split; [discriminate|].
      intros H. exfalso. apply E, H. now left.
Qed.

Lemma remaining_snoc done x t :
  ~ In x done ->
  remaining done t
  = (remaining (done ++ [x]) t + occurrences x (dependencies t))%nat.
Proof.
  intros Hx. unfold remaining, occurrences.
  induction (dependencies t) as [|d l IH]; simpl; auto.
  unfold mem in *. rewrite existsb_app. simpl. rewrite orb_false_r.
  rewrite (String.eqb_sym x d).
  destruct (String.eqb d x) eqn:E.
  - apply String.eqb_eq in E. subst d.
    apply mem_false in Hx. unfold mem in Hx. rewrite Hx. simpl. lia.
  - rewrite orb_false_r. destruct (existsb (String.eqb d) done); simpl; lia.
Qed.

Lemma filter_ids_NoDup (keep : CPMInput -> bool) (ts : list CPMInput) :
  NoDup (map id ts) -> NoDup (map id (filter keep ts)).
Proof.
  induction ts as [|t ts IH]; simpl; auto.
  intros H. inversion H as [|? ? Hni Hnd]; subst.
  destruct (keep t); simpl; auto.
  constructor; auto. intros Hin. apply Hni.
  apply in_map_iff in Hin. destruct Hin as (u & Hu & Hin).
  apply filter_In in Hin. rewrite <- Hu. apply in_map. tauto.
Qed.

Lemma NoDup_map_inj {A B} (f : A -> B) (l : list A) a b :
  NoDup (map f l) -> In a l -> In b l -> f a = f b -> a = b.
Proof.
  induction l as [|c l IH]; simpl; [tauto|].
  intros H Ha Hb E. inversion H as [|? ? Hni Hnd]; subst.
  destruct Ha as [->|Ha], Hb as [->|Hb]; auto.
  - exfalso. apply Hni. rewrite E. now apply in_map.
  - exfalso. apply Hni. rewrite <- E. now apply in_map.
Qed.

Lemma ordered_nil tasks : ordered tasks [].
Proof. intros [|] ? ? ? H; discriminate. Qed.

Lemma ordered_snoc tasks l x :
  ordered tasks l ->
  (forall t, In t tasks -> id t = x -> incl (dependencies t) l) ->
  ordered tasks (l ++ [x]).
Proof.
  intros Hl Hx l1 y l2 t E Hin Hid.
  destruct l2 as [|z l2] using rev_ind.
  - apply app_inj_tail in E. destruct E as [-> ->]. now apply Hx.
  - clear IHl2. rewrite app_comm_cons, app_assoc in E.
    apply app_inj_tail in E. destruct E as [-> _]. eapply Hl; eauto.
Qed.

Lemma ordered_app tasks P : forall l,
  ordered tasks l ->
  (forall p t, In p P -> In t tasks -> id t = p -> incl (dependencies t) l) ->
  ordered tasks (l ++ P).
Proof.
  induction P as [|p P IH]; intros l Hl HP.
  - now rewrite app_nil_r.
  - change (l ++ p :: P) with (l ++ [p] ++ P). rewrite app_assoc. apply IH.
    + apply ordered_snoc; auto. intros t Hin Hid. apply (HP p); simpl; auto.
    + intros q t Hq Hin Hid. apply incl_appl. apply (HP q); simpl; auto.
Qed.

Lemma setAll_fresh {V} (f : CPMInput -> V) : forall ts (m0 : JsMap.t V),
  NoDup (JsMap.keys m0 ++ map id ts) ->
  fold_left (fun m t => JsMap.set m (id t) (f t)) ts m0
  = m0 ++ map (fun t => (id t, f t)) ts.
Proof.
  induction ts as [|t ts IH]; intros m0 H; simpl.
  - now rewrite app_nil_r.
  - assert (Hfresh : ~ In (id t) (JsMap.keys m0)).
    { simpl in H. apply NoDup_remove_2 in H. intros Hin. apply H.
      apply in_or_app. now left. }
    assert (Hset : JsMap.set m0 (id t) (f t) = m0 ++ [(id t, f t)]).
    { clear - Hfresh. induction m0 as [|[k v] m0 IHm]; simpl in *; auto.
      destruct (String.eqb k (id t)) eqn:E.
      - apply String.eqb_eq in E. tauto.
      - f_equal. apply IHm. tauto. }
    rewrite IH.
    + rewrite Hset, <- app_assoc. reflexivity.
    + rewrite Hset. unfold JsMap.keys. rewrite map_app. simpl.
      rewrite <- app_assoc. exact H.
Qed.

End ListFacts.

Section Kahn.
Import JsMap JsMapFacts.

Variable tasks : list CPMInput.
Hypothesis Hids : NoDup (map id tasks).

Lemma initInDegree_unique :
  initInDegree tasks (buildPredecessors tasks)
  = map (fun t => (id t, Z.of_nat (length (dependencies t)))) tasks.
Proof.
  unfold initInDegree. rewrite setAll_fresh by exact Hids. simpl.
  apply map_ext_in. intros t Hin. now rewrite predecessors_spec.
Qed.

Lemma initQueue_unique :
  initQueue (initInDegree tasks (buildPredecessors tasks))
  = map id (filter (fun t => (length (dependencies t) =? 0)%nat) tasks).
Proof.
  rewrite initInDegree_unique. unfold initQueue. clear Hids.
  induction tasks as [|t ts IH]; simpl; auto.
  destruct (dependencies t); simpl; f_equal; auto.
Qed.

Lemma kahn_inv_init :
  kahn_inv tasks (initInDegree tasks (buildPredecessors tasks))
           (initQueue (initInDegree tasks (buildPredecessors tasks))) [].
Proof.
  rewrite initQueue_unique. constructor; simpl.
  - intros t Hin. unfold initInDegree.
    rewrite (setAll_get_unique _ tasks empty t Hids Hin).
    now rewrite predecessors_spec, remaining_nil.
  - now apply filter_ids_NoDup.
  - intros x Hx. apply in_map_iff in Hx. destruct Hx as (t & <- & Hin).
    apply filter_In in Hin. apply in_map. tauto.
  - intros t Hin. rewrite remaining_nil. split.
    + intros Hq. apply in_map_iff in Hq. destruct Hq as (t' & Hid & Hin').
      apply filter_In in Hin'. destruct Hin' as [Hin' Hz].
      assert (t' = t) by (eapply NoDup_map_inj; eauto). subst t'.
      now apply Nat.eqb_eq in Hz.
    + intros Hz. apply in_map. apply filter_In. split; auto. now apply Nat.eqb_eq.
  - apply (ordered_app tasks _ []); [apply ordered_nil|].
    intros p t Hp Hin Hid. apply in_map_iff in Hp. destruct Hp as (t' & Hid' & Hin').
    apply filter_In in Hin'. destruct Hin' as [Hin' Hz].
    assert (t' = t) by (eapply NoDup_map_inj; eauto; congruence). subst t'.
    apply Nat.eqb_eq in Hz. destruct (dependencies t); [|discriminate].
    intros a [].
Qed.

Lemma kahn_inv_step inDegree x q sorted :
  kahn_inv tasks inDegree (x :: q) sorted ->
  kahn_inv tasks
    (fst (fold_left relax (get_list (buildSuccessors tasks) x) (inDegree, q)))
    (snd (fold_left relax (get_list (buildSuccessors tasks) x) (inDegree, q)))
    (sorted ++ [x]).
Proof.
  intros [Hdeg Hnd Hincl Hready Hord].
  assert (Hx : In x (map id tasks)).
  { apply Hincl. apply in_or_app. right. now left. }
  assert (Hxs : ~ In x sorted).
  { apply NoDup_remove_2 in Hnd. intros H. apply Hnd. apply in_or_app. now left. }
  rewrite successors_spec. destruct (in_dec string_dec x (map id tasks)); [|contradiction].
  set (c := fun t => occurrences x (dependencies t)).
  assert (Hrem : forall t, remaining sorted t = (remaining (sorted ++ [x]) t + c t)%nat).
  { intros t. now apply remaining_snoc. }
  destruct (relax_dependents c tasks inDegree q Hids) as (Ha & _ & Hc).
  { intros t Hin. exists (Z.of_nat (remaining sorted t)). split; auto.
    rewrite Hrem. lia. }
  fold (dependents tasks x) in Ha, Hc.
  change (flat_map (fun t => repeat (id t) (c t)) tasks) with (dependents tasks x) in *.
  set (st := fold_left relax (dependents tasks x) (inDegree, q)) in *.
  assert (Hpushed : forall t, In t tasks ->
            (pushed inDegree c t = true
             <-> (0 < c t)%nat /\ remaining (sorted ++ [x]) t = 0%nat)).
  { intros t Hin. unfold pushed. rewrite (Hdeg t Hin), andb_true_iff.
    rewrite Nat.ltb_lt, Z.eqb_eq, (Hrem t). lia. }
  assert (Hold : (sorted ++ [x]) ++ snd st
                 = (sorted ++ x :: q) ++ map id (filter (pushed inDegree c) tasks)).
  { rewrite Hc. now rewrite <- !app_assoc. }
  constructor.
  - intros t Hin. rewrite (Ha t _ Hin (Hdeg t Hin)). f_equal. rewrite (Hrem t). lia.
  - rewrite Hold. apply NoDup_app; auto.
    + now apply filter_ids_NoDup.
    + intros a Ha1 Ha2. apply in_map_iff in Ha2. destruct Ha2 as (t & <- & Hin).
      apply filter_In in Hin. destruct Hin as [Hin Hp].
      apply (Hpushed t Hin) in Hp. apply (Hready t Hin) in Ha1.
      rewrite (Hrem t) in Ha1. lia.
  - rewrite Hold. apply incl_app; auto.
    intros a Ha2. apply in_map_iff in Ha2. destruct Ha2 as (t & <- & Hin).
    apply filter_In in Hin. apply in_map. tauto.
  - intros t Hin. rewrite Hold, in_app_iff. split.
    + intros [Hin1|Hin2].
      * apply (Hready t Hin) in Hin1. rewrite (Hrem t) in Hin1. lia.
      * apply in_map_iff in Hin2. destruct Hin2 as (t' & Hid & Hin').
        apply filter_In in Hin'. destruct Hin' as [Hin' Hp].
        assert (t' = t) by (eapply NoDup_map_inj; eauto). subst t'.
        now apply (Hpushed t Hin) in Hp.
    + intros Hz. destruct (c t) as [|n] eqn:Ec.
      * left. apply (Hready t Hin). rewrite (Hrem t). lia.
      * right. apply in_map. apply filter_In. split; auto.
        apply (Hpushed t Hin). lia.
  - rewrite Hold. apply ordered_app; auto.
    intros p t Hp Hin Hid. apply in_map_iff in Hp. destruct Hp as (t' & Hid' & Hin').
    apply filter_In in Hin'. destruct Hin' as [Hin' Hp].
    assert (t' = t) by (eapply NoDup_map_inj; eauto; congruence). subst t'.
    apply (Hpushed t Hin) in Hp. destruct Hp as [_ Hz].
    apply remaining_zero in Hz. intros a Ha1. apply Hz in Ha1.
    apply in_app_iff in Ha1. apply in_or_app. destruct Ha1 as [?|[<-|[]]]; auto.
    right. now left.
Qed.

Lemma kahnLoop_spec : forall fuel inDegree queue sorted,
  kahn_inv tasks inDegree queue sorted ->
  (length tasks <= fuel + length sorted)%nat ->
  exists final inDegree',
    kahnLoop fuel (buildSuccessors tasks) inDegree queue sorted = Some final
    /\ kahn_inv tasks inDegree' [] final.
Proof.
  induction fuel as [|fuel IH]; intros inDegree queue sorted Hinv Hfuel.
  - destruct queue as [|x q].
    + exists sorted, inDegree. split; auto.
    + exfalso. destruct Hinv as [_ Hnd Hincl _ _].
      apply NoDup_incl_length in Hincl; auto.
      rewrite length_app, length_map in Hincl. simpl in *. lia.
  - destruct queue as [|x q].
    + exists sorted, inDegree. split; auto.
    + simpl. apply IH.
      * now apply kahn_inv_step.
      * rewrite length_app. simpl. lia.
Qed.

(** For distinct ids the sort returns within [length tasks] iterations;
    its result has no repetition, holds only task ids, holds a task
    exactly when it holds all its dependencies, and lists every task
    behind its dependencies. *)
Lemma topologicalSort_spec fuel :
  (length tasks <= fuel)%nat ->
  exists sorted,
    topologicalSort fuel tasks (buildPredecessors tasks) (buildSuccessors tasks)
    = Some sorted
    /\ NoDup sorted
    /\ incl sorted (map id tasks)
    /\ (forall t, In t tasks -> (In (id t) sorted <-> incl (dependencies t) sorted))
    /\ ordered tasks sorted.
Proof.
  intros Hfuel. unfold topologicalSort.
  destruct (kahnLoop_spec fuel _ _ [] kahn_inv_init) as (final & deg & Hrun & Hinv).
  { simpl. lia. }
  exists final. split; auto.
  destruct Hinv as [_ Hnd Hincl Hready Hord]. rewrite app_nil_r in *.
  repeat split; auto.
  - intros Ht. apply remaining_zero. now apply Hready.
  - intros Ht. apply Hready; auto. now apply remaining_zero.
Qed.

End Kahn.

(** ** The sort on arbitrary input: only task ids are ever listed *)

Section KahnGeneral.
Import JsMap JsMapFacts.

Lemma relax_incl ids : forall L m q,
  incl L ids -> incl q ids -> incl (snd (fold_left relax L (m, q))) ids.
Proof.
  induction L as [|s L IH]; intros m q HL Hq; simpl; auto.
  unfold relax at 2. simpl fst. simpl snd. apply IH.
  - intros a Ha. apply HL. now right.
  - destruct (decremented m s =? 0); auto.
    apply incl_app; auto. intros a [<-|[]]. apply HL. now left.
Qed.

Lemma kahnLoop_incl ids successors :
  (forall x, incl (get_list successors x) ids) ->
  forall fuel inDegree queue sorted final,
    incl queue ids -> incl sorted ids ->
    kahnLoop fuel successors inDegree queue sorted = Some final ->
    incl final ids.
Proof.
  intros Hs. induction fuel as [|fuel IH]; intros inDegree queue sorted final Hq Hd Hrun.
  - destruct queue; simpl in Hrun; [|discriminate]. now injection Hrun as <-.
  - destruct queue as [|x q]; simpl in Hrun.
    + now injection Hrun as <-.
    + eapply IH; [| |exact Hrun].
      * apply relax_incl; auto. intros a Ha. apply Hq. now right.
      * apply incl_app; auto. intros a [<-|[]]. apply Hq. now left.
Qed.

Lemma successors_incl tasks x :
  incl (get_list (buildSuccessors tasks) x) (map id tasks).
Proof.
  rewrite successors_spec. destruct (in_dec string_dec x (map id tasks)).
  - intros s Hs. apply In_dependents in Hs. destruct Hs as (t & Hin & <- & _).
    now apply in_map.
  - intros s [].
Qed.

Lemma initQueue_incl (m : JsMap.t Z) : incl (initQueue m) (keys m).
Proof.
  unfold initQueue, keys. intros k Hk. apply in_map_iff in Hk.
  destruct Hk as (kv & <- & Hin). apply filter_In in Hin. apply in_map. tauto.
Qed.

Lemma topologicalSort_incl fuel tasks predecessors sorted :
  topologicalSort fuel tasks predecessors (buildSuccessors tasks) = Some sorted ->
  incl sorted (map id tasks).
Proof.
  unfold topologicalSort. intros Hrun.
  eapply kahnLoop_incl; [apply successors_incl | | | exact Hrun].
  - intros k Hk. apply initQueue_incl in Hk. unfold initInDegree in Hk.
    apply setAll_keys in Hk. destruct Hk as [[]|Hk]. exact Hk.
  - intros k [].
Qed.

End KahnGeneral.

(** ** The passes as folds over the node map *)

Section Passes.
Import JsMap JsMapFacts.

Lemma forwardStep_pass predecessors :
  forwardStep predecessors = pass_step (forward_upd predecessors).
Proof. reflexivity. Qed.

Lemma backwardStep_pass successors pd :
  backwardStep successors pd = pass_step (backward_upd successors pd).
Proof. reflexivity. Qed.

Variable upd : JsMap.t CPMNode -> string -> CPMNode -> CPMNode.

Lemma pass_returns : forall l ns,
  incl l (keys ns) ->
  exists ns', forEach (pass_step upd) l ns = Returns ns' /\ keys ns' = keys ns.
Proof.
  induction l as [|x l IH]; intros ns Hl; simpl.
  - eauto.
  - unfold pass_step at 1.
    destruct (key_get_Some ns x) as (n & Hn); [apply Hl; now left|].
    rewrite Hn. simpl.
    assert (Hk : keys (set ns x (upd ns x n)) = keys ns).
    { apply keys_set_in. eapply get_Some_key; eauto. }
    destruct (IH (set ns x (upd ns x n))) as (ns' & Hrun & Hkeys).
    + rewrite Hk. intros a Ha. apply Hl. now right.
    + exists ns'. split; auto. congruence.
Qed.

Lemma pass_inv : forall l ns ns',
  forEach (pass_step upd) l ns = Returns ns' ->
  incl l (keys ns) /\ keys ns' = keys ns.
Proof.
  induction l as [|x l IH]; intros ns ns' Hrun; simpl in Hrun.
  - injection Hrun as <-. split; auto. intros a [].
  - unfold pass_step at 1 in Hrun. destruct (get ns x) as [n|] eqn:Hn; [|discriminate].
    simpl in Hrun. apply IH in Hrun. destruct Hrun as [Hl Hk].
    assert (Hx : In x (keys ns)) by (eapply get_Some_key; eauto).
    rewrite (keys_set_in ns x _ Hx) in *. split; auto.
    intros a [<-|Ha]; auto.
Qed.

Lemma pass_not_hanging : forall l ns, forEach (pass_step upd) l ns <> OutOfFuel.
Proof.
  induction l as [|x l IH]; intros ns; simpl; [discriminate|].
  unfold pass_step at 1. destruct (get ns x); simpl; [apply IH | discriminate].
Qed.

(** A relation that every update respects links each final node to the
    node initially under the same key. *)
Lemma pass_preserves (R : CPMNode -> CPMNode -> Prop) :
  (forall n, R n n) -> (forall a b c, R a b -> R b c -> R a c) ->
  (forall ns x n, R n (upd ns x n)) ->
  forall l ns ns',
    forEach (pass_step upd) l ns = Returns ns' ->
    forall k n', get ns' k = Some n' -> exists n, get ns k = Some n /\ R n n'.
Proof.
  intros Hrefl Htrans Hupd.
  induction l as [|x l IH]; intros ns ns' Hrun k n' Hk; simpl in Hrun.
  - injection Hrun as <-. eauto.
  - unfold pass_step at 1 in Hrun. destruct (get ns x) as [n|] eqn:Hn; [|discriminate].
    simpl in Hrun. destruct (IH _ _ Hrun k n' Hk) as (n1 & Hn1 & HR).
    rewrite get_set in Hn1. destruct (String.eqb x k) eqn:E.
    + apply String.eqb_eq in E. subst k. injection Hn1 as <-.
      exists n. split; auto. eapply Htrans; eauto.
    + eauto.
Qed.

(** A property that every update establishes holds of every visited key. *)
Lemma pass_establishes (P : CPMNode -> Prop) :
  (forall ns x n, P (upd ns x n)) ->
  forall l ns ns',
    forEach (pass_step upd) l ns = Returns ns' ->
    forall k n', get ns' k = Some n' ->
      In k l \/ (exists n, get ns k = Some n /\ P n) -> P n'.
Proof.
  intros Hupd.
  induction l as [|x l IH]; intros ns ns' Hrun k n' Hk Hor; simpl in Hrun.
  - injection Hrun as <-. destruct Hor as [[]|(n & Hn & HP)]. congruence.
  - unfold pass_step at 1 in Hrun. destruct (get ns x) as [n|] eqn:Hn; [|discriminate].
    simpl in Hrun. apply (IH _ _ Hrun k n' Hk).
    destruct (String.eqb x k) eqn:E.
    + apply String.eqb_eq in E. subst k. right.
      exists (upd ns x n). split; [apply get_set_eq | apply Hupd].
    + destruct Hor as [[Hx|Hin]|(n0 & Hn0 & HP)].
      * apply String.eqb_neq in E. congruence.
      * now left.
      * right. exists n0. split; auto. rewrite get_set, E. exact Hn0.
Qed.

End Passes.

Section Structure.
Import JsMap JsMapFacts.

Lemma initNodes_fold taskMap sorted :
  initNodes taskMap sorted = forEach (init_step taskMap) sorted empty.
Proof. reflexivity. Qed.

Lemma init_returns taskMap : forall l ns,
  incl l (keys taskMap) -> exists ns', forEach (init_step taskMap) l ns = Returns ns'.
Proof.
  induction l as [|x l IH]; intros ns Hl; simpl; eauto.
  unfold init_step at 1.
  destruct (key_get_Some taskMap x) as (t & Ht); [apply Hl; now left|].
  rewrite Ht. simpl. apply IH. intros a Ha. apply Hl. now right.
Qed.

Lemma init_inv taskMap : forall l ns ns',
  forEach (init_step taskMap) l ns = Returns ns' ->
  incl l (keys taskMap)
  /\ (forall k, In k (keys ns') <-> In k (keys ns) \/ In k l)
  /\ (NoDup (keys ns) -> NoDup (keys ns'))
  /\ (forall k n, get ns' k = Some n ->
        get ns k = Some n \/ exists t, get taskMap k = Some t /\ n = initNode t).
Proof.
  induction l as [|x l IH]; intros ns ns' Hrun; simpl in Hrun.
  - injection Hrun as <-. split; [intros a []|]. split; [simpl; tauto|]. auto.
  - unfold init_step at 1 in Hrun.
    destruct (get taskMap x) as [t|] eqn:Ht; [|discriminate].
    simpl in Hrun. apply IH in Hrun. destruct Hrun as (Hl & Hk & Hnd & Hg).
    repeat split.
    + intros a [<-|Ha]; auto. eapply get_Some_key; eauto.
    + intros Hin. apply Hk in Hin. rewrite In_keys_set in Hin. simpl.
      intuition (subst; auto).
    + intros Hin. apply Hk. rewrite In_keys_set. simpl in Hin.
      intuition (subst; auto).
    + intros H. apply Hnd. now apply NoDup_keys_set.
    + intros k n Hn. apply Hg in Hn. destruct Hn as [Hn|Hn]; auto.
      rewrite get_set in Hn. destruct (String.eqb x k) eqn:E; auto.
      apply String.eqb_eq in E. subst k. injection Hn as <-. right. eauto.
Qed.

Lemma init_keys_fresh taskMap : forall l ns ns',
  forEach (init_step taskMap) l ns = Returns ns' ->
  NoDup (keys ns ++ l) -> keys ns' = keys ns ++ l.
Proof.
  induction l as [|x l IH]; intros ns ns' Hrun Hnd; simpl in Hrun.
  - injection Hrun as <-. now rewrite app_nil_r.
  - unfold init_step at 1 in Hrun.
    destruct (get taskMap x) as [t|] eqn:Ht; [|discriminate].
    simpl in Hrun.
    assert (Hx : ~ In x (keys ns)).
    { apply NoDup_remove_2 in Hnd. intros H. apply Hnd. apply in_or_app. now left. }
    apply IH in Hrun.
    + rewrite Hrun, keys_set_notin by assumption. now rewrite <- app_assoc.
    + rewrite keys_set_notin by assumption. now rewrite <- app_assoc.
Qed.

Lemma floatAll_get ns k : get (floatAll ns) k = option_map floatStep (get ns k).
Proof.
  unfold floatAll. induction ns as [|[k' v] ns IH]; simpl; auto.
  destruct (String.eqb k' k); auto.
Qed.

Lemma floatAll_keys ns : keys (floatAll ns) = keys ns.
Proof.
  unfold floatAll, keys. rewrite map_map. now apply map_ext.
Qed.

Lemma floatAll_values ns : values (floatAll ns) = map floatStep (values ns).
Proof.
  unfold floatAll, values. now rewrite !map_map.
Qed.

Lemma collect_returns ns : forall l,
  incl l (keys ns) -> exists r, collectNodes ns l = Returns r.
Proof.
  induction l as [|x l IH]; intros Hl; simpl; eauto.
  destruct (key_get_Some ns x) as (n & Hn); [apply Hl; now left|].
  rewrite Hn. destruct IH as (r & ->); [intros a Ha; apply Hl; now right|].
  simpl. eauto.
Qed.

Lemma collect_inv ns : forall l r,
  collectNodes ns l = Returns r -> Forall2 (fun x n => get ns x = Some n) l r.
Proof.
  induction l as [|x l IH]; intros r Hrun; simpl in Hrun.
  - injection Hrun as <-. constructor.
  - destruct (get ns x) as [n|] eqn:Hn; [|discriminate].
    destruct (collectNodes ns l) as [r'| |]; simpl in Hrun; try discriminate.
    injection Hrun as <-. constructor; auto.
Qed.

Lemma collect_not_hanging ns : forall l, collectNodes ns l <> OutOfFuel.
Proof.
  induction l as [|x l IH]; simpl; [discriminate|].
  destruct (get ns x); [|discriminate].
  destruct (collectNodes ns l); simpl; congruence.
Qed.

Lemma init_not_hanging taskMap : forall l ns, forEach (init_step taskMap) l ns <> OutOfFuel.
Proof.
  induction l as [|x l IH]; intros ns; simpl; [discriminate|].
  unfold init_step at 1. destruct (get taskMap x); simpl; [apply IH | discriminate].
Qed.

(** The stages of [schedule], named. *)
Lemma schedule_inv taskMap predecessors successors sorted r :
  schedule taskMap predecessors successors sorted = Returns r ->
  exists ns0 ns1 ns2,
    forEach (init_step taskMap) sorted empty = Returns ns0
    /\ forEach (pass_step (forward_upd predecessors)) sorted ns0 = Returns ns1
    /\ forEach (pass_step (backward_upd successors (Number.Math_max (map ef (values ns1)))))
         (rev sorted) ns1 = Returns ns2
    /\ collectNodes (floatAll ns2) sorted = Returns (nodes r)
    /\ criticalPath r
       = Array_sort (compareFn (floatAll ns2))
           (map (fun n => id (task n)) (filter isCritical (values (floatAll ns2))))
    /\ projectDuration r = Number.Math_max (map ef (values ns1)).
Proof.
  unfold schedule. rewrite initNodes_fold, forwardStep_pass.
  destruct (forEach (init_step taskMap) sorted empty) as [ns0| |] eqn:H0;
    simpl; try discriminate.
  destruct (forEach (pass_step (forward_upd predecessors)) sorted ns0) as [ns1| |] eqn:H1;
    simpl; try discriminate.
  rewrite backwardStep_pass.
  destruct (forEach (pass_step (backward_upd successors _)) (rev sorted) ns1)
    as [ns2| |] eqn:H2; simpl; try discriminate.
  fold (floatAll ns2).
  destruct (collectNodes (floatAll ns2) sorted) as [rn| |] eqn:H3;
    simpl; try discriminate.
  intros [= <-]. simpl. exists ns0, ns1, ns2. auto 10.
Qed.

Lemma schedule_returns taskMap predecessors successors sorted :
  incl sorted (keys taskMap) ->
  exists r, schedule taskMap predecessors successors sorted = Returns r.
Proof.
  intros Hs. unfold schedule. rewrite initNodes_fold, forwardStep_pass.
  destruct (init_returns taskMap sorted empty Hs) as (ns0 & H0). rewrite H0. simpl.
  destruct (init_inv _ _ _ _ H0) as (_ & Hk0 & _ & _).
  assert (Hin0 : incl sorted (keys ns0)) by (intros a Ha; apply Hk0; now right).
  destruct (pass_returns (forward_upd predecessors) sorted ns0 Hin0) as (ns1 & H1 & Hk1).
  rewrite H1. simpl. rewrite backwardStep_pass.
  destruct (pass_returns (backward_upd successors (Number.Math_max (map ef (values ns1))))
              (rev sorted) ns1) as (ns2 & H2 & Hk2).
  { rewrite Hk1. intros a Ha. apply Hin0. now apply in_rev. }
  rewrite H2. simpl. fold (floatAll ns2).
  destruct (collect_returns (floatAll ns2) sorted) as (rn & H3).
  { rewrite floatAll_keys, Hk2, Hk1. exact Hin0. }
  rewrite H3. simpl. eauto.
Qed.

Lemma schedule_not_hanging taskMap predecessors successors sorted :
  schedule taskMap predecessors successors sorted <> OutOfFuel.
Proof.
  unfold schedule. rewrite initNodes_fold, forwardStep_pass.
  destruct (forEach (init_step taskMap) sorted empty) as [ns0| |] eqn:H0; simpl;
    try discriminate; [|now apply init_not_hanging in H0].
  destruct (forEach (pass_step (forward_upd predecessors)) sorted ns0) as [ns1| |] eqn:H1;
    simpl; try discriminate; [|now apply pass_not_hanging in H1].
  rewrite backwardStep_pass.
  destruct (forEach (pass_step (backward_upd successors _)) (rev sorted) ns1)
    as [ns2| |] eqn:H2; simpl; try discriminate; [|now apply pass_not_hanging in H2].
  destruct (collectNodes _ sorted) as [rn| |] eqn:H3; simpl; try discriminate.
  now apply collect_not_hanging in H3.
Qed.

(** No non-null assertion of [calculateCPM] ever meets [undefined]. *)
Lemma calculateCPM_no_fault fuel tasks : calculateCPM fuel tasks <> Fault.
Proof.
  unfold calculateCPM. destruct tasks as [|t0 ts]; [discriminate|].
  set (tasks := t0 :: ts).
  destruct (topologicalSort fuel tasks _ _) as [sorted|] eqn:Hs; [|discriminate].
  apply topologicalSort_incl in Hs.
  destruct (schedule_returns (buildTaskMap tasks) (buildPredecessors tasks)
              (buildSuccessors tasks) sorted) as (r & Hr).
  - intros a Ha. apply taskMap_keys. now apply Hs.
  - rewrite Hr. discriminate.
Qed.

(** With pairwise distinct ids the engine returns after at most
    [length tasks] iterations of the loop. *)
Lemma calculateCPM_returns fuel tasks :
  NoDup (map id tasks) -> (length tasks <= fuel)%nat ->
  exists r, calculateCPM fuel tasks = Returns r.
Proof.
  intros Hids Hfuel. unfold calculateCPM. destruct tasks as [|t0 ts]; [eauto|].
  set (tasks := t0 :: ts) in *.
  destruct (topologicalSort_spec tasks Hids fuel Hfuel) as (sorted & Hs & _ & Hincl & _).
  rewrite Hs. apply schedule_returns.
  intros a Ha. apply taskMap_keys. now apply Hincl.
Qed.

End Structure.

(** ** More fuel never changes a result *)

Lemma kahnLoop_fuel_mono successors : forall fuel fuel' inDegree queue sorted final,
  kahnLoop fuel successors inDegree queue sorted = Some final ->
  (fuel <= fuel')%nat ->
  kahnLoop fuel' successors inDegree queue sorted = Some final.
Proof.
  induction fuel as [|fuel IH]; intros fuel' inDegree queue sorted final Hrun Hle.
  - destruct queue; simpl in Hrun; [|discriminate].
    destruct fuel'; exact Hrun.
  - destruct fuel' as [|fuel']; [lia|].
    destruct queue as [|x q]; simpl in *; auto.
    apply IH; auto. lia.
Qed.

Lemma calculateCPM_fuel_mono fuel fuel' tasks r :
  calculateCPM fuel tasks = Returns r ->
  (fuel <= fuel')%nat ->
  calculateCPM fuel' tasks = Returns r.
Proof.
  unfold calculateCPM, topologicalSort. destruct tasks as [|t0 ts]; auto.
  intros Hrun Hle.
  destruct (kahnLoop fuel _ _ _ _) as [sorted|] eqn:E; [|discriminate].
  now rewrite (kahnLoop_fuel_mono _ _ _ _ _ _ _ E Hle).
Qed.

(** ** Scenarios *)

Example scenario1_result extra :
  calculateCPM (3 + extra) scenario1
  = Returns {| nodes := [ scheduled (plain "A" 2 [] "not_started" 0) 0 2 0 2 0 true;
                          scheduled (plain "B" 3 ["A"%string] "not_started" 0) 2 5 2 5 0 true;
                          scheduled (plain "C" 1 ["A"%string] "not_started" 0) 2 3 4 5 2 false ];
               criticalPath := ["A"%string; "B"%string];
               projectDuration := Int 5 |}.
Proof. apply calculateCPM_fuel_mono with (fuel := 3%nat); [reflexivity | lia]. Qed.

(** The rounding of binary64 is visible in the effective duration:
    [1 - 70 / 100] is [0.30000000000000004], so ten days at 70% leave
    [Math.ceil(3.0000000000000004) = 4]. *)
Example effectiveDuration_rounding :
  effectiveDuration (plain "T" 10 [] "in_progress" 70) = Int 4
  /\ effectiveDuration (plain "T" 10 [] "in_progress" 30) = Int 7.
Proof. split; reflexivity. Qed.

(** C1 (the all-cyclic case): on the two-task cycle nothing is scheduled,
    and the returned [projectDuration] is [Math.max()] of no argument,
    [-Infinity], not 0. *)
Theorem all_cyclic_projectDuration fuel :
  calculateCPM fuel two_cycle
  = Returns {| nodes := []; criticalPath := []; projectDuration := NegInfinity |}.
Proof. destruct fuel; reflexivity. Qed.

(** The guarded half of the degenerate case: no task at all. *)
Lemma no_task_result fuel :
  calculateCPM fuel []
  = Returns {| nodes := []; criticalPath := []; projectDuration := Int 0 |}.
Proof. reflexivity. Qed.

Lemma scenario2_run extra :
  calculateCPM (3 + extra) scenario2
  = Returns {| nodes := [ scheduled (plain "A" 2 [] "not_started" 0) 0 2 0 2 0 true;
                          scheduled (plain "B" 3 ["A"%string] "completed" 40) 2 2 3 3 1 false;
                          scheduled (plain "C" 1 ["A"%string] "not_started" 0) 2 3 2 3 0 true ];
               criticalPath := ["A"%string; "C"%string];
               projectDuration := Int 3 |}.
Proof. apply calculateCPM_fuel_mono with (fuel := 3%nat); [reflexivity | lia]. Qed.

(** C2, as the code computes it: with B completed, B has effective
    duration 0 and EF 2, the project lasts 3, and B is NOT critical: its
    latest finish is the project duration 3, hence its float is 1; the
    critical path is A, C. *)
Theorem scenario2_result extra :
  calculateCPM (3 + extra) scenario2
  = Returns {| nodes := [ scheduled (plain "A" 2 [] "not_started" 0) 0 2 0 2 0 true;
                          scheduled (plain "B" 3 ["A"%string] "completed" 40) 2 2 3 3 1 false;
                          scheduled (plain "C" 1 ["A"%string] "not_started" 0) 2 3 2 3 0 true ];
               criticalPath := ["A"%string; "C"%string];
               projectDuration := Int 3 |}
  /\ effectiveDuration (plain "B" 3 ["A"%string] "completed" 40) = Int 0.
Proof.
  split; [apply scenario2_run | reflexivity].
Qed.

(** C2 as stated fails: no run on the second scenario returns a node B
    that is critical. *)
Lemma scenario2_B_critical_fails :
  ~ exists fuel r b,
      calculateCPM fuel scenario2 = Returns r
      /\ In b (nodes r) /\ id (task b) = "B"%string
      /\ effectiveDuration (task b) = Int 0
      /\ ef b = Int 2
      /\ projectDuration r = Int 3
      /\ isCritical b = true.
Proof.
  intros (fuel & r & b & Hr & Hb & Hid & _ & _ & _ & Hc).
  destruct fuel as [|[|[|extra]]]; try discriminate.
  pose proof (scenario2_run extra) as E.
  change (S (S (S extra))) with (3 + extra)%nat in Hr.
  rewrite E in Hr. injection Hr as <-. simpl in Hb.
  destruct Hb as [<-|[<-|[<-|[]]]]; simpl in *; discriminate.
Qed.

(** C9: a task whose dependency names no task of the input is never
    dequeued, so it is left out of the schedule; with the dependency
    removed the same task is scheduled from day 0. *)
Theorem dangling_dependency_unscheduled extra :
  calculateCPM (2 + extra) dangling
  = Returns {| nodes := [ scheduled (plain "A" 2 [] "not_started" 0) 0 2 0 2 0 true ];
               criticalPath := ["A"%string];
               projectDuration := Int 2 |}
  /\ calculateCPM (2 + extra) dangling_removed
     = Returns {| nodes := [ scheduled (plain "A" 2 [] "not_started" 0) 0 2 1 3 1 false;
                             scheduled (plain "X" 3 [] "not_started" 0) 0 3 0 3 0 true ];
                  criticalPath := ["X"%string];
                  projectDuration := Int 3 |}.
Proof.
  split; apply calculateCPM_fuel_mono with (fuel := 2%nat); try reflexivity; lia.
Qed.

(** ** The relations of every node *)

Section NodeRelations.
Import JsMap JsMapFacts.

Lemma forward_fields_refl n : forward_fields n n.
Proof. repeat split. Qed.

Lemma forward_fields_trans a b c :
  forward_fields a b -> forward_fields b c -> forward_fields a c.
Proof. unfold forward_fields. intuition congruence. Qed.

Lemma backward_upd_forward_fields successors pd ns x n :
  forward_fields n (backward_upd successors pd ns x n).
Proof. repeat split. Qed.

Lemma strict_eq_zero x : Number.strict_eq x (Int 0) = true <-> x = Int 0.
Proof.
  destruct x; simpl; split; try discriminate.
  - intros H. apply Z.eqb_eq in H. now subst.
  - intros [= ->]. reflexivity.
Qed.

Lemma floatStep_relations n :
  forward_ok n -> backward_ok n -> node_relations (floatStep n).
Proof.
  intros Hf Hb. unfold node_relations, floatStep. simpl.
  repeat split; auto; apply strict_eq_zero.
Qed.

Lemma schedule_relations taskMap predecessors successors sorted r :
  schedule taskMap predecessors successors sorted = Returns r ->
  Forall node_relations (nodes r).
Proof.
  intros Hrun. apply schedule_inv in Hrun.
  destruct Hrun as (ns0 & ns1 & ns2 & H0 & H1 & H2 & H3 & _ & _).
  apply collect_inv in H3. apply Forall_forall. intros n Hn.
  assert (Hx : exists x, In x sorted /\ get (floatAll ns2) x = Some n).
  { clear - H3 Hn. induction H3 as [|x n' l r' Hg _ IH]; [inversion Hn|].
    destruct Hn as [->|Hn].
    - exists x. split; [now left | auto].
    - destruct (IH Hn) as (y & Hy & Hgy). exists y. split; [now right | auto]. }
  destruct Hx as (x & Hx & Hg). rewrite floatAll_get in Hg.
  destruct (get ns2 x) as [n2|] eqn:Hn2; [|discriminate]. injection Hg as <-.
  apply floatStep_relations.
  - destruct (pass_preserves _ forward_fields forward_fields_refl forward_fields_trans
                (backward_upd_forward_fields _ _) _ _ _ H2 x n2 Hn2)
      as (n1 & Hn1 & Ht & He & Hf).
    assert (Hok : forward_ok n1).
    { eapply (pass_establishes _ forward_ok); [|exact H1|exact Hn1|now left].
      intros ns y n. reflexivity. }
    unfold forward_ok in *. congruence.
  - eapply (pass_establishes _ backward_ok); [|exact H2|exact Hn2|].
    + intros ns y n. reflexivity.
    + left. now apply -> in_rev.
Qed.

End NodeRelations.



(** ** analyzeResourceAllocation *)

Section Analysis.
Import JsMap JsMapFacts.

Lemma truthy_nonempty s dev : truthy s = Some dev -> dev <> ""%string /\ s = Some dev.
Proof.
  unfold truthy. destruct s as [v|]; [|discriminate].
  destruct (String.eqb v "") eqn:E; [discriminate|].
  intros [= <-]. apply String.eqb_neq in E. auto.
Qed.

Lemma accumulate_unassigned m n :
  truthy (assigneeId (task n)) = None -> accumulate m n = m.
Proof. unfold accumulate. now intros ->. Qed.

Lemma group_app dev l1 l2 : group dev (l1 ++ l2) = group dev l1 ++ group dev l2.
Proof. apply filter_app. Qed.

Lemma total_duration_app g1 g2 :
  total_duration (g1 ++ g2) = total_duration g1 + total_duration g2.
Proof.
  unfold total_duration. induction g1 as [|n g1 IH]; simpl; auto.
  rewrite IH. lia.
Qed.

Lemma summed_snoc g n :
  summed (g ++ [n]) = Number.add (summed g) (Int (duration (task n))).
Proof. unfold summed. now rewrite fold_left_app. Qed.

Lemma load_of_snoc g n :
  load_of (g ++ [n])
  = Some (let existing :=
            match load_of g with
            | Some e => e
            | None => {| DeveloperLoad.name := or_else (assigneeName (task n)) "Unknown";
                         DeveloperLoad.tasks := 0;
                         DeveloperLoad.criticalTasks := 0;
                         DeveloperLoad.totalDuration := Int 0 |}
            end in
          {| DeveloperLoad.name := DeveloperLoad.name existing;
             DeveloperLoad.tasks := DeveloperLoad.tasks existing + 1;
             DeveloperLoad.criticalTasks :=
               if isCritical n then DeveloperLoad.criticalTasks existing + 1
               else DeveloperLoad.criticalTasks existing;
             DeveloperLoad.totalDuration :=
               Number.add (DeveloperLoad.totalDuration existing)
                          (Int (duration (task n))) |}).
Proof.
  destruct g as [|f g].
  - cbn [app load_of]. cbv zeta.
    cbn [DeveloperLoad.name DeveloperLoad.tasks DeveloperLoad.criticalTasks
         DeveloperLoad.totalDuration length filter].
    change (summed [n]) with (Number.add (Int 0) (Int (duration (task n)))).
    destruct (isCritical n); reflexivity.
  - change ((f :: g) ++ [n]) with (f :: (g ++ [n])).
    unfold load_of. cbv zeta. f_equal.
    cbn [DeveloperLoad.name DeveloperLoad.tasks DeveloperLoad.criticalTasks
         DeveloperLoad.totalDuration].
    change (f :: g ++ [n]) with ((f :: g) ++ [n]).
    rewrite filter_app, summed_snoc, !length_app. cbn [filter].
    destruct (isCritical n); cbn [length]; f_equal; lia.
Qed.

Lemma accumulate_spec P : forall dev,
  get (fold_left accumulate P empty) dev = load_of (group dev P).
Proof.
  induction P as [|n P IH] using rev_ind; intros dev.
  - reflexivity.
  - rewrite fold_left_app, group_app. simpl fold_left.
    unfold accumulate. unfold group at 2. simpl filter.
    destruct (truthy (assigneeId (task n))) as [d|] eqn:Et; simpl option_string_eqb.
    + rewrite get_set. destruct (String.eqb d dev) eqn:E.
      * apply String.eqb_eq in E. subst d. rewrite load_of_snoc, IH. reflexivity.
      * rewrite app_nil_r. apply IH.
    + rewrite app_nil_r. apply IH.
Qed.

Lemma accumulate_NoDup l : NoDup (keys (fold_left accumulate l empty)).
Proof.
  assert (H : forall m, NoDup (keys m) -> NoDup (keys (fold_left accumulate l m))).
  { induction l as [|n l IH]; intros m Hm; simpl; auto.
    apply IH. unfold accumulate. destruct (truthy _); auto.
    now apply NoDup_keys_set. }
  apply H. constructor.
Qed.

Lemma load_of_Some g load :
  load_of g = Some load ->
  exists first rest, g = first :: rest
    /\ DeveloperLoad.name load = or_else (assigneeName (task first)) "Unknown"
    /\ DeveloperLoad.tasks load = Z.of_nat (length g)
    /\ DeveloperLoad.criticalTasks load = Z.of_nat (length (filter isCritical g))
    /\ DeveloperLoad.totalDuration load = summed g.
Proof.
  destruct g as [|f g]; simpl; [discriminate|].
  intros [= <-]. exists f, g. simpl. auto.
Qed.

Lemma group_nonempty dev l :
  group dev l <> [] <-> exists n, In n l /\ truthy (assigneeId (task n)) = Some dev.
Proof.
  unfold group. split.
  - intros H. destruct (filter _ l) as [|n g] eqn:E; [congruence|].
    assert (Hn : In n (filter (fun n => option_string_eqb (truthy (assigneeId (task n))) dev) l))
      by (rewrite E; now left).
    apply filter_In in Hn. destruct Hn as [Hn Hb]. exists n. split; auto.
    destruct (truthy _) as [d|]; simpl in Hb; [|discriminate].
    apply String.eqb_eq in Hb. now subst.
  - intros (n & Hn & Ht) E.
    assert (Hin : In n (filter (fun n => option_string_eqb (truthy (assigneeId (task n))) dev) l)).
    { apply filter_In. split; auto. rewrite Ht. simpl. apply String.eqb_refl. }
    rewrite E in Hin. inversion Hin.
Qed.

Lemma loads_keys l dev :
  In dev (keys (fold_left accumulate l empty))
  <-> exists n, In n l /\ truthy (assigneeId (task n)) = Some dev.
Proof.
  rewrite <- group_nonempty. split.
  - intros Hin. apply key_get_Some in Hin. destruct Hin as (ld & Hl).
    rewrite accumulate_spec in Hl. intros E. rewrite E in Hl. discriminate.
  - intros Hne. destruct (get (fold_left accumulate l empty) dev) eqn:E.
    + eapply get_Some_key; eauto.
    + rewrite accumulate_spec in E. destruct (group dev l); [congruence|discriminate].
Qed.

Lemma total_duration_cons n g :
  total_duration (n :: g) = duration (task n) + total_duration g.
Proof. reflexivity. Qed.

Lemma total_duration_nonneg l :
  (forall n, In n l -> 0 <= duration (task n)) -> 0 <= total_duration l.
Proof.
  induction l as [|n l IH]; intros H; [unfold total_duration; simpl; lia|].
  rewrite total_duration_cons.
  assert (0 <= duration (task n)) by (apply H; now left).
  assert (0 <= total_duration l) by (apply IH; intros; apply H; now right). lia.
Qed.

Lemma total_duration_filter (p : CPMNode -> bool) l :
  (forall n, In n l -> 0 <= duration (task n)) ->
  0 <= total_duration (filter p l) <= total_duration l.
Proof.
  induction l as [|n l IH]; intros H; [unfold total_duration; simpl; lia|].
  assert (Hn : 0 <= duration (task n)) by (apply H; now left).
  assert (Hl : 0 <= total_duration (filter p l) <= total_duration l)
    by (apply IH; intros; apply H; now right).
  cbn [filter]. destruct (p n); rewrite ?total_duration_cons; lia.
Qed.

(** As long as the total is a safe integer the sum is exact. *)
Lemma summed_exact g :
  (forall n, In n g -> 0 <= duration (task n)) ->
  total_duration g <= MAX_SAFE_INTEGER ->
  summed g = Int (total_duration g).
Proof.
  unfold MAX_SAFE_INTEGER.
  induction g as [|n g IH] using rev_ind; intros Hpos Hmax; [reflexivity|].
  rewrite total_duration_app in *. rewrite summed_snoc.
  assert (Hn : 0 <= duration (task n)) by (apply Hpos, in_or_app; right; now left).
  assert (Hg : 0 <= total_duration g).
  { apply total_duration_nonneg. intros; apply Hpos, in_or_app; now left. }
  change (total_duration [n]) with (duration (task n) + 0) in *.
  rewrite IH by (try lia; intros; apply Hpos, in_or_app; now left).
  rewrite add_exact by lia. f_equal. lia.
Qed.

Lemma toString_small z :
  Z.abs z <= 2 ^ 53 -> Number.toString (Int z) = Number.Z_to_string z.
Proof.
  intros H. unfold Number.toString. apply Z.leb_le in H. now rewrite H.
Qed.

End Analysis.

(** C8, as the code computes it, for a result that fits into an array:
    the loads are keyed by the truthy assignee ids, one entry per id;
    each entry counts the nodes of its group and the critical ones among
    them, and adds up their raw durations one after the other, as
    doubles; its name is the assignee name of the first node of the
    group, or "Unknown".  The sum is the exact one, and is printed with
    all its digits, when the durations of the group are nonnegative and
    add up to at most [Number.MAX_SAFE_INTEGER].  The recommendations
    are exactly: for every entry with at least 3 critical tasks, the
    message that names the developer AND, in parentheses, the developer
    id; for every entry whose total duration exceeds
    [projectDuration * 0.7] in binary64, the workload message. *)
Theorem resource_analysis_spec (result : CPMResult) :
  Z.of_nat (length (nodes result)) < 2 ^ 32 ->
  let a := analyzeResourceAllocation result in
  NoDup (map fst (developerLoad a))
  /\ (forall dev, In dev (map fst (developerLoad a))
        <-> exists n, In n (nodes result) /\ truthy (assigneeId (task n)) = Some dev)
  /\ (forall dev load, In (dev, load) (developerLoad a) ->
        exists first rest,
          group dev (nodes result) = first :: rest
          /\ DeveloperLoad.name load = or_else (assigneeName (task first)) "Unknown"
          /\ DeveloperLoad.tasks load = Z.of_nat (length (group dev (nodes result)))
          /\ DeveloperLoad.criticalTasks load
             = Z.of_nat (length (filter isCritical (group dev (nodes result))))
          /\ DeveloperLoad.totalDuration load = summed (group dev (nodes result)))
  /\ (forall dev,
        (forall n, In n (group dev (nodes result)) -> 0 <= duration (task n)) ->
        total_duration (group dev (nodes result)) <= MAX_SAFE_INTEGER ->
        summed (group dev (nodes result))
        = Int (total_duration (group dev (nodes result)))
        /\ Number.toString (summed (group dev (nodes result)))
           = Number.Z_to_string (total_duration (group dev (nodes result))))
  /\ (forall s, In s (recommendations a) <->
        exists dev load, In (dev, load) (developerLoad a)
          /\ ((3 <= DeveloperLoad.criticalTasks load
               /\ s = (DeveloperLoad.name load ++ " (" ++ dev ++ ") has "
                       ++ Number.Z_to_string (DeveloperLoad.criticalTasks load)
                       ++ " critical tasks. Consider redistributing to reduce risk.")%string)
              \/ (Float64.ltb
                    (Float64.mul (Number.to_float (projectDuration result)) Float64.lit_0_7)
                    (Number.to_float (summed (group dev (nodes result)))) = true
                  /\ s = (DeveloperLoad.name load ++ " is assigned "
                          ++ Number.toString (summed (group dev (nodes result)))
                          ++ " days of work across "
                          ++ Number.Z_to_string (DeveloperLoad.tasks load)
                          ++ " tasks. This exceeds 70% of the project timeline.")%string))).
Proof.
  intros Hlen.
  cbv zeta. unfold analyzeResourceAllocation. simpl developerLoad. simpl recommendations.
  set (loads := fold_left accumulate (nodes result) JsMap.empty).
  assert (Hnd : NoDup (JsMap.keys loads)) by apply accumulate_NoDup.
  assert (Hget : forall dev, JsMap.get loads dev = load_of (group dev (nodes result)))
    by apply accumulate_spec.
  assert (Hload : forall dev load, In (dev, load) loads ->
            exists first rest,
              group dev (nodes result) = first :: rest
              /\ DeveloperLoad.name load = or_else (assigneeName (task first)) "Unknown"
              /\ DeveloperLoad.tasks load = Z.of_nat (length (group dev (nodes result)))
              /\ DeveloperLoad.criticalTasks load
                 = Z.of_nat (length (filter isCritical (group dev (nodes result))))
              /\ DeveloperLoad.totalDuration load = summed (group dev (nodes result))).
  { intros dev load Hin. apply JsMapFacts.In_get_Some in Hin; auto.
    rewrite Hget in Hin. apply load_of_Some in Hin.
    destruct Hin as (f & rest & Hg & Hname & Ht & Hc & Hd). exists f, rest.
    repeat split; auto. }
  assert (Hmsg : forall dev load, In (dev, load) loads ->
            criticalMessage dev load
            = (DeveloperLoad.name load ++ " (" ++ dev ++ ") has "
               ++ Number.Z_to_string (DeveloperLoad.criticalTasks load)
               ++ " critical tasks. Consider redistributing to reduce risk.")%string
            /\ durationMessage load
               = (DeveloperLoad.name load ++ " is assigned "
                  ++ Number.toString (summed (group dev (nodes result)))
                  ++ " days of work across "
                  ++ Number.Z_to_string (DeveloperLoad.tasks load)
                  ++ " tasks. This exceeds 70% of the project timeline.")%string
            /\ exceedsTimeline (projectDuration result) load
               = Float64.ltb
                   (Float64.mul (Number.to_float (projectDuration result)) Float64.lit_0_7)
                   (Number.to_float (summed (group dev (nodes result))))).
  { intros dev load Hin.
    destruct (Hload dev load Hin) as (f & rest & _ & _ & Ht & Hc & Hd).
    pose proof (filter_length_le
                  (fun n => option_string_eqb (truthy (assigneeId (task n))) dev)
                  (nodes result)) as Hl1.
    fold (group dev (nodes result)) in Hl1.
    pose proof (filter_length_le isCritical (group dev (nodes result))) as Hl2.
    unfold criticalMessage, durationMessage, exceedsTimeline.
    rewrite Hd, !toString_small by (rewrite ?Ht, ?Hc; lia).
    auto. }
  split; [exact Hnd|]. split; [|split; [|split]].
  - intros dev. apply loads_keys.
  - exact Hload.
  - intros dev Hpos Hsafe. rewrite (summed_exact _ Hpos Hsafe). split; [reflexivity|].
    apply toString_small.
    pose proof (total_duration_nonneg _ Hpos). unfold MAX_SAFE_INTEGER in Hsafe. lia.
  - intros s0. rewrite in_flat_map. split.
    + intros ([dev load] & Hin & Hs). exists dev, load. split; auto.
      destruct (Hmsg dev load Hin) as (Ec & Ed & Ee).
      unfold recommend in Hs. simpl fst in Hs. simpl snd in Hs.
      apply in_app_iff in Hs. destruct Hs as [Hs|Hs].
      * left. destruct (Z.leb_spec 3 (DeveloperLoad.criticalTasks load)); [|inversion Hs].
        destruct Hs as [<-|[]]. split; auto.
      * right. rewrite Ee in Hs.
        destruct (Float64.ltb _ _) eqn:E; [|inversion Hs].
        destruct Hs as [<-|[]]. split; auto.
    + intros (dev & load & Hin & Hs). exists (dev, load). split; auto.
      destruct (Hmsg dev load Hin) as (Ec & Ed & Ee).
      unfold recommend. simpl fst. simpl snd. apply in_or_app.
      destruct Hs as [[Hc ->]|[He ->]].
      * left. apply Z.leb_le in Hc. rewrite Hc, Ec. now left.
      * right. rewrite Ee, He, Ed. now left.
Qed.

Lemma resource_analysis_spec_witness :
  let a := analyzeResourceAllocation three_critical in
  NoDup (map fst (developerLoad a))
  /\ (forall dev load, In (dev, load) (developerLoad a) ->
        DeveloperLoad.totalDuration load = summed (group dev (nodes three_critical))).
Proof.
  destruct (resource_analysis_spec three_critical) as (Hnd & _ & Hload & _).
  - vm_compute. reflexivity.
  - split; [exact Hnd|]. intros dev load Hin.
    destruct (Hload dev load Hin) as (f & rest & _ & _ & _ & _ & Hd). exact Hd.
Defined.

(** C8 as stated fails: an assignee with three critical tasks does not
    get the message without the developer id. *)
Lemma critical_message_carries_id :
  let a := analyzeResourceAllocation three_critical in
  In ("d1"%string,
      {| DeveloperLoad.name := "Ann"; DeveloperLoad.tasks := 3;
         DeveloperLoad.criticalTasks := 3; DeveloperLoad.totalDuration := Int 6 |})
     (developerLoad a)
  /\ ~ In "Ann has 3 critical tasks. Consider redistributing to reduce risk."%string
          (recommendations a)
  /\ recommendations a
     = ["Ann (d1) has 3 critical tasks. Consider redistributing to reduce risk."%string].
Proof.
  cbv zeta.
  assert (E : recommendations (analyzeResourceAllocation three_critical)
              = ["Ann (d1) has 3 critical tasks. Consider redistributing to reduce risk."%string])
    by (vm_compute; reflexivity).
  split; [vm_compute; now left|]. split; [|exact E].
  rewrite E. intros [H|[]]. discriminate H.
Qed.

(** C10: a node whose assigneeId is the empty string is skipped like an
    unassigned one: the analysis is the one of the result without that
    node, and no load entry is ever keyed by the empty string. *)
Theorem empty_assignee_is_unassigned pre post n cp pd :
  assigneeId (task n) = Some ""%string ->
  analyzeResourceAllocation
    {| nodes := pre ++ n :: post; criticalPath := cp; projectDuration := pd |}
  = analyzeResourceAllocation
      {| nodes := pre ++ post; criticalPath := cp; projectDuration := pd |}
  /\ ~ In ""%string
        (map fst (developerLoad
           (analyzeResourceAllocation
              {| nodes := pre ++ n :: post; criticalPath := cp; projectDuration := pd |}))).
Proof.
  intros Hn. split.
  - unfold analyzeResourceAllocation. simpl nodes. simpl projectDuration.
    rewrite !fold_left_app. simpl fold_left.
    rewrite (accumulate_unassigned _ n); [reflexivity|].
    now rewrite Hn.
  - intros Hin. unfold analyzeResourceAllocation in Hin. simpl in Hin.
    apply loads_keys in Hin.
    destruct Hin as (m & _ & Hm). apply truthy_nonempty in Hm. tauto.
Qed.

Lemma empty_assignee_is_unassigned_witness :
  analyzeResourceAllocation with_empty_assignee
  = analyzeResourceAllocation
      {| nodes := [assigned "t1" 50 true (Some "d1"%string) (Some "Ann"%string)];
         criticalPath := ["t1"%string; "t2"%string];
         projectDuration := Int 90 |}.
Proof.
  exact (proj1 (empty_assignee_is_unassigned
                  [assigned "t1" 50 true (Some "d1"%string) (Some "Ann"%string)] []
                  (assigned "t2" 80 true (Some ""%string) (Some "Bob"%string))
                  ["t1"%string; "t2"%string] (Int 90) eq_refl)).
Defined.

(** ** Sorting the critical path *)

Section Sorting.

Lemma sort_insert_perm {A} (cmp : A -> A -> number) a l :
  Permutation (sort_insert cmp a l) (a :: l).
Proof.
  induction l as [|b l IH]; simpl; auto.
  destruct (positive_result (cmp a b)); auto.
  rewrite IH. apply perm_swap.
Qed.

Lemma Array_sort_perm {A} (cmp : A -> A -> number) l : Permutation (Array_sort cmp l) l.
Proof.
  induction l as [|a l IH]; simpl; auto.
  rewrite sort_insert_perm. now constructor.
Qed.

Lemma Array_sort_map {A B} (f : A -> B) (cmpA : A -> A -> number) (cmpB : B -> B -> number) l :
  (forall a b, In a l -> In b l -> cmpB (f a) (f b) = cmpA a b) ->
  Array_sort cmpB (map f l) = map f (Array_sort cmpA l).
Proof.
  induction l as [|a l IH]; intros H; simpl; auto.
  rewrite IH by (intros; apply H; simpl; auto).
  assert (Hs : forall b, In b (Array_sort cmpA l) -> In b l).
  { intros b Hb. eapply Permutation_in; [apply Array_sort_perm | exact Hb]. }
  revert Hs. generalize (Array_sort cmpA l) as s0.
  induction s0 as [|b s0 IHs]; intros Hs; simpl; auto.
  rewrite H by (simpl; auto using in_eq).
  destruct (positive_result (cmpA a b)); simpl; auto.
  f_equal. apply IHs. intros c Hc. apply Hs. now right.
Qed.

Lemma precedes_cons {A} (l : list A) x a b : precedes l a b -> precedes (x :: l) a b.
Proof.
  intros (l1 & l2 & l3 & ->). now exists (x :: l1), l2, l3.
Qed.

Lemma precedes_head {A} (l : list A) a b : In b l -> precedes (a :: l) a b.
Proof.
  intros H. apply in_split in H. destruct H as (l2 & l3 & ->). now exists [], l2, l3.
Qed.

Lemma precedes_filter {A} (p : A -> bool) (l : list A) a b :
  precedes (filter p l) a b -> precedes l a b.
Proof.
  induction l as [|x l IH]; simpl.
  - intros (l1 & l2 & l3 & H). destruct l1; discriminate.
  - destruct (p x) eqn:E.
    + intros (l1 & l2 & l3 & H). destruct l1 as [|y l1].
      * simpl in H. injection H as -> H.
        apply precedes_head.
        assert (Hb : In b (filter p l)) by (rewrite H; apply in_or_app; right; now left).
        apply filter_In in Hb. tauto.
      * simpl in H. injection H as -> H. apply precedes_cons, IH. now exists l1, l2, l3.
    + intros H. apply precedes_cons, IH, H.
Qed.

Variable key : CPMNode -> Z.

Lemma sort_insert_sorted l a s0 :
  (forall b, In b s0 -> In b l) ->
  (forall b, In b s0 -> positive_result (compareNodes a b) = true <-> key b < key a) ->
  StronglySorted (sorted_by key (a :: l)) s0 ->
  StronglySorted (sorted_by key (a :: l)) (sort_insert compareNodes a s0).
Proof.
  intros Hin Hcmp Hs. induction s0 as [|b s0 IH]; simpl.
  - constructor; constructor.
  - apply StronglySorted_inv in Hs. destruct Hs as [Hs Hb].
    destruct (positive_result (compareNodes a b)) eqn:E.
    + constructor.
      * apply IH; auto.
        -- intros c Hc. apply Hin. now right.
        -- intros c Hc. apply Hcmp. now right.
      * apply Forall_forall. intros c Hc.
        apply (Permutation_in _ (sort_insert_perm compareNodes a s0)) in Hc.
        destruct Hc as [<-|Hc].
        -- left. apply Hcmp; auto. now left.
        -- rewrite Forall_forall in Hb. now apply Hb.
    + assert (Hab : key a <= key b).
      { destruct (Z.lt_ge_cases (key b) (key a)) as [Hlt|Hge]; auto.
        apply (Hcmp b (or_introl eq_refl)) in Hlt. congruence. }
      constructor.
      * constructor; auto.
      * apply Forall_forall. intros c Hc.
        assert (Hbc : key b <= key c).
        { destruct Hc as [<-|Hc]; [lia|].
          rewrite Forall_forall in Hb. destruct (Hb c Hc) as [?|[? _]]; lia. }
        assert (Hpre : precedes (a :: l) a c) by (apply precedes_head, Hin, Hc).
        destruct (Z.eq_dec (key a) (key c)); [right; split; auto | left; lia].
Qed.

Lemma Array_sort_sorted l :
  (forall a b, In a l -> In b l ->
     (positive_result (compareNodes a b) = true <-> key b < key a)) ->
  StronglySorted (sorted_by key l) (Array_sort compareNodes l).
Proof.
  induction l as [|a l IH]; intros Hcmp; simpl.
  - constructor.
  - assert (Hsub : forall b, In b (Array_sort compareNodes l) -> In b l).
    { intros b Hb. eapply Permutation_in; [apply Array_sort_perm | exact Hb]. }
    apply sort_insert_sorted; auto.
    + intros b Hb. apply Hcmp; simpl; auto.
    + assert (IH' : StronglySorted (sorted_by key l) (Array_sort compareNodes l)).
      { apply IH. intros x y Hx Hy. apply Hcmp; simpl; auto. }
      clear - IH'. induction IH' as [|x s0 Hs IHs Hx]; constructor; auto.
      eapply Forall_impl; [|exact Hx].
      intros y [Hlt|[He Hp]]; [now left | right; split; auto using precedes_cons].
Qed.

End Sorting.

(** ** The result for pairwise distinct ids *)

Section UniqueIds.
Import JsMap JsMapFacts.

Lemma collect_skip (ns : JsMap.t CPMNode) k v l :
  ~ In k l -> collectNodes ((k, v) :: ns) l = collectNodes ns l.
Proof.
  induction l as [|x l IH]; intros Hk; simpl; auto.
  assert (E : String.eqb k x = false) by (apply String.eqb_neq; intros ->; apply Hk; now left).
  rewrite E. rewrite IH; auto. intros H. apply Hk. now right.
Qed.

Lemma collect_values (ns : JsMap.t CPMNode) :
  NoDup (keys ns) -> collectNodes ns (keys ns) = Returns (values ns).
Proof.
  induction ns as [|[k v] ns IH]; intros Hnd; simpl; auto.
  inversion Hnd as [|? ? Hni Hnd']; subst.
  rewrite String.eqb_refl, collect_skip by assumption.
  fold (keys ns). rewrite IH by assumption. reflexivity.
Qed.

Lemma same_task_refl n : same_task n n.
Proof. reflexivity. Qed.

Lemma same_task_trans a b c : same_task a b -> same_task b c -> same_task a c.
Proof. unfold same_task. congruence. Qed.

Lemma forward_upd_same_task predecessors ns x n :
  same_task n (forward_upd predecessors ns x n).
Proof. reflexivity. Qed.

Lemma backward_upd_same_task successors pd ns x n :
  same_task n (backward_upd successors pd ns x n).
Proof. reflexivity. Qed.

(** The final node map of a run over a repetition-free order: its keys
    are the order, its values are the returned nodes, and every node sits
    under its own id and carries the task of that id. *)
Lemma schedule_shape tasks predecessors successors sorted r :
  NoDup sorted ->
  schedule (buildTaskMap tasks) predecessors successors sorted = Returns r ->
  exists ns0 ns1 ns2,
    forEach (init_step (buildTaskMap tasks)) sorted empty = Returns ns0
    /\ forEach (pass_step (forward_upd predecessors)) sorted ns0 = Returns ns1
    /\ forEach (pass_step (backward_upd successors (projectDuration r))) (rev sorted) ns1
       = Returns ns2
    /\ projectDuration r = Number.Math_max (map ef (values ns1))
    /\ keys ns0 = sorted /\ keys ns1 = sorted /\ keys ns2 = sorted
    /\ nodes r = map floatStep (values ns2)
    /\ criticalPath r
       = Array_sort (compareFn (floatAll ns2))
           (map node_id (filter isCritical (values (floatAll ns2))))
    /\ (forall k n, get ns2 k = Some n ->
          node_id n = k /\ In (task n) tasks /\ In k sorted).
Proof.
  intros Hnd Hrun. apply schedule_inv in Hrun.
  destruct Hrun as (ns0 & ns1 & ns2 & H0 & H1 & H2 & H3 & Hcp & Hpd).
  exists ns0, ns1, ns2.
  assert (K0 : keys ns0 = sorted) by (apply (init_keys_fresh _ _ _ _ H0); exact Hnd).
  destruct (pass_inv _ _ _ _ H1) as [_ K1]. destruct (pass_inv _ _ _ _ H2) as [_ K2].
  rewrite K0 in K1. rewrite K1 in K2. rewrite Hpd.
  repeat split; auto.
  - rewrite <- K2, <- (floatAll_keys ns2) in H3.
    rewrite collect_values in H3 by (rewrite floatAll_keys, K2; exact Hnd).
    injection H3 as <-. apply floatAll_values.
  - destruct (pass_preserves _ same_task same_task_refl same_task_trans
                (backward_upd_same_task _ _) _ _ _ H2 k n H) as (n1 & Hn1 & T1).
    destruct (pass_preserves _ same_task same_task_refl same_task_trans
                (forward_upd_same_task _) _ _ _ H1 k n1 Hn1) as (n0 & Hn0 & T0).
    destruct (init_inv _ _ _ _ H0) as (_ & _ & _ & Hg).
    destruct (Hg k n0 Hn0) as [Hg0|(t & Ht & ->)]; [discriminate|].
    apply taskMap_get in Ht. unfold node_id, same_task in *. simpl in *.
    rewrite T1, T0. tauto.
  - destruct (pass_preserves _ same_task same_task_refl same_task_trans
                (backward_upd_same_task _ _) _ _ _ H2 k n H) as (n1 & Hn1 & T1).
    destruct (pass_preserves _ same_task same_task_refl same_task_trans
                (forward_upd_same_task _) _ _ _ H1 k n1 Hn1) as (n0 & Hn0 & T0).
    destruct (init_inv _ _ _ _ H0) as (_ & _ & _ & Hg).
    destruct (Hg k n0 Hn0) as [Hg0|(t & Ht & ->)]; [discriminate|].
    apply taskMap_get in Ht. unfold node_id, same_task in *. simpl in *.
    rewrite T1, T0. tauto.
  - rewrite <- K2. eapply get_Some_key; eauto.
Qed.

Lemma StronglySorted_weaken {A} (R R' : A -> A -> Prop) l :
  (forall a b, In a l -> In b l -> R a b -> R' a b) ->
  StronglySorted R l -> StronglySorted R' l.
Proof.
  intros H Hs. induction Hs as [|a l Hs IH Ha]; constructor.
  - apply IH. intros x y Hx Hy. apply H; now right.
  - rewrite Forall_forall in *. intros b Hb. apply H; simpl; auto.
Qed.

Lemma critical_es_int n :
  node_relations n -> isCritical n = true -> es n = Int (es_value n).
Proof.
  intros (_ & _ & Hf & Hc) Hcrit. apply Hc in Hcrit. rewrite Hf in Hcrit.
  unfold es_value. destruct (ls n), (es n); simpl in Hcrit; try discriminate; reflexivity.
Qed.

Lemma critical_path_of_schedule tasks predecessors successors sorted r :
  NoDup sorted ->
  schedule (buildTaskMap tasks) predecessors successors sorted = Returns r ->
  criticalPath r = map node_id (Array_sort compareNodes (filter isCritical (nodes r)))
  /\ StronglySorted (by_es_then (nodes r))
       (Array_sort compareNodes (filter isCritical (nodes r))).
Proof.
  intros Hnd Hrun. pose proof (schedule_relations _ _ _ _ _ Hrun) as Hrel.
  rewrite Forall_forall in Hrel.
  destruct (schedule_shape _ _ _ _ _ Hnd Hrun)
    as (ns0 & ns1 & ns2 & _ & _ & _ & _ & _ & _ & K2 & Hn & Hcp & Hid).
  assert (Hlook : forall n, In n (nodes r) -> get (floatAll ns2) (node_id n) = Some n).
  { intros n Hin. rewrite Hn in Hin. apply in_map_iff in Hin.
    destruct Hin as (n2 & <- & Hin2). unfold values in Hin2.
    apply in_map_iff in Hin2. destruct Hin2 as ([k v] & Hv & Hin2). simpl in Hv. subst v.
    apply In_get_Some in Hin2; [|rewrite K2; exact Hnd].
    destruct (Hid k n2 Hin2) as (Hk & _ & _).
    rewrite floatAll_get. unfold node_id in *. simpl. rewrite Hk, Hin2. reflexivity. }
  assert (Hcrit : forall n, In n (filter isCritical (nodes r)) ->
            In n (nodes r) /\ es n = Int (es_value n)).
  { intros n Hin. apply filter_In in Hin. destruct Hin as [Hin Hc]. split; auto.
    apply critical_es_int; auto. }
  split.
  - rewrite Hcp, floatAll_values, <- Hn. apply Array_sort_map.
    intros a b Ha Hb. unfold compareFn, compareNodes, es_or_0.
    rewrite (Hlook a), (Hlook b); auto; now apply Hcrit.
  - apply StronglySorted_weaken
      with (R := sorted_by es_value (filter isCritical (nodes r))).
    + intros a b Ha Hb. apply (Permutation_in _ (Array_sort_perm _ _)) in Ha, Hb.
      destruct (Hcrit a Ha) as [_ Ea], (Hcrit b Hb) as [_ Eb].
      unfold by_es_then. rewrite Ea, Eb. simpl.
      intros [Hlt|[He Hp]].
      * left. now apply Z.ltb_lt.
      * right. split; [congruence | eapply precedes_filter; eauto].
    + apply Array_sort_sorted. intros a b Ha Hb.
      destruct (Hcrit a Ha) as [_ Ea], (Hcrit b Hb) as [_ Eb].
      unfold compareNodes, positive_result. rewrite Ea, Eb. cbn [Number.sub].
      rewrite round_positive. lia.
Qed.

End UniqueIds.

(** C3, as the code computes it: for pairwise distinct ids the critical
    path lists the ids of exactly the critical nodes, each once, in
    ascending order of ES; nodes with equal ES keep their order in
    [nodes], that is the topological order of the sort, not the order of
    the input. *)
Theorem critical_path_order fuel tasks :
  NoDup (map id tasks) -> (length tasks <= fuel)%nat ->
  exists r crit,
    calculateCPM fuel tasks = Returns r
    /\ criticalPath r = map node_id crit
    /\ Permutation crit (filter isCritical (nodes r))
    /\ StronglySorted (by_es_then (nodes r)) crit.
Proof.
  intros Hids Hfuel. unfold calculateCPM. destruct tasks as [|t0 ts].
  - eexists; exists []. repeat split; simpl; auto. constructor.
  - set (tasks := t0 :: ts) in *.
    destruct (topologicalSort_spec tasks Hids fuel Hfuel)
      as (sorted & Hs & Hnd & Hincl & _).
    rewrite Hs.
    destruct (schedule_returns (buildTaskMap tasks) (buildPredecessors tasks)
                (buildSuccessors tasks) sorted) as (r & Hr).
    { intros a Ha. apply taskMap_keys. now apply Hincl. }
    destruct (critical_path_of_schedule _ _ _ _ _ Hnd Hr) as [Hcp Hsorted].
    exists r, (Array_sort compareNodes (filter isCritical (nodes r))).
    repeat split; auto. apply Array_sort_perm.
Qed.

Lemma critical_path_order_witness :
  exists r crit,
    calculateCPM 2 tie_input = Returns r
    /\ criticalPath r = map node_id crit
    /\ Permutation crit (filter isCritical (nodes r))
    /\ StronglySorted (by_es_then (nodes r)) crit.
Proof.
  apply (critical_path_order 2 tie_input).
  - repeat constructor; simpl; intuition discriminate.
  - simpl. lia.
Defined.

Lemma tie_input_run :
  calculateCPM 2 tie_input
  = Returns {| nodes := [ scheduled (plain "A" 2 [] "completed" 40) 0 0 0 0 0 true;
                          scheduled (plain "X" 3 ["A"%string] "not_started" 0) 0 3 0 3 0 true ];
               criticalPath := ["A"%string; "X"%string];
               projectDuration := Int 3 |}.
Proof. reflexivity. Qed.

(** C3 as stated fails: X is listed before A in the input, both are
    critical with ES 0, and the critical path is A, X. *)
Lemma input_order_ties_fail :
  exists r, calculateCPM 2 tie_input = Returns r /\ ~ ties_by_input_order tie_input r.
Proof.
  eexists. split; [apply tie_input_run|].
  intros H.
  specialize (H "A"%string "X"%string
                (scheduled (plain "A" 2 [] "completed" 40) 0 0 0 0 0 true)
                (scheduled (plain "X" 3 ["A"%string] "not_started" 0) 0 3 0 3 0 true)).
  destruct H as (l1 & l2 & l3 & E); simpl; auto.
  - now exists [], [], [].
  - destruct l1 as [|x l1]; simpl in E; [discriminate|].
    injection E as _ E. destruct l1 as [|y l1]; simpl in E.
    + injection E as E. destruct l2; discriminate.
    + injection E as _ E. destruct l1; discriminate.
Qed.

(** ** Shorter tasks never lengthen the project *)

Section Monotone.
Import JsMap JsMapFacts.

Lemma not_above_refl x : not_above x x.
Proof. number_cases. Qed.

Lemma not_above_add a' a b' b :
  not_above a' a -> not_above b' b -> not_above (Number.add a' b') (Number.add a b).
Proof.
  unfold not_above.
  destruct a', a, b', b; cbn [Number.add Number.leb];
    intros [H1|[H1|H1]] [H2|[H2|H2]]; try discriminate; auto;
    right; right; try reflexivity;
    try (apply round_mono; apply Z.leb_le in H1, H2; lia);
    match goal with
    | |- context [Number.round ?x] =>
        pose proof (round_mono x x (Z.le_refl x)) as Hr;
        destruct (Number.round x); cbn [Number.leb] in *; try discriminate; reflexivity
    end.
Qed.

Lemma not_above_max2 a' a b' b :
  not_above a' a -> not_above b' b -> not_above (Number.max2 a' b') (Number.max2 a b).
Proof. number_cases. Qed.

Lemma not_above_not_lt x' x : not_above x' x -> Number.ltb x x' = false.
Proof.
  unfold not_above, Number.leb, Number.ltb. destruct x', x; intros [H|[H|H]];
    try discriminate; auto.
  apply Z.leb_le in H. apply Z.ltb_ge. lia.
Qed.


Lemma not_above_Math_max l' l :
  Forall2 not_above l' l -> not_above (Number.Math_max l') (Number.Math_max l).
Proof.
  unfold Number.Math_max. generalize (not_above_refl NegInfinity).
  generalize NegInfinity at 1 3 as acc'. generalize NegInfinity as acc.
  intros acc acc' Hacc H. revert acc acc' Hacc.
  induction H as [|x' x l' l Hx _ IH]; intros acc acc' Hacc; simpl; auto.
  apply IH. now apply not_above_max2.
Qed.

Lemma map_rel_get {V} (R : V -> V -> Prop) m' m k :
  map_rel R m' m ->
  match get m' k, get m k with
  | Some v', Some v => R v' v
  | None, None => True
  | _, _ => False
  end.
Proof.
  intros H. induction H as [|[k' v'] [k0 v] m' m [Hk Hv] _ IH]; simpl; auto.
  simpl in Hk, Hv. subst k0. destruct (String.eqb k' k); auto.
Qed.

Lemma map_rel_set {V} (R : V -> V -> Prop) m' m k v' v :
  map_rel R m' m -> R v' v -> map_rel R (set m' k v') (set m k v).
Proof.
  intros H Hv. induction H as [|[k' w'] [k0 w] m' m [Hk Hw] Hm IH]; simpl.
  - constructor; [split; auto | constructor].
  - simpl in Hk, Hw. subst k0. destruct (String.eqb k' k).
    + constructor; [split; auto | exact Hm].
    + constructor; [split; auto | exact IH].
Qed.

Lemma fold_left_same {A B C} (f : A -> B -> A) (g : A -> C -> A) l' l :
  Forall2 (fun b c => forall a, f a b = g a c) l' l ->
  forall a, fold_left f l' a = fold_left g l a.
Proof.
  intros H. induction H as [|b c l' l Hbc _ IH]; intros a; simpl; auto.
  rewrite Hbc. apply IH.
Qed.

Lemma same_graph_maps ts' ts :
  Forall2 same_graph ts' ts ->
  buildPredecessors ts' = buildPredecessors ts
  /\ buildSuccessors ts' = buildSuccessors ts
  /\ (forall predecessors, initInDegree ts' predecessors = initInDegree ts predecessors).
Proof.
  intros H. unfold buildPredecessors, buildSuccessors, linkSuccessors, initSuccessors,
    initInDegree.
  repeat split; intros.
  - apply fold_left_same. eapply Forall2_impl; [|exact H].
    intros t' t [Hi Hd] a. now rewrite Hi, Hd.
  - rewrite (fold_left_same (fun m t => set m (id t) []) (fun m t => set m (id t) []) ts' ts).
    + apply fold_left_same. eapply Forall2_impl; [|exact H].
      intros t' t [Hi Hd] a. now rewrite Hi, Hd.
    + eapply Forall2_impl; [|exact H]. intros t' t [Hi Hd] a. now rewrite Hi.
  - apply fold_left_same. eapply Forall2_impl; [|exact H].
    intros t' t [Hi Hd] a. now rewrite Hi.
Qed.

Lemma taskMap_shorter ts' ts :
  Forall2 shorter_task ts' ts -> shorter_tasks (buildTaskMap ts') (buildTaskMap ts).
Proof.
  unfold buildTaskMap, shorter_tasks.
  assert (H0 : map_rel (fun t' t => not_above (effectiveDuration t') (effectiveDuration t))
                 (@empty CPMInput) empty) by constructor.
  revert H0. generalize (@empty CPMInput) at 1 3 as m'. generalize (@empty CPMInput) as m.
  intros m m' Hm H. revert m m' Hm.
  induction H as [|t' t ts' ts [[Hi _] Ht] _ IH]; intros m m' Hm; simpl; auto.
  apply IH. rewrite Hi. now apply map_rel_set.
Qed.

Lemma init_shorter m' m : shorter_tasks m' m ->
  forall l ns' ns, shorter_map ns' ns ->
    both shorter_map (forEach (init_step m') l ns') (forEach (init_step m) l ns).
Proof.
  intros Hm. induction l as [|x l IH]; intros ns' ns Hns; simpl; auto.
  unfold init_step at 1 3.
  pose proof (map_rel_get _ m' m x Hm) as Hx.
  destruct (get m' x) as [t'|], (get m x) as [t|]; simpl; try tauto.
  apply IH. apply map_rel_set; auto. split; simpl; auto. apply not_above_refl.
Qed.

Lemma ef_or_0_shorter ns' ns p :
  shorter_map ns' ns -> not_above (ef_or_0 ns' p) (ef_or_0 ns p).
Proof.
  intros H. unfold ef_or_0. pose proof (map_rel_get _ ns' ns p H) as Hp.
  destruct (get ns' p), (get ns p); try tauto.
  - apply Hp.
  - apply not_above_refl.
Qed.

Lemma forward_shorter predecessors :
  forall l ns' ns, shorter_map ns' ns ->
    both shorter_map (forEach (pass_step (forward_upd predecessors)) l ns')
                     (forEach (pass_step (forward_upd predecessors)) l ns).
Proof.
  induction l as [|x l IH]; intros ns' ns Hns; simpl; auto.
  unfold pass_step at 1 3.
  pose proof (map_rel_get _ ns' ns x Hns) as Hx.
  destruct (get ns' x) as [n'|], (get ns x) as [n|]; simpl; try tauto.
  apply IH. apply map_rel_set; auto.
  destruct Hx as [Hd He]. unfold forward_upd. split; simpl; auto.
  apply not_above_add; auto.
  destruct (get_list predecessors x) as [|p ps]; [apply not_above_refl|].
  apply not_above_Math_max.
  generalize (p :: ps) as preds. induction preds; simpl; constructor; auto.
  now apply ef_or_0_shorter.
Qed.

Lemma values_ef_shorter ns' ns :
  shorter_map ns' ns -> Forall2 not_above (map ef (values ns')) (map ef (values ns)).
Proof.
  intros H. induction H as [|[k' n'] [k n] ns' ns [_ [_ He]] _ IH]; simpl; constructor; auto.
Qed.

(** Replacing tasks by tasks with the same graph and effective durations
    that are not above the old ones never lengthens the project. *)
Lemma shorter_projectDuration fuel ts' ts r :
  Forall2 shorter_task ts' ts ->
  calculateCPM fuel ts = Returns r ->
  exists r', calculateCPM fuel ts' = Returns r'
             /\ not_above (projectDuration r') (projectDuration r).
Proof.
  intros H Hrun. unfold calculateCPM in *.
  destruct H as [|t0' t0 ts0' ts0 H0 Hrest].
  - injection Hrun as <-. eexists. split; eauto. apply not_above_refl.
  - assert (H : Forall2 shorter_task (t0' :: ts0') (t0 :: ts0)) by (constructor; auto).
    set (ts' := t0' :: ts0') in *. set (ts := t0 :: ts0) in *.
    assert (Hg : Forall2 same_graph ts' ts).
    { eapply Forall2_impl; [|exact H]. intros a b [Hab _]. exact Hab. }
    destruct (same_graph_maps ts' ts Hg) as (Ep & Es & Ei).
    unfold topologicalSort in *. rewrite Ep, Es, Ei.
    destruct (kahnLoop fuel _ _ _ _) as [sorted|] eqn:Hs; [|discriminate].
    assert (Hincl : incl sorted (map id ts')).
    { apply (topologicalSort_incl fuel ts' (buildPredecessors ts)).
      unfold topologicalSort. rewrite Es, Ei. exact Hs. }
    destruct (schedule_returns (buildTaskMap ts') (buildPredecessors ts)
                (buildSuccessors ts) sorted) as (r' & Hr').
    { intros a Ha. apply taskMap_keys. now apply Hincl. }
    exists r'. split; auto.
    apply schedule_inv in Hrun. apply schedule_inv in Hr'.
    destruct Hrun as (ns0 & ns1 & _ & I0 & F1 & _ & _ & _ & ->).
    destruct Hr' as (ns0' & ns1' & _ & I0' & F1' & _ & _ & _ & ->).
    pose proof (init_shorter _ _ (taskMap_shorter ts' ts H) sorted empty empty) as HI.
    rewrite I0, I0' in HI. simpl in HI.
    assert (Hns0 : shorter_map ns0' ns0) by (apply HI; constructor).
    pose proof (forward_shorter (buildPredecessors ts) sorted ns0' ns0 Hns0) as HF.
    rewrite F1, F1' in HF. simpl in HF.
    apply not_above_Math_max, values_ef_shorter, HF.
Qed.

Lemma shorter_task_refl t : shorter_task t t.
Proof. repeat split. apply not_above_refl. Qed.



End Monotone.



(** ** Reading a topological order backwards *)

Section TopologicalOrder.
Import JsMap JsMapFacts.

Variable tasks : list CPMInput.
Hypothesis Hids : NoDup (map id tasks).

Variable sorted : list string.
Hypothesis Hnd : NoDup sorted.
Hypothesis Hord : ordered tasks sorted.

Lemma rev_ordered_sorted :
  rev_ordered (buildSuccessors tasks) (rev sorted).
Proof.
  intros l1 x l2 s Hrev Hs Hin.
  assert (Hsorted : sorted = rev l2 ++ x :: rev l1).
  { rewrite <- (rev_involutive sorted), Hrev, rev_app_distr. simpl.
    now rewrite <- app_assoc. }
  rewrite successors_spec in Hs.
  destruct (in_dec string_dec x (map id tasks)); [|destruct Hs].
  apply In_dependents in Hs. destruct Hs as (ts & Hts & Hid & Hx).
  assert (Hxl2 : ~ In x (rev l2)).
  { rewrite Hsorted in Hnd. apply NoDup_remove_2 in Hnd.
    intros H. apply Hnd. apply in_or_app. now left. }
  rewrite Hrev in Hin. apply in_app_iff in Hin. destruct Hin as [Hin|[->|Hin]]; auto.
  - exfalso. apply Hxl2. apply (Hord (rev l2) s (rev l1) ts); auto.
  - exfalso. apply in_rev in Hin. apply in_split in Hin. destruct Hin as (a & b & Hab).
    rewrite Hab, <- app_assoc in Hsorted. simpl in Hsorted.
    apply Hxl2. rewrite Hab. apply in_or_app. left.
    apply (Hord a s (b ++ x :: rev l1) ts); auto.
Qed.

End TopologicalOrder.

(** ** The values of a node map *)

Section NodeValues.
Import JsMap JsMapFacts.

Lemma values_get {V} (m : JsMap.t V) v :
  NoDup (keys m) -> In v (values m) -> exists k, get m k = Some v.
Proof.
  intros Hnd Hin. unfold values in Hin. apply in_map_iff in Hin.
  destruct Hin as ([k w] & Hw & Hin). simpl in Hw. subst w.
  exists k. now apply In_get_Some.
Qed.

End NodeValues.

(** ** A two-task cycle beside acyclic tasks *)

Section Cycle.
Import JsMap JsMapFacts.

Variable tasks : list CPMInput.
Hypothesis Hids : NoDup (map id tasks).

Variable sorted : list string.
Hypothesis Hnd : NoDup sorted.
Hypothesis Hord : ordered tasks sorted.
Hypothesis Hclosed :
  forall t, In t tasks -> (In (id t) sorted <-> incl (dependencies t) sorted).



End Cycle.

Section CycleResult.
Import JsMap JsMapFacts.

Lemma entries_node_ids (ns : JsMap.t CPMNode) :
  NoDup (keys ns) ->
  (forall k n, get ns k = Some n -> node_id n = k) ->
  map node_id (values ns) = keys ns.
Proof.
  intros Hnd H. unfold values, keys. rewrite map_map. apply map_ext_in.
  intros [k n] Hin. simpl. apply H. now apply In_get_Some.
Qed.

(** The ids and tasks of the returned nodes, for pairwise distinct ids. *)
Lemma schedule_nodes tasks predecessors successors sorted r :
  NoDup sorted ->
  schedule (buildTaskMap tasks) predecessors successors sorted = Returns r ->
  map node_id (nodes r) = sorted /\ forall n, In n (nodes r) -> In (task n) tasks.
Proof.
  intros Hnd Hrun.
  destruct (schedule_shape _ _ _ _ _ Hnd Hrun)
    as (ns0 & ns1 & ns2 & _ & _ & _ & _ & _ & _ & K2 & Hn & _ & Hid).
  split.
  - rewrite Hn, map_map.
    transitivity (map node_id (values ns2)); [reflexivity|].
    rewrite entries_node_ids; auto.
    + now rewrite K2.
    + intros k n Hg. now apply Hid.
  - intros n Hin. rewrite Hn in Hin. apply in_map_iff in Hin.
    destruct Hin as (n2 & <- & Hin2).
    destruct (values_get ns2 n2) as (k & Hg); auto; [now rewrite K2|].
    simpl. now apply (Hid k n2).
Qed.

End CycleResult.

(** ** Further properties of the engine *)

(** X1: on every input and with every amount of fuel, no non-null
    assertion of [calculateCPM] meets [undefined]. *)
Theorem engine_never_faults fuel tasks : calculateCPM fuel tasks <> Fault.
Proof. apply calculateCPM_no_fault. Qed.

(** X2: for pairwise distinct ids, [topologicalSort] returns within
    [length tasks] iterations a list without repetition of task ids that
    holds a task exactly when it holds all its dependencies and lists
    every task behind its dependencies. *)
Theorem sort_is_topological fuel tasks :
  NoDup (map id tasks) -> (length tasks <= fuel)%nat ->
  exists sorted,
    topologicalSort fuel tasks (buildPredecessors tasks) (buildSuccessors tasks)
    = Some sorted
    /\ NoDup sorted
    /\ incl sorted (map id tasks)
    /\ (forall t, In t tasks -> (In (id t) sorted <-> incl (dependencies t) sorted))
    /\ ordered tasks sorted.
Proof. intros Hids Hfuel. now apply topologicalSort_spec. Qed.

Lemma sort_is_topological_witness :
  exists sorted,
    topologicalSort 3 scenario1 (buildPredecessors scenario1) (buildSuccessors scenario1)
    = Some sorted
    /\ NoDup sorted
    /\ incl sorted (map id scenario1)
    /\ (forall t, In t scenario1 -> (In (id t) sorted <-> incl (dependencies t) sorted))
    /\ ordered scenario1 sorted.
Proof.
  apply (sort_is_topological 3 scenario1).
  - repeat constructor; simpl; intuition discriminate.
  - simpl. lia.
Defined.

(** X3: the project duration is monotone in the effective durations:
    replacing every task by one with the same id and dependencies and an
    effective duration that is not above the old one never gives a
    greater project duration. *)
Theorem duration_monotone fuel ts' ts r :
  Forall2 shorter_task ts' ts ->
  calculateCPM fuel ts = Returns r ->
  exists r', calculateCPM fuel ts' = Returns r'
             /\ Number.ltb (projectDuration r) (projectDuration r') = false.
Proof.
  intros H Hrun. destruct (shorter_projectDuration fuel ts' ts r H Hrun) as (r' & Hr' & Hle).
  exists r'. split; auto. now apply not_above_not_lt.
Qed.

Lemma duration_monotone_witness :
  exists r', calculateCPM 3 scenario2 = Returns r'
             /\ Number.ltb (Int 5) (projectDuration r') = false.
Proof.
  apply (duration_monotone 3 scenario2 scenario1
           {| nodes := [ scheduled (plain "A" 2 [] "not_started" 0) 0 2 0 2 0 true;
                         scheduled (plain "B" 3 ["A"%string] "not_started" 0) 2 5 2 5 0 true;
                         scheduled (plain "C" 1 ["A"%string] "not_started" 0) 2 3 4 5 2 false ];
              criticalPath := ["A"%string; "B"%string];
              projectDuration := Int 5 |}).
  - constructor; [apply shorter_task_refl|].
    constructor; [|constructor; [apply shorter_task_refl | constructor]].
    split; [split; reflexivity|]. right. right. reflexivity.
  - reflexivity.
Defined.

Lemma repeated_ids_loop : forall fuel q sorted,
  repeated_ids_queue q ->
  kahnLoop fuel (buildSuccessors repeated_ids)
    (initInDegree repeated_ids (buildPredecessors repeated_ids)) q sorted = None.
Proof.
  induction fuel as [|fuel IH]; intros q sorted Hq.
  - destruct Hq as [-> | [-> | [-> | ->]]]; reflexivity.
  - destruct Hq as [-> | [-> | [-> | ->]]]; cbn [kahnLoop];
      match goal with
      | |- kahnLoop fuel ?s (fst ?st) (snd ?st) ?srt = None =>
          let v := eval vm_compute in st in
          change st with v; cbn [fst snd];
          change (kahnLoop fuel (buildSuccessors repeated_ids)
                    (initInDegree repeated_ids (buildPredecessors repeated_ids))
                    (snd v) srt = None)
      end; apply IH; unfold repeated_ids_queue; cbn [snd]; auto.
Qed.

(** X4: pairwise distinct ids are needed for termination.  When two ids
    are repeated as in [repeated_ids], the last task of each id decides
    its in-degree (0) while the first ones still link the two ids as
    successors of each other; [(inDegree.get(succId) || 1) - 1] then
    re-enqueues an id whose in-degree is already 0, the queue never
    empties, and no amount of fuel lets the loop return. *)
Theorem repeated_ids_never_return fuel : calculateCPM fuel repeated_ids = OutOfFuel.
Proof.
  unfold calculateCPM, topologicalSort. cbn [repeated_ids].
  fold repeated_ids.
  rewrite (repeated_ids_loop fuel (initQueue (initInDegree repeated_ids
             (buildPredecessors repeated_ids))) []); [reflexivity|].
  left. reflexivity.
Qed.

(** X5: for pairwise distinct ids, a task with a dependency that names no
    task of the input is in no returned result. *)
Theorem dangling_never_scheduled fuel tasks t d r :
  NoDup (map id tasks) ->
  In t tasks -> In d (dependencies t) -> ~ In d (map id tasks) ->
  calculateCPM fuel tasks = Returns r ->
  ~ In (id t) (map node_id (nodes r)).
Proof.
  intros Hids Ht Hd Hmiss Hrun Hin.
  apply (calculateCPM_fuel_mono fuel (Nat.max fuel (length tasks))) in Hrun; [|lia].
  unfold calculateCPM in Hrun. destruct tasks as [|t0 ts]; [destruct Ht|].
  set (tasks := t0 :: ts) in *.
  destruct (topologicalSort_spec tasks Hids (Nat.max fuel (length tasks)))
    as (sorted & Hs & Hnd & Hincl & Hclosed & _); [lia|].
  rewrite Hs in Hrun.
  destruct (schedule_nodes _ _ _ _ _ Hnd Hrun) as [Hnids _].
  rewrite Hnids in Hin. apply (Hclosed t Ht) in Hin.
  apply Hmiss, Hincl, Hin, Hd.
Qed.

Lemma dangling_never_scheduled_witness :
  ~ In "X"%string
       (map node_id
          [scheduled (plain "A" 2 [] "not_started" 0) 0 2 0 2 0 true]).
Proof.
  apply (dangling_never_scheduled 2 dangling (plain "X" 3 ["ghost"%string] "not_started" 0)
           "ghost"%string
           {| nodes := [ scheduled (plain "A" 2 [] "not_started" 0) 0 2 0 2 0 true ];
              criticalPath := ["A"%string];
              projectDuration := Int 2 |}).
  - repeat constructor; simpl; intuition discriminate.
  - right. now left.
  - now left.
  - simpl. intuition discriminate.
  - reflexivity.
Defined.

(** X6: pairwise distinct ids are needed for a nonnegative float.  In
    [repeated_b] the last B decides the predecessors of B (none) while the
    first B makes B a successor of A; B is dequeued before A and again
    after it, A gets LF = LS(B) = 0, and its float is -1. *)
Theorem repeated_id_negative_float :
  calculateCPM 3 repeated_b
  = Returns {| nodes := [ scheduled (plain "B" 1 [] "not_started" 0) 0 1 0 1 0 true;
                          scheduled (plain "A" 1 [] "not_started" 0) 0 1 (-1) 0 (-1) false;
                          scheduled (plain "B" 1 [] "not_started" 0) 0 1 0 1 0 true ];
               criticalPath := ["B"%string];
               projectDuration := Int 1 |}.
Proof. vm_compute. reflexivity. Qed.

(* ================================================================= *)
(** ** Maxima and minima do not depend on the order of the operands *)

Section MaxMinOrder.

Lemma max2_comm x y : Number.max2 x y = Number.max2 y x.
Proof.
  destruct x, y; simpl; try reflexivity.
  destruct (Z.ltb_spec z z0), (Z.ltb_spec z0 z); try reflexivity; try lia.
  f_equal. lia.
Qed.

Lemma max2_assoc x y z :
  Number.max2 (Number.max2 x y) z = Number.max2 x (Number.max2 y z).
Proof.
  destruct x as [| |a|], y as [| |b|], z as [| |c|]; simpl; try reflexivity;
    repeat match goal with
           | |- context [?u <? ?v] => destruct (Z.ltb_spec u v); simpl
           end; try reflexivity; try lia.
Qed.

Lemma min2_comm x y : Number.min2 x y = Number.min2 y x.
Proof.
  destruct x, y; simpl; try reflexivity.
  destruct (Z.ltb_spec z z0), (Z.ltb_spec z0 z); try reflexivity; try lia.
  f_equal. lia.
Qed.

Lemma min2_assoc x y z :
  Number.min2 (Number.min2 x y) z = Number.min2 x (Number.min2 y z).
Proof.
  destruct x as [| |a|], y as [| |b|], z as [| |c|]; simpl; try reflexivity;
    repeat match goal with
           | |- context [?u <? ?v] => destruct (Z.ltb_spec u v); simpl
           end; try reflexivity; try lia.
Qed.

Variable op : number -> number -> number.
Hypothesis op_comm : forall x y, op x y = op y x.
Hypothesis op_assoc : forall x y z, op (op x y) z = op x (op y z).

Lemma fold_number_swap l : forall a x, fold_left op l (op a x) = op (fold_left op l a) x.
Proof.
  induction l as [|y l IH]; intros a x; simpl; [reflexivity|].
  rewrite <- IH. f_equal. rewrite !op_assoc. f_equal. apply op_comm.
Qed.

Lemma fold_number_perm l l' :
  Permutation l l' -> forall a, fold_left op l a = fold_left op l' a.
Proof.
  induction 1 as [|x l l' _ IH|x y l|l l' l'' _ IH1 _ IH2]; intros a; simpl.
  - reflexivity.
  - apply IH.
  - f_equal. rewrite !op_assoc. f_equal. apply op_comm.
  - now rewrite IH1.
Qed.

End MaxMinOrder.

Lemma Math_max_perm l l' :
  Permutation l l' -> Number.Math_max l = Number.Math_max l'.
Proof.
  intros H. unfold Number.Math_max.
  now apply (fold_number_perm Number.max2 max2_comm max2_assoc).
Qed.

Lemma Math_min_perm l l' :
  Permutation l l' -> Number.Math_min l = Number.Math_min l'.
Proof.
  intros H. unfold Number.Math_min.
  now apply (fold_number_perm Number.min2 min2_comm min2_assoc).
Qed.

(** ** Each step of a pass sees the final values of the earlier keys *)

Section PassTrace.
Import JsMap JsMapFacts.

Variable upd : JsMap.t CPMNode -> string -> CPMNode -> CPMNode.

Lemma pass_untouched : forall l ns ns' k,
  forEach (pass_step upd) l ns = Returns ns' -> ~ In k l -> get ns' k = get ns k.
Proof.
  induction l as [|x l IH]; intros ns ns' k Hrun Hk; simpl in Hrun.
  - now injection Hrun as <-.
  - unfold pass_step at 1 in Hrun. destruct (get ns x) as [n|]; [|discriminate].
    simpl in Hrun. rewrite (IH _ _ k Hrun).
    + apply get_set_neq. intros ->. apply Hk. now left.
    + intros H. apply Hk. now right.
Qed.

Lemma pass_step_at : forall l1 x l2 ns ns',
  NoDup (l1 ++ x :: l2) ->
  forEach (pass_step upd) (l1 ++ x :: l2) ns = Returns ns' ->
  exists nsx n,
    get ns x = Some n
    /\ get ns' x = Some (upd nsx x n)
    /\ (forall k, In k l1 -> get nsx k = get ns' k)
    /\ (forall k, ~ In k l1 -> get nsx k = get ns k).
Proof.
  induction l1 as [|y l1 IH]; intros x l2 ns ns' Hnd Hrun; simpl in Hrun.
  - unfold pass_step at 1 in Hrun. destruct (get ns x) as [n|] eqn:Hn; [|discriminate].
    simpl in Hrun. exists ns, n. repeat split; auto.
    + rewrite (pass_untouched _ _ _ x Hrun).
      * apply get_set_eq.
      * simpl in Hnd. now inversion Hnd.
    + intros k [].
  - unfold pass_step at 1 in Hrun. destruct (get ns y) as [ny|] eqn:Hy; [|discriminate].
    simpl in Hrun. simpl in Hnd. inversion Hnd as [|? ? Hyl Hnd']; subst.
    destruct (IH x l2 _ _ Hnd' Hrun) as (nsx & n & Hg & Hg' & Hdone & Hrest).
    assert (Hyx : y <> x).
    { intros ->. apply Hyl. apply in_or_app. right. now left. }
    exists nsx, n. repeat split; auto.
    + now rewrite get_set_neq in Hg.
    + intros k [<-|Hk]; [|now apply Hdone].
      destruct (in_dec string_dec y l1) as [Hin|Hnin].
      * exfalso. apply Hyl. apply in_or_app. now left.
      * rewrite (Hrest y Hnin). symmetry. now apply (pass_untouched _ _ _ y Hrun).
    + intros k Hk. rewrite Hrest.
      * apply get_set_neq. intros ->. apply Hk. now left.
      * intros H. apply Hk. now right.
Qed.

End PassTrace.

(** ** The recurrences of the two passes hold on the result *)

Section Recurrences.
Import JsMap JsMapFacts.

Lemma values_set_field {F} (f : CPMNode -> F) : forall (m : JsMap.t CPMNode) k v v0,
  get m k = Some v0 -> f v = f v0 -> map f (values (set m k v)) = map f (values m).
Proof.
  induction m as [|[k' w] m IH]; intros k v v0 Hg Hf; simpl in *; [discriminate|].
  destruct (String.eqb k' k); simpl.
  - injection Hg as ->. now rewrite Hf.
  - f_equal. now apply (IH k v v0).
Qed.

Lemma pass_keeps_field {F} (f : CPMNode -> F) upd :
  (forall ns x n, f (upd ns x n) = f n) ->
  forall l ns ns',
    forEach (pass_step upd) l ns = Returns ns' ->
    map f (values ns') = map f (values ns).
Proof.
  intros Hf. induction l as [|x l IH]; intros ns ns' Hrun; simpl in Hrun.
  - now injection Hrun as <-.
  - unfold pass_step at 1 in Hrun. destruct (get ns x) as [n|] eqn:Hn; [|discriminate].
    simpl in Hrun. rewrite (IH _ _ Hrun). now apply (values_set_field f ns x _ n).
Qed.

Lemma find_node_values : forall (m : JsMap.t CPMNode) k,
  (forall k' n, In (k', n) m -> node_id n = k') ->
  find_node (map floatStep (values m)) k = option_map floatStep (get m k).
Proof.
  induction m as [|[k' v] m IH]; intros k Hid; simpl; [reflexivity|].
  assert (Hv : node_id (floatStep v) = k') by (apply (Hid k' v); now left).
  unfold find_node in *. simpl. rewrite Hv. destruct (String.eqb k' k); [reflexivity|].
  apply IH. intros k0 n Hin. apply Hid. now right.
Qed.

Lemma find_node_In l k n : find_node l k = Some n -> In n l /\ node_id n = k.
Proof.
  unfold find_node. intros H. apply find_some in H. destruct H as [Hin Hk].
  split; auto. now apply String.eqb_eq.
Qed.

Lemma find_node_unique : forall l n,
  NoDup (map node_id l) -> In n l -> find_node l (node_id n) = Some n.
Proof.
  induction l as [|a l IH]; intros n Hnd Hin; [destruct Hin|].
  unfold find_node in *. simpl. inversion Hnd as [|? ? Ha Hnd']; subst.
  destruct Hin as [->|Hin].
  - now rewrite String.eqb_refl.
  - destruct (String.eqb (node_id a) (node_id n)) eqn:E.
    + exfalso. apply String.eqb_eq in E. apply Ha. rewrite E. now apply in_map.
    + now apply IH.
Qed.

Lemma find_node_None l k : find_node l k = None <-> ~ In k (map node_id l).
Proof.
  unfold find_node. split.
  - intros H Hin. apply in_map_iff in Hin. destruct Hin as (n & Hk & Hin).
    pose proof (find_none _ _ H n Hin) as E. simpl in E.
    rewrite Hk, String.eqb_refl in E. discriminate.
  - intros H. destruct (find _ l) as [n|] eqn:E; [|reflexivity].
    exfalso. apply find_some in E. destruct E as [Hin Hk]. apply String.eqb_eq in Hk.
    apply H. rewrite <- Hk. now apply in_map.
Qed.

Variable tasks : list CPMInput.
Hypothesis Hids : NoDup (map id tasks).

Variable sorted : list string.
Hypothesis Hnd : NoDup sorted.
Hypothesis Hord : ordered tasks sorted.

Variable r : CPMResult.
Hypothesis Hrun :
  schedule (buildTaskMap tasks) (buildPredecessors tasks) (buildSuccessors tasks) sorted
  = Returns r.

Lemma result_nodes_ordered : nodes_ordered (nodes r).
Proof.
  destruct (schedule_nodes _ _ _ _ _ Hnd Hrun) as [Hk Htasks].
  intros l1 n l2 Hl.
  assert (Hs : sorted = map node_id l1 ++ node_id n :: map node_id l2).
  { rewrite <- Hk, Hl, map_app. reflexivity. }
  apply (Hord _ _ _ (task n) Hs); [|reflexivity].
  apply Htasks. rewrite Hl. apply in_or_app. right. now left.
Qed.

Lemma result_projectDuration :
  projectDuration r = Number.Math_max (map ef (nodes r)).
Proof.
  destruct (schedule_shape _ _ _ _ _ Hnd Hrun)
    as (ns0 & ns1 & ns2 & H0 & H1 & H2 & Hpd & K0 & K1 & K2 & Hn & _ & _).
  rewrite Hpd, Hn, map_map.
  assert (E : map ef (values ns2) = map ef (values ns1)).
  { apply (pass_keeps_field ef
             (backward_upd (buildSuccessors tasks) (projectDuration r)))
      with (l := rev sorted); auto. }
  rewrite <- E. f_equal.
Qed.

Lemma result_recurrences :
  forall n, In n (nodes r) ->
    es_equation (nodes r) n /\ lf_equation tasks (projectDuration r) (nodes r) n.
Proof.
  destruct (schedule_shape _ _ _ _ _ Hnd Hrun)
    as (ns0 & ns1 & ns2 & H0 & H1 & H2 & Hpd & K0 & K1 & K2 & Hn & _ & Hwf).
  assert (Hnd2 : NoDup (keys ns2)) by now rewrite K2.
  assert (Hentries : forall k' n, In (k', n) ns2 -> node_id n = k').
  { intros k' n Hin. apply (In_get_Some _ _ _ Hnd2) in Hin. now apply Hwf in Hin. }
  assert (Hfind : forall k, find_node (nodes r) k = option_map floatStep (get ns2 k)).
  { intros k. rewrite Hn. now apply find_node_values. }
  assert (Hfw : forall k n2, get ns2 k = Some n2 ->
            exists n1, get ns1 k = Some n1 /\ forward_fields n1 n2).
  { apply (pass_preserves _ forward_fields forward_fields_refl forward_fields_trans
             (backward_upd_forward_fields _ _) _ _ _ H2). }
  assert (Hnone : forall k, get ns1 k = None <-> get ns2 k = None).
  { intros k. rewrite !get_None, K1, K2. tauto. }
  assert (Hef : forall p, ef_or_0 ns1 p = ef_of (nodes r) p).
  { intros p. unfold ef_or_0, ef_of. rewrite Hfind.
    destruct (get ns2 p) as [n2|] eqn:E2.
    - destruct (Hfw p n2 E2) as (n1 & -> & _ & _ & Hf). simpl. now rewrite Hf.
    - apply Hnone in E2. now rewrite E2. }
  assert (Hls : forall s, ls_or (projectDuration r) ns2 s = ls_of (projectDuration r) (nodes r) s).
  { intros s. unfold ls_or, ls_of. rewrite Hfind. now destruct (get ns2 s). }
  intros n Hin. rewrite Hn in Hin. apply in_map_iff in Hin.
  destruct Hin as (n2 & <- & Hin2).
  destruct (values_get ns2 n2 Hnd2 Hin2) as (x & Hx).
  destruct (Hwf x n2 Hx) as (Hid & Htask & Hxs).
  assert (Hidf : node_id (floatStep n2) = x) by exact Hid.
  destruct (Hfw x n2 Hx) as (n1 & Hx1 & Ht1 & He1 & Hf1).
  split.
  - (* the forward pass *)
    apply in_split in Hxs. destruct Hxs as (l1 & l2 & Hs).
    assert (Hnd' : NoDup (l1 ++ x :: l2)) by now rewrite <- Hs.
    rewrite Hs in H1.
    destruct (pass_step_at _ l1 x l2 ns0 ns1 Hnd' H1) as (nsx & n0 & Hg0 & Hg1 & Hdone & _).
    rewrite Hx1 in Hg1. injection Hg1 as Hn1.
    assert (Htask0 : task n0 = task n2).
    { rewrite Ht1, Hn1. reflexivity. }
    assert (Hpreds : get_list (buildPredecessors tasks) x = dependencies (task n2)).
    { rewrite <- Hid. unfold node_id. now apply predecessors_spec. }
    assert (Hdeps : incl (dependencies (task n2)) l1).
    { apply (Hord l1 x l2 (task n2)); auto. }
    unfold es_equation. change (es (floatStep n2)) with (es n2).
    change (task (floatStep n2)) with (task n2).
    rewrite He1, Hn1. unfold forward_upd. cbn [set_forward es]. rewrite Hpreds.
    destruct (dependencies (task n2)) as [|p0 ps] eqn:Edeps; [reflexivity|].
    f_equal. apply map_ext_in. intros p Hp. rewrite <- Hef.
    unfold ef_or_0. now rewrite (Hdone p (Hdeps p Hp)).
  - (* the backward pass *)
    apply in_rev in Hxs. apply in_split in Hxs. destruct Hxs as (l1 & l2 & Hs).
    assert (Hnd' : NoDup (l1 ++ x :: l2)) by (rewrite <- Hs; now apply NoDup_rev).
    rewrite Hs in H2.
    destruct (pass_step_at _ l1 x l2 ns1 ns2 Hnd' H2) as (nsx & n1' & Hg1 & Hg2 & Hdone & Hrest).
    rewrite Hx in Hg2. injection Hg2 as Hn2.
    assert (Hsuccs : get_list (buildSuccessors tasks) x = dependents tasks x).
    { rewrite successors_spec. destruct (in_dec string_dec x (map id tasks)) as [|Hno]; auto.
      exfalso. apply Hno. rewrite <- Hid. unfold node_id. now apply in_map. }
    unfold lf_equation. rewrite Hidf. change (lf (floatStep n2)) with (lf n2).
    rewrite Hn2. unfold backward_upd. cbn [set_backward lf]. rewrite Hsuccs.
    destruct (dependents tasks x) as [|s0 ss] eqn:Esuccs; [reflexivity|].
    f_equal. apply map_ext_in. intros s Hin. rewrite <- Hls. unfold ls_or.
    destruct (in_dec string_dec s l1) as [Hs1|Hs1].
    + now rewrite (Hdone s Hs1).
    + rewrite (Hrest s Hs1).
      assert (Hout : ~ In s sorted).
      { intros Hin'. apply Hs1.
        apply (rev_ordered_sorted tasks sorted Hnd Hord l1 x l2 s Hs).
        - rewrite Hsuccs. exact Hin.
        - now apply -> in_rev. }
      assert (E1 : get ns1 s = None) by (apply get_None; now rewrite K1).
      assert (E2 : get ns2 s = None) by (apply get_None; now rewrite K2).
      now rewrite E1, E2.
Qed.

End Recurrences.

(** ** Where a maximum or a minimum of integers is reached *)

Section Extremes.

Lemma fold_max2_reached l : forall a,
  (forall v, In v l -> exists z, v = Int z) ->
  exists m, fold_left Number.max2 l (Int a) = Int m
            /\ (m = a \/ In (Int m) l)
            /\ a <= m /\ forall z, In (Int z) l -> z <= m.
Proof.
  induction l as [|v l IH]; intros a Hint; simpl.
  - exists a. repeat split; auto; try lia; intros z [].
  - destruct (Hint v) as (b & ->); [now left|].
    assert (Hl : forall w, In w l -> exists z, w = Int z) by (intros; apply Hint; now right).
    cbn [Number.max2 Number.ltb]. destruct (Z.ltb_spec a b) as [Hab|Hab].
    + destruct (IH b Hl) as (m & Hm & Hat & Hle & Hall). exists m. repeat split; auto.
      * destruct Hat as [->|Hat]; right; [now left | now right].
      * lia.
      * intros z [E|Hz]; [injection E as <-; lia | now apply Hall].
    + destruct (IH a Hl) as (m & Hm & Hat & Hle & Hall). exists m. repeat split; auto.
      * destruct Hat as [->|Hat]; [now left | right; now right].
      * intros z [E|Hz]; [injection E as <-; lia | now apply Hall].
Qed.

Lemma Math_max_reached v l :
  (forall w, In w (v :: l) -> exists z, w = Int z) ->
  exists m, Number.Math_max (v :: l) = Int m
            /\ In (Int m) (v :: l) /\ forall z, In (Int z) (v :: l) -> z <= m.
Proof.
  intros Hint. destruct (Hint v) as (a & ->); [now left|].
  unfold Number.Math_max. cbn [fold_left]. change (Number.max2 NegInfinity (Int a)) with (Int a).
  destruct (fold_max2_reached l a) as (m & Hm & Hat & Hle & Hall).
  { intros; apply Hint; now right. }
  exists m. repeat split; auto.
  - destruct Hat as [->|Hat]; [now left | now right].
  - intros z [E|Hz]; [injection E as <-; lia | now apply Hall].
Qed.

Lemma fold_min2_reached l : forall a,
  (forall v, In v l -> exists z, v = Int z) ->
  exists m, fold_left Number.min2 l (Int a) = Int m
            /\ (m = a \/ In (Int m) l)
            /\ m <= a /\ forall z, In (Int z) l -> m <= z.
Proof.
  induction l as [|v l IH]; intros a Hint; simpl.
  - exists a. repeat split; auto; try lia; intros z [].
  - destruct (Hint v) as (b & ->); [now left|].
    assert (Hl : forall w, In w l -> exists z, w = Int z) by (intros; apply Hint; now right).
    cbn [Number.min2 Number.ltb]. destruct (Z.ltb_spec b a) as [Hab|Hab].
    + destruct (IH b Hl) as (m & Hm & Hat & Hle & Hall). exists m. repeat split; auto.
      * destruct Hat as [->|Hat]; right; [now left | now right].
      * lia.
      * intros z [E|Hz]; [injection E as <-; lia | now apply Hall].
    + destruct (IH a Hl) as (m & Hm & Hat & Hle & Hall). exists m. repeat split; auto.
      * destruct Hat as [->|Hat]; [now left | right; now right].
      * intros z [E|Hz]; [injection E as <-; lia | now apply Hall].
Qed.

Lemma Math_min_reached v l :
  (forall w, In w (v :: l) -> exists z, w = Int z) ->
  exists m, Number.Math_min (v :: l) = Int m
            /\ In (Int m) (v :: l) /\ forall z, In (Int z) (v :: l) -> m <= z.
Proof.
  intros Hint. destruct (Hint v) as (a & ->); [now left|].
  unfold Number.Math_min. cbn [fold_left]. change (Number.min2 Infinity (Int a)) with (Int a).
  destruct (fold_min2_reached l a) as (m & Hm & Hat & Hle & Hall).
  { intros; apply Hint; now right. }
  exists m. repeat split; auto.
  - destruct Hat as [->|Hat]; [now left | now right].
  - intros z [E|Hz]; [injection E as <-; lia | now apply Hall].
Qed.

End Extremes.

(** ** Induction along a list of nodes, from either end *)

Section NodeInduction.

Variable Q : CPMNode -> Prop.
Variable L : list CPMNode.

Lemma from_the_front :
  (forall l1 n l2, L = l1 ++ n :: l2 -> Forall Q l1 -> Q n) -> Forall Q L.
Proof.
  intros Hstep.
  assert (H : forall l1 l2, L = l1 ++ l2 -> Forall Q l1).
  { induction l1 as [|n l1 IH] using rev_ind; intros l2 HL; [constructor|].
    rewrite <- app_assoc in HL. simpl in HL.
    apply Forall_app. split; [now apply (IH (n :: l2))|].
    constructor; [|constructor]. apply (Hstep l1 n l2 HL). now apply (IH (n :: l2)). }
  apply (H L []). now rewrite app_nil_r.
Qed.

Lemma from_the_back :
  (forall l1 n l2, L = l1 ++ n :: l2 -> Forall Q l2 -> Q n) -> Forall Q L.
Proof.
  intros Hstep.
  assert (H : forall l2 l1, L = l1 ++ l2 -> Forall Q l2).
  { induction l2 as [|n l2 IH]; intros l1 HL; [constructor|].
    assert (Hl2 : Forall Q l2).
    { apply (IH (l1 ++ [n])). now rewrite <- app_assoc. }
    constructor; auto. now apply (Hstep l1 n l2). }
  now apply (H L []).
Qed.

End NodeInduction.

(** ** From a returned result back to the sorted ids *)

Lemma calculateCPM_schedule fuel tasks r :
  NoDup (map id tasks) -> tasks <> [] ->
  calculateCPM fuel tasks = Returns r ->
  exists sorted,
    NoDup sorted /\ incl sorted (map id tasks)
    /\ (forall t, In t tasks -> (In (id t) sorted <-> incl (dependencies t) sorted))
    /\ ordered tasks sorted
    /\ schedule (buildTaskMap tasks) (buildPredecessors tasks) (buildSuccessors tasks) sorted
       = Returns r.
Proof.
  intros Hids Hne Hrun. unfold calculateCPM in Hrun.
  destruct tasks as [|t0 ts]; [congruence|]. set (tasks := t0 :: ts) in *.
  destruct (topologicalSort fuel tasks (buildPredecessors tasks) (buildSuccessors tasks))
    as [sorted|] eqn:Hs; [|discriminate].
  destruct (topologicalSort_spec tasks Hids (Nat.max fuel (length tasks)))
    as (sorted' & Hs' & Hnd & Hincl & Hclosed & Hord); [lia|].
  assert (E : sorted' = sorted).
  { unfold topologicalSort in Hs, Hs'.
    apply kahnLoop_fuel_mono with (fuel' := Nat.max fuel (length tasks)) in Hs; [|lia].
    congruence. }
  subst sorted'. exists sorted. repeat split; auto; apply Hclosed; auto.
Qed.

(** ** What the recurrences imply for nodes with integer fields *)

Section Windows.

Variable tasks : list CPMInput.
Hypothesis Hids : NoDup (map id tasks).

Variable L : list CPMNode.
Variable P : Z.
Hypothesis HLids : NoDup (map node_id L).
Hypothesis HLtasks : forall n, In n L -> In (task n) tasks.
Hypothesis HLord : nodes_ordered L.
Hypothesis HLes : forall n, In n L -> es_equation L n.
Hypothesis HLlf : forall n, In n L -> lf_equation tasks (Int P) L n.
Hypothesis HLfields : Forall int_fields L.

Lemma dep_node l1 n l2 p :
  L = l1 ++ n :: l2 -> In p (dependencies (task n)) ->
  exists pn, In pn l1 /\ node_id pn = p /\ find_node L p = Some pn.
Proof.
  intros HL Hp. apply (HLord l1 n l2 HL) in Hp. apply in_map_iff in Hp.
  destruct Hp as (pn & Hid & Hin). exists pn. repeat split; auto.
  rewrite <- Hid. apply find_node_unique; auto.
  rewrite HL. apply in_or_app. now left.
Qed.

Lemma later_dependent l1 n l2 s :
  L = l1 ++ n :: l2 -> In s L -> In (node_id n) (dependencies (task s)) -> In s l2.
Proof.
  intros HL Hs Hdep.
  assert (Hn1 : ~ In (node_id n) (map node_id l1)).
  { rewrite HL, map_app in HLids. simpl in HLids. apply NoDup_remove_2 in HLids.
    intros H. apply HLids. apply in_or_app. now left. }
  rewrite HL in Hs. apply in_app_iff in Hs. destruct Hs as [Hs|[<-|Hs]]; auto.
  - exfalso. apply in_split in Hs. destruct Hs as (a & b & Hab).
    rewrite Hab, <- app_assoc in HL. simpl in HL.
    apply Hn1. rewrite Hab, map_app. apply in_or_app. left.
    now apply (HLord a s (b ++ n :: l2) HL).
  - exfalso. apply Hn1. now apply (HLord l1 n l2 HL).
Qed.

Lemma dependent_node l1 n l2 s :
  L = l1 ++ n :: l2 -> In s (dependents tasks (node_id n)) ->
  find_node L s = None
  \/ exists sn, In sn l2 /\ node_id sn = s /\ find_node L s = Some sn
                /\ In (node_id n) (dependencies (task sn)).
Proof.
  intros HL Hs. destruct (find_node L s) as [sn|] eqn:E; [right | now left].
  destruct (find_node_In _ _ _ E) as [Hin Hid]. exists sn.
  apply In_dependents in Hs. destruct Hs as (t & Ht & Hts & Hdep).
  assert (Htask : task sn = t).
  { apply (NoDup_map_inj id tasks); auto. unfold node_id in Hid. congruence. }
  assert (Hdep' : In (node_id n) (dependencies (task sn))) by now rewrite Htask.
  repeat split; auto. now apply (later_dependent l1 n l2).
Qed.

Lemma dependency_has_dependent n p :
  In n L -> In p (dependencies (task n)) -> In (node_id n) (dependents tasks p).
Proof.
  intros Hn Hp. apply In_dependents. exists (task n). repeat split; auto.
Qed.

Lemma dependency_values n :
  In n L -> forall w, In w (map (ef_of L) (dependencies (task n))) -> exists z, w = Int z.
Proof.
  intros Hn w Hw. apply in_map_iff in Hw. destruct Hw as (p & <- & Hp).
  apply in_split in Hn. destruct Hn as (l1 & l2 & HL).
  destruct (dep_node l1 n l2 p HL Hp) as (pn & Hpn & _ & Hfind).
  unfold ef_of. rewrite Hfind. rewrite Forall_forall in HLfields.
  destruct (HLfields pn) as (e & f & _ & _ & _ & Hef & _); eauto.
  rewrite HL. apply in_or_app. now left.
Qed.

Lemma dependent_values n :
  In n L ->
  forall w, In w (map (ls_of (Int P) L) (dependents tasks (node_id n))) -> exists z, w = Int z.
Proof.
  intros Hn w Hw. apply in_map_iff in Hw. destruct Hw as (s & <- & Hs).
  unfold ls_of. destruct (find_node L s) as [sn|] eqn:E; [|eauto].
  apply find_node_In in E. destruct E as [Hsn _]. rewrite Forall_forall in HLfields.
  destruct (HLfields sn Hsn) as (e & f & l & s0 & _ & _ & _ & Hls). eauto.
Qed.

Lemma dependency_respected n p :
  In n L -> In p (dependencies (task n)) ->
  exists pn, In pn L /\ node_id pn = p /\ respects pn n.
Proof.
  intros Hn Hp. pose proof Hn as Hsplit. apply in_split in Hsplit.
  destruct Hsplit as (l1 & l2 & HL).
  destruct (dep_node l1 n l2 p HL Hp) as (pn & Hpn1 & Hid & Hfind).
  assert (Hpn : In pn L) by (rewrite HL; apply in_or_app; now left).
  exists pn. repeat split; auto.
  - (* early *)
    pose proof (HLes n Hn) as Hes. unfold es_equation in Hes.
    pose proof (dependency_values n Hn) as Hvals.
    destruct (dependencies (task n)) as [|p0 ps] eqn:Edeps; [destruct Hp|].
    cbn [map] in Hes, Hvals.
    destruct (Math_max_reached _ _ Hvals) as (m & Hm & _ & Hmax).
    rewrite Hes, Hm.
    rewrite Forall_forall in HLfields.
    destruct (HLfields pn Hpn) as (e & f & _ & _ & _ & Hef & _).
    rewrite Hef. apply Z.leb_le. apply Hmax.
    change (In (Int f) (map (ef_of L) (p0 :: ps))).
    apply in_map_iff. exists p. split; auto. unfold ef_of. now rewrite Hfind.
  - (* late *)
    pose proof (HLlf pn Hpn) as Hlf. unfold lf_equation in Hlf.
    pose proof (dependent_values pn Hpn) as Hvals.
    pose proof (dependency_has_dependent n p Hn Hp) as Hdep.
    rewrite Hid in Hlf, Hvals.
    destruct (dependents tasks p) as [|s0 ss] eqn:Esuccs; [destruct Hdep|].
    cbn [map] in Hlf, Hvals.
    destruct (Math_min_reached _ _ Hvals) as (m & Hm & _ & Hmin).
    rewrite Hlf, Hm.
    rewrite Forall_forall in HLfields.
    destruct (HLfields n Hn) as (e & f & l & s1 & _ & _ & _ & Hls).
    rewrite Hls. apply Z.leb_le. apply Hmin.
    change (In (Int s1) (map (ls_of (Int P) L) (s0 :: ss))).
    apply in_map_iff. exists (node_id n). split; auto.
    unfold ls_of. now rewrite (find_node_unique L n HLids Hn).
Qed.

Hypothesis HLint : Forall integral_node L.

Lemma starts_nonneg : Forall (fun n => exists e, es n = Int e /\ 0 <= e) L.
Proof.
  apply from_the_front. intros l1 n l2 HL IH.
  assert (Hn : In n L) by (rewrite HL; apply in_or_app; right; now left).
  pose proof (HLes n Hn) as Hes. unfold es_equation in Hes.
  destruct (dependencies (task n)) as [|p0 ps] eqn:Edeps; [exists 0; split; [auto | lia]|].
  rewrite <- Edeps in Hes.
  assert (Hvals : forall w, In w (map (ef_of L) (dependencies (task n))) ->
            exists z, w = Int z /\ 0 <= z).
  { intros w Hw. apply in_map_iff in Hw. destruct Hw as (p & <- & Hp).
    destruct (dep_node l1 n l2 p HL Hp) as (pn & Hpn & _ & Hfind).
    unfold ef_of. rewrite Hfind.
    rewrite Forall_forall in IH. destruct (IH pn Hpn) as (e & He & Hle).
    rewrite Forall_forall in HLint. destruct (HLint pn) as (e' & d & l & He' & _ & Hef & _ & _ & Hd & _).
    { rewrite HL. apply in_or_app. now left. }
    exists (e' + d). split; auto. assert (e' = e) by congruence. lia. }
  rewrite Edeps in Hes, Hvals. cbn [map] in Hes, Hvals.
  destruct (Math_max_reached (ef_of L p0) (map (ef_of L) ps)) as (m & Hm & Hat & _).
  { intros w Hw. destruct (Hvals w Hw) as (z & -> & _). eauto. }
  exists m. split; [congruence|].
  destruct (Hvals _ Hat) as (z & Hz & Hle). injection Hz as ->. exact Hle.
Qed.

Lemma finishes_in_time :
  Forall (fun n => exists l, lf n = Int l /\ l <= P) L.
Proof.
  apply from_the_back. intros l1 n l2 HL IH.
  assert (Hn : In n L) by (rewrite HL; apply in_or_app; right; now left).
  pose proof (HLlf n Hn) as Hlf. unfold lf_equation in Hlf.
  destruct (dependents tasks (node_id n)) as [|s0 ss] eqn:Esuccs;
    [exists P; split; [auto | lia]|].
  rewrite <- Esuccs in Hlf.
  assert (Hvals : forall w, In w (map (ls_of (Int P) L) (dependents tasks (node_id n))) ->
            exists z, w = Int z /\ z <= P).
  { intros w Hw. apply in_map_iff in Hw. destruct Hw as (s & <- & Hs).
    unfold ls_of.
    destruct (dependent_node l1 n l2 s HL Hs) as [->|(sn & Hsn & _ & -> & _)].
    - exists P. split; [auto | lia].
    - rewrite Forall_forall in IH. destruct (IH sn Hsn) as (l & Hl & Hle).
      rewrite Forall_forall in HLint.
      destruct (HLint sn) as (e' & d & l' & _ & _ & _ & Hl' & Hls & Hd & _).
      { rewrite HL. apply in_or_app. right. now right. }
      exists (l' - d). split; auto. assert (l' = l) by congruence. lia. }
  rewrite Esuccs in Hlf, Hvals. cbn [map] in Hlf, Hvals.
  destruct (Math_min_reached (ls_of (Int P) L s0) (map (ls_of (Int P) L) ss))
    as (m & Hm & Hat & _).
  { intros w Hw. destruct (Hvals w Hw) as (z & -> & _). eauto. }
  exists m. split; [congruence|].
  destruct (Hvals _ Hat) as (z & Hz & Hle). injection Hz as ->. exact Hle.
Qed.

Lemma windows : Forall (within P) L.
Proof.
  pose proof starts_nonneg as Hs. pose proof finishes_in_time as Hf.
  rewrite Forall_forall in *. intros n Hn.
  destruct (HLint n Hn) as (e & d & l & He & Hd & Hef & Hl & Hls & Hd0 & Hle).
  destruct (Hs n Hn) as (e' & He' & He0). destruct (Hf n Hn) as (l' & Hl' & HlP).
  exists e, d, l. repeat split; auto.
  - assert (e' = e) by congruence. lia.
  - assert (l' = l) by congruence. lia.
Qed.

End Windows.

(** ** Lengths of lists of nodes *)

Lemma chain_length_cons a c : chain_length (a :: c) = effective_value a + chain_length c.
Proof. reflexivity. Qed.

Lemma chain_length_snoc c a : chain_length (c ++ [a]) = chain_length c + effective_value a.
Proof.
  induction c as [|b c IH]; [unfold chain_length; simpl; lia|].
  change ((b :: c) ++ [a]) with (b :: (c ++ [a])). rewrite !chain_length_cons, IH. lia.
Qed.

Lemma chain_length_app c1 c2 : chain_length (c1 ++ c2) = chain_length c1 + chain_length c2.
Proof.
  induction c1 as [|a c1 IH]; [unfold chain_length; simpl; lia|].
  change ((a :: c1) ++ c2) with (a :: (c1 ++ c2)). rewrite !chain_length_cons, IH. lia.
Qed.

Lemma effective_value_eq n d : effectiveDuration (task n) = Int d -> effective_value n = d.
Proof. unfold effective_value. now intros ->. Qed.

Lemma integral_fields n : integral_node n -> int_fields n.
Proof.
  intros (e & d & l & He & _ & Hef & Hl & Hls & _).
  exists e, (e + d), l, (l - d). repeat split; auto.
Qed.

Lemma integral_all_fields L : Forall integral_node L -> Forall int_fields L.
Proof. apply Forall_impl. exact integral_fields. Qed.

Lemma within_integral P n : within P n -> integral_node n.
Proof.
  intros (e & d & l & He & Hd & Hef & Hl & Hls & Hd0 & _ & Hle & _).
  exists e, d, l. repeat split; auto.
Qed.

(** ** Every field of a schedule of valid tasks is an integer *)

Section Finite.

Variable tasks : list CPMInput.
Hypothesis Hids : NoDup (map id tasks).

Variable L : list CPMNode.
Variable P : number.
Hypothesis HLids : NoDup (map node_id L).
Hypothesis HLtasks : forall n, In n L -> In (task n) tasks.
Hypothesis HLord : nodes_ordered L.
Hypothesis HLrel : Forall node_relations L.
Hypothesis HLes : forall n, In n L -> es_equation L n.
Hypothesis HLlf : forall n, In n L -> lf_equation tasks P L n.
Hypothesis HLP : P = Number.Math_max (map ef L).
Hypothesis HLvalid : forall n, In n L -> valid_task (task n).

Lemma forward_finite :
  Forall (fun n => exists e f, es n = Int e /\ ef n = Int f
                               /\ 0 <= e <= 2 ^ 1000 /\ 0 <= f <= 2 ^ 1000) L.
Proof.
  apply from_the_front. intros l1 n l2 HL IH.
  assert (Hn : In n L) by (rewrite HL; apply in_or_app; right; now left).
  assert (He : exists e, es n = Int e /\ 0 <= e <= 2 ^ 1000).
  { pose proof (HLes n Hn) as Hes. unfold es_equation in Hes.
    destruct (dependencies (task n)) as [|p0 ps] eqn:Edeps.
    - exists 0. split; [exact Hes|]. pose proof (Z.pow_pos_nonneg 2 1000). lia.
    - rewrite <- Edeps in Hes.
      assert (Hvals : forall w, In w (map (ef_of L) (dependencies (task n))) ->
                exists z, w = Int z /\ 0 <= z <= 2 ^ 1000).
      { intros w Hw. apply in_map_iff in Hw. destruct Hw as (p & <- & Hp).
        destruct (dep_node L HLids HLord l1 n l2 p HL Hp) as (pn & Hpn & _ & Hfind).
        unfold ef_of. rewrite Hfind.
        rewrite Forall_forall in IH. destruct (IH pn Hpn) as (e & f & _ & Hf & _ & Hr).
        eauto. }
      rewrite Edeps in Hes, Hvals. cbn [map] in Hes, Hvals.
      destruct (Math_max_reached (ef_of L p0) (map (ef_of L) ps)) as (m & Hm & Hat & _).
      { intros w Hw. destruct (Hvals w Hw) as (z & -> & _). eauto. }
      exists m. split; [congruence|].
      destruct (Hvals _ Hat) as (z & Hz & Hr). injection Hz as ->. exact Hr. }
  destruct He as (e & He & Hr).
  destruct (effectiveDuration_bounded (task n) (HLvalid n Hn)) as (d & Hd & Hd0).
  rewrite Forall_forall in HLrel. destruct (HLrel n Hn) as (Hef & _).
  rewrite He, Hd in Hef. cbn [Number.add] in Hef.
  assert (H60 : 2 ^ 56 <= 2 ^ 60) by (apply Z.pow_le_mono_r; lia).
  destruct (round_saturates (e + d)) as (c & Hc & Hcr & Hc0 & _); [lia|].
  exists e, c. repeat split; try lia; congruence.
Qed.

Lemma duration_finite : L <> [] -> exists p, P = Int p /\ 0 <= p <= 2 ^ 1000.
Proof.
  intros Hne. pose proof forward_finite as Hf. rewrite Forall_forall in Hf.
  assert (Hvals : forall w, In w (map ef L) -> exists z, w = Int z /\ 0 <= z <= 2 ^ 1000).
  { intros w Hw. apply in_map_iff in Hw. destruct Hw as (n & <- & Hn).
    destruct (Hf n Hn) as (e & f & _ & Hef & _ & Hr). eauto. }
  destruct (map ef L) as [|v l] eqn:E.
  - destruct L; [congruence | discriminate E].
  - destruct (Math_max_reached v l) as (m & Hm & Hat & _).
    { intros w Hw. destruct (Hvals w Hw) as (z & -> & _). eauto. }
    exists m. split; [congruence|].
    destruct (Hvals _ Hat) as (z & Hz & Hr). injection Hz as ->. exact Hr.
Qed.

Lemma backward_finite :
  Forall (fun n => exists l s, lf n = Int l /\ ls n = Int s
                               /\ - 2 ^ 1000 <= l <= 2 ^ 1000
                               /\ - 2 ^ 1000 <= s <= 2 ^ 1000) L.
Proof.
  apply from_the_back. intros l1 n l2 HL IH.
  assert (Hn : In n L) by (rewrite HL; apply in_or_app; right; now left).
  destruct duration_finite as (p & Hp & Hpr); [intros E; rewrite E in Hn; destruct Hn|].
  assert (Hl : exists l, lf n = Int l /\ - 2 ^ 1000 <= l <= 2 ^ 1000).
  { pose proof (HLlf n Hn) as Hlf. unfold lf_equation in Hlf. rewrite Hp in Hlf.
    destruct (dependents tasks (node_id n)) as [|s0 ss] eqn:Esuccs.
    - exists p. split; [exact Hlf | lia].
    - rewrite <- Esuccs in Hlf.
      assert (Hvals : forall w, In w (map (ls_of (Int p) L) (dependents tasks (node_id n))) ->
                exists z, w = Int z /\ - 2 ^ 1000 <= z <= 2 ^ 1000).
      { intros w Hw. apply in_map_iff in Hw. destruct Hw as (s & <- & Hs).
        unfold ls_of.
        destruct (dependent_node tasks Hids L HLids HLtasks HLord l1 n l2 s HL Hs)
          as [->|(sn & Hsn & _ & -> & _)].
        - exists p. split; [auto | lia].
        - rewrite Forall_forall in IH. destruct (IH sn Hsn) as (l & s1 & _ & Hls & _ & Hr).
          eauto. }
      rewrite Esuccs in Hlf, Hvals. cbn [map] in Hlf, Hvals.
      destruct (Math_min_reached (ls_of (Int p) L s0) (map (ls_of (Int p) L) ss))
        as (m & Hm & Hat & _).
      { intros w Hw. destruct (Hvals w Hw) as (z & -> & _). eauto. }
      exists m. split; [congruence|].
      destruct (Hvals _ Hat) as (z & Hz & Hr). injection Hz as ->. exact Hr. }
  destruct Hl as (l & Hl & Hr).
  destruct (effectiveDuration_bounded (task n) (HLvalid n Hn)) as (d & Hd & Hd0).
  rewrite Forall_forall in HLrel. destruct (HLrel n Hn) as (_ & Hls & _).
  rewrite Hl, Hd in Hls. cbn [Number.sub] in Hls.
  assert (H60 : 2 ^ 56 <= 2 ^ 60) by (apply Z.pow_le_mono_r; lia).
  destruct (round_saturates (l - d)) as (c & Hc & Hcr & _); [lia|].
  exists l, c. repeat split; try lia; congruence.
Qed.

Lemma fields_finite : Forall int_fields L.
Proof.
  pose proof forward_finite as Hf. pose proof backward_finite as Hb.
  rewrite Forall_forall in *. intros n Hn.
  destruct (Hf n Hn) as (e & f & He & Hef & _). destruct (Hb n Hn) as (l & s & Hl & Hls & _).
  exists e, f, l, s. auto.
Qed.

End Finite.

(** ** Schedules whose work adds up to a safe integer *)

Section Safe.

Variable tasks : list CPMInput.
Hypothesis Hids : NoDup (map id tasks).

Variable L : list CPMNode.
Variable P : number.
Hypothesis HLids : NoDup (map node_id L).
Hypothesis HLtasks : forall n, In n L -> In (task n) tasks.
Hypothesis HLord : nodes_ordered L.
Hypothesis HLrel : Forall node_relations L.
Hypothesis HLes : forall n, In n L -> es_equation L n.
Hypothesis HLlf : forall n, In n L -> lf_equation tasks P L n.
Hypothesis HLP : P = Number.Math_max (map ef L).
Hypothesis HLvalid : forall n, In n L -> valid_task (task n).
Hypothesis HLsafe : chain_length L <= MAX_SAFE_INTEGER.

Lemma effective_value_nonneg n :
  In n L -> exists d, effectiveDuration (task n) = Int d /\ effective_value n = d /\ 0 <= d.
Proof.
  intros Hn. destruct (effectiveDuration_int (task n) (HLvalid n Hn)) as (d & Hd & Hd0).
  exists d. repeat split; auto. now apply effective_value_eq.
Qed.

Lemma chain_length_nonneg l : incl l L -> 0 <= chain_length l.
Proof.
  induction l as [|n l IH]; intros Hin; [unfold chain_length; simpl; lia|].
  rewrite chain_length_cons.
  destruct (effective_value_nonneg n) as (d & _ & -> & Hd); [apply Hin; now left|].
  assert (0 <= chain_length l) by (apply IH; intros x Hx; apply Hin; now right). lia.
Qed.

(** Going through the nodes from the front, EF is exactly ES plus the
    effective duration, and is at most what the nodes so far add up to. *)
Lemma forward_exact : forall l1 l2,
  L = l1 ++ l2 ->
  Forall (fun n => exists e d,
            es n = Int e /\ effectiveDuration (task n) = Int d /\ ef n = Int (e + d)
            /\ 0 <= e /\ 0 <= d /\ e + d <= chain_length l1) l1.
Proof.
  unfold MAX_SAFE_INTEGER in HLsafe.
  induction l1 as [|n l1 IH] using rev_ind; intros l2 HL; [constructor|].
  rewrite <- app_assoc in HL. cbn [app] in HL.
  assert (Hn : In n L) by (rewrite HL; apply in_or_app; right; now left).
  specialize (IH (n :: l2) HL).
  destruct (effective_value_nonneg n Hn) as (d & Hd & Hv & Hd0).
  rewrite chain_length_snoc, Hv.
  apply Forall_app. split.
  - eapply Forall_impl; [|exact IH]. cbv beta.
    intros m (e & dm & H1 & H2 & H3 & H4 & H5 & H6). exists e, dm. repeat split; auto. lia.
  - constructor; [|constructor].
    assert (He : exists e, es n = Int e /\ 0 <= e <= chain_length l1).
    { pose proof (HLes n Hn) as Hes. unfold es_equation in Hes.
      destruct (dependencies (task n)) as [|p0 ps] eqn:Edeps.
      - exists 0. split; [exact Hes|]. split; [lia|].
        apply chain_length_nonneg. intros x Hx. rewrite HL. apply in_or_app. now left.
      - rewrite <- Edeps in Hes.
        assert (Hvals : forall w, In w (map (ef_of L) (dependencies (task n))) ->
                  exists z, w = Int z /\ 0 <= z <= chain_length l1).
        { intros w Hw. apply in_map_iff in Hw. destruct Hw as (p & <- & Hp).
          destruct (dep_node L HLids HLord l1 n l2 p HL Hp) as (pn & Hpn & _ & Hfind).
          unfold ef_of. rewrite Hfind.
          rewrite Forall_forall in IH.
          destruct (IH pn Hpn) as (e & dp & _ & _ & Hf & He0 & Hdp & Hle).
          exists (e + dp). split; [exact Hf | lia]. }
        rewrite Edeps in Hes, Hvals. cbn [map] in Hes, Hvals.
        destruct (Math_max_reached (ef_of L p0) (map (ef_of L) ps)) as (m & Hm & Hat & _).
        { intros w Hw. destruct (Hvals w Hw) as (z & -> & _). eauto. }
        exists m. split; [congruence|].
        destruct (Hvals _ Hat) as (z & Hz & Hr). injection Hz as ->. exact Hr. }
    destruct He as (e & He & He0).
    assert (Htotal : chain_length l1 + d <= chain_length L).
    { rewrite HL, chain_length_app, chain_length_cons, Hv.
      assert (0 <= chain_length l2).
      { apply chain_length_nonneg. intros x Hx. rewrite HL. apply in_or_app. right. now right. }
      lia. }
    rewrite Forall_forall in HLrel. destruct (HLrel n Hn) as (Hef & _).
    rewrite He, Hd in Hef. rewrite add_exact in Hef by lia.
    exists e, d. repeat split; auto; lia.
Qed.

Lemma forward_facts :
  Forall (fun n => exists e d,
            es n = Int e /\ effectiveDuration (task n) = Int d /\ ef n = Int (e + d)
            /\ 0 <= e /\ 0 <= d /\ e + d <= chain_length L) L.
Proof. apply (forward_exact L []). now rewrite app_nil_r. Qed.

Lemma duration_exact :
  L <> [] ->
  exists p, P = Int p /\ 0 <= p <= chain_length L
            /\ forall n f, In n L -> ef n = Int f -> f <= p.
Proof.
  intros Hne. pose proof forward_facts as Hf. rewrite Forall_forall in Hf.
  assert (Hvals : forall w, In w (map ef L) -> exists z, w = Int z /\ 0 <= z <= chain_length L).
  { intros w Hw. apply in_map_iff in Hw. destruct Hw as (n & <- & Hn).
    destruct (Hf n Hn) as (e & d & _ & _ & Hef & He0 & Hd0 & Hle).
    exists (e + d). split; [exact Hef | lia]. }
  destruct (map ef L) as [|v l] eqn:E.
  - destruct L; [congruence | discriminate E].
  - destruct (Math_max_reached v l) as (m & Hm & Hat & Hmax).
    { intros w Hw. destruct (Hvals w Hw) as (z & -> & _). eauto. }
    exists m. split; [congruence|]. split.
    + destruct (Hvals _ Hat) as (z & Hz & Hr). injection Hz as ->. exact Hr.
    + intros n f Hn Hef. apply Hmax. rewrite <- E, <- Hef. now apply in_map.
Qed.

(** Going through the nodes from the back, every window lies inside
    the project. *)
Lemma windows_exact p : P = Int p -> Forall (within p) L.
Proof.
  intros Hp. unfold MAX_SAFE_INTEGER in HLsafe.
  pose proof forward_facts as Hf. rewrite Forall_forall in Hf.
  apply from_the_back. intros l1 n l2 HL IH.
  assert (Hn : In n L) by (rewrite HL; apply in_or_app; right; now left).
  destruct duration_exact as (p' & Hp' & Hpr & Hmax);
    [intros E; rewrite E in Hn; destruct Hn|].
  assert (p' = p) by congruence. subst p'.
  destruct (Hf n Hn) as (e & d & He & Hd & Hef & He0 & Hd0 & Hle).
  assert (HeP : e + d <= p) by (apply (Hmax n); auto).
  assert (Hl : exists l, lf n = Int l /\ e + d <= l <= p).
  { pose proof (HLlf n Hn) as Hlf. unfold lf_equation in Hlf. rewrite Hp in Hlf.
    destruct (dependents tasks (node_id n)) as [|s0 ss] eqn:Esuccs.
    - exists p. split; [exact Hlf | lia].
    - rewrite <- Esuccs in Hlf.
      assert (Hvals : forall w, In w (map (ls_of (Int p) L) (dependents tasks (node_id n))) ->
                exists z, w = Int z /\ e + d <= z <= p).
      { intros w Hw. apply in_map_iff in Hw. destruct Hw as (s & <- & Hs).
        unfold ls_of.
        destruct (dependent_node tasks Hids L HLids HLtasks HLord l1 n l2 s HL Hs)
          as [->|(sn & Hsn & _ & -> & Hdep)].
        - exists p. split; [auto | lia].
        - rewrite Forall_forall in IH.
          destruct (IH sn Hsn) as (es0 & ds & ls0 & Hes0 & _ & _ & _ & Hls0 & Hds0 & _ & Hle0 & HlP).
          exists (ls0 - ds). split; [exact Hls0|].
          assert (Hsn' : In sn L) by (rewrite HL; apply in_or_app; right; now right).
          pose proof (HLes sn Hsn') as Hes. unfold es_equation in Hes.
          destruct (dependencies (task sn)) as [|q0 qs] eqn:Edeps; [destruct Hdep|].
          rewrite <- Edeps in Hes, Hdep.
          assert (Hints : forall w, In w (map (ef_of L) (dependencies (task sn))) ->
                    exists z, w = Int z).
          { intros w Hw. apply in_map_iff in Hw. destruct Hw as (q & <- & Hq).
            apply in_split in Hsn'. destruct Hsn' as (a & b & Hab).
            destruct (dep_node L HLids HLord a sn b q Hab Hq) as (qn & Hqn & _ & Hfind).
            unfold ef_of. rewrite Hfind.
            destruct (Hf qn) as (eq & dq & _ & _ & Hefq & _); eauto.
            rewrite Hab. apply in_or_app. now left. }
          assert (Hmember : In (Int (e + d)) (map (ef_of L) (dependencies (task sn)))).
          { apply in_map_iff. exists (node_id n). split; auto.
            unfold ef_of. now rewrite (find_node_unique L n HLids Hn). }
          rewrite Edeps in Hes, Hints, Hmember. cbn [map] in Hes, Hints, Hmember.
          destruct (Math_max_reached _ _ Hints) as (m & Hm & _ & Hall).
          specialize (Hall _ Hmember).
          assert (es0 = m) by congruence. lia. }
      rewrite Esuccs in Hlf, Hvals. cbn [map] in Hlf, Hvals.
      destruct (Math_min_reached (ls_of (Int p) L s0) (map (ls_of (Int p) L) ss))
        as (m & Hm & Hat & _).
      { intros w Hw. destruct (Hvals w Hw) as (z & -> & _). eauto. }
      exists m. split; [congruence|].
      destruct (Hvals _ Hat) as (z & Hz & Hr). injection Hz as ->. exact Hr. }
  destruct Hl as (l & Hl & Hlr).
  rewrite Forall_forall in HLrel. destruct (HLrel n Hn) as (_ & Hls & _).
  rewrite Hl, Hd in Hls. rewrite sub_exact in Hls by lia.
  exists e, d, l. repeat split; auto; lia.
Qed.

End Safe.

(** The work of the scheduled tasks is part of the work of all tasks. *)
Lemma work_of_part : forall (l ts : list CPMInput),
  (forall t, In t ts -> 0 <= work t) -> NoDup l -> incl l ts ->
  total_work l <= total_work ts.
Proof.
  assert (Happ : forall a b, total_work (a ++ b) = total_work a + total_work b).
  { intros a b. unfold total_work. induction a as [|x a IH]; simpl; lia. }
  induction l as [|x l IH]; intros ts Hpos Hnd Hin.
  - clear - Hpos. unfold total_work at 1. simpl.
    induction ts as [|t ts IH]; [unfold total_work; simpl; lia|].
    assert (0 <= work t) by (apply Hpos; now left).
    assert (0 <= total_work ts) by (apply IH; intros; apply Hpos; now right).
    unfold total_work in *. simpl. lia.
  - inversion Hnd as [|? ? Hx Hnd']; subst.
    assert (Hxin : In x ts) by (apply Hin; now left).
    apply in_split in Hxin. destruct Hxin as (t1 & t2 & ->).
    assert (Hl : incl l (t1 ++ t2)).
    { intros y Hy. assert (Hy' : In y (t1 ++ x :: t2)) by (apply Hin; now right).
      apply in_app_iff in Hy'. apply in_or_app.
      destruct Hy' as [Hy'|[Hy'|Hy']]; auto. subst y. contradiction. }
    specialize (IH (t1 ++ t2)). rewrite Happ in *.
    assert (IH' : total_work l <= total_work t1 + total_work t2).
    { apply IH; auto. intros t Ht. apply Hpos. apply in_app_iff in Ht.
      apply in_or_app. destruct Ht; [now left | right; now right]. }
    change (total_work (x :: l)) with (work x + total_work l).
    change (total_work (x :: t2)) with (work x + total_work t2). lia.
Qed.

Lemma chain_length_work L : chain_length L = total_work (map task L).
Proof. unfold chain_length, total_work. now rewrite map_map. Qed.

Lemma work_nonneg t : valid_task t -> 0 <= work t.
Proof.
  intros Hv. unfold work. destruct (effectiveDuration_int t Hv) as (d & -> & Hd). exact Hd.
Qed.

(** ** The shape of every result for pairwise distinct ids *)

Section ResultFacts.

Variable tasks : list CPMInput.
Hypothesis Hids : NoDup (map id tasks).
Hypothesis Hne : tasks <> [].

Variable fuel : nat.
Variable r : CPMResult.
Hypothesis Hrun : calculateCPM fuel tasks = Returns r.

Lemma result_scheduled : scheduled_result tasks r.
Proof.
  destruct (calculateCPM_schedule fuel tasks r Hids Hne Hrun)
    as (sorted & Hnd & Hincl & Hclosed & Hord & Hs).
  destruct (schedule_nodes _ _ _ _ _ Hnd Hs) as [Hk Htasks].
  constructor.
  - now rewrite Hk.
  - exact Htasks.
  - rewrite Hk. exact Hclosed.
  - exact (result_nodes_ordered tasks sorted Hnd Hord r Hs).
  - exact (schedule_relations _ _ _ _ _ Hs).
  - intros n Hn. now apply (result_recurrences tasks Hids sorted Hnd Hord r Hs).
  - intros n Hn. now apply (result_recurrences tasks Hids sorted Hnd Hord r Hs).
  - exact (result_projectDuration tasks sorted Hnd r Hs).
  - now apply (critical_path_of_schedule tasks _ _ sorted r Hnd Hs).
Qed.

(** For valid tasks every field is an integer, and so is the project
    duration. *)
Lemma result_fields :
  (forall n, In n (nodes r) -> valid_task (task n)) ->
  Forall int_fields (nodes r)
  /\ (nodes r <> [] -> exists P, projectDuration r = Int P /\ 0 <= P).
Proof.
  intros Hv. pose proof result_scheduled as Hsr. split.
  - apply (fields_finite tasks Hids (nodes r) (projectDuration r)); auto; apply Hsr.
  - intros Hnodes.
    destruct (duration_finite tasks (nodes r) (projectDuration r)) as (p & Hp & Hr);
      auto; try apply Hsr.
    exists p. split; [exact Hp | lia].
Qed.

Hypothesis Hvalid : forall t, In t tasks -> valid_task t.
Hypothesis Hsafe : total_work tasks <= MAX_SAFE_INTEGER.

Lemma result_safe : chain_length (nodes r) <= MAX_SAFE_INTEGER.
Proof.
  pose proof result_scheduled as Hsr.
  rewrite chain_length_work. etransitivity; [|exact Hsafe].
  apply work_of_part.
  - intros t Ht. now apply work_nonneg, Hvalid.
  - apply (NoDup_map_inv id). rewrite map_map. exact (sr_ids _ _ Hsr).
  - intros t Ht. apply in_map_iff in Ht. destruct Ht as (n & <- & Hn).
    now apply (sr_tasks _ _ Hsr).
Qed.

(** When the work is a safe integer no sum and no difference is rounded. *)
Lemma result_integral :
  Forall integral_node (nodes r)
  /\ (nodes r <> [] -> exists P, projectDuration r = Int P).
Proof.
  pose proof result_scheduled as Hsr. pose proof result_safe as Hs.
  assert (Hv : forall n, In n (nodes r) -> valid_task (task n)).
  { intros n Hn. apply Hvalid. now apply (sr_tasks _ _ Hsr). }
  destruct (nodes r) as [|n0 rest] eqn:E; [split; [constructor | congruence]|].
  rewrite <- E in *.
  assert (Hnodes : nodes r <> []) by (rewrite E; discriminate).
  destruct (duration_exact tasks (nodes r) (projectDuration r)) as (p & Hp & _);
    auto; try apply Hsr.
  split; [|eauto].
  eapply Forall_impl; [exact (within_integral p)|].
  apply (windows_exact tasks Hids (nodes r) (projectDuration r)); auto; apply Hsr.
Qed.

End ResultFacts.

(** ** Chains of dependencies *)

Section Chains.

Variable tasks : list CPMInput.
Hypothesis Hids : NoDup (map id tasks).

Variable r : CPMResult.
Variable P : Z.
Hypothesis Hsr : scheduled_result tasks r.
Hypothesis Hint : Forall integral_node (nodes r).
Hypothesis HP : projectDuration r = Int P.

Lemma result_lf n : In n (nodes r) -> lf_equation tasks (Int P) (nodes r) n.
Proof. intros Hn. rewrite <- HP. now apply (sr_lf _ _ Hsr). Qed.

Lemma result_windows : Forall (within P) (nodes r).
Proof.
  apply (windows tasks Hids (nodes r) P); auto; try apply Hsr;
    try exact result_lf; now apply integral_all_fields.
Qed.

Lemma result_respects n p :
  In n (nodes r) -> In p (dependencies (task n)) ->
  exists pn, In pn (nodes r) /\ node_id pn = p /\ respects pn n.
Proof.
  apply (dependency_respected tasks (nodes r) P); auto; try apply Hsr;
    try exact result_lf; now apply integral_all_fields.
Qed.

Lemma same_id_same_node a b :
  In a (nodes r) -> In b (nodes r) -> node_id a = node_id b -> a = b.
Proof.
  intros Ha Hb E. apply (NoDup_map_inj node_id (nodes r)); auto. apply Hsr.
Qed.

Lemma chain_snoc : forall c a b,
  chain (c ++ [a]) -> waits_on b a -> chain ((c ++ [a]) ++ [b]).
Proof.
  induction c as [|x c IH]; intros a b Hc Hw.
  - simpl. auto.
  - destruct c as [|y c].
    + simpl in *. destruct Hc as [Hxa _]. auto.
    + change (chain (x :: ((y :: c) ++ [a]) ++ [b])).
      change (chain (x :: (y :: c) ++ [a])) in Hc.
      cbn [chain app] in Hc |- *. destruct Hc as [Hyx Hc]. split; auto.
      apply (IH a b); auto.
Qed.

(** No chain is longer than the project. *)
Lemma chain_fits : forall c a,
  chain (a :: c) -> incl (a :: c) (nodes r) ->
  exists e, es a = Int e /\ 0 <= e /\ e + chain_length (a :: c) <= P.
Proof.
  pose proof result_windows as Hw. rewrite Forall_forall in Hw.
  induction c as [|b c IH]; intros a Hc Hin.
  - destruct (Hw a) as (e & d & l & He & Hd & _ & _ & _ & _ & He0 & Hle & HlP).
    { apply Hin. now left. }
    exists e. repeat split; auto. rewrite chain_length_cons.
    rewrite (effective_value_eq a d Hd). unfold chain_length. simpl. lia.
  - cbn [chain] in Hc. destruct Hc as [Hba Hc].
    assert (Ha : In a (nodes r)) by (apply Hin; now left).
    assert (Hb : In b (nodes r)) by (apply Hin; right; now left).
    destruct (IH b Hc) as (eb & Heb & _ & Hlen).
    { intros x Hx. apply Hin. now right. }
    destruct (result_respects b (node_id a) Hb Hba) as (pn & Hpn & Hid & Hearly & _).
    assert (pn = a) by now apply same_id_same_node. subst pn.
    destruct (Hw a Ha) as (e & d & l & He & Hd & Hef & _ & _ & _ & He0 & _).
    exists e. repeat split; auto.
    rewrite Hef, Heb in Hearly. apply Z.leb_le in Hearly.
    rewrite chain_length_cons, (effective_value_eq a d Hd). lia.
Qed.

(** Every critical node ends a chain of critical nodes that fills the
    time up to its finish. *)
Lemma critical_chain_to :
  Forall (fun n => isCritical n = true ->
            exists c, incl c (nodes r) /\ Forall (fun m => isCritical m = true) c
                      /\ chain (c ++ [n]) /\ ef n = Int (chain_length (c ++ [n])))
         (nodes r).
Proof.
  pose proof result_windows as Hw. rewrite Forall_forall in Hw.
  pose proof (sr_relations _ _ Hsr) as Hrel. rewrite Forall_forall in Hrel.
  apply from_the_front. intros l1 n l2 HL IH Hcrit.
  assert (Hn : In n (nodes r)) by (rewrite HL; apply in_or_app; right; now left).
  destruct (Hw n Hn) as (e & d & l & He & Hd & Hef & Hl & Hls & Hd0 & He0 & Hle & HlP).
  pose proof (sr_es _ _ Hsr n Hn) as Hes. unfold es_equation in Hes.
  destruct (dependencies (task n)) as [|p0 ps] eqn:Edeps.
  - exists []. repeat split; auto; [intros x [] | ].
    simpl. rewrite Hef. f_equal. unfold chain_length. simpl.
    rewrite (effective_value_eq n d Hd). rewrite He in Hes. injection Hes as ->. lia.
  - rewrite <- Edeps in Hes.
    pose proof (dependency_values (nodes r) (sr_ids _ _ Hsr) (sr_order _ _ Hsr)
                  (integral_all_fields _ Hint) n Hn)
      as Hvals.
    rewrite Edeps in Hes, Hvals. cbn [map] in Hes, Hvals.
    destruct (Math_max_reached _ _ Hvals) as (m & Hm & Hat & _).
    change (In (Int m) (map (ef_of (nodes r)) (p0 :: ps))) in Hat.
    apply in_map_iff in Hat. destruct Hat as (p & Hp & Hpin).
    rewrite <- Edeps in Hpin.
    destruct (dep_node (nodes r) (sr_ids _ _ Hsr) (sr_order _ _ Hsr) l1 n l2 p HL Hpin)
      as (pn & Hpn1 & Hid & Hfind).
    unfold ef_of in Hp. rewrite Hfind in Hp.
    assert (Hpn : In pn (nodes r)) by (rewrite HL; apply in_or_app; now left).
    assert (Hem : e = m) by congruence. subst m.
    (* the dependency that fixes ES is critical as well *)
    destruct (Hw pn Hpn) as (e' & d' & l' & He' & Hd' & Hef' & Hl' & Hls' & Hd0' & He0' & Hle' & _).
    destruct (result_respects n p Hn Hpin) as (pn' & Hpn' & Hid' & _ & Hlate).
    assert (pn' = pn) by (apply same_id_same_node; auto; congruence). subst pn'.
    rewrite Hl', Hls in Hlate. apply Z.leb_le in Hlate.
    destruct (Hrel n Hn) as (_ & _ & Hfl & Hc).
    apply Hc in Hcrit. rewrite Hfl, Hls, He in Hcrit. cbn [Number.sub] in Hcrit.
    apply round_zero in Hcrit. rename Hcrit into Hzero.
    assert (Hed : e' + d' = e) by congruence.
    assert (Hpcrit : isCritical pn = true).
    { destruct (Hrel pn Hpn) as (_ & _ & Hfl' & Hc'). apply Hc'.
      rewrite Hfl', Hls', He'. cbn [Number.sub]. apply round_zero. lia. }
    rewrite Forall_forall in IH.
    destruct (IH pn Hpn1 Hpcrit) as (c & Hcin & Hccrit & Hchain & Hlen).
    exists (c ++ [pn]). repeat split.
    + intros x Hx. apply in_app_iff in Hx. destruct Hx as [Hx|[<-|[]]]; auto.
    + apply Forall_app. split; auto.
    + apply chain_snoc; auto. unfold waits_on. now rewrite Hid.
    + rewrite chain_length_snoc, (effective_value_eq n d Hd), Hef. f_equal.
      rewrite Hef' in Hlen. injection Hlen as Hlen. lia.
Qed.

Lemma critical_end :
  nodes r <> [] ->
  exists n, In n (nodes r) /\ isCritical n = true /\ ef n = Int P.
Proof.
  intros Hne.
  pose proof result_windows as Hw. rewrite Forall_forall in Hw.
  pose proof (sr_relations _ _ Hsr) as Hrel. rewrite Forall_forall in Hrel.
  pose proof (sr_duration _ _ Hsr) as Hpd. rewrite HP in Hpd.
  destruct (map ef (nodes r)) as [|v vs] eqn:E.
  { destruct (nodes r); [congruence | discriminate E]. }
  destruct (Math_max_reached v vs) as (m & Hm & Hat & _).
  { intros w Hw'. rewrite <- E in Hw'. apply in_map_iff in Hw'.
    destruct Hw' as (n & <- & Hn).
    destruct (Hw n Hn) as (e & d & l & _ & _ & Hef & _). eauto. }
  assert (m = P) by congruence. subst m.
  rewrite <- E in Hat. apply in_map_iff in Hat. destruct Hat as (n & Hef & Hn).
  exists n. repeat split; auto.
  destruct (Hw n Hn) as (e & d & l & He & Hd & Hef' & Hl & Hls & Hd0 & He0 & Hle & HlP).
  destruct (Hrel n Hn) as (_ & _ & Hfl & Hc). apply Hc.
  rewrite Hfl, Hls, He. cbn [Number.sub]. apply round_zero.
  assert (e + d = P) by congruence. lia.
Qed.

Lemma critical_chain_found :
  nodes r <> [] -> exists c, critical_chain (nodes r) P c.
Proof.
  intros Hne. destruct (critical_end Hne) as (n & Hn & Hcrit & Hef).
  pose proof critical_chain_to as H. rewrite Forall_forall in H.
  destruct (H n Hn Hcrit) as (c & Hcin & Hccrit & Hchain & Hlen).
  exists (c ++ [n]). repeat split.
  - intros E. now destruct c.
  - intros x Hx. apply in_app_iff in Hx. destruct Hx as [Hx|[<-|[]]]; auto.
  - apply Forall_app. split; auto.
  - exact Hchain.
  - congruence.
Qed.

End Chains.

(** ** Which tasks are scheduled *)

Section Schedulable.

Variable tasks : list CPMInput.
Variable r : CPMResult.
Hypothesis Hsr : scheduled_result tasks r.

Lemma nodes_schedulable :
  Forall (fun n => schedulable tasks (node_id n)) (nodes r).
Proof.
  apply from_the_front. intros l1 n l2 HL IH.
  assert (Hn : In n (nodes r)) by (rewrite HL; apply in_or_app; right; now left).
  apply (schedulable_task tasks (task n)); [now apply (sr_tasks _ _ Hsr)|].
  intros d Hd. apply (sr_order _ _ Hsr l1 n l2 HL) in Hd.
  apply in_map_iff in Hd. destruct Hd as (pn & <- & Hpn).
  rewrite Forall_forall in IH. now apply IH.
Qed.

Lemma schedulable_scheduled k :
  schedulable tasks k -> In k (map node_id (nodes r)).
Proof.
  induction 1 as [t Ht _ IH]. apply (sr_closed _ _ Hsr t Ht). exact IH.
Qed.

Lemma scheduled_iff_schedulable k :
  In k (map node_id (nodes r)) <-> schedulable tasks k.
Proof.
  split; [|apply schedulable_scheduled].
  intros Hk. apply in_map_iff in Hk. destruct Hk as (n & <- & Hn).
  pose proof nodes_schedulable as H. rewrite Forall_forall in H. now apply H.
Qed.

End Schedulable.

Lemma schedulable_perm tasks tasks' k :
  Permutation tasks tasks' -> schedulable tasks k -> schedulable tasks' k.
Proof.
  intros Hperm. induction 1 as [t Ht _ IH].
  apply schedulable_task; auto. now apply (Permutation_in _ Hperm).
Qed.

(** ** The order of the input does not matter *)

Section InputOrder.

Variables tasks tasks' : list CPMInput.
Hypothesis Hperm : Permutation tasks tasks'.
Hypothesis Hids : NoDup (map id tasks).

Variables r r' : CPMResult.
Hypothesis Hsr : scheduled_result tasks r.
Hypothesis Hsr' : scheduled_result tasks' r'.

Lemma perm_ids : NoDup (map id tasks').
Proof.
  apply (Permutation_NoDup (l := map id tasks)); auto. now apply Permutation_map.
Qed.

Lemma same_ids k : In k (map node_id (nodes r)) <-> In k (map node_id (nodes r')).
Proof.
  rewrite (scheduled_iff_schedulable tasks r Hsr), (scheduled_iff_schedulable tasks' r' Hsr').
  split; apply schedulable_perm; auto. now apply Permutation_sym.
Qed.

Lemma same_task_of n n' :
  In n (nodes r) -> In n' (nodes r') -> node_id n' = node_id n -> task n' = task n.
Proof.
  intros Hn Hn' E. apply (NoDup_map_inj id tasks); auto.
  - apply (Permutation_in _ (Permutation_sym Hperm)). now apply (sr_tasks _ _ Hsr').
  - now apply (sr_tasks _ _ Hsr).
Qed.

Lemma node_of_id k :
  In k (map node_id (nodes r)) ->
  exists n n', find_node (nodes r) k = Some n /\ find_node (nodes r') k = Some n'
               /\ In n (nodes r) /\ In n' (nodes r')
               /\ node_id n = k /\ node_id n' = k.
Proof.
  intros Hk. pose proof (proj1 (same_ids k) Hk) as Hk'.
  apply in_map_iff in Hk. destruct Hk as (n & <- & Hn).
  apply in_map_iff in Hk'. destruct Hk' as (n' & E & Hn').
  exists n, n'. repeat split; auto.
  - apply find_node_unique; auto. apply Hsr.
  - rewrite <- E. apply find_node_unique; auto. apply Hsr'.
Qed.

Lemma same_forward :
  Forall (fun n => forall n', In n' (nodes r') -> node_id n' = node_id n ->
                     es n' = es n /\ ef n' = ef n) (nodes r).
Proof.
  pose proof (sr_relations _ _ Hsr) as Hrel. rewrite Forall_forall in Hrel.
  pose proof (sr_relations _ _ Hsr') as Hrel'. rewrite Forall_forall in Hrel'.
  apply from_the_front. intros l1 n l2 HL IH n' Hn' E.
  assert (Hn : In n (nodes r)) by (rewrite HL; apply in_or_app; right; now left).
  pose proof (same_task_of n n' Hn Hn' E) as Ht.
  assert (Hes : es n' = es n).
  { rewrite (sr_es _ _ Hsr n Hn), (sr_es _ _ Hsr' n' Hn'). rewrite Ht.
    destruct (dependencies (task n)) as [|p0 ps] eqn:Edeps; [reflexivity|].
    rewrite <- Edeps. f_equal. apply map_ext_in. intros p Hp.
    destruct (dep_node (nodes r) (sr_ids _ _ Hsr) (sr_order _ _ Hsr) l1 n l2 p HL Hp)
      as (pn & Hpn1 & Hid & Hfind).
    assert (Hpk : In p (map node_id (nodes r))).
    { rewrite <- Hid. apply in_map. rewrite HL. apply in_or_app. now left. }
    destruct (node_of_id p Hpk) as (m & m' & Hm & Hm' & _ & Hmin' & _ & Hmid').
    assert (m = pn) by congruence. subst m.
    unfold ef_of. rewrite Hm, Hm'. rewrite Forall_forall in IH.
    apply (IH pn Hpn1 m' Hmin'). congruence. }
  split; auto.
  destruct (Hrel n Hn) as (Hef & _). destruct (Hrel' n' Hn') as (Hef' & _).
  now rewrite Hef, Hef', Hes, Ht.
Qed.

Lemma same_ef_of k : ef_of (nodes r') k = ef_of (nodes r) k.
Proof.
  destruct (in_dec string_dec k (map node_id (nodes r))) as [Hk|Hk].
  - destruct (node_of_id k Hk) as (n & n' & Hn & Hn' & Hin & Hin' & Hid & Hid').
    unfold ef_of. rewrite Hn, Hn'.
    pose proof same_forward as H. rewrite Forall_forall in H.
    apply (H n Hin n' Hin'). congruence.
  - unfold ef_of.
    rewrite (proj2 (find_node_None (nodes r) k) Hk).
    rewrite (proj2 (find_node_None (nodes r') k)); [reflexivity|].
    intros H. apply Hk. now apply same_ids.
Qed.

Lemma efs_by_id (l : list CPMNode) :
  NoDup (map node_id l) -> map ef l = map (ef_of l) (map node_id l).
Proof.
  intros Hnd. rewrite map_map. apply map_ext_in. intros n Hn.
  unfold ef_of. now rewrite (find_node_unique l n Hnd Hn).
Qed.

Lemma ids_perm : Permutation (map node_id (nodes r')) (map node_id (nodes r)).
Proof.
  apply NoDup_Permutation; [apply Hsr' | apply Hsr |].
  intros k. symmetry. apply same_ids.
Qed.

Lemma same_projectDuration : projectDuration r' = projectDuration r.
Proof.
  rewrite (sr_duration _ _ Hsr), (sr_duration _ _ Hsr').
  rewrite (efs_by_id _ (sr_ids _ _ Hsr)), (efs_by_id _ (sr_ids _ _ Hsr')).
  rewrite (map_ext _ _ same_ef_of). apply Math_max_perm.
  apply Permutation_map. exact ids_perm.
Qed.

Lemma dependents_perm k : Permutation (dependents tasks k) (dependents tasks' k).
Proof. unfold dependents. now apply Permutation_flat_map. Qed.

Lemma same_backward :
  Forall (fun n => forall n', In n' (nodes r') -> node_id n' = node_id n ->
                     lf n' = lf n /\ ls n' = ls n) (nodes r).
Proof.
  pose proof (sr_relations _ _ Hsr) as Hrel. rewrite Forall_forall in Hrel.
  pose proof (sr_relations _ _ Hsr') as Hrel'. rewrite Forall_forall in Hrel'.
  apply from_the_back. intros l1 n l2 HL IH n' Hn' E.
  assert (Hn : In n (nodes r)) by (rewrite HL; apply in_or_app; right; now left).
  pose proof (same_task_of n n' Hn Hn' E) as Ht.
  assert (Hlf : lf n' = lf n).
  { rewrite (sr_lf _ _ Hsr n Hn), (sr_lf _ _ Hsr' n' Hn'). rewrite E, same_projectDuration.
    pose proof (dependents_perm (node_id n)) as Hdp.
    destruct (dependents tasks (node_id n)) as [|s0 ss] eqn:Es.
    { apply Permutation_nil in Hdp. now rewrite Hdp. }
    destruct (dependents tasks' (node_id n)) as [|s0' ss'] eqn:Es'.
    { apply Permutation_sym, Permutation_nil in Hdp. discriminate Hdp. }
    rewrite <- Es, <- Es' in *.
    transitivity (Number.Math_min (map (ls_of (projectDuration r) (nodes r))
                                       (dependents tasks' (node_id n)))).
    - f_equal. apply map_ext_in. intros s Hs.
      apply (Permutation_in _ (Permutation_sym Hdp)) in Hs.
      destruct (dependent_node tasks Hids (nodes r) (sr_ids _ _ Hsr) (sr_tasks _ _ Hsr)
                  (sr_order _ _ Hsr) l1 n l2 s HL Hs)
        as [Hnone|(sn & Hsn2 & Hid & Hfind & _)].
      + unfold ls_of. rewrite Hnone.
        rewrite (proj2 (find_node_None (nodes r') s)); [reflexivity|].
        intros H. apply same_ids in H. now apply find_node_None in Hnone.
      + assert (Hsk : In s (map node_id (nodes r))).
        { rewrite <- Hid. apply in_map. rewrite HL. apply in_or_app. right. now right. }
        destruct (node_of_id s Hsk) as (m & m' & Hm & Hm' & _ & Hmin' & _ & Hmid').
        assert (m = sn) by congruence. subst m.
        unfold ls_of. rewrite Hm, Hm'. rewrite Forall_forall in IH.
        apply (IH sn Hsn2 m' Hmin'). congruence.
    - apply Math_min_perm. apply Permutation_map. now apply Permutation_sym. }
  split; auto.
  destruct (Hrel n Hn) as (_ & Hls & _). destruct (Hrel' n' Hn') as (_ & Hls' & _).
  now rewrite Hls, Hls', Hlf, Ht.
Qed.

Lemma same_node n n' :
  In n (nodes r) -> In n' (nodes r') -> node_id n' = node_id n -> n' = n.
Proof.
  intros Hn Hn' E.
  pose proof same_forward as Hf. rewrite Forall_forall in Hf.
  pose proof same_backward as Hb. rewrite Forall_forall in Hb.
  destruct (Hf n Hn n' Hn' E) as [Hes Hef]. destruct (Hb n Hn n' Hn' E) as [Hlf Hls].
  pose proof (same_task_of n n' Hn Hn' E) as Ht.
  pose proof (sr_relations _ _ Hsr) as Hrel. rewrite Forall_forall in Hrel.
  pose proof (sr_relations _ _ Hsr') as Hrel'. rewrite Forall_forall in Hrel'.
  destruct (Hrel n Hn) as (_ & _ & Hfl & Hc). destruct (Hrel' n' Hn') as (_ & _ & Hfl' & Hc').
  assert (Hfloat : float n' = float n) by (rewrite Hfl, Hfl'; congruence).
  assert (Hcrit : isCritical n' = isCritical n).
  { rewrite <- Hfloat in Hc.
    destruct (isCritical n), (isCritical n'); auto.
    - apply Hc'. now apply Hc.
    - symmetry. apply Hc. now apply Hc'. }
  destruct n, n'. simpl in *. congruence.
Qed.

Lemma nodes_perm : Permutation (nodes r') (nodes r).
Proof.
  apply NoDup_Permutation.
  - apply (NoDup_map_inv node_id). apply Hsr'.
  - apply (NoDup_map_inv node_id). apply Hsr.
  - intros n'. split; intros H.
    + assert (Hk : In (node_id n') (map node_id (nodes r))).
      { apply same_ids. now apply in_map. }
      apply in_map_iff in Hk. destruct Hk as (n & E & Hn).
      now rewrite (same_node n n' Hn H (eq_sym E)).
    + assert (Hk : In (node_id n') (map node_id (nodes r'))).
      { apply same_ids. now apply in_map. }
      apply in_map_iff in Hk. destruct Hk as (m & E & Hm).
      now rewrite <- (same_node n' m H Hm E).
Qed.

Lemma criticalPath_perm : Permutation (criticalPath r') (criticalPath r).
Proof.
  rewrite (sr_path _ _ Hsr), (sr_path _ _ Hsr'). apply Permutation_map.
  rewrite !Array_sort_perm.
  pose proof nodes_perm as H. clear - H.
  induction H; simpl; auto.
  - destruct (isCritical x); auto.
  - destruct (isCritical x), (isCritical y); auto. constructor.
  - eapply perm_trans; eauto.
Qed.

End InputOrder.

(** ** Results for valid tasks with pairwise distinct ids *)

Lemma valid_result fuel tasks :
  NoDup (map id tasks) ->
  (forall t, In t tasks -> valid_task t) ->
  total_work tasks <= MAX_SAFE_INTEGER ->
  (length tasks <= fuel)%nat ->
  exists r,
    calculateCPM fuel tasks = Returns r
    /\ (nodes r <> [] ->
        scheduled_result tasks r /\ Forall integral_node (nodes r)
        /\ exists P, projectDuration r = Int P).
Proof.
  intros Hids Hvalid Hsafe Hfuel.
  destruct (calculateCPM_returns fuel tasks Hids Hfuel) as (r & Hr).
  exists r. split; auto. intros Hnodes.
  assert (Hne : tasks <> []).
  { intros ->. simpl in Hr. injection Hr as <-. now apply Hnodes. }
  destruct (result_integral tasks Hids Hne fuel r Hr Hvalid Hsafe) as [Hint HP].
  split; [|split]; auto.
  now apply (result_scheduled tasks Hids Hne fuel r Hr).
Qed.

(** Without the bound on the work the fields are still integers. *)
Lemma finite_result fuel tasks :
  NoDup (map id tasks) ->
  (forall t, In t tasks -> valid_task t) ->
  (length tasks <= fuel)%nat ->
  exists r,
    calculateCPM fuel tasks = Returns r
    /\ (nodes r <> [] ->
        scheduled_result tasks r /\ Forall int_fields (nodes r)
        /\ exists P, projectDuration r = Int P /\ 0 <= P).
Proof.
  intros Hids Hvalid Hfuel.
  destruct (calculateCPM_returns fuel tasks Hids Hfuel) as (r & Hr).
  exists r. split; auto. intros Hnodes.
  assert (Hne : tasks <> []).
  { intros ->. simpl in Hr. injection Hr as <-. now apply Hnodes. }
  pose proof (result_scheduled tasks Hids Hne fuel r Hr) as Hsr.
  destruct (result_fields tasks Hids Hne fuel r Hr) as [Hf HP].
  { intros n Hn. apply Hvalid. now apply (sr_tasks _ _ Hsr). }
  split; [|split]; auto.
Qed.

(** The project duration of a safe schedule is a safe integer. *)
Lemma safe_duration fuel tasks r P :
  NoDup (map id tasks) ->
  (forall t, In t tasks -> valid_task t) ->
  total_work tasks <= MAX_SAFE_INTEGER ->
  calculateCPM fuel tasks = Returns r ->
  nodes r <> [] -> projectDuration r = Int P ->
  P <= MAX_SAFE_INTEGER.
Proof.
  intros Hids Hvalid Hsafe Hr Hnodes HP.
  assert (Hne : tasks <> []).
  { intros ->. simpl in Hr. injection Hr as <-. now apply Hnodes. }
  pose proof (result_scheduled tasks Hids Hne fuel r Hr) as Hsr.
  pose proof (result_safe tasks Hids Hne fuel r Hr Hvalid Hsafe) as Hs.
  destruct (duration_exact tasks (nodes r) (projectDuration r)) as (p & Hp & Hr' & _);
    auto; try apply Hsr.
  - intros n Hn. apply Hvalid. now apply (sr_tasks _ _ Hsr).
  - assert (p = P) by congruence. lia.
Qed.

Lemma scenario1_safe : total_work scenario1 <= MAX_SAFE_INTEGER.
Proof. vm_compute. discriminate. Qed.

Lemma scenario1_distinct : NoDup (map id scenario1).
Proof. repeat constructor; simpl; intuition discriminate. Qed.

Lemma scenario1_valid t : In t scenario1 -> valid_task t.
Proof.
  intros [<-|[<-|[<-|[]]]]; unfold valid_task, MAX_SAFE_INTEGER; simpl; lia.
Qed.

(** C5, for the inputs on which no sum is rounded: for tasks with
    pairwise distinct ids, nonnegative safe-integer durations and
    progress between 0 and 100, whose effective durations add up to at
    most [Number.MAX_SAFE_INTEGER], the engine returns, and every node
    of the result has an integer float that is at least 0. *)
Theorem float_nonneg fuel tasks :
  NoDup (map id tasks) ->
  (forall t, In t tasks -> valid_task t) ->
  total_work tasks <= MAX_SAFE_INTEGER ->
  (length tasks <= fuel)%nat ->
  exists r, calculateCPM fuel tasks = Returns r
            /\ Forall nonneg_float_field (nodes r).
Proof.
  intros Hids Hvalid Hsafe Hfuel.
  destruct (valid_result fuel tasks Hids Hvalid Hsafe Hfuel) as (r & Hr & Hfacts).
  exists r. split; auto. apply Forall_forall. intros n Hn.
  assert (Hnodes : nodes r <> []) by (intros E; rewrite E in Hn; destruct Hn).
  destruct (Hfacts Hnodes) as (Hsr & Hint & P & HP).
  pose proof (safe_duration fuel tasks r P Hids Hvalid Hsafe Hr Hnodes HP) as HPsafe.
  pose proof (result_windows tasks Hids r P Hsr Hint HP) as Hw.
  rewrite Forall_forall in Hw.
  destruct (Hw n Hn) as (e & d & l & He & Hd & Hef & _ & Hls & Hd0 & He0 & Hle & HlP).
  pose proof (sr_relations _ _ Hsr) as Hrel. rewrite Forall_forall in Hrel.
  destruct (Hrel n Hn) as (_ & _ & Hfl & _).
  exists (l - d - e). split; [|lia].
  rewrite Hfl, Hls, He. apply sub_exact. unfold MAX_SAFE_INTEGER in HPsafe. lia.
Qed.

Lemma float_nonneg_witness :
  exists r, calculateCPM 3 scenario1 = Returns r
            /\ Forall nonneg_float_field (nodes r).
Proof.
  apply (float_nonneg 3 scenario1).
  - exact scenario1_distinct.
  - exact scenario1_valid.
  - exact scenario1_safe.
  - simpl. lia.
Defined.

(** C5 as stated fails where the sums are rounded.  Task A lasts
    2^53 - 1 days and task B, which waits on A, 2 days: both durations
    are nonnegative safe integers and the ids are distinct.  EF(B) is
    the double nearest to 2^53 + 1, which is 2^53; LS(B) = 2^53 - 2 is
    then before ES(B) = 2^53 - 1, and both nodes get the float -1, so
    that no node is critical. *)
Theorem beyond_safe_negative_float :
  NoDup (map id beyond_safe)
  /\ (forall t, In t beyond_safe -> valid_task t)
  /\ calculateCPM 2 beyond_safe
     = Returns {| nodes := [ scheduled (plain "A" (2 ^ 53 - 1) [] "not_started" 0)
                               0 (2 ^ 53 - 1) (-1) (2 ^ 53 - 2) (-1) false;
                             scheduled (plain "B" 2 ["A"%string] "not_started" 0)
                               (2 ^ 53 - 1) (2 ^ 53) (2 ^ 53 - 2) (2 ^ 53) (-1) false ];
                  criticalPath := [];
                  projectDuration := Int (2 ^ 53) |}
  /\ ~ (exists r, calculateCPM 2 beyond_safe = Returns r
                  /\ Forall nonneg_float_field (nodes r)).
Proof.
  assert (Hrun : calculateCPM 2 beyond_safe
     = Returns {| nodes := [ scheduled (plain "A" (2 ^ 53 - 1) [] "not_started" 0)
                               0 (2 ^ 53 - 1) (-1) (2 ^ 53 - 2) (-1) false;
                             scheduled (plain "B" 2 ["A"%string] "not_started" 0)
                               (2 ^ 53 - 1) (2 ^ 53) (2 ^ 53 - 2) (2 ^ 53) (-1) false ];
                  criticalPath := [];
                  projectDuration := Int (2 ^ 53) |})
    by (vm_compute; reflexivity).
  split; [|split; [|split]].
  - repeat constructor; simpl; intuition discriminate.
  - intros t [<-|[<-|[]]]; unfold valid_task, MAX_SAFE_INTEGER; simpl; lia.
  - exact Hrun.
  - intros (r & Hr & Hall). rewrite Hrun in Hr. injection Hr as <-.
    cbn [nodes] in Hall. inversion Hall as [|? ? (f & Hf & Hf0) _]; subst.
    unfold scheduled in Hf. cbn [float] in Hf. injection Hf as <-. lia.
Qed.





Example cycle_and_three_result :
  calculateCPM 5 cycle_and_three
  = Returns {| nodes := [ scheduled free_1 0 0 0 0 0 true;
                          scheduled free_2 0 5 0 5 0 true;
                          scheduled free_3 5 7 5 7 0 true ];
               criticalPath := ["T1"%string; "T2"%string; "T3"%string];
               projectDuration := Int 7 |}.
Proof. reflexivity. Qed.


(** X7: for tasks with pairwise distinct ids the result satisfies the
    recurrences of the critical-path method, read on the final values:
    the ES of a node is 0 without dependencies and otherwise the maximum
    of the EF of the nodes of its dependencies; its LF is the project
    duration without dependents and otherwise the minimum of the LS of
    its dependents, a dependent without a node counting as the project
    duration; and the project duration is the maximum EF. *)
Theorem recurrences_hold fuel tasks :
  NoDup (map id tasks) -> tasks <> [] -> (length tasks <= fuel)%nat ->
  exists r,
    calculateCPM fuel tasks = Returns r
    /\ projectDuration r = Number.Math_max (map ef (nodes r))
    /\ forall n, In n (nodes r) ->
         es_equation (nodes r) n
         /\ lf_equation tasks (projectDuration r) (nodes r) n.
Proof.
  intros Hids Hne Hfuel.
  destruct (calculateCPM_returns fuel tasks Hids Hfuel) as (r & Hr).
  pose proof (result_scheduled tasks Hids Hne fuel r Hr) as Hsr.
  exists r. repeat split; auto; apply Hsr; auto.
Qed.

Lemma recurrences_hold_witness :
  exists r,
    calculateCPM 3 scenario1 = Returns r
    /\ projectDuration r = Number.Math_max (map ef (nodes r))
    /\ forall n, In n (nodes r) ->
         es_equation (nodes r) n
         /\ lf_equation scenario1 (projectDuration r) (nodes r) n.
Proof.
  apply (recurrences_hold 3 scenario1).
  - exact scenario1_distinct.
  - discriminate.
  - simpl. lia.
Defined.

(** X8: for valid tasks with pairwise distinct ids, every dependency of
    a scheduled task is scheduled too, and is over before the task
    begins on both schedules: EF(dependency) <= ES(task) and
    LF(dependency) <= LS(task). *)
Theorem dependencies_respected fuel tasks :
  NoDup (map id tasks) ->
  (forall t, In t tasks -> valid_task t) ->
  (length tasks <= fuel)%nat ->
  exists r,
    calculateCPM fuel tasks = Returns r
    /\ forall n p, In n (nodes r) -> In p (dependencies (task n)) ->
         exists pn, In pn (nodes r) /\ node_id pn = p /\ respects pn n.
Proof.
  intros Hids Hvalid Hfuel.
  destruct (finite_result fuel tasks Hids Hvalid Hfuel) as (r & Hr & Hfacts).
  exists r. split; auto. intros n p Hn Hp.
  destruct Hfacts as (Hsr & Hf & P & HP & _).
  { intros E. rewrite E in Hn. destruct Hn. }
  apply (dependency_respected tasks (nodes r) P); auto; try apply Hsr.
  intros m Hm. rewrite <- HP. now apply (sr_lf _ _ Hsr).
Qed.

Lemma dependencies_respected_witness :
  exists r,
    calculateCPM 3 scenario1 = Returns r
    /\ forall n p, In n (nodes r) -> In p (dependencies (task n)) ->
         exists pn, In pn (nodes r) /\ node_id pn = p /\ respects pn n.
Proof.
  apply (dependencies_respected 3 scenario1).
  - exact scenario1_distinct.
  - exact scenario1_valid.
  - simpl. lia.
Defined.

(** X9: for valid tasks with pairwise distinct ids whose effective
    durations add up to a safe integer, the window of every node lies
    inside the project: 0 <= ES, ES + d = EF <= LF <= the project
    duration, and LS = LF - d, for the effective duration d >= 0. *)
Theorem windows_within_project fuel tasks :
  NoDup (map id tasks) ->
  (forall t, In t tasks -> valid_task t) ->
  total_work tasks <= MAX_SAFE_INTEGER ->
  (length tasks <= fuel)%nat ->
  exists r,
    calculateCPM fuel tasks = Returns r
    /\ (nodes r <> [] ->
        exists P, projectDuration r = Int P /\ Forall (within P) (nodes r)).
Proof.
  intros Hids Hvalid Hsafe Hfuel.
  destruct (valid_result fuel tasks Hids Hvalid Hsafe Hfuel) as (r & Hr & Hfacts).
  exists r. split; auto. intros Hne.
  destruct (Hfacts Hne) as (Hsr & Hint & P & HP).
  exists P. split; auto. now apply (result_windows tasks Hids r P Hsr Hint HP).
Qed.

Lemma windows_within_project_witness :
  exists r,
    calculateCPM 3 scenario1 = Returns r
    /\ (nodes r <> [] ->
        exists P, projectDuration r = Int P /\ Forall (within P) (nodes r)).
Proof.
  apply (windows_within_project 3 scenario1).
  - exact scenario1_distinct.
  - exact scenario1_valid.
  - exact scenario1_safe.
  - simpl. lia.
Defined.

(** X10: for valid tasks with pairwise distinct ids whose effective
    durations add up to at most [Number.MAX_SAFE_INTEGER], and of which
    at least one is scheduled, the project duration is the length of the
    longest dependency chain: some chain of critical nodes has effective
    durations that add up to the project duration, and no chain of nodes
    adds up to more. *)
Theorem project_is_longest_chain fuel tasks :
  NoDup (map id tasks) ->
  (forall t, In t tasks -> valid_task t) ->
  total_work tasks <= MAX_SAFE_INTEGER ->
  (length tasks <= fuel)%nat ->
  exists r,
    calculateCPM fuel tasks = Returns r
    /\ (nodes r <> [] ->
        exists P,
          projectDuration r = Int P
          /\ (exists c, critical_chain (nodes r) P c)
          /\ forall c, chain c -> incl c (nodes r) -> chain_length c <= P).
Proof.
  intros Hids Hvalid Hsafe Hfuel.
  destruct (valid_result fuel tasks Hids Hvalid Hsafe Hfuel) as (r & Hr & Hfacts).
  exists r. split; auto. intros Hne.
  destruct (Hfacts Hne) as (Hsr & Hint & P & HP).
  exists P. split; [auto | split].
  - now apply (critical_chain_found tasks Hids r P Hsr Hint HP).
  - intros [|a c] Hc Hin.
    + destruct (critical_end tasks Hids r P Hsr Hint HP Hne) as (n & Hn & _ & Hef).
      pose proof (result_windows tasks Hids r P Hsr Hint HP) as Hw.
      rewrite Forall_forall in Hw.
      destruct (Hw n Hn) as (e & d & l & _ & _ & Hef' & _ & _ & Hd0 & He0 & _).
      unfold chain_length. simpl. assert (e + d = P) by congruence. lia.
    + destruct (chain_fits tasks Hids r P Hsr Hint HP c a Hc Hin) as (e & _ & He0 & Hle).
      lia.
Qed.

Lemma project_is_longest_chain_witness :
  exists r,
    calculateCPM 3 scenario1 = Returns r
    /\ (nodes r <> [] ->
        exists P,
          projectDuration r = Int P
          /\ (exists c, critical_chain (nodes r) P c)
          /\ forall c, chain c -> incl c (nodes r) -> chain_length c <= P).
Proof.
  apply (project_is_longest_chain 3 scenario1).
  - exact scenario1_distinct.
  - exact scenario1_valid.
  - exact scenario1_safe.
  - simpl. lia.
Defined.

(** X11: for tasks with pairwise distinct ids, the scheduled tasks are
    exactly the schedulable ones: a task gets a node if and only if all
    its dependencies name tasks that get a node, from the tasks without
    dependencies upwards.  A task on a cycle, a task waiting on a missing
    id, and every task that waits on such a task get no node. *)
Theorem scheduled_exactly_schedulable fuel tasks :
  NoDup (map id tasks) -> (length tasks <= fuel)%nat ->
  exists r,
    calculateCPM fuel tasks = Returns r
    /\ forall k, In k (map node_id (nodes r)) <-> schedulable tasks k.
Proof.
  intros Hids Hfuel.
  destruct (calculateCPM_returns fuel tasks Hids Hfuel) as (r & Hr).
  exists r. split; auto. destruct tasks as [|t0 ts].
  - simpl in Hr. injection Hr as <-. simpl. intros k. split; [intros [] |].
    intros H. destruct H as [t [] _].
  - apply scheduled_iff_schedulable.
    apply (result_scheduled (t0 :: ts) Hids) with (fuel := fuel); auto. discriminate.
Qed.

Lemma scheduled_exactly_schedulable_witness :
  exists r,
    calculateCPM 5 cycle_and_three = Returns r
    /\ forall k, In k (map node_id (nodes r)) <-> schedulable cycle_and_three k.
Proof.
  apply (scheduled_exactly_schedulable 5 cycle_and_three).
  - repeat constructor; simpl; intuition discriminate.
  - simpl. lia.
Defined.

(** X12: the order in which the tasks are listed does not matter.  For
    tasks with pairwise distinct ids, listing them in another order
    gives the same project duration and the same nodes (every field of
    every node), and the same critical ids; only the order of the nodes
    and the order of critical ids with equal ES can change. *)
Theorem input_order_irrelevant fuel tasks tasks' :
  Permutation tasks tasks' ->
  NoDup (map id tasks) -> (length tasks <= fuel)%nat ->
  exists r r',
    calculateCPM fuel tasks = Returns r
    /\ calculateCPM fuel tasks' = Returns r'
    /\ projectDuration r' = projectDuration r
    /\ Permutation (nodes r') (nodes r)
    /\ Permutation (criticalPath r') (criticalPath r).
Proof.
  intros Hperm Hids Hfuel.
  assert (Hids' : NoDup (map id tasks')).
  { apply (Permutation_NoDup (l := map id tasks)); auto. now apply Permutation_map. }
  assert (Hfuel' : (length tasks' <= fuel)%nat).
  { now rewrite <- (Permutation_length Hperm). }
  destruct (calculateCPM_returns fuel tasks Hids Hfuel) as (r & Hr).
  destruct (calculateCPM_returns fuel tasks' Hids' Hfuel') as (r' & Hr').
  exists r, r'. split; [auto | split; [auto|]].
  destruct tasks as [|t0 ts].
  - apply Permutation_nil in Hperm. subst tasks'.
    simpl in Hr, Hr'. injection Hr as <-. injection Hr' as <-. simpl. auto.
  - assert (Hne : t0 :: ts <> []) by discriminate.
    assert (Hne' : tasks' <> []).
    { intros ->. apply Permutation_sym, Permutation_nil in Hperm. discriminate. }
    pose proof (result_scheduled _ Hids Hne fuel r Hr) as Hsr.
    pose proof (result_scheduled _ Hids' Hne' fuel r' Hr') as Hsr'.
    repeat split.
    + exact (same_projectDuration _ _ Hperm Hids r r' Hsr Hsr').
    + exact (nodes_perm _ _ Hperm Hids r r' Hsr Hsr').
    + exact (criticalPath_perm _ _ Hperm Hids r r' Hsr Hsr').
Qed.

Lemma input_order_irrelevant_witness :
  exists r r',
    calculateCPM 3 scenario1 = Returns r
    /\ calculateCPM 3 (rev scenario1) = Returns r'
    /\ projectDuration r' = projectDuration r
    /\ Permutation (nodes r') (nodes r)
    /\ Permutation (criticalPath r') (criticalPath r).
Proof.
  apply (input_order_irrelevant 3 scenario1 (rev scenario1)).
  - apply Permutation_rev.
  - exact scenario1_distinct.
  - simpl. lia.
Defined.

(** ** Inputs in which every task waits on something *)

Section NoRoot.
Import JsMap JsMapFacts.

Variable tasks : list CPMInput.
Hypothesis Hwait : forall t, In t tasks -> dependencies t <> [].

Lemma predecessors_nonempty t :
  In t tasks -> get_list (buildPredecessors tasks) (id t) <> [].
Proof.
  intros Ht. unfold get_list.
  destruct (get (buildPredecessors tasks) (id t)) as [deps|] eqn:E.
  - apply (setAll_get dependencies) in E. destruct E as [E|(t' & Ht' & _ & ->)].
    + discriminate E.
    + now apply Hwait.
  - exfalso. apply get_None in E. apply E.
    apply (setAll_keys dependencies). right. now apply in_map.
Qed.

Lemma no_root_queue :
  initQueue (initInDegree tasks (buildPredecessors tasks)) = [].
Proof.
  unfold initQueue.
  set (m := initInDegree tasks (buildPredecessors tasks)).
  assert (Hm : forall kv, In kv m -> (snd kv =? 0) = false).
  { intros [k v] Hin.
    assert (Hnd : NoDup (keys m)) by (apply setAll_NoDup; constructor).
    apply (In_get_Some _ _ _ Hnd) in Hin.
    apply (setAll_get (fun t => Z.of_nat (length (get_list (buildPredecessors tasks) (id t)))))
      in Hin.
    destruct Hin as [E|(t & Ht & _ & ->)]; [discriminate E|].
    simpl. apply Z.eqb_neq. pose proof (predecessors_nonempty t Ht) as Hne.
    destruct (get_list (buildPredecessors tasks) (id t)); [congruence | simpl; lia]. }
  induction m as [|kv m IH]; simpl; [reflexivity|].
  rewrite (Hm kv) by now left. apply IH. intros kv' H. apply Hm. now right.
Qed.

End NoRoot.

(** X13: when the task list is not empty and every task has at least one
    dependency (for instance when every task lies on a cycle), the queue
    of the sort starts empty, nothing is scheduled, and the project
    duration is [Math.max()] of no value at all: -Infinity.  This holds
    for every input, repeated ids included, and needs no iteration of
    the loop. *)
Theorem no_root_no_schedule fuel tasks :
  tasks <> [] ->
  (forall t, In t tasks -> dependencies t <> []) ->
  calculateCPM fuel tasks
  = Returns {| nodes := []; criticalPath := []; projectDuration := NegInfinity |}.
Proof.
  intros Hne Hwait. unfold calculateCPM. destruct tasks as [|t0 ts]; [congruence|].
  unfold topologicalSort. rewrite (no_root_queue _ Hwait).
  destruct fuel; reflexivity.
Qed.

Lemma no_root_no_schedule_witness :
  calculateCPM 0 [cycle_a; cycle_b; plain "C" 4 ["A"%string] "in_progress" 10]
  = Returns {| nodes := []; criticalPath := []; projectDuration := NegInfinity |}.
Proof.
  apply no_root_no_schedule.
  - discriminate.
  - intros t [<-|[<-|[<-|[]]]]; discriminate.
Defined.

(** X14: for valid tasks with pairwise distinct ids, the project
    duration is -Infinity exactly when the list is not empty and every
    task has a dependency; in every other case it is an integer that is
    at least 0. *)
Theorem projectDuration_cases fuel tasks :
  NoDup (map id tasks) ->
  (forall t, In t tasks -> valid_task t) ->
  (length tasks <= fuel)%nat ->
  exists r,
    calculateCPM fuel tasks = Returns r
    /\ (projectDuration r = NegInfinity
        <-> tasks <> [] /\ forall t, In t tasks -> dependencies t <> [])
    /\ (projectDuration r = NegInfinity \/ exists P, projectDuration r = Int P /\ 0 <= P).
Proof.
  intros Hids Hvalid Hfuel.
  destruct (finite_result fuel tasks Hids Hvalid Hfuel) as (r & Hr & Hfacts).
  exists r. split; auto.
  destruct (list_eq_dec string_dec (map node_id (nodes r)) []) as [Hnil|Hsome].
  - (* nothing is scheduled *)
    assert (Hnodes : nodes r = []) by (destruct (nodes r); [reflexivity | discriminate Hnil]).
    destruct tasks as [|t0 ts].
    + simpl in Hr. injection Hr as <-. simpl. split.
      * split; [intros H; discriminate H | intros [H _]; congruence].
      * right. exists 0. split; [reflexivity | lia].
    + assert (Hne : t0 :: ts <> []) by discriminate.
      pose proof (result_scheduled _ Hids Hne fuel r Hr) as Hsr.
      assert (HP : projectDuration r = NegInfinity).
      { rewrite (sr_duration _ _ Hsr), Hnodes. reflexivity. }
      split; [|now left]. split; [|now intros _].
      intros _. split; auto. intros t Ht Hdeps.
      assert (Hin : In (id t) (map node_id (nodes r))).
      { apply (sr_closed _ _ Hsr t Ht). rewrite Hdeps. intros x []. }
      rewrite Hnil in Hin. destruct Hin.
  - (* something is scheduled *)
    assert (Hnodes : nodes r <> []) by (intros E; apply Hsome; now rewrite E).
    destruct (Hfacts Hnodes) as (Hsr & Hint & P & HP & HP0).
    split; [|right; eauto]. split.
    + intros E. congruence.
    + intros [Hne Hwait]. exfalso.
      rewrite (no_root_no_schedule fuel tasks Hne Hwait) in Hr.
      injection Hr as <-. now apply Hnodes.
Qed.

Lemma projectDuration_cases_witness :
  exists r,
    calculateCPM 3 scenario1 = Returns r
    /\ (projectDuration r = NegInfinity
        <-> scenario1 <> [] /\ forall t, In t scenario1 -> dependencies t <> [])
    /\ (projectDuration r = NegInfinity \/ exists P, projectDuration r = Int P /\ 0 <= P).
Proof.
  apply (projectDuration_cases 3 scenario1).
  - exact scenario1_distinct.
  - exact scenario1_valid.
  - simpl. lia.
Defined.

(** ** Totals of the resource analysis *)

Section LoadTotals.
Import JsMap JsMapFacts.

Variable f : DeveloperLoad.t -> Z.
Variable g : CPMNode -> Z.
Hypothesis f_add : forall e n, f (add_node e n) = f e + g n.
Hypothesis f_fresh : forall n, f (fresh_load n) = 0.

Lemma sum_loads_set : forall (m : JsMap.t DeveloperLoad.t) k v,
  sum_loads f (set m k v)
  = sum_loads f m + f v - match get m k with Some old => f old | None => 0 end.
Proof.
  unfold sum_loads.
  induction m as [|[k' w] m IH]; intros k v; simpl; [lia|].
  destruct (String.eqb k' k); simpl; [lia|]. rewrite IH. lia.
Qed.

Lemma accumulate_add m n :
  sum_loads f (accumulate m n) = sum_loads f m + (if is_assigned n then g n else 0).
Proof.
  unfold accumulate, is_assigned. destruct (truthy (assigneeId (task n))) as [dev|]; [|lia].
  rewrite sum_loads_set. destruct (get m dev) as [e|].
  - pose proof (f_add e n) as H. unfold add_node in H. rewrite H. lia.
  - pose proof (f_add (fresh_load n) n) as H. unfold add_node, fresh_load in H.
    cbn [DeveloperLoad.name DeveloperLoad.tasks DeveloperLoad.criticalTasks
         DeveloperLoad.totalDuration] in H |- *.
    rewrite H. pose proof (f_fresh n) as H0. unfold fresh_load in H0. rewrite H0. lia.
Qed.

Lemma loads_add : forall l m,
  sum_loads f (fold_left accumulate l m)
  = sum_loads f m + fold_right Z.add 0 (map g (filter is_assigned l)).
Proof.
  induction l as [|n l IH]; intros m; simpl; [lia|].
  rewrite IH, accumulate_add. destruct (is_assigned n); simpl; lia.
Qed.

End LoadTotals.

Lemma count_ones {A} (l : list A) : fold_right Z.add 0 (map (fun _ => 1) l) = Z.of_nat (length l).
Proof. induction l as [|a l IH]; [reflexivity|]. cbn [map fold_right length]. lia. Qed.

Lemma count_critical l :
  fold_right Z.add 0 (map critical_count l) = Z.of_nat (length (filter isCritical l)).
Proof.
  induction l as [|n l IH]; [reflexivity|]. cbn [map fold_right filter].
  unfold critical_count at 1. destruct (isCritical n); cbn [length]; lia.
Qed.

Lemma recommend_length pd entry : (length (recommend pd entry) <= 2)%nat.
Proof.
  unfold recommend.
  destruct (3 <=? DeveloperLoad.criticalTasks (snd entry)),
           (exceedsTimeline pd (snd entry)); simpl; lia.
Qed.

Lemma loads_duration l :
  (forall n, In n l -> 0 <= duration (task n)) ->
  total_duration l <= MAX_SAFE_INTEGER ->
  sum_loads load_duration (fold_left accumulate l JsMap.empty)
  = total_duration (filter is_assigned l).
Proof.
  unfold MAX_SAFE_INTEGER.
  induction l as [|n l IH] using rev_ind; intros Hpos Hmax; [reflexivity|].
  rewrite total_duration_app in Hmax.
  change (total_duration [n]) with (duration (task n) + 0) in Hmax.
  assert (Hn : 0 <= duration (task n)) by (apply Hpos, in_or_app; right; now left).
  assert (Hl : forall x, In x l -> 0 <= duration (task x))
    by (intros; apply Hpos, in_or_app; now left).
  pose proof (total_duration_nonneg l Hl) as Hl0.
  rewrite fold_left_app, filter_app, total_duration_app. cbn [fold_left filter].
  unfold accumulate at 1, is_assigned at 2.
  destruct (truthy (assigneeId (task n))) as [dev|].
  - rewrite sum_loads_set, IH by (auto; lia).
    change (total_duration [n]) with (duration (task n) + 0).
    rewrite accumulate_spec.
    destruct (load_of (group dev l)) as [e|] eqn:E.
    + apply load_of_Some in E. destruct E as (first & rest & _ & _ & _ & _ & Hd).
      pose proof (total_duration_filter
                    (fun n => option_string_eqb (truthy (assigneeId (task n))) dev) l Hl) as Hg.
      fold (group dev l) in Hg.
      rewrite summed_exact in Hd.
      * unfold load_duration. cbn [DeveloperLoad.totalDuration]. rewrite Hd.
        rewrite add_exact by lia. lia.
      * intros x Hx. apply Hl. unfold group in Hx. apply filter_In in Hx. tauto.
      * unfold MAX_SAFE_INTEGER. lia.
    + unfold load_duration. cbn [DeveloperLoad.totalDuration].
      rewrite add_exact by lia. lia.
  - rewrite IH by (auto; lia). change (total_duration []) with 0. lia.
Qed.

Lemma load_duration_exact result dev load :
  (forall n, In n (nodes result) -> 0 <= duration (task n)) ->
  total_duration (nodes result) <= MAX_SAFE_INTEGER ->
  In (dev, load) (developerLoad (analyzeResourceAllocation result)) ->
  DeveloperLoad.totalDuration load = Int (load_duration load)
  /\ load_duration load = total_duration (group dev (nodes result)).
Proof.
  intros Hpos Hmax Hin. unfold analyzeResourceAllocation in Hin. cbn [developerLoad] in Hin.
  apply (JsMapFacts.In_get_Some _ _ _ (accumulate_NoDup (nodes result))) in Hin.
  rewrite accumulate_spec in Hin. apply load_of_Some in Hin.
  destruct Hin as (first & rest & _ & _ & _ & _ & Hd).
  pose proof (total_duration_filter
                (fun n => option_string_eqb (truthy (assigneeId (task n))) dev)
                (nodes result) Hpos) as Hg.
  fold (group dev (nodes result)) in Hg.
  rewrite summed_exact in Hd.
  - unfold load_duration. rewrite Hd. auto.
  - intros x Hx. apply Hpos. unfold group in Hx. apply filter_In in Hx. tauto.
  - lia.
Qed.

(** X15: analyzeResourceAllocation counts every assigned node exactly
    once, in a result that fits into an array (so that the counters are
    exact).  Added up over all developers, [tasks] is the number of
    nodes with a truthy assigneeId and [criticalTasks] the number of
    critical ones among them; when the raw durations are nonnegative and
    add up to at most [Number.MAX_SAFE_INTEGER], so that no sum is
    rounded, every [totalDuration] is an integer and these add up to the
    sum of the raw durations of the assigned nodes; every developer
    listed has at least one task and at most as many critical tasks as
    tasks; and there are at most two recommendations per developer. *)
Theorem load_totals (result : CPMResult) :
  Z.of_nat (length (nodes result)) < 2 ^ 32 ->
  (forall n, In n (nodes result) -> 0 <= duration (task n)) ->
  total_duration (nodes result) <= MAX_SAFE_INTEGER ->
  let a := analyzeResourceAllocation result in
  let assigned_nodes := filter is_assigned (nodes result) in
  sum_loads DeveloperLoad.tasks (developerLoad a) = Z.of_nat (length assigned_nodes)
  /\ sum_loads DeveloperLoad.criticalTasks (developerLoad a)
     = Z.of_nat (length (filter isCritical assigned_nodes))
  /\ sum_loads load_duration (developerLoad a) = total_duration assigned_nodes
  /\ (forall dev load, In (dev, load) (developerLoad a) ->
        DeveloperLoad.totalDuration load = Int (load_duration load)
        /\ 1 <= DeveloperLoad.tasks load
        /\ 0 <= DeveloperLoad.criticalTasks load <= DeveloperLoad.tasks load)
  /\ (length (recommendations a) <= 2 * length (developerLoad a))%nat.
Proof.
  intros _ Hpos Hmax. cbn zeta.
  split; [|split; [|split; [|split]]].
  - unfold analyzeResourceAllocation. cbn [developerLoad].
    rewrite (loads_add DeveloperLoad.tasks (fun _ => 1)); auto.
    change (sum_loads DeveloperLoad.tasks JsMap.empty) with 0.
    rewrite count_ones. lia.
  - unfold analyzeResourceAllocation. cbn [developerLoad].
    rewrite (loads_add DeveloperLoad.criticalTasks critical_count).
    + change (sum_loads DeveloperLoad.criticalTasks JsMap.empty) with 0.
      rewrite count_critical. lia.
    + intros e n. unfold add_node, critical_count. simpl. destruct (isCritical n); lia.
    + reflexivity.
  - unfold analyzeResourceAllocation. cbn [developerLoad].
    now apply loads_duration.
  - intros dev load H. split.
    { now apply (load_duration_exact result dev load Hpos Hmax). }
    unfold analyzeResourceAllocation in H. cbn [developerLoad] in H.
    apply (JsMapFacts.In_get_Some _ _ _ (accumulate_NoDup (nodes result))) in H.
    rewrite accumulate_spec in H. apply load_of_Some in H.
    destruct H as (first & rest & Hg & _ & Ht & Hc & _). rewrite Ht, Hc, Hg.
    split; [simpl; lia|]. split; [lia|].
    rewrite <- Hg. apply inj_le. apply filter_length_le.
  - unfold analyzeResourceAllocation. cbn [developerLoad recommendations].
    induction (fold_left accumulate (nodes result) JsMap.empty) as [|e m IH]; simpl; [lia|].
    rewrite length_app. pose proof (recommend_length (projectDuration result) e). lia.
Qed.

Lemma load_totals_witness :
  sum_loads load_duration (developerLoad (analyzeResourceAllocation three_critical))
  = total_duration (filter is_assigned (nodes three_critical)).
Proof.
  destruct (load_totals three_critical) as (_ & _ & Hd & _).
  - vm_compute. reflexivity.
  - intros n [<-|[<-|[<-|[]]]]; simpl; lia.
  - vm_compute. discriminate.
  - exact Hd.
Defined.

(** ** A project whose scheduled work is all done *)

Lemma zero_timeline_exceeded load d :
  DeveloperLoad.totalDuration load = Int d ->
  0 < d <= MAX_SAFE_INTEGER ->
  exceedsTimeline (Int 0) load = true.
Proof.
  intros E Hd. unfold exceedsTimeline. rewrite E. cbn [Number.to_float].
  destruct (of_Z_positive d) as (m & e & ->).
  { unfold MAX_SAFE_INTEGER in Hd. lia. }
  reflexivity.
Qed.

Lemma zero_timeline_message result dev load d :
  projectDuration result = Int 0 ->
  In (dev, load) (developerLoad (analyzeResourceAllocation result)) ->
  DeveloperLoad.totalDuration load = Int d ->
  0 < d <= MAX_SAFE_INTEGER ->
  In (durationMessage load) (recommendations (analyzeResourceAllocation result)).
Proof.
  intros HP Hin E Hd. unfold analyzeResourceAllocation in *.
  cbn [developerLoad recommendations] in *.
  apply in_flat_map. exists (dev, load). split; auto.
  unfold recommend. apply in_or_app. right. cbn [snd].
  rewrite HP, (zero_timeline_exceeded load d E Hd). now left.
Qed.

Lemma completed_work tasks :
  (forall t, In t tasks -> status t = "completed"%string) -> total_work tasks = 0.
Proof.
  unfold total_work. induction tasks as [|t tasks IH]; intros Hdone; [reflexivity|].
  cbn [map fold_right]. rewrite IH by (intros; apply Hdone; now right).
  unfold work, effectiveDuration. rewrite (Hdone t) by now left. reflexivity.
Qed.

Lemma completed_chain_length tasks c :
  (forall t, In t tasks -> status t = "completed"%string) ->
  (forall n, In n c -> In (task n) tasks) ->
  chain_length c = 0.
Proof.
  intros Hdone. induction c as [|n c IH]; intros Hin; [reflexivity|].
  rewrite chain_length_cons, IH by (intros; apply Hin; now right).
  unfold effective_value, effectiveDuration.
  rewrite (Hdone (task n)) by (apply Hin; now left). reflexivity.
Qed.

(** X16: when every task is completed, the scheduled project has
    duration 0, and the resource analysis then reports every developer
    with any raw work as overloaded: the comparison
    [totalDuration > projectDuration * 0.7] is between raw durations and
    a timeline of effective durations, so each developer whose tasks have
    a positive total duration gets the recommendation about exceeding 70%
    of the project timeline. *)
Theorem completed_project_overload fuel tasks :
  NoDup (map id tasks) ->
  (forall t, In t tasks -> valid_task t) ->
  (forall t, In t tasks -> status t = "completed"%string) ->
  (length tasks <= fuel)%nat ->
  exists r,
    calculateCPM fuel tasks = Returns r
    /\ (nodes r <> [] -> projectDuration r = Int 0)
    /\ forall dev load,
         In (dev, load) (developerLoad (analyzeResourceAllocation r)) ->
         forall d, DeveloperLoad.totalDuration load = Int d ->
         0 < d <= MAX_SAFE_INTEGER ->
         In (durationMessage load) (recommendations (analyzeResourceAllocation r)).
Proof.
  intros Hids Hvalid Hdone Hfuel.
  assert (Hsafe : total_work tasks <= MAX_SAFE_INTEGER).
  { rewrite (completed_work tasks Hdone). unfold MAX_SAFE_INTEGER. lia. }
  destruct (valid_result fuel tasks Hids Hvalid Hsafe Hfuel) as (r & Hr & Hfacts).
  exists r. split; auto.
  assert (HP : nodes r <> [] -> projectDuration r = Int 0).
  { intros Hne. destruct (Hfacts Hne) as (Hsr & Hint & P & HP).
    destruct (critical_chain_found tasks Hids r P Hsr Hint HP Hne)
      as (c & _ & Hin & _ & _ & Hlen).
    rewrite HP. f_equal. rewrite <- Hlen.
    apply (completed_chain_length tasks); auto.
    intros n Hn. apply (sr_tasks _ _ Hsr). now apply Hin. }
  split; auto. intros dev load Hin d E Hd.
  apply (zero_timeline_message r dev load d); auto. apply HP.
  intros E'. unfold analyzeResourceAllocation in Hin. rewrite E' in Hin. destruct Hin.
Qed.

Lemma completed_project_overload_witness :
  exists r,
    calculateCPM 1 [done_by "T" 5 "d1"] = Returns r
    /\ (nodes r <> [] -> projectDuration r = Int 0)
    /\ forall dev load,
         In (dev, load) (developerLoad (analyzeResourceAllocation r)) ->
         forall d, DeveloperLoad.totalDuration load = Int d ->
         0 < d <= MAX_SAFE_INTEGER ->
         In (durationMessage load) (recommendations (analyzeResourceAllocation r)).
Proof.
  apply (completed_project_overload 1 [done_by "T" 5 "d1"]).
  - repeat constructor; simpl; intuition discriminate.
  - intros t [<-|[]]; unfold valid_task, MAX_SAFE_INTEGER; simpl; lia.
  - intros t [<-|[]]; reflexivity.
  - simpl. lia.
Defined.

(* ================================================================= *)
(** ** The callers *)

Section CallerFacts.

Variable DateFromTime : Z -> Z.
Variable withDate : Z -> Z -> option Z.
Variable toISO : Z -> string.

Lemma cpmInput_ids project :
  map id (cpmInput project) = map Task.id (Project.tasks project).
Proof. unfold cpmInput. rewrite map_map. reflexivity. Qed.

Lemma cpmInput_valid project t :
  (forall x, In x (Project.tasks project) -> valid_row x) ->
  In t (cpmInput project) -> valid_task t.
Proof.
  intros Hv Hin. apply in_map_iff in Hin. destruct Hin as (x & <- & Hx).
  exact (Hv x Hx).
Qed.

Lemma cpmInput_waits project :
  (forall x, In x (Project.tasks project) -> Task.dependsOn x <> []) ->
  forall t, In t (cpmInput project) -> dependencies t <> [].
Proof.
  intros Hw t Hin. apply in_map_iff in Hin. destruct Hin as (x & <- & Hx).
  simpl. specialize (Hw x Hx). destruct (Task.dependsOn x); [congruence | discriminate].
Qed.

Lemma endDate_infinite start : endDate DateFromTime withDate start NegInfinity = None.
Proof. unfold endDate. destruct start; reflexivity. Qed.

Lemma rootless_run fuel project :
  Project.tasks project <> [] ->
  (forall x, In x (Project.tasks project) -> Task.dependsOn x <> []) ->
  calculateCPM fuel (cpmInput project)
  = Returns {| nodes := []; criticalPath := []; projectDuration := NegInfinity |}.
Proof.
  intros Hne Hw. apply no_root_no_schedule.
  - unfold cpmInput. destruct (Project.tasks project); [congruence | discriminate].
  - now apply cpmInput_waits.
Qed.

End CallerFacts.

(** X17: the CPM route fails on a project in which every task waits on
    something (for instance a project whose tasks all lie on dependency
    cycles).  The engine returns the project duration -Infinity,
    [setDate] makes the end date invalid, and [toISOString] throws a
    RangeError, whatever the calendar and the start date. *)
Theorem cpm_route_fails_without_roots DateFromTime withDate toISO fuel project :
  Project.tasks project <> [] ->
  (forall t, In t (Project.tasks project) -> Task.dependsOn t <> []) ->
  cpm_GET DateFromTime withDate toISO fuel (Some project) = RangeError.
Proof.
  intros Hne Hw. unfold cpm_GET. rewrite (rootless_run fuel project Hne Hw).
  cbn [projectDuration]. rewrite endDate_infinite.
  destruct (Date.toISOString toISO (Project.startDate project)); reflexivity.
Qed.

Lemma cpm_route_fails_without_roots_witness :
  cpm_GET toy_DateFromTime toy_withDate toy_toISO 0 (Some stuck_project) = RangeError.
Proof.
  apply cpm_route_fails_without_roots.
  - discriminate.
  - intros t [<-|[<-|[]]]; discriminate.
Defined.

(** X18: the CPM route on a project with valid rows and pairwise
    distinct task ids, a valid start date and target date, and no task
    or some task without dependencies.  The engine returns with an
    integer project duration P >= 0, and the handler answers with the
    engine's result, its resource analysis and the end date that
    [setDate] gives for the start's day of the month plus P, a sum of
    doubles that is exact up to 2^53; it throws only when that date lies
    outside the range of [Date]. *)
Theorem cpm_route_answers DateFromTime withDate toISO fuel project start :
  NoDup (map Task.id (Project.tasks project)) ->
  (forall t, In t (Project.tasks project) -> valid_row t) ->
  (length (Project.tasks project) <= fuel)%nat ->
  (Project.tasks project = []
   \/ exists t, In t (Project.tasks project) /\ Task.dependsOn t = []) ->
  Project.startDate project = Some start ->
  Project.targetDate project <> Some None ->
  exists r P,
    calculateCPM fuel (cpmInput project) = Returns r
    /\ projectDuration r = Int P /\ 0 <= P
    /\ (- 2 ^ 53 <= DateFromTime start + P <= 2 ^ 53 ->
        Number.add (Int (DateFromTime start)) (Int P) = Int (DateFromTime start + P))
    /\ cpm_GET DateFromTime withDate toISO fuel (Some project)
       = match Date.setDate withDate (Some start)
                 (Number.add (Int (DateFromTime start)) (Int P)) with
         | Some e =>
             Ok {| cpmResult := r;
                   projectName := Project.name project;
                   body_startDate := toISO start;
                   estimatedEndDate := toISO e;
                   body_targetDate := option_map toISO
                                        (match Project.targetDate project with
                                         | Some target => target
                                         | None => None
                                         end);
                   resourceAnalysis := analyzeResourceAllocation r |}
         | None => RangeError
         end.
Proof.
  intros Hids Hvalid Hfuel Hroot Hstart Htarget.
  destruct (projectDuration_cases fuel (cpmInput project)) as (r & Hr & Hinf & Hcases).
  { now rewrite cpmInput_ids. }
  { intros t. now apply cpmInput_valid. }
  { unfold cpmInput. now rewrite length_map. }
  assert (Hfinite : projectDuration r <> NegInfinity).
  { intros E. apply Hinf in E. destruct E as [Hne Hw].
    destruct Hroot as [Hnil|(t & Ht & Hdeps)].
    - apply Hne. unfold cpmInput. now rewrite Hnil.
    - apply (Hw (toCPMInput t)); [now apply in_map|]. simpl. now rewrite Hdeps. }
  destruct Hcases as [E|(P & HP & HP0)]; [contradiction|].
  exists r, P. split; [|split; [|split; [|split]]]; auto.
  { apply add_exact. }
  unfold cpm_GET. rewrite Hr, Hstart, HP. unfold endDate. cbn [Date.getDate].
  destruct (Date.setDate withDate (Some start)
              (Number.add (Int (DateFromTime start)) (Int P))) as [e|]; [|reflexivity].
  cbn [Date.toISOString option_map].
  destruct (Project.targetDate project) as [[target|]|]; try reflexivity.
  exfalso. now apply Htarget.
Qed.

Lemma cpm_route_answers_witness :
  exists r P,
    calculateCPM 2 (cpmInput small_project) = Returns r
    /\ projectDuration r = Int P /\ 0 <= P
    /\ (- 2 ^ 53 <= toy_DateFromTime 1000 + P <= 2 ^ 53 ->
        Number.add (Int (toy_DateFromTime 1000)) (Int P) = Int (toy_DateFromTime 1000 + P))
    /\ cpm_GET toy_DateFromTime toy_withDate toy_toISO 2 (Some small_project)
       = match Date.setDate toy_withDate (Some 1000)
                 (Number.add (Int (toy_DateFromTime 1000)) (Int P)) with
         | Some e =>
             Ok {| cpmResult := r;
                   projectName := Project.name small_project;
                   body_startDate := toy_toISO 1000;
                   estimatedEndDate := toy_toISO e;
                   body_targetDate := option_map toy_toISO
                                        (match Project.targetDate small_project with
                                         | Some target => target
                                         | None => None
                                         end);
                   resourceAnalysis := analyzeResourceAllocation r |}
         | None => RangeError
         end.
Proof.
  apply (cpm_route_answers toy_DateFromTime toy_withDate toy_toISO 2 small_project 1000).
  - repeat constructor; simpl; intuition discriminate.
  - intros t [<-|[<-|[]]]; unfold valid_row, MAX_SAFE_INTEGER; simpl; lia.
  - simpl. lia.
  - right. exists (row "A" 2 []). split; [now left | reflexivity].
  - reflexivity.
  - discriminate.
Defined.

(** X19: on a project in which every task waits on something, the end
    date computed by the insights route and by both pages is invalid, so
    the comparison with the target date is false however early the
    target: each of the three health figures is "behind" only on account
    of blockers and blocked tasks. *)
Theorem rootless_project_ignores_target DateFromTime withDate fuel project openBlockers :
  Project.tasks project <> [] ->
  (forall t, In t (Project.tasks project) -> Task.dependsOn t <> []) ->
  exists r,
    calculateCPM fuel (cpmInput project) = Returns r
    /\ let e := endDate DateFromTime withDate (Project.startDate project)
                  (projectDuration r) in
       e = None
       /\ (route_health project openBlockers e = behind ->
           (2 < openBlockers \/ 2 < count_status "blocked" project)%nat)
       /\ (insights_health project e = behind ->
           (2 < totalBlockers project \/ 2 < count_status "blocked" project)%nat)
       /\ (dashboard_health project e = behind -> (2 < totalBlockers project)%nat).
Proof.
  intros Hne Hw. eexists. split; [apply (rootless_run fuel project Hne Hw)|].
  cbn [projectDuration]. rewrite endDate_infinite. cbn zeta.
  assert (Hpast : past_target project None = false).
  { unfold past_target. now destruct (Project.targetDate project). }
  unfold route_health, insights_health, dashboard_health. rewrite Hpast.
  repeat split.
  - destruct (2 <? openBlockers)%nat eqn:E1; [apply Nat.ltb_lt in E1; auto|].
    destruct (2 <? count_status "blocked" project)%nat eqn:E2;
      [apply Nat.ltb_lt in E2; auto|].
    simpl. destruct (_ || _); discriminate.
  - destruct (2 <? totalBlockers project)%nat eqn:E1; [apply Nat.ltb_lt in E1; auto|].
    destruct (2 <? count_status "blocked" project)%nat eqn:E2;
      [apply Nat.ltb_lt in E2; auto|].
    simpl. destruct (0 <? _)%nat; discriminate.
  - destruct (2 <? totalBlockers project)%nat eqn:E1; [apply Nat.ltb_lt in E1; auto|].
    destruct (_ || _); discriminate.
Qed.

Lemma rootless_project_ignores_target_witness :
  exists r,
    calculateCPM 0 (cpmInput stuck_project) = Returns r
    /\ let e := endDate toy_DateFromTime toy_withDate (Project.startDate stuck_project)
                  (projectDuration r) in
       e = None
       /\ (route_health stuck_project 0 e = behind ->
           (2 < 0 \/ 2 < count_status "blocked" stuck_project)%nat)
       /\ (insights_health stuck_project e = behind ->
           (2 < totalBlockers stuck_project \/ 2 < count_status "blocked" stuck_project)%nat)
       /\ (dashboard_health stuck_project e = behind -> (2 < totalBlockers stuck_project)%nat).
Proof.
  apply (rootless_project_ignores_target toy_DateFromTime toy_withDate 0 stuck_project 0).
  - discriminate.
  - intros t [<-|[<-|[]]]; discriminate.
Defined.
(** ** Percentages of completed tasks *)

Section Percentages.

Lemma div_self t :
  0 < t < 2 ^ 53 ->
  Float64.div (Float64.of_Z t) (Float64.of_Z t) = S754_finite false (2 ^ 52) (-52).
Proof.
  intros Ht. destruct (of_Z_exactly t Ht) as (m & e & -> & He & He0 & Hm & Hd).
  unfold Float64.div, SFdiv, SFdiv_core_binary. rewrite Hd, fexp64_eq.
  replace (53 + e - (53 + e)) with 0 by lia.
  replace (e - e - Z.min (Z.max (0 - 53) (-1074)) (e - e)) with 53 by lia.
  replace (Z.min (Z.max (0 - 53) (-1074)) (e - e)) with (-53) by lia.
  rewrite Z.shiftl_mul_pow2 by lia.
  pose proof (Z_div_mod (Z.pos m * 2 ^ 53) (Z.pos m) ltac:(lia)) as Hdiv.
  destruct (Z.div_eucl (Z.pos m * 2 ^ 53) (Z.pos m)) as [q r].
  destruct Hdiv as [Hq Hr].
  assert (Hq' : q = 2 ^ 53) by nia.
  assert (Hr' : r = 0) by nia.
  subst q r.
  assert (Hloc : new_location (Z.pos m) 0 = loc_Exact).
  { unfold new_location, new_location_even, new_location_odd.
    destruct (Z.even (Z.pos m)); reflexivity. }
  rewrite Hloc. vm_compute. reflexivity.
Qed.

Lemma percentage_empty : percentage 0 0 = NaN.
Proof. vm_compute. reflexivity. Qed.

Lemma percentage_none t : (0 < t)%nat -> Z.of_nat t < 2 ^ 53 -> percentage 0 t = Int 0.
Proof.
  intros Ht Hlt. unfold percentage.
  destruct (of_Z_exactly (Z.of_nat t)) as (m & e & -> & _); [lia|].
  reflexivity.
Qed.

Lemma percentage_all t : (0 < t)%nat -> Z.of_nat t < 2 ^ 53 -> percentage t t = Int 100.
Proof.
  intros Ht Hlt. unfold percentage. rewrite div_self by lia. vm_compute. reflexivity.
Qed.

Lemma percentage_range c t :
  (c <= t)%nat -> (0 < t)%nat -> Z.of_nat t < 2 ^ 53 ->
  exists p, percentage c t = Int p /\ 0 <= p <= 100.
Proof.
  intros Hct Ht Hlt. destruct c as [|c].
  - exists 0. split; [now apply percentage_none | lia].
  - unfold percentage.
    set (x := Float64.div (Float64.of_Z (Z.of_nat (S c))) (Float64.of_Z (Z.of_nat t))).
    assert (Hx : below 1 x) by (apply div_below; lia).
    assert (Hxs : nonneg_float x) by (apply div_of_Z_nonneg; lia).
    apply Math_round_below; [lia | |].
    + change 100 with (1 * 100) at 1. apply mul_below; try lia; auto.
      apply of_Z_below. lia.
    + apply mul_nonneg; auto. apply of_Z_nonneg. lia.
Qed.

End Percentages.

Lemma count_status_le s project :
  (count_status s project <= length (Project.tasks project))%nat.
Proof. unfold count_status. apply filter_length_le. Qed.

(** X20: the completion percentage of the insights route and of the
    insights page, [Math.round((completedTasks / totalTasks) * 100)].
    For a project without tasks it is NaN (0 / 0); for every other
    project it is an integer between 0 and 100, which is 100 when every
    task is completed and 0 when none is. *)
Theorem completion_percentage_cases project :
  Z.of_nat (length (Project.tasks project)) < 2 ^ 53 ->
  (Project.tasks project = [] -> completionPercentage project = NaN)
  /\ (Project.tasks project <> [] ->
      exists p, completionPercentage project = Int p /\ 0 <= p <= 100
                /\ (count_status "completed" project = length (Project.tasks project)
                    -> p = 100)
                /\ (count_status "completed" project = 0%nat -> p = 0)).
Proof.
  intros Hlen. unfold completionPercentage. split.
  - intros E. unfold count_status. rewrite E. exact percentage_empty.
  - intros Hne.
    assert (Hpos : (0 < length (Project.tasks project))%nat).
    { destruct (Project.tasks project); [congruence | simpl; lia]. }
    destruct (percentage_range (count_status "completed" project)
                (length (Project.tasks project))) as (p & Hp & Hrange); auto.
    { apply count_status_le. }
    exists p. repeat split; auto; try lia.
    + intros E. rewrite E, percentage_all in Hp by auto. congruence.
    + intros E. rewrite E, percentage_none in Hp by auto. congruence.
Qed.

Lemma completion_percentage_cases_witness :
  (Project.tasks small_project = [] -> completionPercentage small_project = NaN)
  /\ (Project.tasks small_project <> [] ->
      exists p, completionPercentage small_project = Int p /\ 0 <= p <= 100
                /\ (count_status "completed" small_project
                    = length (Project.tasks small_project) -> p = 100)
                /\ (count_status "completed" small_project = 0%nat -> p = 0)).
Proof.
  apply (completion_percentage_cases small_project).
  simpl. lia.
Defined.

(** X21: the progress figure of the dashboard page, which guards the
    division, is always an integer between 0 and 100; and a project on
    the dashboard with no blocker and a progress of at least 50 is
    "on_track" unless its estimated end lies after its target date. *)
Theorem dashboard_progress_range project :
  Z.of_nat (length (Project.tasks project)) < 2 ^ 53 ->
  exists p,
    dashboard_progress project = Int p /\ 0 <= p <= 100
    /\ forall e,
         dashboard_health project e = on_track
         <-> totalBlockers project = 0%nat /\ 50 <= p /\ past_target project e = false.
Proof.
  intros Hlen.
  assert (Hp : exists p, dashboard_progress project = Int p /\ 0 <= p <= 100).
  { unfold dashboard_progress. destruct (Project.tasks project) as [|t0 ts] eqn:E.
    - exists 0. split; [reflexivity | lia].
    - rewrite <- E. apply percentage_range.
      + apply count_status_le.
      + rewrite E. simpl. lia.
      + rewrite E. exact Hlen. }
  destruct Hp as (p & Hp & Hrange). exists p. repeat split; auto; try lia.
  - unfold dashboard_health in H. rewrite Hp in H. cbn [Number.ltb] in H.
    destruct (past_target project e); [discriminate|].
    destruct (2 <? totalBlockers project)%nat eqn:E2; [discriminate|].
    destruct (0 <? totalBlockers project)%nat eqn:E0; [discriminate|].
    apply Nat.ltb_ge in E0. lia.
  - unfold dashboard_health in H. rewrite Hp in H. cbn [Number.ltb] in H.
    destruct (past_target project e); [discriminate|].
    destruct (2 <? totalBlockers project)%nat eqn:E2; [discriminate|].
    destruct (0 <? totalBlockers project)%nat eqn:E0; [discriminate|].
    cbn [orb] in H. destruct (Z.ltb_spec p 50); [discriminate | lia].
  - unfold dashboard_health in H. rewrite Hp in H.
    destruct (past_target project e); [discriminate | reflexivity].
  - intros (Hb & H50 & Hpast). unfold dashboard_health. rewrite Hp, Hpast, Hb.
    cbn [Nat.ltb Nat.leb orb Number.ltb].
    destruct (Z.ltb_spec p 50); [lia | reflexivity].
Qed.

Lemma dashboard_progress_range_witness :
  exists p,
    dashboard_progress small_project = Int p /\ 0 <= p <= 100
    /\ forall e,
         dashboard_health small_project e = on_track
         <-> totalBlockers small_project = 0%nat /\ 50 <= p
             /\ past_target small_project e = false.
Proof.
  apply (dashboard_progress_range small_project).
  simpl. lia.
Defined.

(* ================================================================= *)
(** ** ES and LS are the earliest and the latest feasible starts *)

Section Optimal.

Variable tasks : list CPMInput.
Hypothesis Hids : NoDup (map id tasks).

Variable r : CPMResult.
Variable P : Z.
Hypothesis Hsr : scheduled_result tasks r.
Hypothesis Hint : Forall integral_node (nodes r).
Hypothesis HP : projectDuration r = Int P.

Lemma early_start_feasible : feasible (nodes r) (fun n => number_value (es n)).
Proof.
  pose proof (result_windows tasks Hids r P Hsr Hint HP) as Hw.
  rewrite Forall_forall in Hw.
  intros n Hn. destruct (Hw n Hn) as (e & d & l & He & _ & _ & _ & _ & _ & He0 & _).
  split; [rewrite He; simpl; lia|].
  intros p Hp Hwait.
  destruct (result_respects tasks r P Hsr Hint HP n (node_id p) Hn Hwait)
    as (pn & Hpn & Hid & Hearly & _).
  assert (pn = p) by (apply (same_id_same_node tasks r Hsr); auto). subst pn.
  destruct (Hw p Hp) as (e' & d' & l' & He' & Hd' & Hef' & _).
  rewrite Hef', He in Hearly. apply Z.leb_le in Hearly.
  rewrite He, He', (effective_value_eq p d' Hd'). simpl. lia.
Qed.

Lemma late_start_feasible :
  feasible (nodes r) (fun n => number_value (ls n))
  /\ done_by_time (nodes r) P (fun n => number_value (ls n)).
Proof.
  pose proof (result_windows tasks Hids r P Hsr Hint HP) as Hw.
  rewrite Forall_forall in Hw. split.
  - intros n Hn.
    destruct (Hw n Hn) as (e & d & l & He & Hd & _ & Hl & Hls & Hd0 & He0 & Hle & _).
    split; [rewrite Hls; simpl; lia|].
    intros p Hp Hwait.
    destruct (result_respects tasks r P Hsr Hint HP n (node_id p) Hn Hwait)
      as (pn & Hpn & Hid & _ & Hlate).
    assert (pn = p) by (apply (same_id_same_node tasks r Hsr); auto). subst pn.
    destruct (Hw p Hp) as (e' & d' & l' & He' & Hd' & _ & Hl' & Hls' & _).
    rewrite Hl', Hls in Hlate. apply Z.leb_le in Hlate.
    rewrite Hls, Hls', (effective_value_eq p d' Hd'). simpl. lia.
  - intros n Hn.
    destruct (Hw n Hn) as (e & d & l & _ & Hd & _ & _ & Hls & _ & _ & _ & HlP).
    rewrite Hls, (effective_value_eq n d Hd). simpl. lia.
Qed.

Variable start : CPMNode -> Z.
Hypothesis Hfeasible : feasible (nodes r) start.

Lemma nothing_starts_earlier :
  Forall (fun n => number_value (es n) <= start n) (nodes r).
Proof.
  pose proof (result_windows tasks Hids r P Hsr Hint HP) as Hw.
  rewrite Forall_forall in Hw.
  apply from_the_front. intros l1 n l2 HL IH.
  assert (Hn : In n (nodes r)) by (rewrite HL; apply in_or_app; right; now left).
  destruct (Hfeasible n Hn) as [Hs0 Hdeps].
  pose proof (sr_es _ _ Hsr n Hn) as Hes. unfold es_equation in Hes.
  destruct (dependencies (task n)) as [|p0 ps] eqn:Edeps.
  { rewrite Hes. simpl. lia. }
  rewrite <- Edeps in Hes.
  pose proof (dependency_values (nodes r) (sr_ids _ _ Hsr) (sr_order _ _ Hsr)
                  (integral_all_fields _ Hint) n Hn)
    as Hvals.
  rewrite Edeps in Hes, Hvals. cbn [map] in Hes, Hvals.
  destruct (Math_max_reached _ _ Hvals) as (m & Hm & Hat & _).
  change (In (Int m) (map (ef_of (nodes r)) (p0 :: ps))) in Hat.
  apply in_map_iff in Hat. destruct Hat as (p & Hp & Hpin). rewrite <- Edeps in Hpin.
  destruct (dep_node (nodes r) (sr_ids _ _ Hsr) (sr_order _ _ Hsr) l1 n l2 p HL Hpin)
    as (pn & Hpn1 & Hid & Hfind).
  unfold ef_of in Hp. rewrite Hfind in Hp.
  assert (Hpn : In pn (nodes r)) by (rewrite HL; apply in_or_app; now left).
  destruct (Hw pn Hpn) as (e' & d' & l' & He' & Hd' & Hef' & _).
  rewrite Forall_forall in IH. pose proof (IH pn Hpn1) as Hpstart.
  assert (Hwait : waits_on n pn) by (unfold waits_on; now rewrite Hid).
  pose proof (Hdeps pn Hpn Hwait) as Hstep.
  rewrite (effective_value_eq pn d' Hd') in Hstep.
  rewrite He' in Hpstart. simpl in Hpstart.
  rewrite Hes, Hm. simpl. assert (m = e' + d') by congruence. lia.
Qed.

Hypothesis Hdone : done_by_time (nodes r) P start.

Lemma nothing_starts_later :
  Forall (fun n => start n <= number_value (ls n)) (nodes r).
Proof.
  pose proof (result_windows tasks Hids r P Hsr Hint HP) as Hw.
  rewrite Forall_forall in Hw.
  apply from_the_back. intros l1 n l2 HL IH.
  assert (Hn : In n (nodes r)) by (rewrite HL; apply in_or_app; right; now left).
  destruct (Hw n Hn) as (e & d & l & _ & Hd & _ & Hl & Hls & _).
  pose proof (Hdone n Hn) as HnP. rewrite (effective_value_eq n d Hd) in HnP.
  pose proof (result_lf tasks r P Hsr HP n Hn) as Hlf. unfold lf_equation in Hlf.
  rewrite Hls. simpl.
  destruct (dependents tasks (node_id n)) as [|s0 ss] eqn:Esuccs.
  { assert (l = P) by congruence. lia. }
  rewrite <- Esuccs in Hlf.
  pose proof (dependent_values tasks (nodes r) P (integral_all_fields _ Hint) n Hn) as Hvals.
  rewrite Esuccs in Hlf, Hvals. cbn [map] in Hlf, Hvals.
  destruct (Math_min_reached _ _ Hvals) as (m & Hm & Hat & _).
  change (In (Int m) (map (ls_of (Int P) (nodes r)) (s0 :: ss))) in Hat.
  apply in_map_iff in Hat. destruct Hat as (s & Hs & Hsin). rewrite <- Esuccs in Hsin.
  assert (Hlm : l = m) by congruence. subst m.
  unfold ls_of in Hs.
  destruct (dependent_node tasks Hids (nodes r) (sr_ids _ _ Hsr) (sr_tasks _ _ Hsr)
              (sr_order _ _ Hsr) l1 n l2 s HL Hsin)
    as [Hnone|(sn & Hsn2 & Hid & Hfind & Hwait)].
  - rewrite Hnone in Hs. injection Hs as <-. lia.
  - rewrite Hfind in Hs.
    assert (Hsn : In sn (nodes r)) by (rewrite HL; apply in_or_app; right; now right).
    rewrite Forall_forall in IH. pose proof (IH sn Hsn2) as Hlate.
    rewrite Hs in Hlate. simpl in Hlate.
    destruct (Hfeasible sn Hsn) as [_ Hdeps].
    pose proof (Hdeps n Hn Hwait) as Hstep.
    rewrite (effective_value_eq n d Hd) in Hstep. lia.
Qed.

End Optimal.

(** X22: ES is the earliest start and LS the latest.  For valid tasks
    with pairwise distinct ids whose effective durations add up to at
    most [Number.MAX_SAFE_INTEGER], starting every node at its ES is a
    feasible schedule (no start is negative, and a node starts only
    after each node it waits on is over), and so is starting every node
    at its LS, which also ends by the project duration; and in every
    feasible schedule each node starts at its ES or later, and in every
    feasible schedule that ends by the project duration each node starts
    at its LS or earlier. *)
Theorem es_earliest_ls_latest fuel tasks :
  NoDup (map id tasks) ->
  (forall t, In t tasks -> valid_task t) ->
  total_work tasks <= MAX_SAFE_INTEGER ->
  (length tasks <= fuel)%nat ->
  exists r,
    calculateCPM fuel tasks = Returns r
    /\ (nodes r <> [] ->
        exists P,
          projectDuration r = Int P
          /\ feasible (nodes r) (fun n => number_value (es n))
          /\ feasible (nodes r) (fun n => number_value (ls n))
          /\ done_by_time (nodes r) P (fun n => number_value (ls n))
          /\ forall start, feasible (nodes r) start ->
               (forall n, In n (nodes r) -> number_value (es n) <= start n)
               /\ (done_by_time (nodes r) P start ->
                   forall n, In n (nodes r) -> start n <= number_value (ls n))).
Proof.
  intros Hids Hvalid Hsafe Hfuel.
  destruct (valid_result fuel tasks Hids Hvalid Hsafe Hfuel) as (r & Hr & Hfacts).
  exists r. split; auto. intros Hne.
  destruct (Hfacts Hne) as (Hsr & Hint & P & HP).
  exists P. split; [auto|].
  destruct (late_start_feasible tasks Hids r P Hsr Hint HP) as [Hlate Hdone].
  split; [|split; [|split]]; auto.
  - exact (early_start_feasible tasks Hids r P Hsr Hint HP).
  - intros start Hfeasible. split.
    + apply Forall_forall.
      exact (nothing_starts_earlier tasks Hids r P Hsr Hint HP start Hfeasible).
    + intros Hd. apply Forall_forall.
      exact (nothing_starts_later tasks Hids r P Hsr Hint HP start Hfeasible Hd).
Qed.

Lemma es_earliest_ls_latest_witness :
  exists r,
    calculateCPM 3 scenario1 = Returns r
    /\ (nodes r <> [] ->
        exists P,
          projectDuration r = Int P
          /\ feasible (nodes r) (fun n => number_value (es n))
          /\ feasible (nodes r) (fun n => number_value (ls n))
          /\ done_by_time (nodes r) P (fun n => number_value (ls n))
          /\ forall start, feasible (nodes r) start ->
               (forall n, In n (nodes r) -> number_value (es n) <= start n)
               /\ (done_by_time (nodes r) P start ->
                   forall n, In n (nodes r) -> start n <= number_value (ls n))).
Proof.
  apply (es_earliest_ls_latest 3 scenario1).
  - exact scenario1_distinct.
  - exact scenario1_valid.
  - exact scenario1_safe.
  - simpl. lia.
Defined.

(* ================================================================= *)
(** ** The float of a node and the chains through it *)

Section Through.

Variable tasks : list CPMInput.
Hypothesis Hids : NoDup (map id tasks).

Variable r : CPMResult.
Variable P : Z.
Hypothesis Hsr : scheduled_result tasks r.
Hypothesis Hint : Forall integral_node (nodes r).
Hypothesis HP : projectDuration r = Int P.

Lemma chain_tail a c : chain (a :: c) -> chain c.
Proof. destruct c as [|b c]; simpl; tauto. Qed.

Lemma chain_split : forall c1 c2, chain (c1 ++ c2) -> chain c1 /\ chain c2.
Proof.
  induction c1 as [|a c1 IH]; intros c2 H; [simpl; auto|].
  destruct (IH c2 (chain_tail a _ H)) as [H1 H2]. split; auto.
  destruct c1 as [|b c1]; [exact I|].
  simpl in H |- *. destruct H as [Hw _]. auto.
Qed.

Lemma chain_join : forall c1 n c2,
  chain (c1 ++ [n]) -> chain (n :: c2) -> chain (c1 ++ n :: c2).
Proof.
  induction c1 as [|a c1 IH]; intros n c2 H1 H2; [exact H2|].
  destruct c1 as [|b c1].
  - simpl in H1 |- *. destruct H1 as [Hw _]. auto.
  - change (chain (a :: (b :: c1) ++ n :: c2)).
    change (chain (a :: (b :: c1) ++ [n])) in H1.
    cbn [chain app] in H1 |- *. destruct H1 as [Hw H1]. split; auto.
    apply (IH n c2); auto.
Qed.

Lemma last_after (b : CPMNode) : forall c a, last (b :: c) a = last c b.
Proof.
  intros c. revert b. induction c as [|x c IH]; intros b a; [reflexivity|].
  change (last (b :: x :: c) a) with (last (x :: c) a). rewrite !IH.
  destruct c; reflexivity.
Qed.

(** Along a chain the early schedule leaves room for every node. *)
Lemma chain_into : forall c a,
  chain (a :: c) -> incl (a :: c) (nodes r) ->
  number_value (es a) + chain_length (a :: c) <= number_value (ef (last c a)).
Proof.
  pose proof (result_windows tasks Hids r P Hsr Hint HP) as Hw.
  rewrite Forall_forall in Hw.
  induction c as [|b c IH]; intros a Hc Hin.
  - destruct (Hw a) as (e & d & l & He & Hd & Hef & _); [apply Hin; now left|].
    cbn [last]. rewrite chain_length_cons, (effective_value_eq a d Hd), He, Hef.
    unfold chain_length. simpl. lia.
  - cbn [chain] in Hc. destruct Hc as [Hba Hc].
    assert (Ha : In a (nodes r)) by (apply Hin; now left).
    assert (Hb : In b (nodes r)) by (apply Hin; right; now left).
    pose proof (IH b Hc (fun x Hx => Hin x (or_intror Hx))) as Hlen.
    destruct (early_start_feasible tasks Hids r P Hsr Hint HP b Hb) as [_ Hdeps].
    pose proof (Hdeps a Ha Hba) as Hstep.
    rewrite last_after, chain_length_cons. lia.
Qed.

(** Along a chain the late schedule ends by the project duration. *)
Lemma chain_out_of : forall c a,
  chain (a :: c) -> incl (a :: c) (nodes r) ->
  number_value (ls a) + chain_length (a :: c) <= P.
Proof.
  destruct (late_start_feasible tasks Hids r P Hsr Hint HP) as [Hlate Hdone].
  induction c as [|b c IH]; intros a Hc Hin.
  - pose proof (Hdone a (Hin a (or_introl eq_refl))) as H. cbv beta in H.
    rewrite chain_length_cons. unfold chain_length. cbn [map fold_right]. lia.
  - cbn [chain] in Hc. destruct Hc as [Hba Hc].
    assert (Ha : In a (nodes r)) by (apply Hin; now left).
    assert (Hb : In b (nodes r)) by (apply Hin; right; now left).
    pose proof (IH b Hc (fun x Hx => Hin x (or_intror Hx))) as Hlen.
    destruct (Hlate b Hb) as [_ Hdeps]. pose proof (Hdeps a Ha Hba) as Hstep.
    cbv beta in Hstep. rewrite chain_length_cons. lia.
Qed.

Hypothesis HPsafe : P <= MAX_SAFE_INTEGER.

(** The float is a difference within the project duration, so it is
    not rounded. *)
Lemma float_value n :
  In n (nodes r) ->
  float n = Int (number_value (ls n) - number_value (es n))
  /\ number_value (ef n) = number_value (es n) + effective_value n
  /\ 0 <= number_value (es n).
Proof.
  intros Hn.
  pose proof (result_windows tasks Hids r P Hsr Hint HP) as Hw.
  rewrite Forall_forall in Hw.
  destruct (Hw n Hn) as (e & d & l & He & Hd & Hef & _ & Hls & Hd0 & He0 & Hle & HlP).
  pose proof (sr_relations _ _ Hsr) as Hrel. rewrite Forall_forall in Hrel.
  destruct (Hrel n Hn) as (_ & _ & Hfl & _).
  rewrite Hfl, Hls, He, Hef, (effective_value_eq n d Hd).
  rewrite sub_exact by (unfold MAX_SAFE_INTEGER in HPsafe; lia).
  simpl. repeat split; auto.
Qed.

(** No chain through a node is longer than the project minus its float. *)
Lemma chain_through_fits c1 n c2 :
  chain (c1 ++ n :: c2) -> incl (c1 ++ n :: c2) (nodes r) ->
  chain_length (c1 ++ n :: c2) + number_value (float n) <= P.
Proof.
  intros Hc Hin.
  assert (Hn : In n (nodes r)) by (apply Hin; apply in_or_app; right; now left).
  destruct (float_value n Hn) as (Hfl & Hef & He0). rewrite Hfl. cbn [number_value].
  destruct (chain_split c1 (n :: c2) Hc) as [_ Hc2].
  pose proof (chain_out_of c2 n Hc2) as Hout.
  assert (Hin2 : incl (n :: c2) (nodes r)).
  { intros x Hx. apply Hin. apply in_or_app. now right. }
  specialize (Hout Hin2).
  rewrite chain_length_app.
  destruct c1 as [|x c1].
  - unfold chain_length at 1. simpl. lia.
  - replace ((x :: c1) ++ n :: c2) with ((x :: c1 ++ [n]) ++ c2) in Hc.
    2:{ simpl. rewrite <- app_assoc. reflexivity. }
    destruct (chain_split _ _ Hc) as [Hc1 _].
    pose proof (chain_into (c1 ++ [n]) x Hc1) as Hinto.
    assert (Hin1 : incl (x :: c1 ++ [n]) (nodes r)).
    { intros y Hy. apply Hin. change (In y ((x :: c1) ++ [n])) in Hy.
      apply in_app_iff in Hy. apply in_or_app.
      destruct Hy as [Hy|[<-|[]]]; [now left | right; now left]. }
    specialize (Hinto Hin1). rewrite last_last in Hinto.
    change (x :: c1 ++ [n]) with ((x :: c1) ++ [n]) in Hinto.
    rewrite chain_length_app in Hinto.
    assert (Hx0 : 0 <= number_value (es x)).
    { apply float_value. apply Hin. now left. }
    rewrite chain_length_cons in Hout.
    replace (chain_length [n]) with (effective_value n) in Hinto
      by (unfold chain_length; simpl; lia).
    rewrite (chain_length_cons n c2). lia.
Qed.

(** Every node ends a chain that fills the time up to its EF. *)
Lemma chain_to :
  Forall (fun n => exists c, incl c (nodes r) /\ chain (c ++ [n])
                             /\ chain_length (c ++ [n]) = number_value (ef n))
         (nodes r).
Proof.
  pose proof (result_windows tasks Hids r P Hsr Hint HP) as Hw.
  rewrite Forall_forall in Hw.
  apply from_the_front. intros l1 n l2 HL IH.
  assert (Hn : In n (nodes r)) by (rewrite HL; apply in_or_app; right; now left).
  destruct (Hw n Hn) as (e & d & l & He & Hd & Hef & _).
  pose proof (sr_es _ _ Hsr n Hn) as Hes. unfold es_equation in Hes.
  destruct (dependencies (task n)) as [|p0 ps] eqn:Edeps.
  - exists []. repeat split; auto; [intros x [] | ].
    rewrite Hef. simpl. unfold chain_length. simpl.
    rewrite (effective_value_eq n d Hd). rewrite He in Hes. injection Hes as ->. lia.
  - rewrite <- Edeps in Hes.
    pose proof (dependency_values (nodes r) (sr_ids _ _ Hsr) (sr_order _ _ Hsr)
                  (integral_all_fields _ Hint) n Hn)
      as Hvals.
    rewrite Edeps in Hes, Hvals. cbn [map] in Hes, Hvals.
    destruct (Math_max_reached _ _ Hvals) as (m & Hm & Hat & _).
    change (In (Int m) (map (ef_of (nodes r)) (p0 :: ps))) in Hat.
    apply in_map_iff in Hat. destruct Hat as (p & Hp & Hpin). rewrite <- Edeps in Hpin.
    destruct (dep_node (nodes r) (sr_ids _ _ Hsr) (sr_order _ _ Hsr) l1 n l2 p HL Hpin)
      as (pn & Hpn1 & Hid & Hfind).
    unfold ef_of in Hp. rewrite Hfind in Hp.
    assert (Hem : e = m) by congruence. subst m.
    rewrite Forall_forall in IH.
    destruct (IH pn Hpn1) as (c & Hcin & Hchain & Hlen).
    exists (c ++ [pn]). repeat split.
    + intros x Hx. apply in_app_iff in Hx. destruct Hx as [Hx|[<-|[]]]; auto.
      rewrite HL. apply in_or_app. now left.
    + apply chain_snoc; auto. unfold waits_on. now rewrite Hid.
    + rewrite chain_length_snoc, Hlen, Hp, Hef, (effective_value_eq n d Hd). reflexivity.
Qed.

(** Every node starts a chain that fills the time from its LS to the end. *)
Lemma chain_from :
  Forall (fun n => exists c, incl c (nodes r) /\ chain (n :: c)
                             /\ number_value (ls n) + chain_length (n :: c) = P)
         (nodes r).
Proof.
  pose proof (result_windows tasks Hids r P Hsr Hint HP) as Hw.
  rewrite Forall_forall in Hw.
  apply from_the_back. intros l1 n l2 HL IH.
  assert (Hn : In n (nodes r)) by (rewrite HL; apply in_or_app; right; now left).
  destruct (Hw n Hn) as (e & d & l & _ & Hd & _ & Hl & Hls & _).
  pose proof (result_lf tasks r P Hsr HP n Hn) as Hlf. unfold lf_equation in Hlf.
  assert (Hend : l = P ->
            exists c, incl c (nodes r) /\ chain (n :: c)
                      /\ number_value (ls n) + chain_length (n :: c) = P).
  { intros ->. exists []. repeat split; [intros x [] |].
    rewrite Hls. unfold chain_length. simpl. rewrite (effective_value_eq n d Hd). lia. }
  destruct (dependents tasks (node_id n)) as [|s0 ss] eqn:Esuccs.
  { apply Hend. congruence. }
  rewrite <- Esuccs in Hlf.
  pose proof (dependent_values tasks (nodes r) P (integral_all_fields _ Hint) n Hn) as Hvals.
  rewrite Esuccs in Hlf, Hvals. cbn [map] in Hlf, Hvals.
  destruct (Math_min_reached _ _ Hvals) as (m & Hm & Hat & _).
  change (In (Int m) (map (ls_of (Int P) (nodes r)) (s0 :: ss))) in Hat.
  apply in_map_iff in Hat. destruct Hat as (s & Hs & Hsin). rewrite <- Esuccs in Hsin.
  assert (Hlm : l = m) by congruence. subst m.
  unfold ls_of in Hs.
  destruct (dependent_node tasks Hids (nodes r) (sr_ids _ _ Hsr) (sr_tasks _ _ Hsr)
              (sr_order _ _ Hsr) l1 n l2 s HL Hsin)
    as [Hnone|(sn & Hsn2 & Hid & Hfind & Hwait)].
  - rewrite Hnone in Hs. apply Hend. congruence.
  - rewrite Hfind in Hs. rewrite Forall_forall in IH.
    destruct (IH sn Hsn2) as (c & Hcin & Hchain & Hlen).
    exists (sn :: c). split; [|split].
    + intros x [<-|Hx]; auto. rewrite HL. apply in_or_app. right. now right.
    + cbn [chain]. split; auto.
    + rewrite chain_length_cons, Hls, (effective_value_eq n d Hd).
      rewrite Hs in Hlen. simpl in Hlen |- *. lia.
Qed.

(** Some chain through the node is exactly that long. *)
Lemma chain_through_found n :
  In n (nodes r) ->
  exists c1 c2,
    incl (c1 ++ n :: c2) (nodes r) /\ chain (c1 ++ n :: c2)
    /\ chain_length (c1 ++ n :: c2) + number_value (float n) = P.
Proof.
  intros Hn.
  pose proof chain_to as Hto. pose proof chain_from as Hfrom.
  rewrite Forall_forall in Hto, Hfrom.
  destruct (Hto n Hn) as (c1 & Hin1 & Hc1 & Hlen1).
  destruct (Hfrom n Hn) as (c2 & Hin2 & Hc2 & Hlen2).
  destruct (float_value n Hn) as (Hfl & Hef & _).
  exists c1, c2. repeat split.
  - intros x Hx. apply in_app_iff in Hx. destruct Hx as [Hx|[<-|Hx]]; auto.
  - now apply chain_join.
  - rewrite Hfl. cbn [number_value].
    rewrite chain_length_app, chain_length_cons.
    rewrite chain_length_app in Hlen1. rewrite chain_length_cons in Hlen2.
    replace (chain_length [n]) with (effective_value n) in Hlen1
      by (unfold chain_length; simpl; lia).
    lia.
Qed.

End Through.

(** X23: what the float of a node measures.  For valid tasks with
    pairwise distinct ids whose effective durations add up to at most
    [Number.MAX_SAFE_INTEGER], the longest dependency chain through a node
    is as long as the project duration minus the float of the node: no
    chain of nodes through it has effective durations that add up to
    more, and some chain through it adds up to exactly that. *)
Theorem float_is_room_of_longest_chain fuel tasks :
  NoDup (map id tasks) ->
  (forall t, In t tasks -> valid_task t) ->
  total_work tasks <= MAX_SAFE_INTEGER ->
  (length tasks <= fuel)%nat ->
  exists r,
    calculateCPM fuel tasks = Returns r
    /\ forall n, In n (nodes r) ->
         exists P f,
           projectDuration r = Int P /\ float n = Int f
           /\ (forall c1 c2, chain (c1 ++ n :: c2) -> incl (c1 ++ n :: c2) (nodes r) ->
                 chain_length (c1 ++ n :: c2) <= P - f)
           /\ exists c1 c2,
                chain (c1 ++ n :: c2) /\ incl (c1 ++ n :: c2) (nodes r)
                /\ chain_length (c1 ++ n :: c2) = P - f.
Proof.
  intros Hids Hvalid Hsafe Hfuel.
  destruct (valid_result fuel tasks Hids Hvalid Hsafe Hfuel) as (r & Hr & Hfacts).
  exists r. split; auto. intros n Hn.
  assert (Hnodes : nodes r <> []).
  { intros E. rewrite E in Hn. destruct Hn. }
  destruct (Hfacts Hnodes) as (Hsr & Hint & P & HP).
  pose proof (safe_duration fuel tasks r P Hids Hvalid Hsafe Hr Hnodes HP) as HPsafe.
  destruct (float_value tasks Hids r P Hsr Hint HP HPsafe n Hn) as (Hfl & _).
  exists P, (number_value (ls n) - number_value (es n)). repeat split; auto.
  - intros c1 c2 Hc Hin.
    pose proof (chain_through_fits tasks Hids r P Hsr Hint HP HPsafe c1 n c2 Hc Hin) as H.
    rewrite Hfl in H. simpl in H. lia.
  - destruct (chain_through_found tasks Hids r P Hsr Hint HP HPsafe n Hn)
      as (c1 & c2 & Hin & Hc & Hlen).
    exists c1, c2. repeat split; auto. rewrite Hfl in Hlen. simpl in Hlen. lia.
Qed.

Lemma float_is_room_of_longest_chain_witness :
  exists r,
    calculateCPM 3 scenario1 = Returns r
    /\ forall n, In n (nodes r) ->
         exists P f,
           projectDuration r = Int P /\ float n = Int f
           /\ (forall c1 c2, chain (c1 ++ n :: c2) -> incl (c1 ++ n :: c2) (nodes r) ->
                 chain_length (c1 ++ n :: c2) <= P - f)
           /\ exists c1 c2,
                chain (c1 ++ n :: c2) /\ incl (c1 ++ n :: c2) (nodes r)
                /\ chain_length (c1 ++ n :: c2) = P - f.
Proof.
  apply (float_is_room_of_longest_chain 3 scenario1).
  - exact scenario1_distinct.
  - exact scenario1_valid.
  - exact scenario1_safe.
  - simpl. lia.
Defined.

(* ================================================================= *)
(** ** Lengthening one task *)

Lemma lengthened_same_ids k extra ts ts' :
  Forall2 (lengthened k extra) ts ts' -> map id ts' = map id ts.
Proof.
  induction 1 as [|t t' l l' [[Hid _] _] _ IH]; [reflexivity|].
  simpl. now rewrite Hid, IH.
Qed.

Lemma lengthened_same_task k extra ts ts' :
  Forall2 (lengthened k extra) ts ts' -> NoDup (map id ts) ->
  forall t t', In t ts -> In t' ts' -> id t' = id t -> lengthened k extra t t'.
Proof.
  induction 1 as [|a a' l l' Ha Hl IH]; intros Hnd t t' Ht Ht' E.
  { destruct Ht. }
  simpl in Hnd. inversion Hnd as [|? ? Hnotin Hnd']; subst.
  pose proof (lengthened_same_ids k extra l l' Hl) as Hl_ids.
  destruct Ht as [<-|Ht], Ht' as [<-|Ht'].
  - exact Ha.
  - exfalso. apply Hnotin. rewrite <- E, <- Hl_ids. now apply in_map.
  - exfalso. apply Hnotin. destruct Ha as [[Hid _] _]. rewrite <- Hid, E. now apply in_map.
  - now apply IH.
Qed.

Lemma lengthened_image k extra ts ts' :
  Forall2 (lengthened k extra) ts ts' ->
  forall t, In t ts -> exists t', In t' ts' /\ lengthened k extra t t'.
Proof.
  induction 1 as [|a a' l l' Ha _ IH]; intros t Ht; [destruct Ht|].
  destruct Ht as [<-|Ht].
  - exists a'. split; [now left | exact Ha].
  - destruct (IH t Ht) as (t' & Ht' & H). exists t'. split; [now right | exact H].
Qed.

Lemma lengthened_origin k extra ts ts' :
  Forall2 (lengthened k extra) ts ts' ->
  forall t', In t' ts' -> exists t, In t ts /\ lengthened k extra t t'.
Proof.
  induction 1 as [|a a' l l' Ha _ IH]; intros t' Ht; [destruct Ht|].
  destruct Ht as [<-|Ht].
  - exists a. split; [now left | exact Ha].
  - destruct (IH t' Ht) as (t & Ht' & H). exists t. split; [now right | exact H].
Qed.

Lemma lengthened_work k extra ts ts' :
  0 <= extra -> Forall2 (lengthened k extra) ts ts' -> total_work ts <= total_work ts'.
Proof.
  intros Hextra. unfold total_work.
  induction 1 as [|t t' l l' [_ (d & Hd & Hd')] _ IH]; [reflexivity|].
  cbn [map fold_right]. unfold work at 1 3. rewrite Hd, Hd'.
  destruct (String.eqb (id t) k); lia.
Qed.

Section Lengthening.

Variable k : string.
Variable extra : Z.
Hypothesis Hextra : 0 <= extra.

Variables tasks tasks' : list CPMInput.
Hypothesis Hids : NoDup (map id tasks).
Hypothesis Hlonger : Forall2 (lengthened k extra) tasks tasks'.

Lemma lengthened_distinct : NoDup (map id tasks').
Proof. now rewrite (lengthened_same_ids k extra tasks tasks' Hlonger). Qed.

Lemma lengthened_pair t t' :
  In t tasks -> In t' tasks' -> id t' = id t -> lengthened k extra t t'.
Proof. now apply (lengthened_same_task k extra tasks tasks'). Qed.

Lemma lengthened_forth t : In t tasks -> exists t', In t' tasks' /\ lengthened k extra t t'.
Proof. now apply (lengthened_image k extra tasks tasks'). Qed.

Lemma lengthened_back t' : In t' tasks' -> exists t, In t tasks /\ lengthened k extra t t'.
Proof. now apply (lengthened_origin k extra tasks tasks'). Qed.

Lemma schedulable_forth x : schedulable tasks x -> schedulable tasks' x.
Proof.
  induction 1 as [t Ht _ IH].
  destruct (lengthened_forth t Ht) as (t' & Ht' & [[Hid Hdeps] _]).
  rewrite <- Hid. apply schedulable_task; auto. now rewrite Hdeps.
Qed.

Lemma schedulable_back x : schedulable tasks' x -> schedulable tasks x.
Proof.
  induction 1 as [t' Ht' _ IH].
  destruct (lengthened_back t' Ht') as (t & Ht & [[Hid Hdeps] _]).
  rewrite Hid. apply schedulable_task; auto. now rewrite <- Hdeps.
Qed.

Variables r r' : CPMResult.
Hypothesis Hsr : scheduled_result tasks r.
Hypothesis Hsr' : scheduled_result tasks' r'.
Hypothesis Hint : Forall integral_node (nodes r).
Hypothesis Hint' : Forall integral_node (nodes r').

Lemma twin_forth n : In n (nodes r) -> exists n', In n' (nodes r') /\ twin k extra n n'.
Proof.
  intros Hn.
  assert (Hk : In (node_id n) (map node_id (nodes r'))).
  { apply (scheduled_iff_schedulable tasks' r' Hsr'). apply schedulable_forth.
    apply (scheduled_iff_schedulable tasks r Hsr). now apply in_map. }
  apply in_map_iff in Hk. destruct Hk as (n' & E & Hn').
  exists n'. split; auto. split; auto.
  apply lengthened_pair; auto; [now apply (sr_tasks _ _ Hsr) | now apply (sr_tasks _ _ Hsr')].
Qed.

Lemma twin_back n' : In n' (nodes r') -> exists n, In n (nodes r) /\ twin k extra n n'.
Proof.
  intros Hn'.
  assert (Hk : In (node_id n') (map node_id (nodes r))).
  { apply (scheduled_iff_schedulable tasks r Hsr). apply schedulable_back.
    apply (scheduled_iff_schedulable tasks' r' Hsr'). now apply in_map. }
  apply in_map_iff in Hk. destruct Hk as (n & E & Hn).
  exists n. split; auto. split; auto.
  apply lengthened_pair; auto; [now apply (sr_tasks _ _ Hsr) | now apply (sr_tasks _ _ Hsr')].
Qed.

Lemma twins_forth : forall c,
  incl c (nodes r) -> exists c', incl c' (nodes r') /\ Forall2 (twin k extra) c c'.
Proof.
  induction c as [|n c IH]; intros Hin.
  - exists []. split; [intros x [] | constructor].
  - destruct (twin_forth n (Hin n (or_introl eq_refl))) as (n' & Hn' & Htw).
    destruct IH as (c' & Hin' & Hall); [intros x Hx; apply Hin; now right|].
    exists (n' :: c'). split; [|now constructor].
    intros x [<-|Hx]; auto.
Qed.

Lemma twins_back : forall c',
  incl c' (nodes r') -> exists c, incl c (nodes r) /\ Forall2 (twin k extra) c c'.
Proof.
  induction c' as [|n' c' IH]; intros Hin.
  - exists []. split; [intros x [] | constructor].
  - destruct (twin_back n' (Hin n' (or_introl eq_refl))) as (n & Hn & Htw).
    destruct IH as (c & Hin' & Hall); [intros x Hx; apply Hin; now right|].
    exists (n :: c). split; [|now constructor].
    intros x [<-|Hx]; auto.
Qed.

Lemma twin_waits a a' b b' :
  twin k extra a a' -> twin k extra b b' -> (waits_on b a <-> waits_on b' a').
Proof.
  intros [Ha _] [_ [[_ Hdeps] _]]. unfold waits_on. now rewrite Ha, Hdeps.
Qed.

Lemma twin_chain c c' : Forall2 (twin k extra) c c' -> (chain c <-> chain c').
Proof.
  induction 1 as [|a a' c c' Ha Hc IH]; [tauto|].
  destruct Hc as [|b b' c c' Hb Hc]; [simpl; tauto|].
  cbn [chain]. rewrite (twin_waits a a' b b' Ha Hb). tauto.
Qed.

Lemma twin_value n n' :
  In n (nodes r) -> twin k extra n n' ->
  effective_value n' = effective_value n + (if String.eqb (node_id n) k then extra else 0).
Proof.
  intros Hn [_ [_ (d & Hd & Hd')]].
  unfold effective_value. rewrite Hd, Hd'. reflexivity.
Qed.

Lemma twin_length c c' :
  incl c (nodes r) -> Forall2 (twin k extra) c c' ->
  chain_length c' = chain_length c + extra_of k extra c.
Proof.
  intros Hin Hall. induction Hall as [|n n' c c' Hn Hc IH]; [reflexivity|].
  rewrite !chain_length_cons, IH by (intros x Hx; apply Hin; now right).
  rewrite (twin_value n n') by (auto; apply Hin; now left).
  unfold extra_of. cbn [map fold_right]. lia.
Qed.

(** The nodes of a chain come later and later in the list of nodes. *)
Lemma chain_later : forall c a l1 l2,
  nodes r = l1 ++ a :: l2 -> chain (a :: c) -> incl c (nodes r) -> incl c l2.
Proof.
  induction c as [|b c IH]; intros a l1 l2 HL Hc Hin; [intros x []|].
  cbn [chain] in Hc. destruct Hc as [Hba Hc].
  assert (Hb : In b l2).
  { apply (later_dependent (nodes r) (sr_ids _ _ Hsr) (sr_order _ _ Hsr) l1 a l2 b HL);
      auto. apply Hin. now left. }
  pose proof Hb as Hsplit. apply in_split in Hsplit. destruct Hsplit as (m1 & m2 & Hl2).
  assert (HL' : nodes r = (l1 ++ a :: m1) ++ b :: m2).
  { rewrite HL, Hl2, <- app_assoc. reflexivity. }
  pose proof (IH b _ _ HL' Hc (fun x Hx => Hin x (or_intror Hx))) as Hrest.
  intros x [<-|Hx]; auto. rewrite Hl2. apply in_or_app. right. right. now apply Hrest.
Qed.

Lemma chain_distinct : forall c,
  chain c -> incl c (nodes r) -> NoDup (map node_id c).
Proof.
  induction c as [|a c IH]; intros Hc Hin; [constructor|].
  simpl. constructor.
  - assert (Ha : In a (nodes r)) by (apply Hin; now left).
    pose proof Ha as Hsplit. apply in_split in Hsplit. destruct Hsplit as (l1 & l2 & HL).
    pose proof (chain_later c a l1 l2 HL Hc (fun x Hx => Hin x (or_intror Hx))) as Hlater.
    pose proof (sr_ids _ _ Hsr) as Hnd. rewrite HL, map_app in Hnd. simpl in Hnd.
    apply NoDup_remove_2 in Hnd. intros Hin'. apply Hnd. apply in_or_app. right.
    apply in_map_iff in Hin'. destruct Hin' as (x & E & Hx).
    rewrite <- E. apply in_map. now apply Hlater.
  - apply IH; [now apply (chain_tail a) | intros x Hx; apply Hin; now right].
Qed.

Lemma extra_of_none c :
  ~ In k (map node_id c) -> extra_of k extra c = 0.
Proof.
  induction c as [|a c IH]; intros Hk; [reflexivity|].
  unfold extra_of in *. cbn [map fold_right].
  destruct (String.eqb_spec (node_id a) k) as [E|E].
  - exfalso. apply Hk. left. exact E.
  - rewrite IH; [lia|]. intros H. apply Hk. now right.
Qed.

Lemma extra_of_app c1 c2 : extra_of k extra (c1 ++ c2) = extra_of k extra c1 + extra_of k extra c2.
Proof.
  unfold extra_of. induction c1 as [|a c1 IH]; [simpl; lia|].
  cbn [app map fold_right]. rewrite IH. lia.
Qed.

Lemma extra_of_once c1 n c2 :
  node_id n = k -> NoDup (map node_id (c1 ++ n :: c2)) ->
  extra_of k extra (c1 ++ n :: c2) = extra.
Proof.
  intros E Hnd. rewrite map_app in Hnd. simpl in Hnd.
  pose proof (NoDup_remove_2 _ _ _ Hnd) as Hnot.
  rewrite extra_of_app. change (n :: c2) with ([n] ++ c2). rewrite extra_of_app.
  rewrite (extra_of_none c1), (extra_of_none c2).
  - unfold extra_of. cbn [map fold_right]. rewrite E, String.eqb_refl. lia.
  - intros H. apply Hnot. rewrite E. apply in_or_app. now right.
  - intros H. apply Hnot. rewrite E. apply in_or_app. now left.
Qed.

Variables P P' : Z.
Hypothesis HP : projectDuration r = Int P.
Hypothesis HP' : projectDuration r' = Int P'.
Hypothesis HPsafe : P <= MAX_SAFE_INTEGER.

Variable n : CPMNode.
Hypothesis Hn : In n (nodes r).
Hypothesis Hnk : node_id n = k.

Lemma lengthened_at_least :
  P <= P' /\ P - number_value (float n) + extra <= P'.
Proof.
  assert (Hne : nodes r <> []) by (intros E; rewrite E in Hn; destruct Hn).
  assert (Hbound : forall c, chain c -> incl c (nodes r) ->
            chain_length c + extra_of k extra c <= P').
  { intros c Hc Hin. destruct (twins_forth c Hin) as (c' & Hin' & Hall).
    rewrite <- (twin_length c c' Hin Hall).
    destruct c' as [|a' c'].
    - destruct (twin_forth n Hn) as (n' & Hn' & _).
      pose proof (result_windows tasks' lengthened_distinct r' P' Hsr' Hint' HP') as Hw.
      rewrite Forall_forall in Hw.
      destruct (Hw n' Hn') as (e & d & l & _ & _ & _ & _ & _ & Hd0 & He0 & Hle & HlP).
      unfold chain_length. simpl. lia.
    - apply (twin_chain c (a' :: c') Hall) in Hc.
      destruct (chain_fits tasks' lengthened_distinct r' P' Hsr' Hint' HP' c' a' Hc Hin')
        as (e & _ & He0 & Hle). lia. }
  split.
  - destruct (critical_chain_found tasks Hids r P Hsr Hint HP Hne)
      as (c & _ & Hin & _ & Hc & Hlen).
    pose proof (Hbound c Hc Hin) as H.
    assert (H0 : 0 <= extra_of k extra c).
    { unfold extra_of. clear - Hextra. induction c as [|a c IH]; simpl; [lia|].
      destruct (String.eqb (node_id a) k); lia. }
    lia.
  - destruct (chain_through_found tasks Hids r P Hsr Hint HP HPsafe n Hn)
      as (c1 & c2 & Hin & Hc & Hlen).
    pose proof (Hbound _ Hc Hin) as H.
    rewrite (extra_of_once c1 n c2 Hnk (chain_distinct _ Hc Hin)) in H. lia.
Qed.

Lemma lengthened_at_most :
  P' <= Z.max P (P - number_value (float n) + extra).
Proof.
  assert (Hne' : nodes r' <> []).
  { destruct (twin_forth n Hn) as (n' & Hn' & _). intros E. rewrite E in Hn'. destruct Hn'. }
  destruct (critical_chain_found tasks' lengthened_distinct r' P' Hsr' Hint' HP' Hne')
    as (c' & _ & Hin' & _ & Hc' & Hlen').
  destruct (twins_back c' Hin') as (c & Hin & Hall).
  apply (twin_chain c c' Hall) in Hc'.
  rewrite (twin_length c c' Hin Hall) in Hlen'.
  destruct (in_dec string_dec k (map node_id c)) as [Hk|Hk].
  - apply in_map_iff in Hk. destruct Hk as (m & Hmk & Hm).
    assert (m = n).
    { apply (same_id_same_node tasks r Hsr); auto. congruence. }
    subst m. apply in_split in Hm. destruct Hm as (c1 & c2 & ->).
    pose proof (chain_through_fits tasks Hids r P Hsr Hint HP HPsafe c1 n c2 Hc' Hin) as Hfit.
    rewrite (extra_of_once c1 n c2 Hnk (chain_distinct _ Hc' Hin)) in Hlen'. lia.
  - rewrite (extra_of_none c Hk) in Hlen'.
    assert (Hfit : chain_length c <= P).
    { destruct c as [|a c]; [unfold chain_length; simpl|].
      - pose proof (result_windows tasks Hids r P Hsr Hint HP) as Hw.
        rewrite Forall_forall in Hw.
        destruct (Hw n Hn) as (e & d & l & _ & _ & _ & _ & _ & Hd0 & He0 & Hle & HlP). lia.
      - destruct (chain_fits tasks Hids r P Hsr Hint HP c a Hc' Hin) as (e & _ & He0 & Hle).
        lia. }
    lia.
Qed.

End Lengthening.

(** X24: what lengthening one task does to the project.  Take valid
    tasks with pairwise distinct ids and make the effective duration of
    the task with id [k] longer by [extra] >= 0, everything else staying
    as it is, the effective durations adding up to at most
    [Number.MAX_SAFE_INTEGER] also after the change, so that no sum or
    difference is rounded.  If the task has a node with float f and the project
    duration was P, the new project duration is max(P, P - f + extra):
    it is unchanged as long as the extra time fits into the float, and
    it grows by what exceeds the float; for a critical task it grows by
    the whole extra time. *)
Theorem lengthening_formula fuel tasks tasks' k extra :
  NoDup (map id tasks) ->
  (forall t, In t tasks -> valid_task t) ->
  (forall t, In t tasks' -> valid_task t) ->
  Forall2 (lengthened k extra) tasks tasks' ->
  0 <= extra ->
  total_work tasks' <= MAX_SAFE_INTEGER ->
  (length tasks <= fuel)%nat ->
  exists r r',
    calculateCPM fuel tasks = Returns r
    /\ calculateCPM fuel tasks' = Returns r'
    /\ forall n, In n (nodes r) -> node_id n = k ->
         exists P f,
           projectDuration r = Int P /\ float n = Int f
           /\ projectDuration r' = Int (Z.max P (P - f + extra)).
Proof.
  intros Hids Hvalid Hvalid' Hlonger Hextra Hsafe' Hfuel.
  pose proof (lengthened_distinct k extra tasks tasks' Hids Hlonger) as Hids'.
  assert (Hfuel' : (length tasks' <= fuel)%nat).
  { now rewrite <- (Forall2_length Hlonger). }
  assert (Hsafe : total_work tasks <= MAX_SAFE_INTEGER).
  { pose proof (lengthened_work k extra tasks tasks' Hextra Hlonger). lia. }
  destruct (valid_result fuel tasks Hids Hvalid Hsafe Hfuel) as (r & Hr & Hfacts).
  destruct (valid_result fuel tasks' Hids' Hvalid' Hsafe' Hfuel') as (r' & Hr' & Hfacts').
  exists r, r'. split; [auto | split; [auto|]]. intros n Hn Hnk.
  assert (Hnodes : nodes r <> []).
  { intros E. rewrite E in Hn. destruct Hn. }
  destruct (Hfacts Hnodes) as (Hsr & Hint & P & HP).
  pose proof (safe_duration fuel tasks r P Hids Hvalid Hsafe Hr Hnodes HP) as HPsafe.
  assert (Hne : tasks <> []).
  { intros ->. simpl in Hr. injection Hr as <-. destruct Hn. }
  assert (Hne' : tasks' <> []).
  { intros ->. inversion Hlonger. congruence. }
  pose proof (result_scheduled tasks' Hids' Hne' fuel r' Hr') as Hsr'.
  destruct (twin_forth k extra tasks tasks' Hids Hlonger r r' Hsr Hsr' n Hn)
    as (n' & Hn' & _).
  destruct Hfacts' as (_ & Hint' & P' & HP').
  { intros E. rewrite E in Hn'. destruct Hn'. }
  destruct (float_value tasks Hids r P Hsr Hint HP HPsafe n Hn) as (Hfl & _).
  exists P, (number_value (ls n) - number_value (es n)). repeat split; auto.
  rewrite HP'. f_equal.
  destruct (lengthened_at_least k extra Hextra tasks tasks' Hids Hlonger r r' Hsr Hsr'
              Hint Hint' P P' HP HP' HPsafe n Hn Hnk) as [H1 H2].
  pose proof (lengthened_at_most k extra tasks tasks' Hids Hlonger r r' Hsr Hsr'
                Hint Hint' P P' HP HP' HPsafe n Hn Hnk) as H3.
  rewrite Hfl in H2, H3. simpl in H2, H3. lia.
Qed.

Lemma lengthening_formula_witness :
  exists r r',
    calculateCPM 3 scenario1 = Returns r
    /\ calculateCPM 3 scenario1_longer_C = Returns r'
    /\ forall n, In n (nodes r) -> node_id n = "C"%string ->
         exists P f,
           projectDuration r = Int P /\ float n = Int f
           /\ projectDuration r' = Int (Z.max P (P - f + 3)).
Proof.
  apply (lengthening_formula 3 scenario1 scenario1_longer_C "C" 3).
  - exact scenario1_distinct.
  - exact scenario1_valid.
  - intros t [<-|[<-|[<-|[]]]]; unfold valid_task, MAX_SAFE_INTEGER; simpl; lia.
  - repeat (apply Forall2_cons; [split; [split; reflexivity|]|]); [| | |apply Forall2_nil].
    + exists 2. split; vm_compute; reflexivity.
    + exists 3. split; vm_compute; reflexivity.
    + exists 1. split; vm_compute; reflexivity.
  - lia.
  - vm_compute. discriminate.
  - simpl. lia.
Defined.

(** X25: what the critical path lists.  For valid tasks with pairwise
    distinct ids whose effective durations add up to at most
    [Number.MAX_SAFE_INTEGER], and at least one scheduled task, an id is in
    [criticalPath] if and only if its node lies on a longest dependency
    chain, that is, on a chain of nodes whose effective durations add up
    to the project duration. *)
Theorem critical_iff_on_longest_chain fuel tasks :
  NoDup (map id tasks) ->
  (forall t, In t tasks -> valid_task t) ->
  total_work tasks <= MAX_SAFE_INTEGER ->
  (length tasks <= fuel)%nat ->
  exists r,
    calculateCPM fuel tasks = Returns r
    /\ (nodes r <> [] ->
        exists P,
          projectDuration r = Int P
          /\ forall x,
               In x (criticalPath r)
               <-> exists c, chain c /\ incl c (nodes r) /\ chain_length c = P
                             /\ In x (map node_id c)).
Proof.
  intros Hids Hvalid Hsafe Hfuel.
  destruct (valid_result fuel tasks Hids Hvalid Hsafe Hfuel) as (r & Hr & Hfacts).
  exists r. split; auto. intros Hne.
  destruct (Hfacts Hne) as (Hsr & Hint & P & HP).
  pose proof (safe_duration fuel tasks r P Hids Hvalid Hsafe Hr Hne HP) as HPsafe.
  exists P. split; auto. intros x.
  pose proof (sr_relations _ _ Hsr) as Hrel. rewrite Forall_forall in Hrel.
  assert (Hpath : In x (criticalPath r)
                  <-> exists n, In n (nodes r) /\ isCritical n = true /\ node_id n = x).
  { rewrite (sr_path _ _ Hsr), in_map_iff. split.
    - intros (n & E & Hn). apply (Permutation_in _ (Array_sort_perm _ _)) in Hn.
      apply filter_In in Hn. exists n. tauto.
    - intros (n & Hn & Hc & E). exists n. split; auto.
      apply (Permutation_in _ (Permutation_sym (Array_sort_perm _ _))).
      apply filter_In. tauto. }
  rewrite Hpath. split.
  - intros (n & Hn & Hcrit & E).
    destruct (chain_through_found tasks Hids r P Hsr Hint HP HPsafe n Hn)
      as (c1 & c2 & Hin & Hc & Hlen).
    destruct (Hrel n Hn) as (_ & _ & _ & Hiff). apply Hiff in Hcrit.
    rewrite Hcrit in Hlen. simpl in Hlen.
    exists (c1 ++ n :: c2). repeat split; auto; try lia.
    rewrite map_app. apply in_or_app. right. left. exact E.
  - intros (c & Hc & Hin & Hlen & Hx).
    apply in_map_iff in Hx. destruct Hx as (n & E & Hn).
    apply in_split in Hn. destruct Hn as (c1 & c2 & ->).
    assert (Hn : In n (nodes r)) by (apply Hin; apply in_or_app; right; now left).
    pose proof (chain_through_fits tasks Hids r P Hsr Hint HP HPsafe c1 n c2 Hc Hin) as Hfit.
    destruct (float_value tasks Hids r P Hsr Hint HP HPsafe n Hn) as (Hfl & _).
    pose proof (result_windows tasks Hids r P Hsr Hint HP) as Hw.
    rewrite Forall_forall in Hw.
    destruct (Hw n Hn) as (e & d & l & He & _ & _ & _ & Hls & _ & _ & Hle & _).
    exists n. repeat split; auto.
    destruct (Hrel n Hn) as (_ & _ & _ & Hiff). apply Hiff.
    rewrite Hfl in Hfit |- *. simpl in Hfit. rewrite Hls, He in *. simpl in *.
    f_equal. lia.
Qed.

Lemma critical_iff_on_longest_chain_witness :
  exists r,
    calculateCPM 3 scenario1 = Returns r
    /\ (nodes r <> [] ->
        exists P,
          projectDuration r = Int P
          /\ forall x,
               In x (criticalPath r)
               <-> exists c, chain c /\ incl c (nodes r) /\ chain_length c = P
                             /\ In x (map node_id c)).
Proof.
  apply (critical_iff_on_longest_chain 3 scenario1).
  - exact scenario1_distinct.
  - exact scenario1_valid.
  - exact scenario1_safe.
  - simpl. lia.
Defined.

(* ================================================================= *)
(** ** The samples sent by the microphone *)

Lemma valid_digits s m e :
  valid_binary 53 1024 (S754_finite s m e) = true -> Z.pos m < 2 ^ 53.
Proof.
  unfold valid_binary, bounded, canonical_mantissa. intros H.
  apply andb_prop in H. destruct H as [H _]. apply Z.eqb_eq in H.
  rewrite fexp64_eq in H.
  assert (Hd : Zdigits2 (Z.pos m) <= 53) by (cbn [Zdigits2]; lia).
  pose proof (Zdigits2_bounds (Z.pos m) ltac:(lia)) as [_ Hlt].
  apply Z.lt_le_trans with (1 := Hlt). apply Z.pow_le_mono_r; lia.
Qed.

(** A double strictly between -1 and 1 has a magnitude of at most 1. *)
Lemma inside_below s m e :
  valid_binary 53 1024 (S754_finite s m e) = true ->
  (e < -52 \/ (e = -52 /\ Z.pos m < 2 ^ 52)) ->
  below 1 (S754_finite s m e).
Proof.
  intros Hv Hcmp. pose proof (valid_digits s m e Hv) as Hm. cbn [below].
  destruct Hcmp as [He|[-> Hlt]].
  - split; [lia|]. rewrite Z.mul_1_l.
    apply Z.le_trans with (2 ^ 53); [lia|]. apply Z.pow_le_mono_r; lia.
  - split; [lia|]. change (- -52) with 52. lia.
Qed.

Lemma one_is : Float64.of_Z 1 = S754_finite false 4503599627370496 (-52).
Proof. vm_compute. reflexivity. Qed.

Lemma minus_one_is : Float64.of_Z (-1) = S754_finite true 4503599627370496 (-52).
Proof. vm_compute. reflexivity. Qed.

Lemma compare_cont_is p q : Pos.compare_cont Eq p q = Pos.compare p q.
Proof. reflexivity. Qed.

Lemma compare_cont_lt m : Pos.compare_cont Eq 4503599627370496 m = Gt -> Z.pos m < 2 ^ 52.
Proof.
  intros H. rewrite compare_cont_is in H.
  apply Pos.compare_gt_iff in H. exact H.
Qed.

(** The clamped sample is [NaN] or has a magnitude of at most 1. *)
Lemma clamp_below x :
  valid_binary 53 1024 x = true ->
  let c := Math_max2 (Float64.of_Z (-1)) (Math_min2 (Float64.of_Z 1) x) in
  c = S754_nan \/ below 1 c.
Proof.
  intros Hv. cbn zeta. rewrite one_is, minus_one_is.
  assert (Hone : forall s, below 1 (S754_finite s 4503599627370496 (-52))).
  { intros s. cbn [below]. split; [lia|]. vm_compute. discriminate. }
  destruct x as [s|[|]| |[|] m e].
  - right. exact I.
  - right. apply Hone.
  - right. apply Hone.
  - now left.
  - (* negative *)
    right. unfold Math_min2, Math_max2. cbn [SFcompare].
    destruct (Z.compare (-52) e) eqn:E; cbn [SFcompare].
    + apply Z.compare_eq in E. subst e.
      destruct (Pos.compare_cont Eq 4503599627370496 m) eqn:Em; cbn [CompOpp]; try apply Hone.
      apply inside_below; auto. right. split; auto. now apply compare_cont_lt.
    + apply Hone.
    + apply inside_below; auto. left. apply Z.compare_gt_iff in E. lia.
  - (* positive *)
    right. unfold Math_min2, Math_max2. cbn [SFcompare].
    destruct (Z.compare (-52) e) eqn:E; cbn [SFcompare].
    + apply Z.compare_eq in E. subst e.
      destruct (Pos.compare_cont Eq 4503599627370496 m) eqn:Em; cbn [SFcompare]; try apply Hone.
      apply inside_below; auto. right. split; auto. now apply compare_cont_lt.
    + apply Hone.
    + apply inside_below; auto. left. apply Z.compare_gt_iff in E. lia.
Qed.

Lemma truncate_below U x : 0 <= U -> below U x -> - U <= truncate x <= U.
Proof.
  intros HU. destruct x as [s|s| |s m e]; cbn [below truncate]; try lia.
  intros [He Hm]. destruct e as [|k|k]; try lia.
  - simpl in Hm. destruct s; cbn [cond_Zopp]; lia.
  - replace (- Z.neg k) with (Z.pos k) in Hm by lia.
    pose proof (Z.pow_pos_nonneg 2 (Z.pos k) ltac:(lia) ltac:(lia)) as Hp.
    assert (H0 : 0 <= Z.pos m / 2 ^ Z.pos k) by (apply Z.div_pos; lia).
    assert (H1 : Z.pos m / 2 ^ Z.pos k <= U).
    { apply Z.div_le_upper_bound; lia. }
    destruct s; cbn [cond_Zopp]; lia.
Qed.

Lemma ToInt16_small x : - 2 ^ 15 <= truncate x < 2 ^ 15 -> ToInt16 x = truncate x.
Proof.
  intros H. unfold ToInt16. cbn zeta.
  change (2 ^ 16) with 65536 in *. change (2 ^ 15) with 32768 in *.
  destruct (Z_lt_le_dec (truncate x) 0) as [Hneg|Hpos].
  - assert (E : truncate x mod 65536 = truncate x + 65536).
    { symmetry. apply (Z.mod_unique _ _ (-1)); lia. }
    rewrite E. destruct (Z.leb_spec 32768 (truncate x + 65536)); lia.
  - rewrite Z.mod_small by lia.
    destruct (Z.leb_spec 32768 (truncate x)); lia.
Qed.

(** X26: the samples that [startMicrophone] sends.  Every sample of the
    input, whatever double it is, becomes an integer between -32767 and
    32767: the product with 0x7fff never leaves the range of an
    [Int16Array], so no sample wraps around, and -32768 is never sent.
    [NaN] becomes 0, every sample that is at least 1 becomes 32767 and
    every sample that is at most -1 becomes -32767. *)
Theorem pcm16_samples_in_range inputData :
  Forall (fun x => valid_binary 53 1024 x = true) inputData ->
  length (toPcm16 inputData) = length inputData
  /\ Forall (fun v => -32767 <= v <= 32767) (toPcm16 inputData)
  /\ forall x, In x inputData ->
       (x = S754_nan -> pcm16_sample x = 0)
       /\ (SFleb (Float64.of_Z 1) x = true -> pcm16_sample x = 32767)
       /\ (SFleb x (Float64.of_Z (-1)) = true -> pcm16_sample x = -32767).
Proof.
  intros Hvalid. rewrite Forall_forall in Hvalid. unfold toPcm16. split; [apply length_map|].
  split.
  - apply Forall_forall. intros v Hv. apply in_map_iff in Hv. destruct Hv as (x & <- & Hx).
    unfold pcm16_sample. destruct (clamp_below x (Hvalid x Hx)) as [E|Hb].
    + cbn zeta in E. rewrite E. vm_compute. split; discriminate.
    + cbn zeta in Hb.
      set (c := Math_max2 (Float64.of_Z (-1)) (Math_min2 (Float64.of_Z 1) x)) in *.
      assert (Hy : below 32767 (Float64.mul c (Float64.of_Z 32767))).
      { change 32767 with (1 * 32767) at 1. apply mul_below; auto; try lia.
        apply of_Z_below. lia. }
      pose proof (truncate_below 32767 _ ltac:(lia) Hy) as Ht.
      rewrite ToInt16_small; lia.
  - intros x Hx. split; [|split].
    + intros ->. vm_compute. reflexivity.
    + intros H1. unfold pcm16_sample, Math_min2. unfold SFleb in H1.
      destruct (SFcompare (Float64.of_Z 1) x) as [[| |]|]; try discriminate;
        vm_compute; reflexivity.
    + intros H1. unfold pcm16_sample.
      assert (E : Math_max2 (Float64.of_Z (-1)) (Math_min2 (Float64.of_Z 1) x)
                  = Float64.of_Z (-1)).
      { rewrite one_is, minus_one_is in *. unfold SFleb in H1.
        destruct x as [s|[|]| |[|] m e]; try discriminate H1;
          try (vm_compute; reflexivity).
        assert (Hx' : -52 < e \/ (e = -52 /\ Pos.compare_cont Eq 4503599627370496 m <> Gt)).
        { cbn [SFcompare] in H1. destruct (Z.compare e (-52)) eqn:E1.
          - right. apply Z.compare_eq in E1. split; [exact E1|].
            rewrite compare_cont_is in H1 |- *. rewrite Pos.compare_antisym.
            destruct (Pos.compare m 4503599627370496); cbn [CompOpp] in *; discriminate.
          - discriminate H1.
          - left. apply Z.compare_gt_iff in E1. lia. }
        unfold Math_min2, Math_max2. cbn [SFcompare].
        destruct Hx' as [He|[-> Hm]].
        - apply Z.compare_lt_iff in He. rewrite He. reflexivity.
        - rewrite Z.compare_refl.
          destruct (Pos.compare_cont Eq 4503599627370496 m); cbn [CompOpp];
            [reflexivity|reflexivity|now elim Hm]. }
      rewrite E. vm_compute. reflexivity.
Qed.

Lemma pcm16_samples_in_range_witness :
  length (toPcm16 microphone_block) = length microphone_block
  /\ Forall (fun v => -32767 <= v <= 32767) (toPcm16 microphone_block)
  /\ forall x, In x microphone_block ->
       (x = S754_nan -> pcm16_sample x = 0)
       /\ (SFleb (Float64.of_Z 1) x = true -> pcm16_sample x = 32767)
       /\ (SFleb x (Float64.of_Z (-1)) = true -> pcm16_sample x = -32767).
Proof.
  apply (pcm16_samples_in_range microphone_block).
  repeat (apply Forall_cons; [vm_compute; reflexivity|]). apply Forall_nil.
Defined.
